(** * funbus: the routing and boarding core

    A shallow embedding of the simulation core of the bus game:
    PathCache and PathfindingManager (grid search with a bounded cache),
    SpatialIndex (nearest stop), RoutePlanner (transfer planning),
    RouteManager.handleBusAtStop (alighting and boarding),
    EntityManager.updateNPCs and the bus operations of GameEngine.

    Numbers.  Grid coordinates, indices and counters are integers and are
    modelled in [Z] or [nat].  Pixel coordinates, times and money are
    JavaScript numbers; they are modelled as exact rationals [Q], with
    [Math.round (v / GRID_SIZE)] as [Qfloor (v / GRID_SIZE + 1/2)].
    [Math.sqrt] is monotone, so wherever the source only compares two
    distances the model compares their squares.  Where the rounding of a
    double decides the outcome it is modelled: the nearest-stop search is
    also given over the distance as the code computes it
    ([SpatialIndex.findNearestStop_by], [SpatialIndex.double_distance]),
    and the loans over a rounding of every sum ([Loans]). *)

From Stdlib Require Import ZArith QArith Qround Qabs Lia Lqa.
From Stdlib Require PrimFloat FloatOps Uint63.
From stdpp Require Import gmap list.

(** ** Breadth-first search, as both planners run it

    [RoutePlanner.planTrip] and [PathfindingManager.bfsPathfinding] run the
    same loop: shift the head of the queue, return it when it stands on the
    goal, otherwise push an extended copy for every candidate whose key has
    not been visited, marking the key visited at push time.  [Search.search]
    is that loop; nodes are keyed by their coordinate pair (the string
    [x,y] of the source). *)

Module Search.
Section Search.
Context {item edge : Type}.
Variable node_of : item -> Z * Z.
Variable depth : item -> nat.
Variable out_edges : Z * Z -> list edge.
Variable target : edge -> Z * Z.
Variable extend : item -> edge -> item.
Variable goal : Z * Z.

(** The [for (... of candidates)] loop of one iteration. *)
Fixpoint expand (cur : item) (es : list edge) (queue : list item)
    (visited : gset (Z * Z)) : list item * gset (Z * Z) :=
  match es with
  | [] => (queue, visited)
  | e :: es' =>
      if decide (target e ∈ visited) then expand cur es' queue visited
      else expand cur es' (queue ++ [extend cur e]) ({[target e]} ∪ visited)
  end.

(** The [while (queue.length > 0)] loop.  [None]: the fuel ran out;
    [Some None]: the queue ran empty; [Some (Some it)]: [it] was shifted
    while standing on the goal. *)
Fixpoint search (fuel : nat) (queue : list item) (visited : gset (Z * Z))
    : option (option item) :=
  match fuel with
  | O => None
  | S fuel' =>
      match queue with
      | [] => Some None
      | cur :: rest =>
          if decide (node_of cur = goal) then Some (Some cur)
          else
            let '(q, v) := expand cur (out_edges (node_of cur)) rest visited in
            search fuel' q v
      end
  end.

Variable init : item.

(** A walk along candidate edges. *)
Inductive walk : Z * Z -> list edge -> Z * Z -> Prop :=
| walk_nil u : walk u [] u
| walk_cons u e es w :
    e ∈ out_edges u -> walk (target e) es w -> walk u (e :: es) w.

(** The item was built by extending [init] along a walk from its node. *)
Definition traced (it : item) : Prop :=
  exists es, walk (node_of init) es (node_of it) /\ it = foldl extend init es.

Fixpoint levels (q : list item) : Prop :=
  match q with
  | [] => True
  | cur :: rest =>
      (forall it, it ∈ rest -> depth cur <= depth it <= S (depth cur)) /\ levels rest
  end.

(** The loop invariant; [past] lists the items already shifted. *)
Record inv (past queue : list item) (visited : gset (Z * Z)) : Prop := {
  inv_visited : forall c, c ∈ visited <-> exists it, it ∈ past ++ queue /\ node_of it = c;
  inv_nodup : NoDup (node_of <$> (past ++ queue));
  inv_traced : forall it, it ∈ past ++ queue -> traced it;
  inv_source : exists it, it ∈ past ++ queue /\ node_of it = node_of init /\ depth it = 0;
  inv_done_depth : forall it cur, it ∈ past -> cur ∈ queue -> depth it <= depth cur;
  inv_levels : levels queue;
  inv_closed : forall it e, it ∈ past -> e ∈ out_edges (node_of it) ->
    exists it', it' ∈ past ++ queue /\ node_of it' = target e /\ depth it' <= S (depth it);
  inv_not_goal : forall it, it ∈ past -> node_of it <> goal
}.

Hypothesis depth_init : depth init = 0.
Hypothesis node_extend : forall it e, node_of (extend it e) = target e.
Hypothesis depth_extend : forall it e, depth (extend it e) = S (depth it).

Lemma walk_snoc u es v e :
  walk u es v -> e ∈ out_edges v -> walk u (es ++ [e]) (target e).
Proof.
  induction 1 as [u|u e0 es w He0 Hw IH]; intros He; simpl.
  - apply walk_cons; [done | apply walk_nil].
  - apply walk_cons; [done | by apply IH].
Qed.

Lemma walk_snoc_inv u es e w :
  walk u (es ++ [e]) w ->
  exists v, walk u es v /\ e ∈ out_edges v /\ w = target e.
Proof.
  revert u. induction es as [|e0 es IH]; intros u Hw; simpl in Hw.
  - inversion Hw as [|? ? ? ? He Hrest]; subst.
    inversion Hrest; subst. exists u. split; [apply walk_nil | done].
  - inversion Hw as [|? ? ? ? He Hrest]; subst.
    destruct (IH _ Hrest) as (v & Hv & Hev & ->).
    exists v. split; [by apply walk_cons | done].
Qed.

Lemma depth_foldl es it : depth (foldl extend it es) = length es + depth it.
Proof.
  revert it. induction es as [|e es IH]; intros it; simpl; [done|].
  rewrite IH, depth_extend. lia.
Qed.

Lemma traced_depth it :
  traced it -> exists es, walk (node_of init) es (node_of it) /\
    it = foldl extend init es /\ length es = depth it.
Proof.
  intros (es & Hw & ->). exists es. split; [done|]. split; [done|].
  rewrite depth_foldl, depth_init. lia.
Qed.

Lemma traced_extend it e :
  traced it -> e ∈ out_edges (node_of it) -> traced (extend it e).
Proof.
  intros (es & Hw & ->) He. exists (es ++ [e]). split.
  - rewrite node_extend. by eapply walk_snoc.
  - by rewrite foldl_snoc.
Qed.

Lemma inv_init : inv [] [init] {[node_of init]}.
Proof.
  split; simpl.
  - intros c. rewrite elem_of_singleton. split.
    + intros ->. exists init. split; [apply list_elem_of_here | done].
    + intros (it & Hit & <-). apply list_elem_of_singleton in Hit. by subst.
  - apply NoDup_singleton.
  - intros it Hit. apply list_elem_of_singleton in Hit. subst.
    exists []. split; [apply walk_nil | done].
  - exists init. split; [apply list_elem_of_here | done].
  - intros it cur Hit. by apply elem_of_nil in Hit.
  - split; [|done]. intros it Hit. by apply elem_of_nil in Hit.
  - intros it e Hit. by apply elem_of_nil in Hit.
  - intros it Hit. by apply elem_of_nil in Hit.
Qed.

Lemma expand_spec cur es q v q' v' :
  expand cur es q v = (q', v') ->
  exists news,
    q' = q ++ (extend cur <$> news) /\
    (forall e, e ∈ news -> e ∈ es /\ target e ∉ v) /\
    NoDup (target <$> news) /\
    (forall c, c ∈ v' <-> c ∈ v \/ exists e, e ∈ news /\ target e = c) /\
    (forall e, e ∈ es -> target e ∈ v').
Proof.
  revert q v. induction es as [|e es IH]; intros q v Hx; simpl in Hx.
  - inversion Hx; subst. exists []. simpl. rewrite app_nil_r.
    split_and!; [done | | apply NoDup_nil_2 | | ].
    + intros e0 He. by apply elem_of_nil in He.
    + intros c. split; [by left|].
      intros [?|(e0 & He & _)]; [done | by apply elem_of_nil in He].
    + intros e0 He. by apply elem_of_nil in He.
  - destruct (decide (target e ∈ v)) as [Hin|Hnin].
    + destruct (IH _ _ Hx) as (news & Hq & Hnews & Hnd & Hv & Hall).
      exists news. split_and!; [done | | done | done | ].
      * intros e0 He. destruct (Hnews _ He). split; [by apply list_elem_of_further | done].
      * intros e' He'. apply elem_of_cons in He' as [->|He'].
        -- apply Hv. by left.
        -- by apply Hall.
    + destruct (IH _ _ Hx) as (news & Hq & Hnews & Hnd & Hv & Hall).
      exists (e :: news). split_and!.
      * rewrite Hq, <- app_assoc. done.
      * intros e0 He. apply elem_of_cons in He as [->|He'].
        -- split; [apply list_elem_of_here | done].
        -- apply Hnews in He' as [? Hn].
           split; [by apply list_elem_of_further | set_solver].
      * simpl. apply NoDup_cons. split; [|done].
        intros Hin. apply list_elem_of_fmap in Hin as (e' & Heq & He').
        apply Hnews in He' as [_ Hn]. set_solver.
      * intros c. split.
        -- intros Hc. apply Hv in Hc as [Hc|(e' & He' & <-)].
           ++ apply elem_of_union in Hc as [Hc|Hc]; [|by left].
              apply elem_of_singleton in Hc. subst. right. exists e.
              split; [apply list_elem_of_here | done].
           ++ right. exists e'. split; [by apply list_elem_of_further | done].
        -- intros [Hc|(e' & He' & <-)].
           ++ apply Hv. left. set_solver.
           ++ apply elem_of_cons in He' as [->|He'].
              ** apply Hv. left. set_solver.
              ** apply Hv. right. by exists e'.
      * intros e' He'. apply elem_of_cons in He' as [->|He'].
        -- apply Hv. left. set_solver.
        -- by apply Hall.
Qed.

Lemma levels_same n q :
  (forall it, it ∈ q -> depth it = n) -> levels q.
Proof.
  induction q as [|x q IH]; intros Hq; simpl; [done|]. split.
  - intros it Hit. rewrite (Hq x), (Hq it); [lia | | ].
    + by apply list_elem_of_further.
    + apply list_elem_of_here.
  - apply IH. intros it Hit. apply Hq. by apply list_elem_of_further.
Qed.

Lemma levels_app n rest news :
  levels rest ->
  (forall it, it ∈ rest -> n <= depth it <= S n) ->
  (forall it, it ∈ news -> depth it = S n) ->
  levels (rest ++ news).
Proof.
  induction rest as [|x rest IH]; intros Hl Hr Hn; simpl.
  - by eapply levels_same.
  - destruct Hl as [Hx Hl]. split.
    + intros it Hit. apply elem_of_app in Hit as [Hit|Hit]; [by apply Hx|].
      rewrite (Hn it Hit).
      specialize (Hr x (list_elem_of_here _ _)). lia.
    + apply IH; [done | | done].
      intros it Hit. apply Hr. by apply list_elem_of_further.
Qed.

Lemma inv_step past cur rest visited q' v' :
  inv past (cur :: rest) visited ->
  node_of cur <> goal ->
  expand cur (out_edges (node_of cur)) rest visited = (q', v') ->
  inv (past ++ [cur]) q' v'.
Proof.
  intros [Hvis Hnd Htr Hsrc Hdd Hlv Hcl Hng] Hcur Hx.
  destruct (expand_spec _ _ _ _ _ _ Hx) as (news & -> & Hnews & Hndn & Hv' & Hall).
  destruct Hlv as [Hcurlv Hlv].
  assert (Hsplit : forall it, it ∈ (past ++ [cur]) ++ rest ++ (extend cur <$> news) <->
            it ∈ past ++ cur :: rest \/ it ∈ extend cur <$> news).
  { intros it. rewrite !elem_of_app, !elem_of_cons, elem_of_nil. tauto. }
  assert (Hnewdepth : forall it, it ∈ extend cur <$> news -> depth it = S (depth cur)).
  { intros it Hit. apply list_elem_of_fmap in Hit as (e & -> & _). apply depth_extend. }
  assert (Hcurin : cur ∈ cur :: rest) by apply list_elem_of_here.
  split.
  - intros c. rewrite Hv', Hvis. split.
    + intros [(it & Hit & Hc)|(e & He & Hc)].
      * exists it. split; [apply Hsplit; by left | done].
      * exists (extend cur e). split; [|by rewrite node_extend].
        apply Hsplit. right. apply list_elem_of_fmap. by exists e.
    + intros (it & Hit & Hc). apply Hsplit in Hit as [Hit|Hit].
      * left. by exists it.
      * right. apply list_elem_of_fmap in Hit as (e & -> & He).
        exists e. split; [done | by rewrite <- Hc, node_extend].
  - replace ((past ++ [cur]) ++ rest ++ (extend cur <$> news))
      with ((past ++ cur :: rest) ++ (extend cur <$> news))
      by (rewrite <- !app_assoc; done).
    rewrite fmap_app. apply NoDup_app. split; [done|]. split.
    + intros c Hc Hc'.
      apply list_elem_of_fmap in Hc as (it & -> & Hit).
      apply list_elem_of_fmap in Hc' as (it' & Heq & Hit').
      apply list_elem_of_fmap in Hit' as (e & -> & He).
      rewrite node_extend in Heq.
      apply Hnews in He as [_ Hn]. apply Hn. apply Hvis. by exists it.
    + rewrite <- list_fmap_compose.
      erewrite list_fmap_ext; [exact Hndn|].
      intros i e _. simpl. apply node_extend.
  - intros it Hit. apply Hsplit in Hit as [Hit|Hit]; [by apply Htr|].
    apply list_elem_of_fmap in Hit as (e & -> & He).
    apply traced_extend; [apply Htr; rewrite elem_of_app; by right|].
    by apply Hnews.
  - destruct Hsrc as (it & Hit & Hs). exists it. split; [|done].
    apply Hsplit. by left.
  - intros it x Hit Hx'. apply elem_of_app in Hx' as [Hx'|Hx'].
    + apply elem_of_app in Hit as [Hit|Hit].
      * apply Hdd; [done | by apply list_elem_of_further].
      * apply list_elem_of_singleton in Hit. subst. by apply Hcurlv.
    + rewrite (Hnewdepth _ Hx').
      apply elem_of_app in Hit as [Hit|Hit].
      * specialize (Hdd it cur Hit Hcurin). lia.
      * apply list_elem_of_singleton in Hit. subst. lia.
  - by eapply levels_app.
  - intros it e Hit He. apply elem_of_app in Hit as [Hit|Hit].
    + destruct (Hcl it e Hit He) as (it' & Hit' & Hn & Hd).
      exists it'. split; [apply Hsplit; by left | done].
    + apply list_elem_of_singleton in Hit. subst it.
      specialize (Hall e He). apply Hv' in Hall as [Hold|(e' & He' & Heq)].
      * apply Hvis in Hold as (it' & Hit' & Hn).
        exists it'. split; [apply Hsplit; by left|]. split; [done|].
        apply elem_of_app in Hit' as [Hit'|Hit'].
        -- specialize (Hdd it' cur Hit' Hcurin). lia.
        -- apply elem_of_cons in Hit' as [->|Hit']; [lia|].
           specialize (Hcurlv it' Hit'). lia.
      * exists (extend cur e'). split.
        -- apply Hsplit. right. apply list_elem_of_fmap. by exists e'.
        -- rewrite node_extend, depth_extend. split; [done | lia].
  - intros it Hit. apply elem_of_app in Hit as [Hit|Hit]; [by apply Hng|].
    apply list_elem_of_singleton in Hit. by subst.
Qed.

(** Every node a walk reaches is shifted or queued no deeper than the walk
    is long, unless the walk crosses an item still queued at a smaller depth. *)
Lemma walk_frontier past queue visited es w :
  inv past queue visited ->
  walk (node_of init) es w ->
  (exists it, it ∈ past ++ queue /\ node_of it = w /\ depth it <= length es) \/
  (exists it, it ∈ queue /\ depth it < length es).
Proof.
  intros Hinv. revert w. induction es as [|e es IH] using rev_ind; intros w Hw.
  - inversion Hw; subst. left.
    destruct (inv_source _ _ _ Hinv) as (it & Hit & Hn & Hd).
    exists it. simpl. split_and!; [done | done | lia].
  - apply walk_snoc_inv in Hw as (v & Hv & He & ->).
    rewrite length_app. simpl.
    destruct (IH v Hv) as [(it & Hit & Hn & Hd)|(it & Hit & Hd)].
    + apply elem_of_app in Hit as [Hit|Hit].
      * rewrite <- Hn in He.
        destruct (inv_closed _ _ _ Hinv it e Hit He) as (it' & Hit' & Hn' & Hd').
        left. exists it'. split_and!; [done | done | lia].
      * right. exists it. split; [done | lia].
    + right. exists it. split; [done | lia].
Qed.

Lemma inv_shortest past cur rest visited es :
  inv past (cur :: rest) visited ->
  node_of cur = goal ->
  walk (node_of init) es goal ->
  depth cur <= length es.
Proof.
  intros Hinv Hcur Hw.
  destruct (inv_levels _ _ _ Hinv) as [Hlv _].
  assert (Hq : forall it, it ∈ cur :: rest -> depth cur <= depth it).
  { intros it Hit. apply elem_of_cons in Hit as [->|Hit]; [lia|].
    specialize (Hlv it Hit). lia. }
  destruct (walk_frontier _ _ _ _ _ Hinv Hw) as [(it & Hit & Hn & Hd)|(it & Hit & Hd)].
  - apply elem_of_app in Hit as [Hit|Hit].
    + by destruct (inv_not_goal _ _ _ Hinv it Hit).
    + specialize (Hq it Hit). lia.
  - specialize (Hq it Hit). lia.
Qed.

Lemma inv_exhausted past visited es :
  inv past [] visited -> ~ walk (node_of init) es goal.
Proof.
  intros Hinv Hw.
  destruct (walk_frontier _ _ _ _ _ Hinv Hw) as [(it & Hit & Hn & _)|(it & Hit & _)].
  - rewrite app_nil_r in Hit. by destruct (inv_not_goal _ _ _ Hinv it Hit).
  - by apply elem_of_nil in Hit.
Qed.

Lemma search_inv fuel past queue visited r :
  inv past queue visited ->
  search fuel queue visited = Some r ->
  match r with
  | Some it => node_of it = goal /\ traced it /\
      forall es, walk (node_of init) es goal -> depth it <= length es
  | None => forall es, ~ walk (node_of init) es goal
  end.
Proof.
  revert past queue visited.
  induction fuel as [|fuel IH]; intros past queue visited Hinv Hs; simpl in Hs; [done|].
  destruct queue as [|cur rest].
  - inversion Hs; subst. intros es. by eapply inv_exhausted.
  - destruct (decide (node_of cur = goal)) as [Hg|Hg].
    + inversion Hs; subst. split_and!; [done | | ].
      * apply (inv_traced _ _ _ Hinv). rewrite elem_of_app. right. apply list_elem_of_here.
      * intros es Hw. by eapply inv_shortest.
    + destruct (expand cur (out_edges (node_of cur)) rest visited) as [q v] eqn:Hx.
      eapply IH; [|exact Hs]. by eapply inv_step.
Qed.

(** The search returns: a list [universe] that holds the source and every
    target bounds the number of iterations. *)
Lemma search_fuel (universe : list (Z * Z)) fuel past queue visited :
  node_of init ∈ universe ->
  (forall u e, e ∈ out_edges u -> target e ∈ universe) ->
  inv past queue visited ->
  length universe < fuel + length past ->
  search fuel queue visited <> None.
Proof.
  intros Hsrc Hedges. revert past queue visited.
  assert (Hwalk : forall u es w, walk u es w -> u ∈ universe -> w ∈ universe).
  { induction 1 as [|u e es w He Hw IHw]; [done|]. intros _. apply IHw. by eapply Hedges. }
  assert (Hbound : forall past queue visited, inv past queue visited ->
            length past + length queue <= length universe).
  { intros past queue visited Hinv. rewrite <- length_app.
    rewrite <- (length_fmap node_of).
    apply submseteq_length, NoDup_submseteq; [by eapply inv_nodup|].
    intros c Hc. apply list_elem_of_fmap in Hc as (it & -> & Hit).
    destruct (inv_traced _ _ _ Hinv it Hit) as (es & Hw & _). by eapply Hwalk. }
  induction fuel as [|fuel IH]; intros past queue visited Hinv Hlt.
  - specialize (Hbound _ _ _ Hinv). lia.
  - simpl. destruct queue as [|cur rest]; [done|].
    destruct (decide (node_of cur = goal)); [done|].
    destruct (expand cur (out_edges (node_of cur)) rest visited) as [q v] eqn:Hx.
    apply (IH (past ++ [cur])); [by eapply inv_step|].
    rewrite length_app. simpl. lia.
Qed.

Lemma search_start_inv fuel r :
  search fuel [init] {[node_of init]} = Some r ->
  match r with
  | Some it => node_of it = goal /\ traced it /\
      forall es, walk (node_of init) es goal -> depth it <= length es
  | None => forall es, ~ walk (node_of init) es goal
  end.
Proof. apply search_inv with (past := []), inv_init. Qed.

Lemma search_start_fuel (universe : list (Z * Z)) :
  node_of init ∈ universe ->
  (forall u e, e ∈ out_edges u -> target e ∈ universe) ->
  search (S (length universe)) [init] {[node_of init]} <> None.
Proof.
  intros Hsrc Hedges. apply (search_fuel universe _ []); [done | done | apply inv_init |].
  simpl. lia.
Qed.

End Search.
End Search.

(** ** Entities (types/entities.ts, types/city.ts) *)

(** [arr.forEach((x, i) => ...)] threading the state the callback mutates. *)
Fixpoint forEach_from {A St : Type} (f : St -> A -> nat -> St) (i : nat) (l : list A) (s : St) : St :=
  match l with
  | [] => s
  | a :: l' => forEach_from f (S i) l' (f s a i)
  end.

Definition forEach {A St : Type} (f : St -> A -> nat -> St) (l : list A) (s : St) : St :=
  forEach_from f 0 l s.

Lemma forEach_from_snoc {A St : Type} (f : St -> A -> nat -> St) i l a s :
  forEach_from f i (l ++ [a]) s = f (forEach_from f i l s) a (i + length l).
Proof.
  revert i s. induction l as [|b l IH]; intros i s; simpl.
  - by rewrite Nat.add_0_r.
  - rewrite IH. f_equal. lia.
Qed.

Lemma forEach_snoc {A St : Type} (f : St -> A -> nat -> St) l a s :
  forEach f (l ++ [a]) s = f (forEach f l s) a (length l).
Proof. unfold forEach. by rewrite forEach_from_snoc. Qed.

(** A stop is a grid cell; the source compares stops by coordinates. *)
Record Stop := mkStop { stop_x : Z; stop_y : Z }.

Definition stop_key (s : Stop) : Z * Z := (stop_x s, stop_y s).

(** [a.x === b.x && a.y === b.y] *)
Definition same_stop (a b : Stop) : bool :=
  (stop_x a =? stop_x b)%Z && (stop_y a =? stop_y b)%Z.

Lemma same_stop_eq a b : same_stop a b = true <-> a = b.
Proof.
  unfold same_stop. rewrite andb_true_iff, !Z.eqb_eq.
  destruct a, b; simpl. split; [intros [-> ->]; done | by inversion 1].
Qed.

Lemma stop_key_inj a b : stop_key a = stop_key b -> a = b.
Proof. destruct a, b; unfold stop_key; simpl. by inversion 1. Qed.

Record Waypoint := mkWaypoint { wp_x : Q; wp_y : Q }.

Inductive NPCState := walking | waiting | traveling | arrived.

Inductive ZoneType := EMPTY | ROAD | RESIDENTIAL | COMMERCIAL | INDUSTRIAL.

Record Zone := mkZone {
  zone_x : Z; zone_y : Z; zone_w : Z; zone_h : Z; zone_type : ZoneType
}.

Record PlannedRoute := mkPlannedRoute {
  pr_stops : list Stop;
  pr_routes : list nat;
  pr_currentStopIndex : nat
}.

(** An NPC object.  Optional fields are [option]s ([None] is [undefined] or
    [null]); [maxTransfersWarned] is [false] while unset. *)
Record NPC := mkNPC {
  npc_x : Q;
  npc_y : Q;
  npc_state : NPCState;
  waitTime : Q;
  transportStartTime : option Q;
  nearestStop : option Stop;
  atStop : bool;
  originZone : Zone;
  destinationZone : Zone;
  destinationStop : option Stop;
  finalDestinationStop : option Stop;
  transferCount : Z;
  maxTransfersWarned : bool;
  walkingPath : option (list Waypoint);
  walkingPathIndex : option nat;
  plannedRoute : option PlannedRoute
}.

(** NPC objects are shared between [state.npcs] and the passenger lists of
    the buses: both hold references into one store of objects. *)
Definition npc_ref := nat.

Record Bus := mkBus {
  bus_x : Q;
  bus_y : Q;
  currentStopIndex : nat;
  passengers : list npc_ref;
  bus_path : list Waypoint;
  pathIndex : nat;
  angle : Q;
  stoppedAtStop : bool;
  stopTimer : Q;
  currentSpeed : Q
}.

Record Route := mkRoute {
  stops : list Stop;
  buses : list Bus;
  color : nat
}.

(** ** RoutePlanner.ts *)

Module RoutePlanner.

Record TransferPlan := mkTransferPlan {
  plan_stops : list Stop;
  plan_routes : list nat;
  totalTransfers : Z
}.

Record Connection := mkConnection { nextStop : Stop; routeIndex : nat }.

Definition graph_get (graph : gmap (Z * Z) (list Connection)) (key : Z * Z) : list Connection :=
  default [] (graph !! key).

(** The body of the innermost [forEach] of [buildStopGraph]. *)
Definition connect (routeIndex0 i : nat) (connections : list Connection)
    (otherStop : Stop) (j : nat) : list Connection :=
  if decide (i <> j) then
    let alreadyConnected :=
      existsb (fun c => same_stop (nextStop c) otherStop && (routeIndex c =? routeIndex0)%nat)
        connections in
    if alreadyConnected then connections
    else connections ++ [mkConnection otherStop routeIndex0]
  else connections.

(** The body of [route.stops.forEach((stop, i) => ...)]; [routeStops] is
    [route.stops]. *)
Definition add_stop (routeStops : list Stop) (routeIndex0 : nat)
    (graph : gmap (Z * Z) (list Connection)) (stop : Stop) (i : nat) :=
  let stopKey := stop_key stop in
  let connections := graph_get graph stopKey in
  <[stopKey := forEach (connect routeIndex0 i) routeStops connections]> graph.

Definition add_route (graph : gmap (Z * Z) (list Connection)) (route : Route) (routeIndex0 : nat) :=
  forEach (add_stop (stops route) routeIndex0) (stops route) graph.

Definition buildStopGraph (allRoutes : list Route) : gmap (Z * Z) (list Connection) :=
  forEach add_route allRoutes ∅.

(** The queue entries of [planTrip]. *)
Record Entry := mkEntry {
  entry_stop : Stop;
  entry_path : list Stop;
  entry_routePath : list nat
}.

Definition push_entry (current : Entry) (c : Connection) : Entry :=
  mkEntry (nextStop c) (entry_path current ++ [nextStop c])
          (entry_routePath current ++ [routeIndex c]).

(** Every key the search can visit: the origin and the stops of all routes. *)
Definition all_keys (originStop : Stop) (allRoutes : list Route) : list (Z * Z) :=
  stop_key originStop :: (stop_key <$> mjoin (stops <$> allRoutes)).

Definition planTrip (originStop destinationStop : Stop) (allRoutes : list Route)
    : option TransferPlan :=
  if same_stop originStop destinationStop then
    Some (mkTransferPlan [originStop] [] 0)
  else
    let graph := buildStopGraph allRoutes in
    match
      Search.search (fun e => stop_key (entry_stop e)) (graph_get graph)
        (fun c => stop_key (nextStop c)) push_entry (stop_key destinationStop)
        (S (length (all_keys originStop allRoutes)))
        [mkEntry originStop [originStop] []] {[stop_key originStop]}
    with
    | Some (Some current) =>
        Some (mkTransferPlan (entry_path current) (entry_routePath current)
                (Z.of_nat (length (entry_routePath current)) - 1))
    | _ => None
    end.

(** The clique model: two entries of one route's stop list are adjacent,
    whatever their order on the route. *)
Definition share_route (allRoutes : list Route) (r : nat) (a b : Z * Z) : Prop :=
  exists route i j sa sb,
    allRoutes !! r = Some route /\ i <> j /\
    stops route !! i = Some sa /\ stop_key sa = a /\
    stops route !! j = Some sb /\ stop_key sb = b.

(** A chain of legs: each leg rides route [r] to stop [s]. *)
Inductive legs (allRoutes : list Route) : Z * Z -> list (Stop * nat) -> Z * Z -> Prop :=
| legs_nil a : legs allRoutes a [] a
| legs_cons a s r rest b :
    share_route allRoutes r a (stop_key s) ->
    legs allRoutes (stop_key s) rest b ->
    legs allRoutes a ((s, r) :: rest) b.

Definition hop_of (c : Connection) : Stop * nat := (nextStop c, routeIndex c).

Lemma connect_spec r i l conns c :
  c ∈ forEach (connect r i) l conns <->
  c ∈ conns \/ (routeIndex c = r /\ exists j, j <> i /\ l !! j = Some (nextStop c)).
Proof.
  induction l as [|s l IH] using rev_ind.
  - unfold forEach. simpl. split; [by left|].
    intros [?|(_ & j & _ & Hj)]; [done | by rewrite lookup_nil in Hj].
  - rewrite forEach_snoc.
    set (acc := forEach (connect r i) l conns) in *.
    assert (Hnew : (c ∈ acc \/ c = mkConnection s r) <->
      c ∈ conns \/ (routeIndex c = r /\ exists j, j <> i /\ (l ++ [s]) !! j = Some (nextStop c)) \/
      (i = length l /\ c = mkConnection s r)).
    { rewrite IH. split.
      - intros [[?|(Hr & j & Hj & Hl)]|Hc].
        + by left.
        + right. left. split; [done|]. exists j. split; [done|].
          apply lookup_snoc_Some. left. split; [by eapply lookup_lt_Some | done].
        + destruct (decide (i = length l)) as [->|Hne]; [by right; right|].
          right. left. subst c. simpl. split; [done|]. exists (length l).
          split; [done|]. apply lookup_snoc_Some. by right.
      - intros [?|[(Hr & j & Hj & Hl)|[_ Hc]]].
        + by left; left.
        + apply lookup_snoc_Some in Hl as [[_ Hl]|[-> Hs]].
          * left. right. split; [done|]. by exists j.
          * right. destruct c; simpl in *. by subst.
        + by right. }
    unfold connect. destruct (decide (i <> length l)) as [Hne|Heq].
    + destruct (existsb _ acc) eqn:Hex.
      * apply existsb_exists in Hex as (c' & Hc' & Hsame).
        apply andb_true_iff in Hsame as [Hsame Hidx].
        apply same_stop_eq in Hsame. apply Nat.eqb_eq in Hidx.
        assert (c' = mkConnection s r) as -> by (destruct c'; simpl in *; by subst).
        apply list_elem_of_In in Hc'.
        assert (Hin : mkConnection s r ∈ acc) by done.
        split.
        -- intros Hc. destruct (proj1 Hnew (or_introl Hc)) as [?|[?|[? _]]];
             [by left | by right | done].
        -- intros [Hc|Hc].
           ++ destruct (proj2 Hnew (or_introl Hc)) as [?| ->]; done.
           ++ destruct (proj2 Hnew (or_intror (or_introl Hc))) as [?| ->]; done.
      * rewrite elem_of_app, list_elem_of_singleton, Hnew.
        split; [intros [?|[?|[? _]]]; [by left | by right | done] | intros [?|?]; [by left | by right; left]].
    + apply dec_stable in Heq. rewrite IH. split.
      * intros [?|(Hr & j & Hj & Hl)]; [by left|]. right. split; [done|].
        exists j. split; [done|]. apply lookup_snoc_Some. left.
        split; [by eapply lookup_lt_Some | done].
      * intros [?|(Hr & j & Hj & Hl)]; [by left|]. right. split; [done|].
        exists j. split; [done|].
        apply lookup_snoc_Some in Hl as [[_ Hl]|[-> _]]; [done | congruence].
Qed.

Lemma graph_get_insert graph k v k' :
  graph_get (<[k := v]> graph) k' = if decide (k = k') then v else graph_get graph k'.
Proof. unfold graph_get. rewrite lookup_insert. by destruct (decide (k = k')). Qed.

Lemma add_stops_spec all r l graph k c :
  c ∈ graph_get (forEach (add_stop all r) l graph) k <->
  c ∈ graph_get graph k \/
  (routeIndex c = r /\ exists i j sa, l !! i = Some sa /\ stop_key sa = k /\
     j <> i /\ all !! j = Some (nextStop c)).
Proof.
  induction l as [|s l IH] using rev_ind.
  - unfold forEach. simpl. split; [by left|].
    intros [?|(_ & i & j & sa & Hi & _)]; [done | by rewrite lookup_nil in Hi].
  - rewrite forEach_snoc. unfold add_stop at 1. rewrite graph_get_insert.
    destruct (decide (stop_key s = k)) as [Hk|Hk].
    + rewrite connect_spec. subst k. rewrite IH. split.
      * intros [[?|(Hr & i & j & sa & Hi & Hsa & Hj & Hall)]|(Hr & j & Hj & Hall)].
        -- by left.
        -- right. split; [done|]. exists i, j, sa. split_and!; try done.
           apply lookup_snoc_Some. left. split; [by eapply lookup_lt_Some | done].
        -- right. split; [done|]. exists (length l), j, s. split_and!; try done.
           apply lookup_snoc_Some. by right.
      * intros [?|(Hr & i & j & sa & Hi & Hsa & Hj & Hall)]; [by left; left|].
        apply lookup_snoc_Some in Hi as [[_ Hi]|[-> ->]].
        -- left. right. split; [done|]. by exists i, j, sa.
        -- right. split; [done|]. by exists j.
    + rewrite IH. split.
      * intros [?|(Hr & i & j & sa & Hi & Hsa & Hj & Hall)]; [by left|].
        right. split; [done|]. exists i, j, sa. split_and!; try done.
        apply lookup_snoc_Some. left. split; [by eapply lookup_lt_Some | done].
      * intros [?|(Hr & i & j & sa & Hi & Hsa & Hj & Hall)]; [by left|].
        apply lookup_snoc_Some in Hi as [[_ Hi]|[-> ->]]; [|done].
        right. split; [done|]. by exists i, j, sa.
Qed.

(** The graph [buildStopGraph] builds is the clique model. *)
Lemma buildStopGraph_spec allRoutes k c :
  c ∈ graph_get (buildStopGraph allRoutes) k <->
  share_route allRoutes (routeIndex c) k (stop_key (nextStop c)).
Proof.
  unfold buildStopGraph.
  induction allRoutes as [|route l IH] using rev_ind.
  - unfold forEach, graph_get. simpl. rewrite lookup_empty. simpl. split.
    + intros H. by apply elem_of_nil in H.
    + intros (route & i & j & sa & sb & Hr & _). by rewrite lookup_nil in Hr.
  - rewrite forEach_snoc. unfold add_route at 1. rewrite add_stops_spec, IH. split.
    + intros [(rt & i & j & sa & sb & Hr & Hij & Hi & Hsa & Hj & Hsb)
             |(Hr & i & j & sa & Hi & Hsa & Hj & Hall)].
      * exists rt, i, j, sa, sb. split_and!; try done.
        apply lookup_snoc_Some. left. split; [by eapply lookup_lt_Some | done].
      * exists route, i, j, sa, (nextStop c). split_and!; try done.
        rewrite Hr. apply lookup_snoc_Some. by right.
    + intros (rt & i & j & sa & sb & Hr & Hij & Hi & Hsa & Hj & Hsb).
      apply stop_key_inj in Hsb. subst sb.
      apply lookup_snoc_Some in Hr as [[_ Hr]|[Hr ->]].
      * left. exists rt, i, j, sa, (nextStop c). by split_and!.
      * right. split; [done|]. exists i, j, sa. by split_and!.
Qed.

Lemma walk_legs allRoutes a es b :
  Search.walk (graph_get (buildStopGraph allRoutes)) (fun c => stop_key (nextStop c)) a es b ->
  legs allRoutes a (hop_of <$> es) b.
Proof.
  induction 1 as [u|u c es w Hc Hw IH]; simpl.
  - apply legs_nil.
  - apply legs_cons; [|done]. by apply buildStopGraph_spec in Hc.
Qed.

Lemma legs_walk allRoutes a hops b :
  legs allRoutes a hops b ->
  Search.walk (graph_get (buildStopGraph allRoutes)) (fun c => stop_key (nextStop c)) a
    ((fun h => mkConnection h.1 h.2) <$> hops) b.
Proof.
  induction 1 as [u|u s r rest w Hs Hl IH]; simpl.
  - apply Search.walk_nil.
  - apply Search.walk_cons; [|done]. by apply buildStopGraph_spec.
Qed.

Lemma foldl_push_entry originStop es :
  let e := foldl push_entry (mkEntry originStop [originStop] []) es in
  entry_path e = originStop :: (nextStop <$> es) /\
  entry_routePath e = routeIndex <$> es.
Proof.
  induction es as [|c es IH] using rev_ind; simpl; [done|].
  rewrite foldl_snoc. simpl. destruct IH as [-> ->].
  by rewrite !fmap_app.
Qed.

Lemma graph_targets originStop allRoutes u c :
  c ∈ graph_get (buildStopGraph allRoutes) u ->
  stop_key (nextStop c) ∈ all_keys originStop allRoutes.
Proof.
  intros Hc. apply buildStopGraph_spec in Hc
    as (route & i & j & sa & sb & Hr & _ & _ & _ & Hj & <-).
  unfold all_keys. apply list_elem_of_further, list_elem_of_fmap_2.
  apply list_elem_of_join. exists (stops route). split.
  - apply list_elem_of_lookup. by exists j.
  - apply list_elem_of_fmap_2. apply list_elem_of_lookup. by exists (routeIndex c).
Qed.

Lemma legs_nil_inv allRoutes a b : legs allRoutes a [] b -> a = b.
Proof. by inversion 1. Qed.

Lemma legs_cons_inv allRoutes a s r rest b :
  legs allRoutes a ((s, r) :: rest) b ->
  share_route allRoutes r a (stop_key s) /\ legs allRoutes (stop_key s) rest b.
Proof. by inversion 1. Qed.

(** What [planTrip] returns for distinct stops, in terms of the clique model. *)
Lemma planTrip_search originStop destinationStop allRoutes :
  originStop <> destinationStop ->
  match planTrip originStop destinationStop allRoutes with
  | Some plan =>
      exists hops,
        legs allRoutes (stop_key originStop) hops (stop_key destinationStop) /\
        plan_stops plan = originStop :: hops.*1 /\
        plan_routes plan = hops.*2 /\
        totalTransfers plan = (Z.of_nat (length hops) - 1)%Z /\
        forall hops', legs allRoutes (stop_key originStop) hops' (stop_key destinationStop) ->
          length hops <= length hops'
  | None =>
      forall hops, ~ legs allRoutes (stop_key originStop) hops (stop_key destinationStop)
  end.
Proof.
  intros Hne. unfold planTrip.
  destruct (same_stop originStop destinationStop) eqn:Hsame.
  { apply same_stop_eq in Hsame. done. }
  set (graph := buildStopGraph allRoutes).
  set (init := mkEntry originStop [originStop] []).
  set (node := fun e : Entry => stop_key (entry_stop e)).
  set (tgt := fun c : Connection => stop_key (nextStop c)).
  set (dep := fun e : Entry => length (entry_routePath e)).
  assert (Hd0 : dep init = 0) by done.
  assert (Hnx : forall it e, node (push_entry it e) = tgt e) by done.
  assert (Hdx : forall it e, dep (push_entry it e) = S (dep it)).
  { intros it e. unfold dep. simpl. rewrite length_app. simpl. lia. }
  pose proof (Search.search_start_fuel node dep (graph_get graph) tgt push_entry
    (stop_key destinationStop) init Hd0 Hnx Hdx (all_keys originStop allRoutes)) as Hfuel.
  destruct (Search.search node (graph_get graph) tgt push_entry (stop_key destinationStop)
    (S (length (all_keys originStop allRoutes))) [init] {[stop_key originStop]}) as [r|] eqn:Hs.
  2:{ exfalso. apply Hfuel; [apply list_elem_of_here | | done].
      intros u c Hc. by eapply graph_targets. }
  pose proof (Search.search_start_inv node dep (graph_get graph) tgt push_entry
    (stop_key destinationStop) init Hd0 Hnx Hdx _ _ Hs) as Hr.
  destruct r as [cur|].
  - destruct Hr as (Hgoal & (es & Hw & Hcur) & Hmin).
    destruct (foldl_push_entry originStop es) as [Hpath Hroutes].
    fold init in Hpath, Hroutes. rewrite <- Hcur in Hpath, Hroutes.
    exists (hop_of <$> es). simpl. split_and!.
    + rewrite <- Hgoal. by apply walk_legs.
    + rewrite Hpath. f_equal. rewrite <- list_fmap_compose. done.
    + rewrite Hroutes. rewrite <- list_fmap_compose. done.
    + rewrite Hroutes, !length_fmap. done.
    + intros hops' Hl. apply legs_walk in Hl. apply Hmin in Hl.
      unfold dep in Hl. rewrite Hroutes in Hl. by rewrite !length_fmap in *.
  - intros hops Hl. apply legs_walk in Hl. by apply Hr in Hl.
Qed.

End RoutePlanner.

(** *** planTrip: minimum-leg plans over the clique model *)

(** C3, as the code has it.  For distinct stops connected in the clique model
    [planTrip] returns a plan: a chain of legs from the origin to the
    destination whose [totalTransfers] is its number of legs minus one, and
    no chain has fewer legs.  Two distinct stops sharing a route get a
    one-leg plan with zero transfers.  Equal origin and destination get the
    zero-leg plan, whose [totalTransfers] is 0 (not its number of legs minus
    one). *)
Theorem planTrip_minimum_legs (originStop destinationStop : Stop) (allRoutes : list Route) :
  (originStop <> destinationStop ->
   forall hops,
     RoutePlanner.legs allRoutes (stop_key originStop) hops (stop_key destinationStop) ->
     exists plan best,
       RoutePlanner.planTrip originStop destinationStop allRoutes = Some plan /\
       RoutePlanner.legs allRoutes (stop_key originStop) best (stop_key destinationStop) /\
       RoutePlanner.plan_stops plan = originStop :: best.*1 /\
       RoutePlanner.plan_routes plan = best.*2 /\
       RoutePlanner.totalTransfers plan
         = (Z.of_nat (length (RoutePlanner.plan_routes plan)) - 1)%Z /\
       forall hops',
         RoutePlanner.legs allRoutes (stop_key originStop) hops' (stop_key destinationStop) ->
         length (RoutePlanner.plan_routes plan) <= length hops') /\
  (originStop <> destinationStop ->
   forall r,
     RoutePlanner.share_route allRoutes r (stop_key originStop) (stop_key destinationStop) ->
     exists r',
       RoutePlanner.share_route allRoutes r' (stop_key originStop) (stop_key destinationStop) /\
       RoutePlanner.planTrip originStop destinationStop allRoutes
         = Some (RoutePlanner.mkTransferPlan [originStop; destinationStop] [r'] 0)) /\
  RoutePlanner.planTrip originStop originStop allRoutes
    = Some (RoutePlanner.mkTransferPlan [originStop] [] 0).
Proof.
  assert (Hgen : originStop <> destinationStop ->
   forall hops,
     RoutePlanner.legs allRoutes (stop_key originStop) hops (stop_key destinationStop) ->
     exists plan best,
       RoutePlanner.planTrip originStop destinationStop allRoutes = Some plan /\
       RoutePlanner.legs allRoutes (stop_key originStop) best (stop_key destinationStop) /\
       RoutePlanner.plan_stops plan = originStop :: best.*1 /\
       RoutePlanner.plan_routes plan = best.*2 /\
       RoutePlanner.totalTransfers plan
         = (Z.of_nat (length (RoutePlanner.plan_routes plan)) - 1)%Z /\
       forall hops',
         RoutePlanner.legs allRoutes (stop_key originStop) hops' (stop_key destinationStop) ->
         length (RoutePlanner.plan_routes plan) <= length hops').
  { intros Hne hops Hl.
    pose proof (RoutePlanner.planTrip_search originStop destinationStop allRoutes Hne) as Hs.
    destruct (RoutePlanner.planTrip originStop destinationStop allRoutes) as [plan|].
    - destruct Hs as (best & Hb & Hst & Hrt & Htt & Hmin).
      exists plan, best. split_and!; try done.
      + rewrite Htt, Hrt, length_fmap. done.
      + intros hops' Hl'. rewrite Hrt, length_fmap. by apply Hmin.
    - by destruct (Hs hops). }
  split_and!; [exact Hgen | |].
  - intros Hne r Hr.
    destruct (Hgen Hne [(destinationStop, r)]) as (plan & best & Hp & Hb & Hst & Hrt & Htt & Hmin).
    { apply RoutePlanner.legs_cons; [done | apply RoutePlanner.legs_nil]. }
    specialize (Hmin [(destinationStop, r)]
      (RoutePlanner.legs_cons _ _ _ _ _ _ Hr (RoutePlanner.legs_nil _ _))).
    rewrite Hrt, length_fmap in Hmin. simpl in Hmin.
    destruct best as [|[s r'] [|? ?]]; simpl in Hmin; [| |lia].
    + apply RoutePlanner.legs_nil_inv, stop_key_inj in Hb. done.
    + apply RoutePlanner.legs_cons_inv in Hb as [Hs Hrest].
      apply RoutePlanner.legs_nil_inv, stop_key_inj in Hrest. subst s.
      exists r'. split; [done|]. rewrite Hp. f_equal.
      destruct plan as [ps prs tt]; simpl in *. subst. done.
  - unfold RoutePlanner.planTrip.
    assert (same_stop originStop originStop = true) as -> by by apply same_stop_eq.
    done.
Qed.

(** A one-transfer network: route 0 serves (1,1) and (5,1), route 1 serves
    (5,1) and (5,9). *)
Definition two_routes : list Route :=
  [mkRoute [mkStop 1 1; mkStop 5 1] [] 0; mkRoute [mkStop 5 1; mkStop 5 9] [] 1].

Lemma planTrip_minimum_legs_witness :
  (exists plan best,
     RoutePlanner.planTrip (mkStop 1 1) (mkStop 5 9) two_routes = Some plan /\
     RoutePlanner.legs two_routes (1, 1)%Z best (5, 9)%Z /\
     RoutePlanner.plan_stops plan = mkStop 1 1 :: best.*1 /\
     RoutePlanner.plan_routes plan = best.*2 /\
     RoutePlanner.totalTransfers plan
       = (Z.of_nat (length (RoutePlanner.plan_routes plan)) - 1)%Z /\
     forall hops',
       RoutePlanner.legs two_routes (1, 1)%Z hops' (5, 9)%Z ->
       length (RoutePlanner.plan_routes plan) <= length hops') /\
  (exists r',
     RoutePlanner.share_route two_routes r' (1, 1)%Z (5, 1)%Z /\
     RoutePlanner.planTrip (mkStop 1 1) (mkStop 5 1) two_routes
       = Some (RoutePlanner.mkTransferPlan [mkStop 1 1; mkStop 5 1] [r'] 0)).
Proof.
  assert (H01 : RoutePlanner.share_route two_routes 0 (1, 1)%Z (5, 1)%Z).
  { exists (mkRoute [mkStop 1 1; mkStop 5 1] [] 0), 0, 1, (mkStop 1 1), (mkStop 5 1).
    split_and!; try reflexivity. lia. }
  assert (H12 : RoutePlanner.share_route two_routes 1 (5, 1)%Z (5, 9)%Z).
  { exists (mkRoute [mkStop 5 1; mkStop 5 9] [] 1), 0, 1, (mkStop 5 1), (mkStop 5 9).
    split_and!; try reflexivity. lia. }
  split.
  - apply (proj1 (planTrip_minimum_legs (mkStop 1 1) (mkStop 5 9) two_routes))
      with (hops := [(mkStop 5 1, 0); (mkStop 5 9, 1)]).
    + discriminate.
    + apply RoutePlanner.legs_cons; [exact H01|].
      apply RoutePlanner.legs_cons; [exact H12|]. apply RoutePlanner.legs_nil.
  - apply (proj1 (proj2 (planTrip_minimum_legs (mkStop 1 1) (mkStop 5 1) two_routes)))
      with (r := 0).
    + discriminate.
    + exact H01.
Defined.

(** C3 as stated fails for equal origin and destination: the pair is
    connected (by the empty chain), the plan has no leg, and its
    [totalTransfers] is 0, not -1. *)
Lemma planTrip_trivial_plan_counterexample :
  RoutePlanner.legs two_routes (1, 1)%Z [] (1, 1)%Z /\
  exists plan,
    RoutePlanner.planTrip (mkStop 1 1) (mkStop 1 1) two_routes = Some plan /\
    RoutePlanner.plan_routes plan = [] /\
    RoutePlanner.totalTransfers plan
      <> (Z.of_nat (length (RoutePlanner.plan_routes plan)) - 1)%Z.
Proof.
  split; [apply RoutePlanner.legs_nil|].
  exists (RoutePlanner.mkTransferPlan [mkStop 1 1] [] 0).
  split_and!; [reflexivity | reflexivity | simpl; lia].
Qed.

(** ** config/constants.ts *)

Definition GRID_SIZE : Z := 30.
Definition COLS : Z := 60.
Definition ROWS : Z := 60.
Definition PATH_CACHE_SIZE : nat := 500.
Definition MAX_ROUTES : nat := 8.
Definition NPC_MAX_WAIT_TIME : Q := 60.
Definition ROUTE_COST : Q := 500.
Definition BUS_COST : Q := 300.

(** [CityGrid]: rows of cells, indexed [cityGrid[y][x]]. *)
Definition CityGrid := list (list ZoneType).

(** The generated grids have [ROWS] rows of [COLS] cells. *)
Definition wf_grid (g : CityGrid) : Prop :=
  length g = Z.to_nat ROWS /\ forall row, row ∈ g -> length row = Z.to_nat COLS.

#[global] Instance Q_eq_dec : EqDecision Q.
Proof. solve_decision. Defined.

#[global] Instance ZoneType_eq_dec : EqDecision ZoneType.
Proof. solve_decision. Defined.

(** [Math.round(v / GRID_SIZE)]: the grid cell of a pixel coordinate. *)
Definition cell_of (v : Q) : Z := Qfloor (v / inject_Z GRID_SIZE + (1 # 2))%Q.

(** Equality of waypoints and of paths as JavaScript numbers. *)
Definition wp_eq (a b : Waypoint) : Prop := wp_x a == wp_x b /\ wp_y a == wp_y b.
Definition path_eq (p q : list Waypoint) : Prop := Forall2 wp_eq p q.

(** ** PathCache.ts *)

Module PathCache.

(** The key string [startX,startY->endX,endY]: two calls build the same
    string exactly when their numbers are equal, so the key is the tuple of
    the numbers in lowest terms. *)
Definition Key : Type := Q * Q * Q * Q.

Definition generateKey (startX startY endX endY : Q) : Key :=
  (Qred startX, Qred startY, Qred endX, Qred endY).

Record CacheEntry := mkCacheEntry { path : list Waypoint; timestamp : Z }.

(** The [Map] keeps its entries in insertion order. *)
Record t := mkCache { cache : list (Key * CacheEntry); maxSize : nat }.

Fixpoint map_get (key : Key) (m : list (Key * CacheEntry)) : option CacheEntry :=
  match m with
  | [] => None
  | kv :: m' => if decide (kv.1 = key) then Some kv.2 else map_get key m'
  end.

Definition map_delete (key : Key) (m : list (Key * CacheEntry)) : list (Key * CacheEntry) :=
  filter (fun kv => kv.1 <> key) m.

(** [Map.set]: an existing key keeps its place, a new one goes last. *)
Fixpoint map_set (key : Key) (entry : CacheEntry) (m : list (Key * CacheEntry))
    : list (Key * CacheEntry) :=
  match m with
  | [] => [(key, entry)]
  | kv :: m' => if decide (kv.1 = key) then (key, entry) :: m' else kv :: map_set key entry m'
  end.

Definition get (key : Key) (c : t) : option (list Waypoint) * t :=
  match map_get key (cache c) with
  | None => (None, c)
  | Some entry =>
      (Some (path entry), mkCache (map_set key entry (map_delete key (cache c))) (maxSize c))
  end.

Definition set (now : Z) (key : Key) (p : list Waypoint) (c : t) : t :=
  let m :=
    if (maxSize c <=? length (cache c))%nat then
      match cache c with
      | [] => cache c
      | (firstKey, _) :: _ => map_delete firstKey (cache c)
      end
    else cache c in
  mkCache (map_set key (mkCacheEntry p now) m) (maxSize c).

Definition clear (c : t) : t := mkCache [] (maxSize c).

Definition size (c : t) : nat := length (cache c).

Definition new : t := mkCache [] PATH_CACHE_SIZE.

Definition keys (c : t) : list Key := (cache c).*1.

Lemma map_get_Some key m entry :
  map_get key m = Some entry -> (key, entry) ∈ m.
Proof.
  induction m as [|[k e] m IH]; simpl; [done|].
  destruct (decide (k = key)) as [->|Hne].
  - intros [= ->]. apply list_elem_of_here.
  - intros H. apply list_elem_of_further. by apply IH.
Qed.

Lemma map_get_None key m : map_get key m = None <-> key ∉ m.*1.
Proof.
  induction m as [|[k e] m IH]; simpl.
  - split; [intros _ H; by apply elem_of_nil in H | done].
  - destruct (decide (k = key)) as [->|Hne].
    + split; [done|]. intros H. destruct H. apply list_elem_of_here.
    + rewrite IH, not_elem_of_cons. naive_solver.
Qed.

Lemma map_set_fresh key entry m :
  key ∉ m.*1 -> map_set key entry m = m ++ [(key, entry)].
Proof.
  induction m as [|[k e] m IH]; simpl; [done|].
  rewrite not_elem_of_cons. intros [Hne Hm].
  destruct (decide (k = key)); [by subst|]. by rewrite IH.
Qed.

Lemma map_delete_keys key m :
  (map_delete key m).*1 = filter (fun k => k <> key) m.*1.
Proof.
  unfold map_delete. induction m as [|[k e] m IH]; [done|].
  rewrite fmap_cons. cbn [fst].
  rewrite (filter_cons (fun kv : Key * CacheEntry => kv.1 <> key)).
  rewrite (filter_cons (fun k0 : Key => k0 <> key)). cbn [fst].
  destruct (decide (k <> key)); [rewrite fmap_cons; cbn [fst]|]; by rewrite IH.
Qed.

Lemma map_delete_elem key m kv : kv ∈ map_delete key m -> kv ∈ m.
Proof. unfold map_delete. rewrite list_elem_of_filter. tauto. Qed.

Lemma map_delete_absent key m : key ∉ (map_delete key m).*1.
Proof. rewrite map_delete_keys, list_elem_of_filter. tauto. Qed.

Lemma map_delete_head key entry m :
  NoDup ((key, entry) :: m).*1 -> map_delete key ((key, entry) :: m) = m.
Proof.
  rewrite fmap_cons. simpl. intros [Hnin _]%NoDup_cons.
  unfold map_delete. rewrite filter_cons. cbn [fst].
  destruct (decide (key <> key)); [done|].
  induction m as [|[k e] m IH]; [done|].
  rewrite fmap_cons, not_elem_of_cons in Hnin. destruct Hnin as [Hne Hnin].
  rewrite filter_cons. cbn [fst]. destruct (decide (k <> key)); [|by subst].
  by rewrite IH.
Qed.

(** The order of the keys after [get] and [set], for keys stored once. *)
Lemma get_hit key c entry :
  map_get key (cache c) = Some entry ->
  get key c = (Some (path entry),
               mkCache (map_delete key (cache c) ++ [(key, entry)]) (maxSize c)).
Proof.
  intros H. unfold get. rewrite H. by rewrite map_set_fresh by apply map_delete_absent.
Qed.

Lemma get_miss key c : map_get key (cache c) = None -> get key c = (None, c).
Proof. intros H. unfold get. by rewrite H. Qed.

Lemma set_fresh now key p c :
  NoDup (keys c) -> key ∉ keys c ->
  cache (set now key p c) =
    (if (maxSize c <=? length (cache c))%nat then tail (cache c) else cache c)
      ++ [(key, mkCacheEntry p now)].
Proof.
  unfold keys. intros Hnd Hk. unfold set. simpl.
  destruct (maxSize c <=? length (cache c))%nat.
  - destruct (cache c) as [|[k e] m] eqn:Hc; [done|].
    rewrite map_delete_head by done. simpl.
    apply map_set_fresh. rewrite fmap_cons, not_elem_of_cons in Hk. tauto.
  - by apply map_set_fresh.
Qed.

End PathCache.

(** ** PathfindingManager.ts *)

Module PathfindingManager.

(** [{ x: p.x * GRID_SIZE, y: p.y * GRID_SIZE }] *)
Definition cell_waypoint (p : Z * Z) : Waypoint :=
  mkWaypoint (inject_Z (p.1 * GRID_SIZE)) (inject_Z (p.2 * GRID_SIZE)).

(** [cityGrid[y][x] === ZoneType.ROAD], for [x], [y] within the grid. *)
Definition is_road (cityGrid : CityGrid) (x y : Z) : bool :=
  match cityGrid !! Z.to_nat y with
  | Some row =>
      match row !! Z.to_nat x with
      | Some cell => bool_decide (cell = ROAD)
      | None => false
      end
  | None => false
  end.

(** up, right, down, left *)
Definition directions : list (Z * Z) := [(0, -1); (1, 0); (0, 1); (-1, 0)]%Z.

(** The part of the [if] of the inner loop that does not read [visited]. *)
Definition passable (cityGrid : CityGrid) (c : Z * Z) : bool :=
  (0 <=? c.1)%Z && (c.1 <? COLS)%Z && (0 <=? c.2)%Z && (c.2 <? ROWS)%Z &&
  is_road cityGrid c.1 c.2.

Definition neighbours (cityGrid : CityGrid) (c : Z * Z) : list (Z * Z) :=
  filter (fun n => passable cityGrid n = true)
    ((fun dir => (c.1 + dir.1, c.2 + dir.2)%Z) <$> directions).

(** The queue entries of [bfsPathfinding]. *)
Record Entry := mkEntry { entry_x : Z; entry_y : Z; entry_path : list (Z * Z) }.

Definition push_entry (current : Entry) (n : Z * Z) : Entry :=
  mkEntry n.1 n.2 (entry_path current ++ [n]).

(** Every cell of the grid. *)
Definition grid_cells : list (Z * Z) :=
  x ← seqZ 0 COLS; y ← seqZ 0 ROWS; [(x, y)].

Definition bfsPathfinding (cityGrid : CityGrid) (startX startY endX endY : Q)
    : list Waypoint :=
  let startGridX := cell_of startX in
  let startGridY := cell_of startY in
  let endGridX := cell_of endX in
  let endGridY := cell_of endY in
  if (startGridX =? endGridX)%Z && (startGridY =? endGridY)%Z then
    [mkWaypoint endX endY]
  else
    match
      Search.search (fun e => (entry_x e, entry_y e)) (neighbours cityGrid)
        (fun n => n) push_entry (endGridX, endGridY)
        (S (length ((startGridX, startGridY) :: grid_cells)))
        [mkEntry startGridX startGridY []] {[(startGridX, startGridY)]}
    with
    | Some (Some current) =>
        (cell_waypoint <$> entry_path current) ++ [mkWaypoint endX endY]
    | _ => [mkWaypoint endX endY]
    end.

(** The manager's fields, and [searches], which counts the calls of
    [bfsPathfinding] (the invocation counter the spec asks tests to use). *)
Record t := mkManager {
  cache : PathCache.t;
  cityGrid : CityGrid;
  searches : nat
}.

Definition new (cityGrid0 : CityGrid) : t := mkManager PathCache.new cityGrid0 0.

(** [now] is the value [Date.now()] returns inside [PathCache.set]. *)
Definition findPath (now : Z) (startX startY endX endY : Q) (m : t) : list Waypoint * t :=
  let cacheKey := PathCache.generateKey startX startY endX endY in
  let '(cached, c) := PathCache.get cacheKey (cache m) in
  match cached with
  | Some p => (p, mkManager c (cityGrid m) (searches m))
  | None =>
      let p := bfsPathfinding (cityGrid m) startX startY endX endY in
      (p, mkManager (PathCache.set now cacheKey p c) (cityGrid m) (S (searches m)))
  end.

Definition updateCityGrid (cityGrid0 : CityGrid) (m : t) : t :=
  mkManager (PathCache.clear (cache m)) cityGrid0 (searches m).

Definition clearCache (m : t) : t :=
  mkManager (PathCache.clear (cache m)) (cityGrid m) (searches m).

(** A road path, as the spec has it: every hop moves to one of the four
    neighbouring cells, which lies in the grid and is a road cell. *)
Definition adjacent (c n : Z * Z) : Prop :=
  (Z.abs (n.1 - c.1) + Z.abs (n.2 - c.2) = 1)%Z.

Definition in_grid (c : Z * Z) : Prop :=
  (0 <= c.1 < COLS)%Z /\ (0 <= c.2 < ROWS)%Z.

Inductive road_walk (cityGrid0 : CityGrid) : Z * Z -> list (Z * Z) -> Z * Z -> Prop :=
| road_walk_nil c : road_walk cityGrid0 c [] c
| road_walk_cons c n rest d :
    adjacent c n -> in_grid n -> is_road cityGrid0 n.1 n.2 = true ->
    road_walk cityGrid0 n rest d ->
    road_walk cityGrid0 c (n :: rest) d.

Lemma neighbours_spec cityGrid0 c n :
  n ∈ neighbours cityGrid0 c <->
  adjacent c n /\ in_grid n /\ is_road cityGrid0 n.1 n.2 = true.
Proof.
  unfold neighbours, directions. rewrite list_elem_of_filter. simpl.
  rewrite !elem_of_cons, elem_of_nil. unfold passable, adjacent, in_grid.
  rewrite !andb_true_iff, !Z.leb_le, !Z.ltb_lt.
  destruct c as [cx cy], n as [nx ny]; simpl. split.
  - intros [Hp Hd]. destruct Hp as [[[[Hx0 Hx1] Hy0] Hy1] Hroad].
    destruct Hd as [Hn|[Hn|[Hn|[Hn|[]]]]]; inversion Hn; subst;
      (split_and!; first [lia | done]).
  - intros (Hadj & [[? ?] [? ?]] & Hroad). split; [by split_and!|].
    assert ((nx = cx /\ ny = cy - 1) \/ (nx = cx + 1 /\ ny = cy) \/
            (nx = cx /\ ny = cy + 1) \/ (nx = cx - 1 /\ ny = cy))%Z
      as [[-> ->]|[[-> ->]|[[-> ->]|[-> ->]]]] by lia.
    + left. f_equal; lia.
    + right; left. f_equal; lia.
    + right; right; left. f_equal; lia.
    + right; right; right; left. f_equal; lia.
Qed.

Lemma walk_road cityGrid0 a cells b :
  Search.walk (neighbours cityGrid0) (fun n => n) a cells b <-> road_walk cityGrid0 a cells b.
Proof.
  split.
  - induction 1 as [u|u n es w Hn Hw IH]; [apply road_walk_nil|].
    apply neighbours_spec in Hn as (? & ? & ?). by apply road_walk_cons.
  - induction 1 as [u|u n es w Ha Hg Hr Hw IH]; [apply Search.walk_nil|].
    apply Search.walk_cons; [|done]. by apply neighbours_spec.
Qed.

Lemma in_grid_cells c : in_grid c -> c ∈ grid_cells.
Proof.
  intros [Hx Hy]. destruct c as [x y]. cbn [fst snd] in Hx, Hy. unfold grid_cells.
  apply list_elem_of_bind. exists x. split; [|apply elem_of_seqZ; lia].
  apply list_elem_of_bind. exists y. split; [apply list_elem_of_here|apply elem_of_seqZ; lia].
Qed.

Lemma foldl_push_cell x y cells :
  entry_path (foldl push_entry (mkEntry x y []) cells) = cells.
Proof.
  induction cells as [|c cells IH] using rev_ind; [done|].
  rewrite foldl_snoc. simpl. by rewrite IH.
Qed.

Definition start_cell (startX startY : Q) : Z * Z := (cell_of startX, cell_of startY).

(** What [bfsPathfinding] returns: the waypoints of a shortest road path and
    then [end], or [end] alone when the cells are equal or not connected. *)
Lemma bfsPathfinding_spec cityGrid0 startX startY endX endY :
  let s := start_cell startX startY in
  let e := start_cell endX endY in
  let p := bfsPathfinding cityGrid0 startX startY endX endY in
  (s = e /\ p = [mkWaypoint endX endY]) \/
  (s <> e /\ (forall cells, ~ road_walk cityGrid0 s cells e) /\ p = [mkWaypoint endX endY]) \/
  (s <> e /\ exists best,
     road_walk cityGrid0 s best e /\
     p = (cell_waypoint <$> best) ++ [mkWaypoint endX endY] /\
     forall cells, road_walk cityGrid0 s cells e -> length best <= length cells).
Proof.
  intros s e p. subst s e p. unfold start_cell, bfsPathfinding.
  destruct ((cell_of startX =? cell_of endX)%Z && (cell_of startY =? cell_of endY)%Z) eqn:Hsame.
  { left. apply andb_true_iff in Hsame as [Hx Hy].
    apply Z.eqb_eq in Hx, Hy. by rewrite Hx, Hy. }
  assert (Hne : (cell_of startX, cell_of startY) <> (cell_of endX, cell_of endY)).
  { intros Heq. inversion Heq as [[Hx Hy]].
    rewrite Hx, Hy, !Z.eqb_refl in Hsame. done. }
  right.
  set (init := mkEntry (cell_of startX) (cell_of startY) []).
  set (node := fun en : Entry => (entry_x en, entry_y en)).
  set (dep := fun en : Entry => length (entry_path en)).
  assert (Hd0 : dep init = 0) by done.
  assert (Hnx : forall it n, node (push_entry it n) = (fun n : Z * Z => n) n).
  { intros it [nx ny]. done. }
  assert (Hdx : forall it n, dep (push_entry it n) = S (dep it)).
  { intros it n. unfold dep. simpl. rewrite length_app. simpl. lia. }
  pose proof (Search.search_start_fuel node dep (neighbours cityGrid0) (fun n => n) push_entry
    (cell_of endX, cell_of endY) init Hd0 Hnx Hdx
    ((cell_of startX, cell_of startY) :: grid_cells)) as Hfuel.
  destruct (Search.search node (neighbours cityGrid0) (fun n => n) push_entry
    (cell_of endX, cell_of endY)
    (S (length ((cell_of startX, cell_of startY) :: grid_cells))) [init]
    {[(cell_of startX, cell_of startY)]}) as [r|] eqn:Hs.
  2:{ exfalso. apply Hfuel; [apply list_elem_of_here | | done].
      intros u n Hn. apply list_elem_of_further, in_grid_cells.
      by apply neighbours_spec in Hn as (_ & ? & _). }
  pose proof (Search.search_start_inv node dep (neighbours cityGrid0) (fun n => n) push_entry
    (cell_of endX, cell_of endY) init Hd0 Hnx Hdx _ _ Hs) as Hr.
  destruct r as [cur|].
  - right. split; [done|]. destruct Hr as (Hgoal & (es & Hw & Hcur) & Hmin).
    pose proof (foldl_push_cell (cell_of startX) (cell_of startY) es) as Hpath.
    fold init in Hpath. rewrite <- Hcur in Hpath.
    exists es. split_and!.
    + apply walk_road. by rewrite <- Hgoal.
    + by rewrite Hpath.
    + intros cells Hc. apply walk_road, Hmin in Hc. unfold dep in Hc. by rewrite Hpath in Hc.
  - left. split; [done|]. split; [|done].
    intros cells Hc. apply walk_road in Hc. by apply Hr in Hc.
Qed.

End PathfindingManager.

(** *** The cache is transparent *)

Lemma wp_eq_refl w : wp_eq w w.
Proof. split; reflexivity. Qed.

Lemma path_eq_refl p : path_eq p p.
Proof. induction p; constructor; [apply wp_eq_refl | done]. Qed.

Lemma path_eq_sym p q : path_eq p q -> path_eq q p.
Proof.
  induction 1 as [|a b p q [Hx Hy] Hpq IH]; constructor; [|done].
  split; by symmetry.
Qed.

Lemma path_eq_trans p q r : path_eq p q -> path_eq q r -> path_eq p r.
Proof.
  intros Hpq. revert r. induction Hpq as [|a b p q [Hx Hy] Hpq IH]; intros r Hqr.
  - inversion Hqr. constructor.
  - inversion Hqr as [|b' c q' r' [Hx' Hy'] Hqr']; subst. constructor; [|by apply IH].
    split; etransitivity; eassumption.
Qed.

Lemma cell_of_proper x y : x == y -> cell_of x = cell_of y.
Proof.
  intros H. unfold cell_of. apply Qfloor_comp. by rewrite H.
Qed.

Lemma generateKey_eq sx sy ex ey sx' sy' ex' ey' :
  PathCache.generateKey sx sy ex ey = PathCache.generateKey sx' sy' ex' ey' ->
  sx == sx' /\ sy == sy' /\ ex == ex' /\ ey == ey'.
Proof.
  unfold PathCache.generateKey. intros [= H1 H2 H3 H4].
  split_and!; (etransitivity; [symmetry; apply Qred_correct|]);
    (etransitivity; [|apply Qred_correct]); by rewrite ?H1, ?H2, ?H3, ?H4.
Qed.

Lemma bfsPathfinding_proper g sx sy ex ey sx' sy' ex' ey' :
  sx == sx' -> sy == sy' -> ex == ex' -> ey == ey' ->
  path_eq (PathfindingManager.bfsPathfinding g sx sy ex ey)
          (PathfindingManager.bfsPathfinding g sx' sy' ex' ey').
Proof.
  intros H1 H2 H3 H4. unfold PathfindingManager.bfsPathfinding.
  rewrite (cell_of_proper _ _ H1), (cell_of_proper _ _ H2),
          (cell_of_proper _ _ H3), (cell_of_proper _ _ H4).
  assert (Hend : path_eq [mkWaypoint ex ey] [mkWaypoint ex' ey']).
  { constructor; [by split | constructor]. }
  destruct (_ && _); [done|].
  destruct (Search.search _ _ _ _ _ _ _ _) as [[cur|]|]; [|done..].
  apply Forall2_app; [apply path_eq_refl | done].
Qed.

(** What holds of every manager the engine can hold: entries were stored by
    [findPath] on the current grid, each key once, within the capacity. *)
Record consistent (m : PathfindingManager.t) : Prop := {
  cons_nodup : NoDup (PathCache.keys (PathfindingManager.cache m));
  cons_capacity : PathCache.maxSize (PathfindingManager.cache m) = PATH_CACHE_SIZE;
  cons_size : PathCache.size (PathfindingManager.cache m) <= PATH_CACHE_SIZE;
  cons_paths : forall k e, (k, e) ∈ PathCache.cache (PathfindingManager.cache m) ->
    exists sx sy ex ey, k = PathCache.generateKey sx sy ex ey /\
      PathCache.path e = PathfindingManager.bfsPathfinding (PathfindingManager.cityGrid m) sx sy ex ey
}.

Lemma consistent_new g : consistent (PathfindingManager.new g).
Proof.
  split; simpl.
  - apply NoDup_nil_2.
  - done.
  - unfold PathCache.size. simpl. unfold PATH_CACHE_SIZE. lia.
  - intros k e H. by apply elem_of_nil in H.
Qed.

Lemma consistent_updateCityGrid g m :
  consistent m -> consistent (PathfindingManager.updateCityGrid g m).
Proof.
  intros [Hnd Hcap Hsz Hp]. split; simpl.
  - apply NoDup_nil_2.
  - done.
  - unfold PathCache.size. simpl. lia.
  - intros k e H. by apply elem_of_nil in H.
Qed.

Lemma consistent_clearCache m :
  consistent m -> consistent (PathfindingManager.clearCache m).
Proof.
  intros [Hnd Hcap Hsz Hp]. split; simpl.
  - apply NoDup_nil_2.
  - done.
  - unfold PathCache.size. simpl. lia.
  - intros k e H. by apply elem_of_nil in H.
Qed.

(** The two branches of [findPath]. *)
Lemma findPath_hit now sx sy ex ey m entry :
  PathCache.map_get (PathCache.generateKey sx sy ex ey)
    (PathCache.cache (PathfindingManager.cache m)) = Some entry ->
  PathfindingManager.findPath now sx sy ex ey m =
    (PathCache.path entry,
     PathfindingManager.mkManager
       (PathCache.mkCache
          (PathCache.map_delete (PathCache.generateKey sx sy ex ey)
             (PathCache.cache (PathfindingManager.cache m))
           ++ [(PathCache.generateKey sx sy ex ey, entry)])
          (PathCache.maxSize (PathfindingManager.cache m)))
       (PathfindingManager.cityGrid m) (PathfindingManager.searches m)).
Proof.
  intros H. unfold PathfindingManager.findPath. by rewrite (PathCache.get_hit _ _ _ H).
Qed.

Lemma findPath_miss now sx sy ex ey m :
  PathCache.map_get (PathCache.generateKey sx sy ex ey)
    (PathCache.cache (PathfindingManager.cache m)) = None ->
  PathfindingManager.findPath now sx sy ex ey m =
    (PathfindingManager.bfsPathfinding (PathfindingManager.cityGrid m) sx sy ex ey,
     PathfindingManager.mkManager
       (PathCache.set now (PathCache.generateKey sx sy ex ey)
          (PathfindingManager.bfsPathfinding (PathfindingManager.cityGrid m) sx sy ex ey)
          (PathfindingManager.cache m))
       (PathfindingManager.cityGrid m) (S (PathfindingManager.searches m))).
Proof.
  intros H. unfold PathfindingManager.findPath. by rewrite (PathCache.get_miss _ _ H).
Qed.

Lemma findPath_transparent now sx sy ex ey m :
  consistent m ->
  path_eq (PathfindingManager.findPath now sx sy ex ey m).1
          (PathfindingManager.bfsPathfinding (PathfindingManager.cityGrid m) sx sy ex ey).
Proof.
  intros Hc.
  destruct (PathCache.map_get (PathCache.generateKey sx sy ex ey)
              (PathCache.cache (PathfindingManager.cache m))) as [entry|] eqn:Hget.
  - rewrite (findPath_hit _ _ _ _ _ _ _ Hget). simpl.
    apply PathCache.map_get_Some in Hget.
    destruct (cons_paths _ Hc _ _ Hget) as (sx' & sy' & ex' & ey' & Hk & ->).
    apply generateKey_eq in Hk as (? & ? & ? & ?).
    apply bfsPathfinding_proper; by symmetry.
  - rewrite (findPath_miss _ _ _ _ _ _ Hget). simpl. apply path_eq_refl.
Qed.

(** *** Least-recently-used order

    Modelled from the spec: a capacity-bounded cache, evicted
    least-recently-used when full.  [recency trace] lists the keys of a
    trace of uses in the order of their last use, least recent first;
    [most_recent cap trace] are the [cap] most recently used of them. *)
Module LRU.



(** One use of [k] on a cache whose keys are [order], front first. *)
Definition touch (cap : nat) (order : list PathCache.Key) (k : PathCache.Key)
    : list PathCache.Key :=
  if decide (k ∈ order) then filter (fun k' => k' <> k) order ++ [k]
  else (if (cap <=? length order)%nat then tail order else order) ++ [k].




Lemma filter_absent (k : PathCache.Key) (l : list PathCache.Key) :
  k ∉ l -> filter (fun k' => k' <> k) l = l.
Proof.
  induction l as [|a l IH]; [done|]. rewrite not_elem_of_cons. intros [Hne Hl].
  rewrite filter_cons. destruct (decide (a <> k)); [by rewrite IH | by destruct n].
Qed.

Lemma filter_present_length (k : PathCache.Key) (l : list PathCache.Key) :
  NoDup l -> k ∈ l -> S (length (filter (fun k' => k' <> k) l)) = length l.
Proof.
  induction l as [|a l IH]; intros Hnd Hk; [by apply elem_of_nil in Hk|].
  apply NoDup_cons in Hnd as [Ha Hnd]. rewrite filter_cons.
  destruct (decide (a <> k)) as [Hne|Heq].
  - simpl. rewrite IH; [done | done |].
    apply elem_of_cons in Hk as [->|Hk]; done.
  - apply dec_stable in Heq. subst a. simpl. by rewrite filter_absent.
Qed.


End LRU.

Lemma findPath_keys now sx sy ex ey m :
  consistent m ->
  PathCache.keys (PathfindingManager.cache (PathfindingManager.findPath now sx sy ex ey m).2)
  = LRU.touch PATH_CACHE_SIZE (PathCache.keys (PathfindingManager.cache m))
      (PathCache.generateKey sx sy ex ey).
Proof.
  intros [Hnd Hcap Hsz Hp]. unfold LRU.touch.
  destruct (PathCache.map_get (PathCache.generateKey sx sy ex ey)
              (PathCache.cache (PathfindingManager.cache m))) as [entry|] eqn:Hget.
  - rewrite (findPath_hit _ _ _ _ _ _ _ Hget). simpl.
    unfold PathCache.keys at 1. simpl. rewrite fmap_app, PathCache.map_delete_keys. simpl.
    destruct (decide (_ ∈ _)) as [_|Hn]; [done|]. destruct Hn.
    apply PathCache.map_get_Some in Hget.
    unfold PathCache.keys. apply list_elem_of_fmap. by eexists (_, _).
  - rewrite (findPath_miss _ _ _ _ _ _ Hget). simpl.
    apply PathCache.map_get_None in Hget.
    destruct (decide (_ ∈ _)) as [Hin|_]; [done|].
    unfold PathCache.keys at 1. rewrite PathCache.set_fresh by done.
    rewrite fmap_app, Hcap. simpl. unfold PathCache.keys. rewrite length_fmap.
    case_match; [|done].
    by destruct (PathCache.cache (PathfindingManager.cache m)).
Qed.

Lemma findPath_cityGrid now sx sy ex ey m :
  PathfindingManager.cityGrid (PathfindingManager.findPath now sx sy ex ey m).2
  = PathfindingManager.cityGrid m.
Proof.
  unfold PathfindingManager.findPath.
  destruct (PathCache.get _ _) as [[p|] c]; done.
Qed.

Lemma consistent_findPath now sx sy ex ey m :
  consistent m -> consistent (PathfindingManager.findPath now sx sy ex ey m).2.
Proof.
  intros Hc. pose proof (findPath_keys now sx sy ex ey m Hc) as Hkeys.
  pose proof (findPath_cityGrid now sx sy ex ey m) as Hgrid.
  destruct Hc as [Hnd Hcap Hsz Hp].
  set (k := PathCache.generateKey sx sy ex ey) in *.
  split.
  - rewrite Hkeys. unfold LRU.touch. destruct (decide (k ∈ _)) as [Hin|Hnin].
    + apply NoDup_app. split_and!; [by apply NoDup_filter | | apply NoDup_singleton].
      intros x Hx Hx'. apply list_elem_of_singleton in Hx'. subst x.
      apply list_elem_of_filter in Hx as [Hx _]. done.
    + apply NoDup_app. split_and!; [| | apply NoDup_singleton].
      * case_match; [|done].
        destruct (PathCache.keys _) as [|a l]; [done|]. simpl.
        by apply NoDup_cons in Hnd as [_ ?].
      * intros x Hx Hx'. apply list_elem_of_singleton in Hx'. subst x.
        case_match; [|done].
        destruct (PathCache.keys _) as [|a l]; [done|]. simpl in Hx.
        apply Hnin. by apply list_elem_of_further.
  - clear Hkeys.
    destruct (PathCache.map_get k (PathCache.cache (PathfindingManager.cache m)))
      as [entry|] eqn:Hget.
    + by rewrite (findPath_hit _ _ _ _ _ _ _ Hget).
    + by rewrite (findPath_miss _ _ _ _ _ _ Hget).
  - unfold PathCache.size, PathCache.keys in *. rewrite <- (length_fmap fst), Hkeys.
    rewrite <- (length_fmap fst) in Hsz.
    unfold LRU.touch. destruct (decide (k ∈ _)) as [Hin|Hnin].
    + rewrite length_app. cbn [length].
      pose proof (LRU.filter_present_length k _ Hnd Hin). lia.
    + rewrite length_app. cbn [length]. case_match eqn:Hle.
      * apply Nat.leb_le in Hle.
        destruct ((PathCache.cache (PathfindingManager.cache m)).*1);
          cbn [length tail] in *; unfold PATH_CACHE_SIZE in *; lia.
      * apply Nat.leb_gt in Hle. lia.
  - rewrite Hgrid. intros k' e. clear Hkeys.
    destruct (PathCache.map_get k (PathCache.cache (PathfindingManager.cache m)))
      as [entry|] eqn:Hget.
    + rewrite (findPath_hit _ _ _ _ _ _ _ Hget). simpl.
      rewrite elem_of_app, list_elem_of_singleton. intros [Hin|[= -> ->]].
      * apply Hp. by eapply PathCache.map_delete_elem.
      * apply Hp. by apply PathCache.map_get_Some.
    + rewrite (findPath_miss _ _ _ _ _ _ Hget). cbn [snd PathfindingManager.cache].
      apply PathCache.map_get_None in Hget.
      rewrite PathCache.set_fresh by done.
      rewrite elem_of_app, list_elem_of_singleton. intros [Hin|[= -> ->]].
      * apply Hp. case_match; [|done].
        destruct (PathCache.cache _); [done|]. by apply list_elem_of_further.
      * by exists sx, sy, ex, ey.
Qed.

(** The states a manager goes through. *)
Inductive reachable : PathfindingManager.t -> Prop :=
| reachable_new g : reachable (PathfindingManager.new g)
| reachable_findPath now sx sy ex ey m :
    reachable m -> reachable (PathfindingManager.findPath now sx sy ex ey m).2
| reachable_updateCityGrid g m :
    reachable m -> reachable (PathfindingManager.updateCityGrid g m)
| reachable_clearCache m :
    reachable m -> reachable (PathfindingManager.clearCache m).

Lemma reachable_consistent m : reachable m -> consistent m.
Proof.
  induction 1.
  - apply consistent_new.
  - by apply consistent_findPath.
  - by apply consistent_updateCityGrid.
  - by apply consistent_clearCache.
Qed.

Lemma path_eq_length p q : path_eq p q -> length p = length q.
Proof. apply Forall2_length. Qed.

Lemma path_eq_last p q w :
  path_eq p q -> last q = Some w -> exists v, last p = Some v /\ wp_eq v w.
Proof.
  induction 1 as [|a b p q Hab Hpq IH]; [done|].
  destruct Hpq as [|a' b' p' q' Hab' Hpq'].
  - simpl. intros [= <-]. by exists a.
  - intros Hl. apply IH. exact Hl.
Qed.

Lemma bfsPathfinding_last g sx sy ex ey :
  last (PathfindingManager.bfsPathfinding g sx sy ex ey) = Some (mkWaypoint ex ey).
Proof.
  unfold PathfindingManager.bfsPathfinding.
  destruct (_ && _); [done|].
  destruct (Search.search _ _ _ _ _ _ _ _) as [[cur|]|]; [|done..].
  apply last_snoc.
Qed.

(** *** C4: a minimum-hop road path *)

(** C4.  On every manager the engine can hold (over a generated grid), when
    start and end round to distinct cells joined by a road path, [findPath]
    returns the waypoints of a road path from the start cell to the end
    cell, followed by [end], and no road path between the two cells has
    fewer hops. *)
Theorem findPath_minimum_hops (now : Z) (m : PathfindingManager.t)
    (startX startY endX endY : Q) (cells : list (Z * Z)) :
  reachable m ->
  wf_grid (PathfindingManager.cityGrid m) ->
  PathfindingManager.start_cell startX startY <> PathfindingManager.start_cell endX endY ->
  PathfindingManager.road_walk (PathfindingManager.cityGrid m)
    (PathfindingManager.start_cell startX startY) cells
    (PathfindingManager.start_cell endX endY) ->
  exists best,
    PathfindingManager.road_walk (PathfindingManager.cityGrid m)
      (PathfindingManager.start_cell startX startY) best
      (PathfindingManager.start_cell endX endY) /\
    path_eq (PathfindingManager.findPath now startX startY endX endY m).1
      ((PathfindingManager.cell_waypoint <$> best) ++ [mkWaypoint endX endY]) /\
    forall cells',
      PathfindingManager.road_walk (PathfindingManager.cityGrid m)
        (PathfindingManager.start_cell startX startY) cells'
        (PathfindingManager.start_cell endX endY) ->
      length best <= length cells'.
Proof.
  intros Hr _ Hne Hwalk.
  pose proof (findPath_transparent now startX startY endX endY m (reachable_consistent m Hr)) as Ht.
  destruct (PathfindingManager.bfsPathfinding_spec (PathfindingManager.cityGrid m)
              startX startY endX endY) as [[Heq _]|[(_ & Hno & _)|(_ & best & Hb & Hp & Hmin)]].
  - done.
  - by destruct (Hno cells).
  - exists best. split_and!; [done | by rewrite <- Hp | done].
Qed.

(** A generated grid where every cell is a road. *)
Definition all_roads : CityGrid := replicate 60 (replicate 60 ROAD).

Lemma all_roads_wf : wf_grid all_roads.
Proof.
  split; [reflexivity|]. intros row Hrow.
  apply elem_of_replicate in Hrow as [-> _]. reflexivity.
Qed.

Lemma findPath_minimum_hops_witness :
  exists best,
    PathfindingManager.road_walk all_roads (0, 0)%Z best (3, 1)%Z /\
    path_eq (PathfindingManager.findPath 0 0 0 95 30 (PathfindingManager.new all_roads)).1
      ((PathfindingManager.cell_waypoint <$> best) ++ [mkWaypoint 95 30]) /\
    forall cells',
      PathfindingManager.road_walk all_roads (0, 0)%Z cells' (3, 1)%Z ->
      length best <= length cells'.
Proof.
  apply (findPath_minimum_hops 0 (PathfindingManager.new all_roads) 0 0 95 30
           [(1, 0); (2, 0); (3, 0); (3, 1)]%Z).
  - apply reachable_new.
  - apply all_roads_wf.
  - discriminate.
  - repeat (apply PathfindingManager.road_walk_cons;
      [reflexivity | split; split; discriminate || reflexivity | reflexivity |]).
    apply PathfindingManager.road_walk_nil.
Defined.

(** *** C5: the result is never empty and ends at [end] *)

(** C5.  On every manager the engine can hold, [findPath] returns a
    non-empty sequence whose last waypoint is [end] itself; when start and
    end round to the same cell, or no road path joins the two cells, the
    result is the single waypoint [end]; so [findPath(p, p)] is [[p]]. *)
Theorem findPath_ends_at_end (now : Z) (m : PathfindingManager.t)
    (startX startY endX endY : Q) :
  reachable m ->
  wf_grid (PathfindingManager.cityGrid m) ->
  (PathfindingManager.findPath now startX startY endX endY m).1 <> [] /\
  (exists w, last (PathfindingManager.findPath now startX startY endX endY m).1 = Some w /\
             wp_eq w (mkWaypoint endX endY)) /\
  (PathfindingManager.start_cell startX startY = PathfindingManager.start_cell endX endY ->
   path_eq (PathfindingManager.findPath now startX startY endX endY m).1
     [mkWaypoint endX endY]) /\
  ((forall cells, ~ PathfindingManager.road_walk (PathfindingManager.cityGrid m)
      (PathfindingManager.start_cell startX startY) cells
      (PathfindingManager.start_cell endX endY)) ->
   path_eq (PathfindingManager.findPath now startX startY endX endY m).1
     [mkWaypoint endX endY]) /\
  path_eq (PathfindingManager.findPath now endX endY endX endY m).1 [mkWaypoint endX endY].
Proof.
  intros Hr _. pose proof (reachable_consistent m Hr) as Hc.
  pose proof (findPath_transparent now startX startY endX endY m Hc) as Ht.
  pose proof (bfsPathfinding_last (PathfindingManager.cityGrid m) startX startY endX endY) as Hl.
  assert (Hsame : forall sx sy,
    PathfindingManager.start_cell sx sy = PathfindingManager.start_cell endX endY ->
    path_eq (PathfindingManager.findPath now sx sy endX endY m).1 [mkWaypoint endX endY]).
  { intros sx sy Heq.
    pose proof (findPath_transparent now sx sy endX endY m Hc) as Ht'.
    destruct (PathfindingManager.bfsPathfinding_spec (PathfindingManager.cityGrid m)
                sx sy endX endY) as [[_ Hp]|[(Hne & _)|(Hne & _)]]; [|done..].
    by rewrite <- Hp. }
  split_and!.
  - intros Hnil. rewrite Hnil in Ht. apply path_eq_length in Ht.
    destruct (PathfindingManager.bfsPathfinding _ _ _ _ _); done.
  - by eapply path_eq_last.
  - apply Hsame.
  - intros Hno.
    destruct (PathfindingManager.bfsPathfinding_spec (PathfindingManager.cityGrid m)
                startX startY endX endY) as [[_ Hp]|[(_ & _ & Hp)|(_ & best & Hb & _)]].
    + by rewrite <- Hp.
    + by rewrite <- Hp.
    + by destruct (Hno best).
  - by apply Hsame.
Qed.

(** A generated grid without any road. *)
Definition no_roads : CityGrid := replicate 60 (replicate 60 EMPTY).

Lemma no_roads_wf : wf_grid no_roads.
Proof.
  split; [reflexivity|]. intros row Hrow.
  apply elem_of_replicate in Hrow as [-> _]. reflexivity.
Qed.

Lemma findPath_ends_at_end_witness :
  (PathfindingManager.findPath 0 0 0 95 30 (PathfindingManager.new no_roads)).1 <> [] /\
  (exists w, last (PathfindingManager.findPath 0 0 0 95 30
                     (PathfindingManager.new no_roads)).1 = Some w /\
             wp_eq w (mkWaypoint 95 30)) /\
  (PathfindingManager.start_cell 0 0 = PathfindingManager.start_cell 95 30 ->
   path_eq (PathfindingManager.findPath 0 0 0 95 30 (PathfindingManager.new no_roads)).1
     [mkWaypoint 95 30]) /\
  ((forall cells, ~ PathfindingManager.road_walk no_roads
      (PathfindingManager.start_cell 0 0) cells (PathfindingManager.start_cell 95 30)) ->
   path_eq (PathfindingManager.findPath 0 0 0 95 30 (PathfindingManager.new no_roads)).1
     [mkWaypoint 95 30]) /\
  path_eq (PathfindingManager.findPath 0 95 30 95 30 (PathfindingManager.new no_roads)).1
    [mkWaypoint 95 30].
Proof.
  apply (findPath_ends_at_end 0 (PathfindingManager.new no_roads) 0 0 95 30).
  - apply reachable_new.
  - apply no_roads_wf.
Defined.

(** *** C9: the cache is transparent and bounded *)



(** A call of [findPath]: the clock value and the four coordinates. *)
Definition Call : Type := Z * Q * Q * Q * Q.



Definition call (c : Call) (m : PathfindingManager.t) : list Waypoint * PathfindingManager.t :=
  let '(now, sx, sy, ex, ey) := c in PathfindingManager.findPath now sx sy ex ey m.










(** ** SpatialIndex.ts *)

Module SpatialIndex.

(** [stopsByGridCell], keyed by the string [x,y] of the cell. *)
Definition cell_stops (index : gmap (Z * Z) (list Stop)) (key : Z * Z) : list Stop :=
  default [] (index !! key).

Definition add_stop (index : gmap (Z * Z) (list Stop)) (stop : Stop) : gmap (Z * Z) (list Stop) :=
  let key := stop_key stop in
  <[key := cell_stops index key ++ [stop]]> index.

Definition rebuildIndex (routes : list Route) : gmap (Z * Z) (list Stop) :=
  foldl (fun index route => foldl add_stop index (stops route)) ∅ routes.

(** The square of [distance]: the source only compares distances. *)
Definition distance_sq (x1 y1 x2 y2 : Q) : Q :=
  let dx := (x2 - x1)%Q in
  let dy := (y2 - y1)%Q in
  (dx * dx + dy * dy)%Q.

Definition stop_distance_sq (pixelX pixelY : Q) (stop : Stop) : Q :=
  distance_sq pixelX pixelY (inject_Z (stop_x stop * GRID_SIZE)) (inject_Z (stop_y stop * GRID_SIZE)).

(** [findClosest]; [minDist] is [None] while it is [Infinity]. *)
Definition closer (pixelX pixelY : Q) (acc : option Stop * option Q) (stop : Stop)
    : option Stop * option Q :=
  let dist := stop_distance_sq pixelX pixelY stop in
  match acc.2 with
  | None => (Some stop, Some dist)
  | Some minDist => if Qlt_le_dec dist minDist then (Some stop, Some dist) else acc
  end.

Definition findClosest (stops0 : list Stop) (pixelX pixelY : Q) : option Stop :=
  (foldl (closer pixelX pixelY) (None, None) stops0).1.

(** The offsets the two nested loops of [getStopsInRadius] keep. *)
Definition perimeter (radius : Z) : list (Z * Z) :=
  dx ← seqZ (- radius) (2 * radius + 1);
  dy ← seqZ (- radius) (2 * radius + 1);
  if (Z.abs dx =? radius)%Z || (Z.abs dy =? radius)%Z then [(dx, dy)] else [].

Definition in_bounds (x y : Z) : bool :=
  (0 <=? x)%Z && (x <? COLS)%Z && (0 <=? y)%Z && (y <? ROWS)%Z.

Definition getStopsInRadius (index : gmap (Z * Z) (list Stop)) (centerX centerY : Z)
    (radius : Z) : list Stop :=
  if (radius =? 0)%Z then cell_stops index (centerX, centerY)
  else
    d ← perimeter radius;
    let x := (centerX + d.1)%Z in
    let y := (centerY + d.2)%Z in
    if in_bounds x y then cell_stops index (x, y) else [].

(** [Math.ceil(Math.sqrt(COLS * COLS + ROWS * ROWS))] *)
Definition maxRadius : nat :=
  let n := (COLS * COLS + ROWS * ROWS)%Z in
  let s := Z.sqrt n in
  Z.to_nat (if (s * s =? n)%Z then s else s + 1).

(** The [for] loop over the radius: [count] iterations from [radius]. *)
Fixpoint search_rings (index : gmap (Z * Z) (list Stop)) (gridX gridY : Z)
    (pixelX pixelY : Q) (radius : Z) (count : nat) : option Stop :=
  match count with
  | O => None
  | S count' =>
      let stops0 := getStopsInRadius index gridX gridY radius in
      if (0 <? length stops0)%nat then findClosest stops0 pixelX pixelY
      else search_rings index gridX gridY pixelX pixelY (radius + 1) count'
  end.

Definition out_of_bounds (pixelX pixelY : Q) : bool :=
  let canvasSize := inject_Z (COLS * GRID_SIZE) in
  (if Qlt_le_dec pixelX 0 then true else false) ||
  (if Qlt_le_dec pixelY 0 then true else false) ||
  (if Qlt_le_dec pixelX canvasSize then false else true) ||
  (if Qlt_le_dec pixelY canvasSize then false else true).

Definition findNearestStop (index : gmap (Z * Z) (list Stop)) (pixelX pixelY : Q)
    : option Stop :=
  if out_of_bounds pixelX pixelY then None
  else
    let gridX := cell_of pixelX in
    let gridY := cell_of pixelY in
    search_rings index gridX gridY pixelX pixelY 0 maxRadius.

Lemma index_add_stops_spec index l k s :
  s ∈ cell_stops (foldl add_stop index l) k <->
  s ∈ cell_stops index k \/ (stop_key s = k /\ s ∈ l).
Proof.
  revert index. induction l as [|a l IH]; intros index; simpl.
  - split; [by left|]. intros [?|[_ H]]; [done | by apply elem_of_nil in H].
  - rewrite IH. unfold add_stop at 1, cell_stops at 1.
    rewrite lookup_insert. destruct (decide (stop_key a = k)) as [<-|Hne]; simpl.
    + rewrite elem_of_app, list_elem_of_singleton, elem_of_cons. split.
      * intros [[?| ->]|[? ?]]; [by left | right | right]; split; auto.
      * intros [?|[Hk [->|?]]]; [by left; left | by left; right | by right; split].
    + fold (cell_stops index k). rewrite elem_of_cons. split.
      * intros [?|[? ?]]; [by left | right; split; auto].
      * intros [?|[Hk [->|?]]]; [by left | done | by right].
Qed.

(** The index holds every stop of every route under its own cell. *)
Lemma rebuildIndex_spec routes k s :
  s ∈ cell_stops (rebuildIndex routes) k <->
  stop_key s = k /\ exists route, route ∈ routes /\ s ∈ stops route.
Proof.
  unfold rebuildIndex. induction routes as [|route routes IH] using rev_ind.
  - simpl. unfold cell_stops. rewrite lookup_empty. simpl. split.
    + intros H. by apply elem_of_nil in H.
    + intros [_ (route & H & _)]. by apply elem_of_nil in H.
  - rewrite foldl_snoc, index_add_stops_spec, IH. split.
    + intros [[Hk (rt & Hrt & Hs)]|[Hk Hs]].
      * split; [done|]. exists rt. split; [|done]. rewrite elem_of_app. by left.
      * split; [done|]. exists route. split; [|done].
        rewrite elem_of_app, list_elem_of_singleton. by right.
    + intros [Hk (rt & Hrt & Hs)]. apply elem_of_app in Hrt as [Hrt|Hrt].
      * left. split; [done|]. by exists rt.
      * apply list_elem_of_singleton in Hrt. subst rt. by right.
Qed.

(** Chebyshev distance between two cells. *)
Definition chebyshev (a b : Z * Z) : Z :=
  Z.max (Z.abs (a.1 - b.1)) (Z.abs (a.2 - b.2)).

Lemma perimeter_spec radius dx dy :
  (0 <= radius)%Z ->
  (dx, dy) ∈ perimeter radius <-> Z.max (Z.abs dx) (Z.abs dy) = radius.
Proof.
  intros Hr. unfold perimeter. rewrite list_elem_of_bind. split.
  - intros (x & Hy & Hx). apply list_elem_of_bind in Hy as (y & Hxy & Hy).
    apply elem_of_seqZ in Hx, Hy.
    destruct ((Z.abs x =? radius)%Z || (Z.abs y =? radius)%Z) eqn:Hp.
    + apply list_elem_of_singleton in Hxy. inversion Hxy; subst.
      apply orb_true_iff in Hp. rewrite !Z.eqb_eq in Hp. lia.
    + by apply elem_of_nil in Hxy.
  - intros Hmax. exists dx. split; [|apply elem_of_seqZ; lia].
    apply list_elem_of_bind. exists dy. split; [|apply elem_of_seqZ; lia].
    assert ((Z.abs dx =? radius)%Z || (Z.abs dy =? radius)%Z = true) as ->.
    { apply orb_true_iff. rewrite !Z.eqb_eq. lia. }
    apply list_elem_of_here.
Qed.

(** A ring holds the stops of the cells at Chebyshev distance exactly
    [radius] from the centre, within the grid when [radius] is not 0. *)
Lemma getStopsInRadius_spec index centerX centerY radius s :
  (0 <= radius)%Z ->
  s ∈ getStopsInRadius index centerX centerY radius <->
  exists cell,
    chebyshev cell (centerX, centerY) = radius /\
    (radius = 0%Z \/ PathfindingManager.in_grid cell) /\
    s ∈ cell_stops index cell.
Proof.
  intros Hr. unfold getStopsInRadius, chebyshev.
  destruct (radius =? 0)%Z eqn:H0.
  - apply Z.eqb_eq in H0. subst radius. split.
    + intros Hs. exists (centerX, centerY). simpl. split_and!; [lia | by left | done].
    + intros ([x y] & Hc & _ & Hs). simpl in Hc.
      assert (x = centerX /\ y = centerY) as [-> ->] by lia. done.
  - apply Z.eqb_neq in H0. rewrite list_elem_of_bind. split.
    + intros ([dx dy] & Hs & Hd). simpl in Hs.
      apply perimeter_spec in Hd; [|done].
      destruct (in_bounds (centerX + dx) (centerY + dy)) eqn:Hb; [|by apply elem_of_nil in Hs].
      exists ((centerX + dx)%Z, (centerY + dy)%Z). simpl. split_and!; [lia | | done].
      right. unfold in_bounds in Hb. rewrite !andb_true_iff, !Z.leb_le, !Z.ltb_lt in Hb.
      unfold PathfindingManager.in_grid. simpl. lia.
    + intros ([x y] & Hc & [?|[Hx Hy]] & Hs); [done|]. simpl in *.
      exists ((x - centerX)%Z, (y - centerY)%Z). split.
      * simpl. replace (centerX + (x - centerX))%Z with x by lia.
        replace (centerY + (y - centerY))%Z with y by lia.
        assert (in_bounds x y = true) as ->; [|done].
        unfold in_bounds. rewrite !andb_true_iff, !Z.leb_le, !Z.ltb_lt. lia.
      * apply perimeter_spec; [done | lia].
Qed.

Lemma closer_fold pixelX pixelY l acc :
  (acc = (None, None) \/
   exists s, acc = (Some s, Some (stop_distance_sq pixelX pixelY s))) ->
  let r := foldl (closer pixelX pixelY) acc l in
  (l = [] /\ r = acc) \/
  exists s, r = (Some s, Some (stop_distance_sq pixelX pixelY s)) /\
    (s ∈ l \/ acc.1 = Some s) /\
    (forall s', s' ∈ l -> stop_distance_sq pixelX pixelY s <= stop_distance_sq pixelX pixelY s')%Q /\
    (forall s0, acc.1 = Some s0 ->
       stop_distance_sq pixelX pixelY s <= stop_distance_sq pixelX pixelY s0)%Q.
Proof.
  revert acc. induction l as [|a l IH]; intros acc Hacc; simpl.
  - destruct Hacc as [->|(s & ->)]; [by left|]. left. done.
  - right.
    assert (Hnext : exists s1, closer pixelX pixelY acc a
                = (Some s1, Some (stop_distance_sq pixelX pixelY s1)) /\
              (s1 = a \/ acc.1 = Some s1) /\
              (stop_distance_sq pixelX pixelY s1 <= stop_distance_sq pixelX pixelY a)%Q /\
              (forall s0, acc.1 = Some s0 ->
                 stop_distance_sq pixelX pixelY s1 <= stop_distance_sq pixelX pixelY s0)%Q).
    { unfold closer. destruct Hacc as [->|(s & ->)]; simpl.
      - exists a. split_and!; [done | by left | apply Qle_refl | done].
      - destruct (Qlt_le_dec _ _) as [Hlt|Hle].
        + exists a. split_and!; [done | by left | apply Qle_refl |].
          intros s0 [= <-]. by apply Qlt_le_weak.
        + exists s. split_and!; [done | by right | done |].
          intros s0 [= <-]. apply Qle_refl. }
    destruct Hnext as (s1 & Hc & Hs1 & Hle1 & Hacc1).
    destruct (IH (closer pixelX pixelY acc a)) as [[-> Hr]|(s & Hr & Hs & Hall & Hprev)].
    { right. by exists s1. }
    + simpl. exists s1. rewrite Hc. split_and!; [done | | | done].
      * destruct Hs1 as [->|?]; [left; apply list_elem_of_here | by right].
      * intros s' Hs'. apply list_elem_of_singleton in Hs'. by subst.
    + exists s. rewrite Hc in Hprev, Hs. simpl in *.
      specialize (Hprev s1 eq_refl).
      split_and!; [done | | |].
      * destruct Hs as [?|[= ->]]; [left; by apply list_elem_of_further|].
        destruct Hs1 as [->|?]; [left; apply list_elem_of_here | by right].
      * intros s' Hs'. apply elem_of_cons in Hs' as [->|Hs']; [|by apply Hall].
        by eapply Qle_trans.
      * intros s0 Hs0. eapply Qle_trans; [done|]. by apply Hacc1.
Qed.

(** [findClosest] picks a candidate of least distance. *)
Lemma findClosest_spec stops0 pixelX pixelY :
  stops0 <> [] ->
  exists s, findClosest stops0 pixelX pixelY = Some s /\ s ∈ stops0 /\
    forall s', s' ∈ stops0 ->
      (stop_distance_sq pixelX pixelY s <= stop_distance_sq pixelX pixelY s')%Q.
Proof.
  intros Hne. unfold findClosest.
  destruct (closer_fold pixelX pixelY stops0 (None, None)) as [[? _]|(s & Hr & Hs & Hall & _)];
    [by left | done |].
  exists s. rewrite Hr. split_and!; [done | | done].
  by destruct Hs as [?|?].
Qed.

Lemma search_rings_spec index gridX gridY pixelX pixelY radius count :
  match search_rings index gridX gridY pixelX pixelY radius count with
  | Some s =>
      exists i, i < count /\
        (forall j, j < i -> getStopsInRadius index gridX gridY (radius + Z.of_nat j) = []) /\
        s ∈ getStopsInRadius index gridX gridY (radius + Z.of_nat i) /\
        forall s', s' ∈ getStopsInRadius index gridX gridY (radius + Z.of_nat i) ->
          (stop_distance_sq pixelX pixelY s <= stop_distance_sq pixelX pixelY s')%Q
  | None =>
      forall j, j < count -> getStopsInRadius index gridX gridY (radius + Z.of_nat j) = []
  end.
Proof.
  revert radius. induction count as [|count IH]; intros radius; simpl.
  - intros j Hj. lia.
  - destruct (getStopsInRadius index gridX gridY radius) as [|s0 l] eqn:Hring; simpl.
    + specialize (IH (radius + 1)%Z).
      destruct (search_rings index gridX gridY pixelX pixelY (radius + 1) count) as [s|].
      * destruct IH as (i & Hi & Hempty & Hs & Hmin).
        exists (S i). replace (radius + Z.of_nat (S i))%Z with (radius + 1 + Z.of_nat i)%Z by lia.
        split_and!; [lia | | done | done].
        intros [|j] Hj; [by rewrite Z.add_0_r|].
        replace (radius + Z.of_nat (S j))%Z with (radius + 1 + Z.of_nat j)%Z by lia.
        apply Hempty. lia.
      * intros [|j] Hj; [by rewrite Z.add_0_r|].
        replace (radius + Z.of_nat (S j))%Z with (radius + 1 + Z.of_nat j)%Z by lia.
        apply IH. lia.
    + destruct (findClosest_spec (s0 :: l) pixelX pixelY) as (s & -> & Hs & Hmin); [done|].
      exists 0. rewrite Z.add_0_r, Hring. split_and!; [lia | | done | done].
      intros j Hj. lia.
Qed.

Lemma cell_of_bounds v :
  (0 <= v)%Q -> (v < inject_Z (COLS * GRID_SIZE))%Q -> (0 <= cell_of v <= COLS)%Z.
Proof.
  intros H0 H1. unfold cell_of.
  change (inject_Z (COLS * GRID_SIZE)) with (1800 # 1)%Q in H1.
  assert (Hlo : (0 <= v / inject_Z GRID_SIZE + (1 # 2))%Q).
  { unfold Qdiv. change (/ inject_Z GRID_SIZE)%Q with (1 # 30)%Q. lra. }
  assert (Hhi : (v / inject_Z GRID_SIZE + (1 # 2) < inject_Z (COLS + 1))%Q).
  { unfold Qdiv. change (/ inject_Z GRID_SIZE)%Q with (1 # 30)%Q.
    change (inject_Z (COLS + 1)) with (61 # 1)%Q. lra. }
  split.
  - apply Qfloor_resp_le in Hlo. exact Hlo.
  - pose proof (Qfloor_le (v / inject_Z GRID_SIZE + (1 # 2))) as Hfl.
    assert (Hlt : (inject_Z (Qfloor (v / inject_Z GRID_SIZE + (1 # 2))) < inject_Z (COLS + 1))%Q)
      by (eapply Qle_lt_trans; eassumption).
    rewrite <- Zlt_Qlt in Hlt. lia.
Qed.

(** *** The distance as the code computes it

    [distance] returns [Math.sqrt(dx * dx + dy * dy)] with every operation
    rounded to a double, and [findClosest] compares the rounded values with
    [<].  [closer] above compares the exact squares, which orders two
    candidates as the code does unless their distances are so close that
    the rounded values coincide.  The search is given here over the value
    [distance] returns, whatever it is; [double_distance] is that value in
    double precision. *)

Section Distance.

Variable distance : Q -> Q -> Q -> Q -> Q.

Definition stop_distance (pixelX pixelY : Q) (stop : Stop) : Q :=
  distance pixelX pixelY (inject_Z (stop_x stop * GRID_SIZE)) (inject_Z (stop_y stop * GRID_SIZE)).

Definition closer_by (pixelX pixelY : Q) (acc : option Stop * option Q) (stop : Stop)
    : option Stop * option Q :=
  let dist := stop_distance pixelX pixelY stop in
  match acc.2 with
  | None => (Some stop, Some dist)
  | Some minDist => if Qlt_le_dec dist minDist then (Some stop, Some dist) else acc
  end.

Definition findClosest_by (stops0 : list Stop) (pixelX pixelY : Q) : option Stop :=
  (foldl (closer_by pixelX pixelY) (None, None) stops0).1.

Fixpoint search_rings_by (index : gmap (Z * Z) (list Stop)) (gridX gridY : Z)
    (pixelX pixelY : Q) (radius : Z) (count : nat) : option Stop :=
  match count with
  | O => None
  | S count' =>
      let stops0 := getStopsInRadius index gridX gridY radius in
      if (0 <? length stops0)%nat then findClosest_by stops0 pixelX pixelY
      else search_rings_by index gridX gridY pixelX pixelY (radius + 1) count'
  end.

Definition findNearestStop_by (index : gmap (Z * Z) (list Stop)) (pixelX pixelY : Q)
    : option Stop :=
  if out_of_bounds pixelX pixelY then None
  else
    let gridX := cell_of pixelX in
    let gridY := cell_of pixelY in
    search_rings_by index gridX gridY pixelX pixelY 0 maxRadius.

(** [findClosest] returns the first candidate, in the order of the list,
    whose distance is least. *)
Lemma closer_by_fold pixelX pixelY l :
  let r := foldl (closer_by pixelX pixelY) (None, None) l in
  (l = [] /\ r = (None, None)) \/
  exists i s, r = (Some s, Some (stop_distance pixelX pixelY s)) /\
    l !! i = Some s /\
    (forall j s', l !! j = Some s' ->
       (stop_distance pixelX pixelY s <= stop_distance pixelX pixelY s')%Q) /\
    (forall j s', j < i -> l !! j = Some s' ->
       (stop_distance pixelX pixelY s < stop_distance pixelX pixelY s')%Q).
Proof.
  induction l as [|a l IH] using rev_ind; [by left|]. right.
  rewrite foldl_snoc. cbv zeta in IH.
  destruct IH as [[-> ->]|(i & s & -> & Hi & Hmin & Hfirst)].
  - exists 0, a. unfold closer_by. simpl. split_and!; [done | done | |].
    + intros [|j] s' Hj; simplify_eq/=. apply Qle_refl.
    + intros j s' Hj. lia.
  - unfold closer_by. simpl.
    destruct (Qlt_le_dec (stop_distance pixelX pixelY a) (stop_distance pixelX pixelY s))
      as [Hlt|Hle].
    + exists (length l), a. split_and!; [done | by rewrite list_lookup_middle | |].
      * intros j s' Hj. apply lookup_app_Some in Hj as [Hj|[_ Hj]].
        -- apply Qlt_le_weak. eapply Qlt_le_trans; [done | by eapply Hmin].
        -- apply list_lookup_singleton_Some in Hj as [_ <-]. apply Qle_refl.
      * intros j s' Hlen Hj. rewrite lookup_app_l in Hj by done.
        eapply Qlt_le_trans; [done | by eapply Hmin].
    + exists i, s. pose proof (lookup_lt_Some _ _ _ Hi) as Hlen.
      split_and!; [done | by rewrite lookup_app_l | |].
      * intros j s' Hj. apply lookup_app_Some in Hj as [Hj|[_ Hj]]; [by eapply Hmin|].
        apply list_lookup_singleton_Some in Hj as [_ <-]. done.
      * intros j s' Hji Hj. rewrite lookup_app_l in Hj by lia. by eapply Hfirst.
Qed.

Lemma findClosest_by_spec stops0 pixelX pixelY :
  stops0 <> [] ->
  exists i s, findClosest_by stops0 pixelX pixelY = Some s /\
    stops0 !! i = Some s /\
    (forall j s', stops0 !! j = Some s' ->
       (stop_distance pixelX pixelY s <= stop_distance pixelX pixelY s')%Q) /\
    (forall j s', j < i -> stops0 !! j = Some s' ->
       (stop_distance pixelX pixelY s < stop_distance pixelX pixelY s')%Q).
Proof.
  intros Hne. unfold findClosest_by.
  destruct (closer_by_fold pixelX pixelY stops0) as [[? _]|(i & s & -> & H)]; [done|].
  by exists i, s.
Qed.

Lemma search_rings_by_spec index gridX gridY pixelX pixelY radius count :
  match search_rings_by index gridX gridY pixelX pixelY radius count with
  | Some s =>
      exists k i, k < count /\
        (forall j, j < k -> getStopsInRadius index gridX gridY (radius + Z.of_nat j) = []) /\
        getStopsInRadius index gridX gridY (radius + Z.of_nat k) !! i = Some s /\
        (forall j s', getStopsInRadius index gridX gridY (radius + Z.of_nat k) !! j = Some s' ->
           (stop_distance pixelX pixelY s <= stop_distance pixelX pixelY s')%Q) /\
        (forall j s', j < i ->
           getStopsInRadius index gridX gridY (radius + Z.of_nat k) !! j = Some s' ->
           (stop_distance pixelX pixelY s < stop_distance pixelX pixelY s')%Q)
  | None =>
      forall j, j < count -> getStopsInRadius index gridX gridY (radius + Z.of_nat j) = []
  end.
Proof.
  revert radius. induction count as [|count IH]; intros radius; simpl.
  - intros j Hj. lia.
  - destruct (getStopsInRadius index gridX gridY radius) as [|s0 l] eqn:Hring; simpl.
    + specialize (IH (radius + 1)%Z).
      destruct (search_rings_by index gridX gridY pixelX pixelY (radius + 1) count) as [s|].
      * destruct IH as (k & i & Hk & Hempty & Hs & Hmin & Hfirst).
        exists (S k), i.
        replace (radius + Z.of_nat (S k))%Z with (radius + 1 + Z.of_nat k)%Z by lia.
        split_and!; [lia | | done | done | done].
        intros [|j] Hj; [by rewrite Z.add_0_r|].
        replace (radius + Z.of_nat (S j))%Z with (radius + 1 + Z.of_nat j)%Z by lia.
        apply Hempty. lia.
      * intros [|j] Hj; [by rewrite Z.add_0_r|].
        replace (radius + Z.of_nat (S j))%Z with (radius + 1 + Z.of_nat j)%Z by lia.
        apply IH. lia.
    + destruct (findClosest_by_spec (s0 :: l) pixelX pixelY)
        as (i & s & -> & Hs & Hmin & Hfirst); [done|].
      exists 0, i. rewrite Z.add_0_r, Hring. split_and!; [lia | | done | done | done].
      intros j Hj. lia.
Qed.

End Distance.

(** With the exact squares for [distance] the search is the one above. *)
Lemma findNearestStop_by_squares index pixelX pixelY :
  findNearestStop_by distance_sq index pixelX pixelY = findNearestStop index pixelX pixelY.
Proof.
  unfold findNearestStop_by, findNearestStop. destruct (out_of_bounds pixelX pixelY); [done|].
  cbv zeta. generalize 0%Z. generalize maxRadius.
  induction n as [|n IH]; intros radius; simpl; [done|]. by rewrite IH.
Qed.

(** A double as a rational and back.  [Q2double] is used on values that
    are doubles: the quotient of two integers below 2^53 is then exact. *)
Definition Z2double (z : Z) : PrimFloat.float :=
  match z with
  | Z0 => PrimFloat.zero
  | Zpos _ => PrimFloat.of_uint63 (Uint63.of_Z z)
  | Zneg p => PrimFloat.opp (PrimFloat.of_uint63 (Uint63.of_Z (Zpos p)))
  end.

Definition Q2double (q : Q) : PrimFloat.float :=
  PrimFloat.div (Z2double (Qnum q)) (Z2double (Zpos (Qden q))).

(** The value of a finite double ([Math.sqrt] of a sum of squares of
    canvas coordinates is finite). *)
Definition double2Q (f : PrimFloat.float) : Q :=
  match FloatOps.Prim2SF f with
  | SpecFloat.S754_finite sign m e =>
      ((if sign then -1 else 1) * inject_Z (Zpos m) * 2 ^ e)%Q
  | _ => 0%Q
  end.

(** [distance(x1, y1, x2, y2)] in double precision. *)
Definition double_distance (x1 y1 x2 y2 : Q) : Q :=
  let dx := PrimFloat.sub (Q2double x2) (Q2double x1) in
  let dy := PrimFloat.sub (Q2double y2) (Q2double y1) in
  double2Q (PrimFloat.sqrt (PrimFloat.add (PrimFloat.mul dx dx) (PrimFloat.mul dy dy))).

End SpatialIndex.

(** *** C6: the expanding ring search *)

Lemma Qlt_dec_true (a b : Q) :
  (if Qlt_le_dec a b then true else false) = true <-> (a < b)%Q.
Proof.
  destruct (Qlt_le_dec a b) as [Hlt|Hle]; split; try done.
  intros Hlt. by apply Qlt_not_le in Hlt.
Qed.

Lemma Qlt_dec_false (a b : Q) :
  (if Qlt_le_dec a b then false else true) = true <-> (b <= a)%Q.
Proof.
  destruct (Qlt_le_dec a b) as [Hlt|Hle]; split; try done.
  intros Hle. by apply Qlt_not_le in Hlt.
Qed.

Lemma out_of_bounds_true pixelX pixelY :
  SpatialIndex.out_of_bounds pixelX pixelY = true <->
  (pixelX < 0 \/ pixelY < 0 \/
   inject_Z (COLS * GRID_SIZE) <= pixelX \/ inject_Z (COLS * GRID_SIZE) <= pixelY)%Q.
Proof.
  unfold SpatialIndex.out_of_bounds.
  rewrite !orb_true_iff, !Qlt_dec_true, !Qlt_dec_false. tauto.
Qed.

(** C6.  The index is the one [rebuildIndex] builds from routes whose stops
    lie on the grid, and [distance] is the value the method [distance]
    returns, whatever its rounding.  A ring of radius [r] around the query's
    cell holds exactly the stops at Chebyshev distance [r] from it.  An
    out-of-bounds query returns null.  An in-bounds query returns a stop of
    the first non-empty ring among the radii 0, 1, ... below [maxRadius]
    (the grid diagonal, 85): the first one, in the order the ring is
    scanned, whose computed distance to the query point is least among the
    stops of that ring.  It is a stop of least true Euclidean distance when
    the computed distances of the ring's stops are ordered as the true ones
    are.  Null is returned only when the index holds no stop. *)
Theorem findNearestStop_ring_search (distance : Q -> Q -> Q -> Q -> Q)
    (routes : list Route) (pixelX pixelY : Q) :
  (forall route s, route ∈ routes -> s ∈ stops route ->
     PathfindingManager.in_grid (stop_key s)) ->
  let index := SpatialIndex.rebuildIndex routes in
  let ring := SpatialIndex.getStopsInRadius index (cell_of pixelX) (cell_of pixelY) in
  let dist := SpatialIndex.stop_distance distance pixelX pixelY in
  (forall radius s, (0 <= radius)%Z ->
     s ∈ ring radius <->
     (exists route, route ∈ routes /\ s ∈ stops route) /\
     SpatialIndex.chebyshev (stop_key s) (cell_of pixelX, cell_of pixelY) = radius) /\
  (SpatialIndex.out_of_bounds pixelX pixelY = true ->
   SpatialIndex.findNearestStop_by distance index pixelX pixelY = None) /\
  (SpatialIndex.out_of_bounds pixelX pixelY = false ->
   match SpatialIndex.findNearestStop_by distance index pixelX pixelY with
   | Some s =>
       exists radius i : nat,
         radius < SpatialIndex.maxRadius /\
         (forall r : nat, r < radius -> ring (Z.of_nat r) = []) /\
         ring (Z.of_nat radius) !! i = Some s /\
         (forall j s', ring (Z.of_nat radius) !! j = Some s' -> (dist s <= dist s')%Q) /\
         (forall j s', j < i -> ring (Z.of_nat radius) !! j = Some s' ->
            (dist s < dist s')%Q) /\
         ((forall a b, a ∈ ring (Z.of_nat radius) -> b ∈ ring (Z.of_nat radius) ->
             (SpatialIndex.stop_distance_sq pixelX pixelY a
              < SpatialIndex.stop_distance_sq pixelX pixelY b)%Q ->
             (dist a < dist b)%Q) ->
          forall s', s' ∈ ring (Z.of_nat radius) ->
            (SpatialIndex.stop_distance_sq pixelX pixelY s
             <= SpatialIndex.stop_distance_sq pixelX pixelY s')%Q)
   | None => forall key, SpatialIndex.cell_stops index key = []
   end).
Proof.
  intros Hgrid index ring dist.
  assert (Hring : forall radius s, (0 <= radius)%Z ->
     s ∈ ring radius <->
     (exists route, route ∈ routes /\ s ∈ stops route) /\
     SpatialIndex.chebyshev (stop_key s) (cell_of pixelX, cell_of pixelY) = radius).
  { intros radius s Hr. unfold ring. rewrite SpatialIndex.getStopsInRadius_spec by done. split.
    - intros (cell & Hc & _ & Hs). apply SpatialIndex.rebuildIndex_spec in Hs as [<- Hs]. done.
    - intros [(route & Hrt & Hs) Hc]. exists (stop_key s). split_and!; [done | |].
      + right. by eapply Hgrid.
      + apply SpatialIndex.rebuildIndex_spec. split; [done|]. by exists route. }
  split_and!; [exact Hring | |].
  - intros Hout. unfold SpatialIndex.findNearestStop_by. by rewrite Hout.
  - intros Hin. unfold SpatialIndex.findNearestStop_by. rewrite Hin.
    pose proof (SpatialIndex.search_rings_by_spec distance index
      (cell_of pixelX) (cell_of pixelY) pixelX pixelY 0 SpatialIndex.maxRadius) as Hs.
    destruct (SpatialIndex.search_rings_by _ _ _ _ _ _ _ _) as [s|].
    + destruct Hs as (k & i & Hk & Hempty & Hs & Hmin & Hfirst). exists k, i.
      rewrite Z.add_0_l in Hs, Hmin, Hfirst. fold ring in Hs, Hmin, Hfirst.
      split_and!; [done | | done | done | done |].
      * intros r Hr. specialize (Hempty r Hr). by rewrite Z.add_0_l in Hempty.
      * intros Hkeeps s' Hs'. apply list_elem_of_lookup in Hs' as [j Hj].
        destruct (Qlt_le_dec (SpatialIndex.stop_distance_sq pixelX pixelY s')
                    (SpatialIndex.stop_distance_sq pixelX pixelY s)) as [Hlt|Hle]; [|done].
        exfalso. apply (Qlt_not_le _ _ (Hkeeps s' s (list_elem_of_lookup_2 _ _ _ Hj)
                                         (list_elem_of_lookup_2 _ _ _ Hs) Hlt)).
        by eapply Hmin.
    + assert (Hb : ~ (pixelX < 0 \/ pixelY < 0 \/
        inject_Z (COLS * GRID_SIZE) <= pixelX \/ inject_Z (COLS * GRID_SIZE) <= pixelY)%Q).
      { rewrite <- out_of_bounds_true. by rewrite Hin. }
      assert (Hx : (0 <= cell_of pixelX <= COLS)%Z).
      { apply SpatialIndex.cell_of_bounds; apply Qnot_lt_le || apply Qnot_le_lt; tauto. }
      assert (Hy : (0 <= cell_of pixelY <= COLS)%Z).
      { apply SpatialIndex.cell_of_bounds; apply Qnot_lt_le || apply Qnot_le_lt; tauto. }
      intros key. destruct (SpatialIndex.cell_stops _ key) as [|s l] eqn:Hcell; [done|].
      exfalso.
      assert (Hsk : s ∈ SpatialIndex.cell_stops index key)
        by (rewrite Hcell; apply list_elem_of_here).
      apply SpatialIndex.rebuildIndex_spec in Hsk as [Hk (route & Hrt & Hsr)].
      pose proof (Hgrid route s Hrt Hsr) as [Hsx Hsy].
      set (d := SpatialIndex.chebyshev (stop_key s) (cell_of pixelX, cell_of pixelY)).
      assert (Hd : (0 <= d < 85)%Z).
      { subst d. unfold SpatialIndex.chebyshev, COLS, ROWS in *. simpl in *. lia. }
      specialize (Hs (Z.to_nat d)).
      rewrite Z.add_0_l, Z2Nat.id in Hs by lia.
      assert (He : s ∈ ring d).
      { apply Hring; [lia|]. split; [by exists route | done]. }
      unfold ring in He. rewrite Hs in He; [by apply elem_of_nil in He|].
      change SpatialIndex.maxRadius with 85. lia.
Qed.

Lemma two_routes_in_grid route s :
  route ∈ two_routes -> s ∈ stops route -> PathfindingManager.in_grid (stop_key s).
Proof.
  unfold two_routes. intros Hr Hs.
  repeat (apply elem_of_cons in Hr as [->|Hr]);
    [| | by apply elem_of_nil in Hr]; simpl in Hs;
    repeat (apply elem_of_cons in Hs as [->|Hs]);
    try (by apply elem_of_nil in Hs); compute; repeat split; discriminate.
Qed.

Lemma findNearestStop_ring_search_witness :
  let index := SpatialIndex.rebuildIndex two_routes in
  let ring := SpatialIndex.getStopsInRadius index (cell_of 150) (cell_of 200) in
  let dist := SpatialIndex.stop_distance SpatialIndex.double_distance 150 200 in
  (forall radius s, (0 <= radius)%Z ->
     s ∈ ring radius <->
     (exists route, route ∈ two_routes /\ s ∈ stops route) /\
     SpatialIndex.chebyshev (stop_key s) (cell_of 150, cell_of 200) = radius) /\
  (SpatialIndex.out_of_bounds 150 200 = true ->
   SpatialIndex.findNearestStop_by SpatialIndex.double_distance index 150 200 = None) /\
  (SpatialIndex.out_of_bounds 150 200 = false ->
   match SpatialIndex.findNearestStop_by SpatialIndex.double_distance index 150 200 with
   | Some s =>
       exists radius i : nat,
         radius < SpatialIndex.maxRadius /\
         (forall r : nat, r < radius -> ring (Z.of_nat r) = []) /\
         ring (Z.of_nat radius) !! i = Some s /\
         (forall j s', ring (Z.of_nat radius) !! j = Some s' -> (dist s <= dist s')%Q) /\
         (forall j s', j < i -> ring (Z.of_nat radius) !! j = Some s' ->
            (dist s < dist s')%Q) /\
         ((forall a b, a ∈ ring (Z.of_nat radius) -> b ∈ ring (Z.of_nat radius) ->
             (SpatialIndex.stop_distance_sq 150 200 a
              < SpatialIndex.stop_distance_sq 150 200 b)%Q ->
             (dist a < dist b)%Q) ->
          forall s', s' ∈ ring (Z.of_nat radius) ->
            (SpatialIndex.stop_distance_sq 150 200 s
             <= SpatialIndex.stop_distance_sq 150 200 s')%Q)
   | None => forall key, SpatialIndex.cell_stops index key = []
   end).
Proof.
  exact (findNearestStop_ring_search SpatialIndex.double_distance two_routes 150 200
           two_routes_in_grid).
Defined.

(** Stops at (0, 2) and (2, 0), and a query at (0.30000000000000004, 0.3):
    both stops lie in the ring of radius 2 around the cell (0, 0), and
    (2, 0) is the nearer one.  In double precision the two distances are
    the same number, so [findClosest] keeps the stop it scanned first,
    (0, 2), the farther one. *)
Definition near_tie_routes : list Route := [mkRoute [mkStop 0 2; mkStop 2 0] [] 0].

Definition near_tie_x : Q := 1351079888211149 # 4503599627370496.

Definition near_tie_y : Q := 5404319552844595 # 18014398509481984.

(** The doubles 0.30000000000000004 and 0.3. *)
Module NearTie.
Import PrimFloat.
Definition x : float := 0x1.3333333333334p-2%float.
Definition y : float := 0x1.3333333333333p-2%float.
End NearTie.

Lemma findNearestStop_near_tie_counterexample :
  SpatialIndex.out_of_bounds near_tie_x near_tie_y = false /\
  (cell_of near_tie_x, cell_of near_tie_y) = (0, 0)%Z /\
  SpatialIndex.getStopsInRadius (SpatialIndex.rebuildIndex near_tie_routes) 0 0 2
  = [mkStop 0 2; mkStop 2 0] /\
  SpatialIndex.Q2double near_tie_x = NearTie.x /\
  SpatialIndex.Q2double near_tie_y = NearTie.y /\
  SpatialIndex.stop_distance SpatialIndex.double_distance near_tie_x near_tie_y (mkStop 0 2)
  = SpatialIndex.stop_distance SpatialIndex.double_distance near_tie_x near_tie_y (mkStop 2 0) /\
  SpatialIndex.findNearestStop_by SpatialIndex.double_distance
    (SpatialIndex.rebuildIndex near_tie_routes) near_tie_x near_tie_y = Some (mkStop 0 2) /\
  (SpatialIndex.stop_distance_sq near_tie_x near_tie_y (mkStop 2 0)
   < SpatialIndex.stop_distance_sq near_tie_x near_tie_y (mkStop 0 2))%Q.
Proof.
  split_and!; try (vm_compute; reflexivity).
Qed.

(** ** Game state (types/game.ts) *)

Record GameStats := mkGameStats {
  tripsCompleted : nat;
  totalWaitTime : Q;
  totalTransportTime : Q;
  npcsGaveUp : nat;
  busUtilizationSamples : nat;
  totalBusUtilization : Q
}.

Record Economics := mkEconomics {
  money : Q;
  totalIncome : Q;
  totalCapitalInvested : Q;
  ticketPrice : Q
}.

(** [npcs] lists references; [objects] is the store the references of
    [npcs] and of every bus's [passengers] point into. *)
Record GameState := mkGameState {
  routes : list Route;
  activeRouteIndex : nat;
  npcs : list npc_ref;
  objects : gmap npc_ref NPC;
  stats : GameStats;
  economics : Economics;
  time : Q
}.

(** Field updates of an NPC object. *)
Definition npc_set_state (st : NPCState) (n : NPC) : NPC :=
  mkNPC (npc_x n) (npc_y n) st (waitTime n) (transportStartTime n) (nearestStop n)
    (atStop n) (originZone n) (destinationZone n) (destinationStop n)
    (finalDestinationStop n) (transferCount n) (maxTransfersWarned n)
    (walkingPath n) (walkingPathIndex n) (plannedRoute n).

Definition npc_set_pos (x y : Q) (n : NPC) : NPC :=
  mkNPC x y (npc_state n) (waitTime n) (transportStartTime n) (nearestStop n)
    (atStop n) (originZone n) (destinationZone n) (destinationStop n)
    (finalDestinationStop n) (transferCount n) (maxTransfersWarned n)
    (walkingPath n) (walkingPathIndex n) (plannedRoute n).

Definition npc_set_waitTime (t : Q) (n : NPC) : NPC :=
  mkNPC (npc_x n) (npc_y n) (npc_state n) t (transportStartTime n) (nearestStop n)
    (atStop n) (originZone n) (destinationZone n) (destinationStop n)
    (finalDestinationStop n) (transferCount n) (maxTransfersWarned n)
    (walkingPath n) (walkingPathIndex n) (plannedRoute n).

Definition npc_set_transportStartTime (t : option Q) (n : NPC) : NPC :=
  mkNPC (npc_x n) (npc_y n) (npc_state n) (waitTime n) t (nearestStop n)
    (atStop n) (originZone n) (destinationZone n) (destinationStop n)
    (finalDestinationStop n) (transferCount n) (maxTransfersWarned n)
    (walkingPath n) (walkingPathIndex n) (plannedRoute n).

Definition npc_set_nearestStop (s : option Stop) (n : NPC) : NPC :=
  mkNPC (npc_x n) (npc_y n) (npc_state n) (waitTime n) (transportStartTime n) s
    (atStop n) (originZone n) (destinationZone n) (destinationStop n)
    (finalDestinationStop n) (transferCount n) (maxTransfersWarned n)
    (walkingPath n) (walkingPathIndex n) (plannedRoute n).

Definition npc_set_atStop (b : bool) (n : NPC) : NPC :=
  mkNPC (npc_x n) (npc_y n) (npc_state n) (waitTime n) (transportStartTime n) (nearestStop n)
    b (originZone n) (destinationZone n) (destinationStop n)
    (finalDestinationStop n) (transferCount n) (maxTransfersWarned n)
    (walkingPath n) (walkingPathIndex n) (plannedRoute n).

Definition npc_set_destinationStop (s : option Stop) (n : NPC) : NPC :=
  mkNPC (npc_x n) (npc_y n) (npc_state n) (waitTime n) (transportStartTime n) (nearestStop n)
    (atStop n) (originZone n) (destinationZone n) s
    (finalDestinationStop n) (transferCount n) (maxTransfersWarned n)
    (walkingPath n) (walkingPathIndex n) (plannedRoute n).

Definition npc_set_finalDestinationStop (s : option Stop) (n : NPC) : NPC :=
  mkNPC (npc_x n) (npc_y n) (npc_state n) (waitTime n) (transportStartTime n) (nearestStop n)
    (atStop n) (originZone n) (destinationZone n) (destinationStop n)
    s (transferCount n) (maxTransfersWarned n)
    (walkingPath n) (walkingPathIndex n) (plannedRoute n).

Definition npc_set_transferCount (c : Z) (n : NPC) : NPC :=
  mkNPC (npc_x n) (npc_y n) (npc_state n) (waitTime n) (transportStartTime n) (nearestStop n)
    (atStop n) (originZone n) (destinationZone n) (destinationStop n)
    (finalDestinationStop n) c (maxTransfersWarned n)
    (walkingPath n) (walkingPathIndex n) (plannedRoute n).

Definition npc_set_maxTransfersWarned (b : bool) (n : NPC) : NPC :=
  mkNPC (npc_x n) (npc_y n) (npc_state n) (waitTime n) (transportStartTime n) (nearestStop n)
    (atStop n) (originZone n) (destinationZone n) (destinationStop n)
    (finalDestinationStop n) (transferCount n) b
    (walkingPath n) (walkingPathIndex n) (plannedRoute n).

Definition npc_set_walking (p : option (list Waypoint)) (i : option nat) (n : NPC) : NPC :=
  mkNPC (npc_x n) (npc_y n) (npc_state n) (waitTime n) (transportStartTime n) (nearestStop n)
    (atStop n) (originZone n) (destinationZone n) (destinationStop n)
    (finalDestinationStop n) (transferCount n) (maxTransfersWarned n)
    p i (plannedRoute n).

Definition npc_set_plannedRoute (p : option PlannedRoute) (n : NPC) : NPC :=
  mkNPC (npc_x n) (npc_y n) (npc_state n) (waitTime n) (transportStartTime n) (nearestStop n)
    (atStop n) (originZone n) (destinationZone n) (destinationStop n)
    (finalDestinationStop n) (transferCount n) (maxTransfersWarned n)
    (walkingPath n) (walkingPathIndex n) p.

#[global] Instance NPCState_eq_dec : EqDecision NPCState.
Proof. solve_decision. Defined.

(** [getDestinationCenter], the same in RouteManager and EntityManager. *)
Definition Math_max (a b : Q) : Q := if Qlt_le_dec a b then b else a.
Definition Math_min (a b : Q) : Q := if Qlt_le_dec b a then b else a.

Definition getDestinationCenter (zone : Zone) : Q * Q :=
  let margin := 5%Q in
  let canvasMax := (inject_Z (GRID_SIZE * 60) - 1 - margin)%Q in
  let canvasMin := margin in
  let centerX := ((inject_Z (zone_x zone) + inject_Z (zone_w zone) / 2) * inject_Z GRID_SIZE)%Q in
  let centerY := ((inject_Z (zone_y zone) + inject_Z (zone_h zone) / 2) * inject_Z GRID_SIZE)%Q in
  (Math_max canvasMin (Math_min centerX canvasMax),
   Math_max canvasMin (Math_min centerY canvasMax)).

(** [stop.x * GRID_SIZE] *)
Definition stop_px (s : Stop) : Q * Q :=
  (inject_Z (stop_x s * GRID_SIZE), inject_Z (stop_y s * GRID_SIZE)).

(** [distToZone > maxAcceptableDistance], with [maxAcceptableDistance] of
    8 grid cells, compared on the squares. *)
Definition too_far_from_zone (s : Stop) (destCenter : Q * Q) : bool :=
  let maxAcceptableDistance := inject_Z (8 * GRID_SIZE) in
  if Qlt_le_dec (maxAcceptableDistance * maxAcceptableDistance)
       (SpatialIndex.distance_sq (stop_px s).1 (stop_px s).2 destCenter.1 destCenter.2)
  then true else false.

(** A JavaScript number is falsy when it is [undefined] or 0. *)
Definition truthy (t : option Q) : bool :=
  match t with
  | Some v => negb (Qeq_bool v 0)
  | None => false
  end.

(** ** RouteManager.ts: handleBusAtStop *)

Module RouteManager.

Definition MAX_TRANSFERS : Z := 5.
Definition BUS_CAPACITY : nat := 10.

(** What [handleBusAtStop] mutates: the passenger list of the bus, the NPC
    objects, the statistics and the economics. *)
Record Work := mkWork {
  w_passengers : list npc_ref;
  w_objects : gmap npc_ref NPC;
  w_stats : GameStats;
  w_economics : Economics
}.

(** A write to the fields of the object behind [r]. *)
Definition put (r : npc_ref) (n : NPC) (w : Work) : Work :=
  mkWork (w_passengers w) (<[r := n]> (w_objects w)) (w_stats w) (w_economics w).

(** [bus.passengers.splice(i, 1)] *)
Definition splice (i : nat) (w : Work) : Work :=
  mkWork (delete i (w_passengers w)) (w_objects w) (w_stats w) (w_economics w).

(** [bus.passengers.push(npc)] *)
Definition push (r : npc_ref) (w : Work) : Work :=
  mkWork (w_passengers w ++ [r]) (w_objects w) (w_stats w) (w_economics w).

(** The passenger goes back to waiting at [currentStop], one transfer more. *)
Definition back_to_waiting (currentStop : Stop) (n : NPC) : NPC :=
  npc_set_transferCount (transferCount n + 1)
    (npc_set_atStop true
       (npc_set_nearestStop (Some currentStop)
          (npc_set_pos (stop_px currentStop).1 (stop_px currentStop).2
             (npc_set_state waiting n)))).

(** The statistics and income of one arrival. *)
Definition record_arrival (now : Q) (passenger : NPC) (w : Work) : Work :=
  let st := w_stats w in
  let transport :=
    if truthy (transportStartTime passenger) then
      (totalTransportTime st
       + (now - default 0%Q (transportStartTime passenger)) / 1000)%Q
    else totalTransportTime st in
  let ec := w_economics w in
  mkWork (w_passengers w) (w_objects w)
    (mkGameStats (S (tripsCompleted st)) (totalWaitTime st + waitTime passenger)%Q
       transport (npcsGaveUp st) (busUtilizationSamples st) (totalBusUtilization st))
    (mkEconomics (money ec + ticketPrice ec)%Q (totalIncome ec + ticketPrice ec)%Q
       (totalCapitalInvested ec) (ticketPrice ec)).

Definition advance_plan (n : NPC) : NPC :=
  match plannedRoute n with
  | Some plan =>
      npc_set_plannedRoute
        (Some (mkPlannedRoute (pr_stops plan) (pr_routes plan) (S (pr_currentStopIndex plan)))) n
  | None => n
  end.

(** The body of the drop-off loop for index [i]. *)
Definition alight_one (index : gmap (Z * Z) (list Stop)) (currentStop : Stop) (now : Q)
    (i : nat) (w : Work) : Work :=
  match w_passengers w !! i with
  | None => w
  | Some r =>
  match w_objects w !! r with
  | None => w
  | Some passenger =>
      let destCenter := getDestinationCenter (destinationZone passenger) in
      (* the stored destination stop, looked up again when it is missing *)
      let '(passenger, destStop) :=
        match destinationStop passenger with
        | Some d => (passenger, Some d)
        | None =>
            match SpatialIndex.findNearestStop index destCenter.1 destCenter.2 with
            | Some foundStop =>
                (npc_set_destinationStop (Some foundStop) passenger, Some foundStop)
            | None => (passenger, None)
            end
        end in
      let w := put r passenger w in
      match destStop with
      | None => w
      | Some d =>
          if same_stop d currentStop then
            let w := splice i w in
            let recovered :=
              match finalDestinationStop passenger with
              | Some _ => Some passenger
              | None =>
                  match SpatialIndex.findNearestStop index destCenter.1 destCenter.2 with
                  | Some recalculated =>
                      Some (npc_set_finalDestinationStop (Some recalculated) passenger)
                  | None => None
                  end
              end in
            match recovered with
            | None => w
            | Some passenger =>
                match finalDestinationStop passenger with
                | None => put r passenger w
                | Some finalDestStop =>
                    if same_stop finalDestStop currentStop then
                      if too_far_from_zone currentStop destCenter then
                        put r (npc_set_plannedRoute None (back_to_waiting currentStop passenger)) w
                      else
                        record_arrival now passenger (put r (npc_set_state arrived passenger) w)
                    else
                      put r (advance_plan (back_to_waiting currentStop passenger)) w
                end
            end
          else w
      end
  end
  end.

(** [for (let i = bus.passengers.length - 1; i >= 0; i--)] *)
Fixpoint alight_loop (index : gmap (Z * Z) (list Stop)) (currentStop : Stop) (now : Q)
    (n : nat) (w : Work) : Work :=
  match n with
  | O => w
  | S i => alight_loop index currentStop now i (alight_one index currentStop now i w)
  end.

(** The NPC boards: common to the three boarding branches. *)
Definition board (now : Q) (r : npc_ref) (npc : NPC) (dest final : Stop) (w : Work) : Work :=
  let npc := npc_set_finalDestinationStop (Some final) (npc_set_destinationStop (Some dest) npc) in
  let npc := npc_set_atStop false (npc_set_state traveling npc) in
  let npc :=
    if truthy (transportStartTime npc) then npc
    else npc_set_transportStartTime (Some now) npc in
  push r (put r npc w).

(** The loop of the greedy fallback over the stops of the route. *)
Definition closest_step (currentStop finalDestStop : Stop) (acc : option Stop * Q) (stop : Stop)
    : option Stop * Q :=
  if same_stop stop currentStop then acc
  else
    let distToFinal :=
      SpatialIndex.distance_sq (stop_px stop).1 (stop_px stop).2
        (stop_px finalDestStop).1 (stop_px finalDestStop).2 in
    if Qlt_le_dec distToFinal acc.2 then (Some stop, distToFinal) else acc.

Definition fallback (index : gmap (Z * Z) (list Stop)) (route : Route) (currentStop : Stop)
    (now : Q) (r : npc_ref) (npc : NPC) (w : Work) : Work :=
  let destCenter := getDestinationCenter (destinationZone npc) in
  match SpatialIndex.findNearestStop index destCenter.1 destCenter.2 with
  | None => w
  | Some finalDestStop =>
      if too_far_from_zone finalDestStop destCenter then w
      else
        let currentDist :=
          SpatialIndex.distance_sq (stop_px currentStop).1 (stop_px currentStop).2
            (stop_px finalDestStop).1 (stop_px finalDestStop).2 in
        let routeHasDestination := existsb (fun stop => same_stop stop finalDestStop) (stops route) in
        if routeHasDestination && negb (same_stop finalDestStop currentStop) then
          board now r npc finalDestStop finalDestStop w
        else
          match (foldl (closest_step currentStop finalDestStop) (None, currentDist) (stops route)).1 with
          | Some transferStop => board now r npc transferStop finalDestStop w
          | None => w
          end
  end.

(** The body of [state.npcs.forEach]; [None] when the body throws (the plan
    cursor points past the plan's stops). *)
Definition board_one (index : gmap (Z * Z) (list Stop)) (routeIndexInState : nat)
    (route : Route) (currentStop : Stop) (now : Q) (w : Work) (r : npc_ref) : option Work :=
  match w_objects w !! r with
  | None => Some w
  | Some npc =>
      if bool_decide (npc_state npc = waiting) && atStop npc &&
         match nearestStop npc with Some ns => same_stop ns currentStop | None => false end &&
         (length (w_passengers w) <? BUS_CAPACITY)%nat
      then
        if (MAX_TRANSFERS <=? transferCount npc)%Z then
          if (if Qlt_le_dec 10 (waitTime npc) then true else false)
             && negb (maxTransfersWarned npc)
          then Some (put r (npc_set_maxTransfersWarned true npc) w)
          else Some w
        else
          match plannedRoute npc, finalDestinationStop npc with
          | Some plan, Some _ =>
              match pr_stops plan !! pr_currentStopIndex plan with
              | None => None
              | Some currentPlanStop =>
                  if negb (same_stop currentPlanStop currentStop) then Some w
                  else
                    if bool_decide (pr_routes plan !! pr_currentStopIndex plan
                                    = Some routeIndexInState) then
                      let nextStopIndex := S (pr_currentStopIndex plan) in
                      match pr_stops plan !! nextStopIndex, last (pr_stops plan) with
                      | Some nextStop, Some final => Some (board now r npc nextStop final w)
                      | _, _ => Some w
                      end
                    else Some w
              end
          | _, _ => Some (fallback index route currentStop now r npc w)
          end
      else Some w
  end.

Fixpoint board_loop (index : gmap (Z * Z) (list Stop)) (routeIndexInState : nat)
    (route : Route) (currentStop : Stop) (now : Q) (refs : list npc_ref) (w : Work)
    : option Work :=
  match refs with
  | [] => Some w
  | r :: refs' =>
      match board_one index routeIndexInState route currentStop now w r with
      | None => None
      | Some w' => board_loop index routeIndexInState route currentStop now refs' w'
      end
  end.

Definition set_passengers (ps : list npc_ref) (b : Bus) : Bus :=
  mkBus (bus_x b) (bus_y b) (currentStopIndex b) ps (bus_path b) (pathIndex b)
    (angle b) (stoppedAtStop b) (stopTimer b) (currentSpeed b).

Definition set_buses (bs : list Bus) (r : Route) : Route :=
  mkRoute (stops r) bs (color r).

(** The utilization sample taken at every stop visit. *)
Definition sample_utilization (n : nat) (st : GameStats) : GameStats :=
  mkGameStats (tripsCompleted st) (totalWaitTime st) (totalTransportTime st) (npcsGaveUp st)
    (S (busUtilizationSamples st))
    (totalBusUtilization st + inject_Z (Z.of_nat n) / inject_Z (Z.of_nat BUS_CAPACITY))%Q.

(** [handleBusAtStop(route, bus, state)] for the bus [busIndex] of the route
    [routeIndex0]; [None] when the bus's stop index is past the stops of the
    route or the boarding loop throws. *)
Definition handleBusAtStop (index : gmap (Z * Z) (list Stop)) (routeIndex0 busIndex : nat)
    (state : GameState) : option GameState :=
  route ← routes state !! routeIndex0;
  bus ← buses route !! busIndex;
  currentStop ← stops route !! currentStopIndex bus;
  let w0 := mkWork (passengers bus) (objects state)
              (sample_utilization (length (passengers bus)) (stats state))
              (economics state) in
  let w1 := alight_loop index currentStop (time state) (length (passengers bus)) w0 in
  w2 ← board_loop index routeIndex0 route currentStop (time state) (npcs state) w1;
  Some (mkGameState
          (<[routeIndex0 := set_buses (<[busIndex := set_passengers (w_passengers w2) bus]>
                                        (buses route)) route]> (routes state))
          (activeRouteIndex state) (npcs state) (w_objects w2) (w_stats w2)
          (w_economics w2) (time state)).

End RouteManager.

(** ** EntityManager.ts: createNPC and updateNPCs *)

Module EntityManager.

Definition WALKING_SPEED : Q := 1 # 2.

Definition set_objects (o : gmap npc_ref NPC) (s : GameState) : GameState :=
  mkGameState (routes s) (activeRouteIndex s) (npcs s) o (stats s) (economics s) (time s).

Definition set_npcs (l : list npc_ref) (s : GameState) : GameState :=
  mkGameState (routes s) (activeRouteIndex s) l (objects s) (stats s) (economics s) (time s).

Definition put (r : npc_ref) (n : NPC) (s : GameState) : GameState :=
  set_objects (<[r := n]> (objects s)) s.

(** The object literal of [createNPC]; the zones and the spawn point are
    what its random choices and its scan of the zone's perimeter give. *)
Definition new_npc (spawnX spawnY : Q) (origin destination : Zone) : NPC :=
  mkNPC spawnX spawnY walking 0 None None false origin destination None None 0 false
    (Some []) (Some 0) None.

(** [state.npcs.push(npc)] with a new object, stored under the unused
    reference [r]. *)
Definition createNPC (r : npc_ref) (spawnX spawnY : Q) (origin destination : Zone)
    (s : GameState) : GameState :=
  set_npcs (npcs s ++ [r]) (put r (new_npc spawnX spawnY origin destination) s).

(** The statistics and income of an arrival without a ride. *)
Definition record_arrival (npc : NPC) (s : GameState) : GameState :=
  let st := stats s in
  let ec := economics s in
  mkGameState (routes s) (activeRouteIndex s) (npcs s) (objects s)
    (mkGameStats (S (tripsCompleted st)) (totalWaitTime st + waitTime npc)%Q
       (totalTransportTime st) (npcsGaveUp st) (busUtilizationSamples st)
       (totalBusUtilization st))
    (mkEconomics (money ec + ticketPrice ec)%Q (totalIncome ec + ticketPrice ec)%Q
       (totalCapitalInvested ec) (ticketPrice ec))
    (time s).

(** Once the destination stop is accepted: arrive when the NPC already
    stands at it, else plan the trip. *)
Definition settle (r : npc_ref) (npc : NPC) (ns finalDestStop : Stop) (s : GameState)
    : GameState :=
  let npc := npc_set_finalDestinationStop (Some finalDestStop) npc in
  if same_stop ns finalDestStop then
    record_arrival npc (put r (npc_set_state arrived npc) s)
  else
    match RoutePlanner.planTrip ns finalDestStop (routes s) with
    | Some plan =>
        put r (npc_set_plannedRoute
                 (Some (mkPlannedRoute (RoutePlanner.plan_stops plan)
                          (RoutePlanner.plan_routes plan) 0)) npc) s
    | None => put r npc s
    end.

Section Walking.

(** [Math.sqrt], used by the walking step to scale the move. *)
Variable Math_sqrt : Q -> Q.

(** The NPC reached the last waypoint of its walking path. *)
Definition reach_stop (index : gmap (Z * Z) (list Stop)) (r : npc_ref) (npc : NPC)
    (s : GameState) : GameState :=
  let npc := npc_set_walking None None (npc_set_atStop true (npc_set_state waiting npc)) in
  match nearestStop npc with
  | None => put r npc s
  | Some ns =>
      let destCenter := getDestinationCenter (destinationZone npc) in
      match SpatialIndex.findNearestStop index destCenter.1 destCenter.2 with
      | None => put r npc s
      | Some finalDestStop =>
          if too_far_from_zone finalDestStop destCenter then put r npc s
          else settle r npc ns finalDestStop s
      end
  end.

(** The [walking] branch of the loop body. *)
Definition walking_step (index : gmap (Z * Z) (list Stop)) (now : Z) (r : npc_ref)
    (npc : NPC) (s : GameState) (pm : PathfindingManager.t)
    : GameState * PathfindingManager.t :=
  let '(npc, pm) :=
    match nearestStop npc with
    | None =>
        if (0 <? length (routes s))%nat then
          match SpatialIndex.findNearestStop index (npc_x npc) (npc_y npc) with
          | None => (npc, pm)
          | Some ns =>
              let npc := npc_set_nearestStop (Some ns) npc in
              let stopX := (stop_px ns).1 in
              let stopY := (stop_px ns).2 in
              let '(p, pm) := PathfindingManager.findPath now (npc_x npc) (npc_y npc) stopX stopY pm in
              let npc := npc_set_walking (Some p) (Some 0) npc in
              if (length p =? 0)%nat then
                (npc_set_atStop true (npc_set_state waiting (npc_set_pos stopX stopY npc)), pm)
              else (npc, pm)
          end
        else (npc, pm)
    | Some _ => (npc, pm)
    end in
  let s := put r npc s in
  match walkingPath npc, walkingPathIndex npc with
  | Some p, Some i =>
      match p !! i with
      | None => (s, pm)
      | Some waypoint =>
          let dx := (wp_x waypoint - npc_x npc)%Q in
          let dy := (wp_y waypoint - npc_y npc)%Q in
          let dist := Math_sqrt (dx * dx + dy * dy)%Q in
          if Qlt_le_dec dist WALKING_SPEED then
            let npc := npc_set_walking (Some p) (Some (S i))
                         (npc_set_pos (wp_x waypoint) (wp_y waypoint) npc) in
            if (length p <=? S i)%nat then (reach_stop index r npc s, pm)
            else (put r npc s, pm)
          else
            (put r (npc_set_pos (npc_x npc + dx / dist * WALKING_SPEED)%Q
                                 (npc_y npc + dy / dist * WALKING_SPEED)%Q npc) s, pm)
      end
  | _, _ => (s, pm)
  end.

(** The first part of the [waiting] branch: the wait time accrues, and an
    NPC without a stop looks for one and for its destination stop.  The flag
    is [true] when the branch executes [return], which leaves [updateNPCs]. *)
Definition reacquire (index : gmap (Z * Z) (list Stop)) (deltaTime : Q)
    (r : npc_ref) (npc : NPC) (s : GameState) : GameState * bool :=
  let npc := npc_set_waitTime (waitTime npc + deltaTime / 1000)%Q npc in
  let s := put r npc s in
  match nearestStop npc with
  | None =>
      if (0 <? length (routes s))%nat then
        match SpatialIndex.findNearestStop index (npc_x npc) (npc_y npc) with
        | None => (s, false)
        | Some ns =>
            let npc := npc_set_atStop true (npc_set_nearestStop (Some ns) npc) in
            let s := put r npc s in
            let destCenter := getDestinationCenter (destinationZone npc) in
            match SpatialIndex.findNearestStop index destCenter.1 destCenter.2 with
            | None => (s, false)
            | Some finalDestStop =>
                if too_far_from_zone finalDestStop destCenter then (s, true)
                else (settle r npc ns finalDestStop s, false)
            end
        end
      else (s, false)
  | Some _ => (s, false)
  end.

(** The end of the [waiting] branch: give up after too long a wait. *)
Definition wait_limit (i : nat) (r : npc_ref) (s : GameState) : GameState :=
  match objects s !! r with
  | Some npc =>
      if Qlt_le_dec NPC_MAX_WAIT_TIME (waitTime npc) then
        mkGameState (routes s) (activeRouteIndex s) (delete i (npcs s)) (objects s)
          (mkGameStats (tripsCompleted (stats s)) (totalWaitTime (stats s))
             (totalTransportTime (stats s)) (S (npcsGaveUp (stats s)))
             (busUtilizationSamples (stats s)) (totalBusUtilization (stats s)))
          (economics s) (time s)
      else s
  | None => s
  end.

Definition waiting_step (index : gmap (Z * Z) (list Stop)) (deltaTime : Q) (i : nat)
    (r : npc_ref) (npc : NPC) (s : GameState) : GameState * bool :=
  let '(s, returned) := reacquire index deltaTime r npc s in
  if returned then (s, true) else (wait_limit i r s, false).

(** The body of the loop of [updateNPCs] for index [i]. *)
Definition update_one (index : gmap (Z * Z) (list Stop)) (now : Z) (deltaTime : Q) (i : nat)
    (s : GameState) (pm : PathfindingManager.t) : GameState * PathfindingManager.t * bool :=
  match npcs s !! i with
  | None => (s, pm, false)
  | Some r =>
      match objects s !! r with
      | None => (s, pm, false)
      | Some npc =>
          match npc_state npc with
          | walking =>
              let '(s, pm) := walking_step index now r npc s pm in (s, pm, false)
          | waiting =>
              let '(s, returned) := waiting_step index deltaTime i r npc s in (s, pm, returned)
          | arrived => (set_npcs (delete i (npcs s)) s, pm, false)
          | traveling => (s, pm, false)
          end
      end
  end.

(** [for (let i = state.npcs.length - 1; i >= 0; i--)] *)
Fixpoint update_loop (index : gmap (Z * Z) (list Stop)) (now : Z) (deltaTime : Q) (n : nat)
    (s : GameState) (pm : PathfindingManager.t) : GameState * PathfindingManager.t :=
  match n with
  | O => (s, pm)
  | S i =>
      let '(s', pm', returned) := update_one index now deltaTime i s pm in
      if returned then (s', pm') else update_loop index now deltaTime i s' pm'
  end.

Definition updateNPCs (index : gmap (Z * Z) (list Stop)) (now : Z) (deltaTime : Q)
    (s : GameState) (pm : PathfindingManager.t) : GameState * PathfindingManager.t :=
  update_loop index now deltaTime (length (npcs s)) s pm.

End Walking.

End EntityManager.

(** ** GameEngine.ts: routes and buses *)

Module GameEngine.

Definition STARTING_MONEY : Q := 5000.
Definition DEFAULT_TICKET_PRICE : Q := 3 # 2.
Definition MAX_BUSES_PER_ROUTE : nat := 10.

(** The state the constructor builds. *)
Definition new : GameState :=
  mkGameState [] 0 [] ∅ (mkGameStats 0 0 0 0 0 0)
    (mkEconomics STARTING_MONEY 0 0 DEFAULT_TICKET_PRICE) 0.

Definition set_routes (rs : list Route) (s : GameState) : GameState :=
  mkGameState rs (activeRouteIndex s) (npcs s) (objects s) (stats s) (economics s) (time s).

(** [money -= cost; totalCapitalInvested += cost] *)
Definition pay (cost : Q) (s : GameState) : GameState :=
  let ec := economics s in
  mkGameState (routes s) (activeRouteIndex s) (npcs s) (objects s) (stats s)
    (mkEconomics (money ec - cost)%Q (totalIncome ec) (totalCapitalInvested ec + cost)%Q
       (ticketPrice ec))
    (time s).

(** The bus literal of [addRoute]. *)
Definition first_bus : Bus := mkBus 0 0 0 [] [] 0 0 false 0 0.

Definition addRoute (s : GameState) : bool * GameState :=
  if (MAX_ROUTES <=? length (routes s))%nat then (false, s)
  else
    let totalCost := (ROUTE_COST + BUS_COST)%Q in
    if Qlt_le_dec (money (economics s)) totalCost then (false, s)
    else
      let s := pay totalCost s in
      let colorIndex := (length (routes s) mod 8)%nat in
      (true, set_routes (routes s ++ [mkRoute [] [first_bus] colorIndex]) s).

Definition addBusToRoute (routeIndex0 : nat) (s : GameState) : bool * GameState :=
  match routes s !! routeIndex0 with
  | None => (false, s)
  | Some route =>
      if (MAX_BUSES_PER_ROUTE <=? length (buses route))%nat then (false, s)
      else if Qlt_le_dec (money (economics s)) BUS_COST then (false, s)
      else
        let s := pay BUS_COST s in
        let busCount := length (buses route) in
        let stopCount := length (stops route) in
        let startStopIndex :=
          if (0 <? stopCount)%nat then
            let k := ((busCount * stopCount) / (busCount + 1))%nat in
            if (stopCount <=? k)%nat then (stopCount - 1)%nat else k
          else 0%nat in
        let newBus :=
          match stops route !! startStopIndex with
          | Some startStop =>
              mkBus (inject_Z (stop_x startStop * 30 + 15)) (inject_Z (stop_y startStop * 30 + 15))
                startStopIndex [] [] 0 0 false 0 0
          | None => mkBus 0 0 startStopIndex [] [] 0 0 false 0 0
          end in
        (true, set_routes (<[routeIndex0 := RouteManager.set_buses (buses route ++ [newBus]) route]>
                             (routes s)) s)
  end.

(** What [removeBusFromRoute] and [clearAllStops] write to a passenger. *)
Definition force_waiting (n : NPC) : NPC :=
  npc_set_finalDestinationStop None
    (npc_set_destinationStop None
       (npc_set_atStop false
          (npc_set_nearestStop None
             (npc_set_waitTime 0 (npc_set_state waiting n))))).

(** [passengers.forEach((passenger) => { ... })] on the shared objects. *)
Definition return_passengers (ps : list npc_ref) (o : gmap npc_ref NPC) : gmap npc_ref NPC :=
  foldl (fun o r => alter force_waiting r o) o ps.

Definition removeBusFromRoute (routeIndex0 : nat) (s : GameState) : GameState :=
  match routes s !! routeIndex0 with
  | None => s
  | Some route =>
      if (length (buses route) <=? 1)%nat then s
      else
        match last (buses route) with
        | None => s
        | Some removedBus =>
            let route := RouteManager.set_buses (removelast (buses route)) route in
            mkGameState (<[routeIndex0 := route]> (routes s)) (activeRouteIndex s) (npcs s)
              (return_passengers (passengers removedBus) (objects s))
              (stats s) (economics s) (time s)
        end
  end.

Definition deleteRoute (s : GameState) : GameState :=
  if (length (routes s) =? 0)%nat then s
  else
    let rs := delete (activeRouteIndex s) (routes s) in
    let active :=
      if (length rs <=? activeRouteIndex s)%nat && (0 <? length rs)%nat
      then (length rs - 1)%nat else activeRouteIndex s in
    mkGameState rs active (npcs s) (objects s) (stats s) (economics s) (time s).

Definition STOP_COST : Q := 100.

Definition set_stops (l : list Stop) (r : Route) : Route :=
  mkRoute l (buses r) (color r).

Definition addStopToRoute (routeIndex0 : nat) (x y : Z) (s : GameState) : bool * GameState :=
  match routes s !! routeIndex0 with
  | None => (false, s)
  | Some route =>
      if Qlt_le_dec (money (economics s)) STOP_COST then (false, s)
      else
        let s := pay STOP_COST s in
        (true, set_routes (<[routeIndex0 := set_stops (stops route ++ [mkStop x y]) route]>
                             (routes s)) s)
  end.

End GameEngine.

(** ** main.ts: the stop edits of the player *)

Module Main.

(** [state.npcs.forEach((npc) => { if (npc.state === 'waiting') ... })] *)
Definition forget_stop (n : NPC) : NPC :=
  if bool_decide (npc_state n = waiting)
  then npc_set_atStop false (npc_set_nearestStop None n)
  else n.

Definition reset_waiting (s : GameState) : GameState :=
  EntityManager.set_objects
    (foldl (fun o r => alter forget_stop r o) (objects s) (npcs s)) s.

(** Removing, moving or dragging a stop of a route: its stops change, and
    the waiting NPCs lose their stop.  ([bus.path], [bus.pathIndex] and
    [bus.currentStopIndex] are reset as well, see [drive] below; what a
    move writes to the Stop object the NPCs share is [aliases_moved]
    below.) *)
Definition edit_stops (routeIndex0 : nat) (stops' : list Stop) (s : GameState) : GameState :=
  match routes s !! routeIndex0 with
  | None => s
  | Some route =>
      reset_waiting
        (GameEngine.set_routes (<[routeIndex0 := GameEngine.set_stops stops' route]> (routes s)) s)
  end.

(** [clearAllStops]: the passengers of the active route's buses are sent
    back to waiting and the buses emptied. *)
Definition clear_bus (b : Bus) : Bus :=
  mkBus (bus_x b) (bus_y b) 0 [] [] 0 (angle b) (stoppedAtStop b) (stopTimer b) (currentSpeed b).

Definition clearAllStops (s : GameState) : GameState :=
  match routes s !! activeRouteIndex s with
  | None => s
  | Some route =>
      let o := foldl (fun o bus => GameEngine.return_passengers (passengers bus) o)
                 (objects s) (buses route) in
      let route := mkRoute [] (clear_bus <$> buses route) (color route) in
      reset_waiting
        (mkGameState (<[activeRouteIndex s := route]> (routes s)) (activeRouteIndex s)
           (npcs s) o (stats s) (economics s) (time s))
  end.

(** The motion of a bus between stops (steering, speed, the dwell timer, the
    stop index advanced after the dwell) is floating-point arithmetic; it
    writes every field of the bus but [passengers]. *)
Definition drive (routeIndex0 busIndex : nat) (moved : Bus) (s : GameState) : GameState :=
  match routes s !! routeIndex0 with
  | None => s
  | Some route =>
      match buses route !! busIndex with
      | None => s
      | Some bus =>
          GameEngine.set_routes
            (<[routeIndex0 := RouteManager.set_buses
                 (<[busIndex := RouteManager.set_passengers (passengers bus) moved]> (buses route))
                 route]> (routes s)) s
      end
  end.

(** The clock and the accounts between two calls. *)
Definition set_accounts (now : Q) (ec : Economics) (s : GameState) : GameState :=
  mkGameState (routes s) (activeRouteIndex s) (npcs s) (objects s) (stats s) ec now.

(** Moving a stop ([moveStopBtn], the drop of a dragged stop) writes
    [route.stops[i].x] and [.y] of the Stop object itself, and that object
    is shared: an NPC holds it as [nearestStop], [destinationStop],
    [finalDestinationStop] or as a stop of its plan, and sees the new
    coordinates.  The store holds stops by value, so the write shows as a
    change of those fields: each keeps its value or, if it was [old],
    becomes [new] (stops of two routes may lie on one cell, so an equal
    value need not be the same object). *)
Definition moved (old new v v' : Stop) : Prop := v' = v \/ (v = old /\ v' = new).

Definition moved_plan (old new : Stop) (p p' : PlannedRoute) : Prop :=
  Forall2 (moved old new) (pr_stops p) (pr_stops p') /\
  pr_routes p' = pr_routes p /\
  pr_currentStopIndex p' = pr_currentStopIndex p.

Definition moved_npc (old new : Stop) (n n' : NPC) : Prop :=
  n' = mkNPC (npc_x n) (npc_y n) (npc_state n) (waitTime n) (transportStartTime n)
         (nearestStop n') (atStop n) (originZone n) (destinationZone n) (destinationStop n')
         (finalDestinationStop n') (transferCount n) (maxTransfersWarned n)
         (walkingPath n) (walkingPathIndex n) (plannedRoute n') /\
  option_Forall2 (moved old new) (nearestStop n) (nearestStop n') /\
  option_Forall2 (moved old new) (destinationStop n) (destinationStop n') /\
  option_Forall2 (moved old new) (finalDestinationStop n) (finalDestinationStop n') /\
  option_Forall2 (moved_plan old new) (plannedRoute n) (plannedRoute n').

Definition aliases_moved (old new : Stop) (o o' : gmap npc_ref NPC) : Prop :=
  forall r, option_Forall2 (moved_npc old new) (o !! r) (o' !! r).

End Main.

(** [setActiveRoute(index)]; [selectedStopIndex] is not modelled. *)
Definition setActiveRoute (index : Z) (s : GameState) : GameState :=
  if (0 <=? index)%Z && (index <? Z.of_nat (length (routes s)))%Z then
    mkGameState (routes s) (Z.to_nat index) (npcs s) (objects s) (stats s) (economics s)
      (time s)
  else s.

(** ** Executions

    One step of an execution: a call of one of the operations above, in any
    order.  The tick of the engine calls [updateNPCs], then for each bus
    either moves it ([drive]) or, at the end of its dwell, calls
    [handleBusAtStop] and advances its stop index ([drive]). *)

Inductive step : GameState -> GameState -> Prop :=
| step_createNPC r x y origin destination s :
    objects s !! r = None ->
    step s (EntityManager.createNPC r x y origin destination s)
| step_updateNPCs Math_sqrt index now deltaTime pm s :
    step s (EntityManager.updateNPCs Math_sqrt index now deltaTime s pm).1
| step_handleBusAtStop index routeIndex0 busIndex s s' :
    RouteManager.handleBusAtStop index routeIndex0 busIndex s = Some s' ->
    step s s'
| step_drive routeIndex0 busIndex moved s :
    step s (Main.drive routeIndex0 busIndex moved s)
| step_addRoute s : step s (GameEngine.addRoute s).2
| step_addBusToRoute routeIndex0 s : step s (GameEngine.addBusToRoute routeIndex0 s).2
| step_removeBusFromRoute routeIndex0 s : step s (GameEngine.removeBusFromRoute routeIndex0 s)
| step_deleteRoute s : step s (GameEngine.deleteRoute s)
| step_addStopToRoute routeIndex0 x y s : step s (GameEngine.addStopToRoute routeIndex0 x y s).2
| step_edit_stops routeIndex0 stops' s : step s (Main.edit_stops routeIndex0 stops' s)
| step_move_stop routeIndex0 stopIndex x y route old o' s :
    routes s !! routeIndex0 = Some route ->
    stops route !! stopIndex = Some old ->
    Main.aliases_moved old (mkStop x y) (objects s) o' ->
    step s (Main.edit_stops routeIndex0 (<[stopIndex := mkStop x y]> (stops route))
              (EntityManager.set_objects o' s))
| step_clearAllStops s : step s (Main.clearAllStops s)
| step_setActiveRoute index s : step s (setActiveRoute index s)
| step_set_accounts now ec s : step s (Main.set_accounts now ec s).

(** The states of the executions that start from a new game. *)
Inductive reachable_state : GameState -> Prop :=
| reachable_state_new : reachable_state GameEngine.new
| reachable_state_step s s' : reachable_state s -> step s s' -> reachable_state s'.

(** ** What the operations leave alone *)

(** [quiet n n']: the object kept its transfer counter, did not change at
    all if it was traveling, and did not become traveling. *)
Definition quiet (n n' : NPC) : Prop :=
  transferCount n' = transferCount n /\
  (npc_state n = traveling -> n' = n) /\
  (npc_state n' = traveling -> npc_state n = traveling).

Definition heap_quiet (o o' : gmap npc_ref NPC) : Prop :=
  forall r,
    match o !! r with
    | Some n => exists n', o' !! r = Some n' /\ quiet n n'
    | None => o' !! r = None
    end.

Lemma quiet_refl n : quiet n n.
Proof. by split_and!. Qed.

Lemma quiet_trans n1 n2 n3 : quiet n1 n2 -> quiet n2 n3 -> quiet n1 n3.
Proof.
  intros (Hc1 & He1 & Ht1) (Hc2 & He2 & Ht2). split_and!.
  - congruence.
  - intros Ht. specialize (He1 Ht). subst n2. by apply He2.
  - intros Ht. by apply Ht1, Ht2.
Qed.

Lemma heap_quiet_refl o : heap_quiet o o.
Proof. intros r. destruct (o !! r) as [n|] eqn:H; [|done]. exists n. split; [done | apply quiet_refl]. Qed.

Lemma heap_quiet_trans o1 o2 o3 : heap_quiet o1 o2 -> heap_quiet o2 o3 -> heap_quiet o1 o3.
Proof.
  intros H12 H23 r. specialize (H12 r). specialize (H23 r).
  destruct (o1 !! r) as [n1|].
  - destruct H12 as (n2 & Hn2 & Hq). rewrite Hn2 in H23.
    destruct H23 as (n3 & Hn3 & Hq'). exists n3. split; [done | by eapply quiet_trans].
  - by rewrite H12 in H23.
Qed.

(** A write to an object that is not traveling, keeping its counter and not
    making it travel. *)
Lemma heap_quiet_insert o0 o r n0 n :
  heap_quiet o0 o ->
  o0 !! r = Some n0 -> npc_state n0 <> traveling ->
  transferCount n = transferCount n0 -> npc_state n <> traveling ->
  heap_quiet o0 (<[r := n]> o).
Proof.
  intros Hq H0 Hs0 Hc Hs r'. destruct (decide (r = r')) as [<-|Hne].
  - rewrite H0, lookup_insert_eq. exists n. split; [done|]. by split_and!.
  - rewrite lookup_insert_ne by done. apply Hq.
Qed.

Lemma heap_quiet_alter o0 o r (f : NPC -> NPC) :
  heap_quiet o0 o ->
  (forall n, transferCount (f n) = transferCount n) ->
  (forall n, npc_state n = traveling -> f n = n) ->
  (forall n, npc_state (f n) = traveling -> npc_state n = traveling) ->
  heap_quiet o0 (alter f r o).
Proof.
  intros Hq Hc Hid Ht r'. specialize (Hq r'). destruct (decide (r = r')) as [<-|Hne].
  - rewrite lookup_alter_eq. destruct (o0 !! r) as [n0|].
    + destruct Hq as (n & -> & Hqn). exists (f n). split; [done|].
      eapply quiet_trans; [done|]. split_and!; auto.
    + by rewrite Hq.
  - by rewrite lookup_alter_ne.
Qed.

(** The frame of [updateNPCs]: the routes, and the objects up to [quiet]. *)
Definition calm (o0 : gmap npc_ref NPC) (s s' : GameState) : Prop :=
  routes s' = routes s /\ heap_quiet o0 (objects s').

Ltac calm_put :=
  split; [done | eapply heap_quiet_insert; eauto].

Lemma settle_calm o0 r n0 npc ns finalDestStop s :
  heap_quiet o0 (objects s) ->
  o0 !! r = Some n0 -> npc_state n0 <> traveling ->
  transferCount npc = transferCount n0 -> npc_state npc <> traveling ->
  calm o0 s (EntityManager.settle r npc ns finalDestStop s).
Proof.
  intros Hq H0 Hs0 Hc Hs. unfold EntityManager.settle.
  destruct (same_stop ns finalDestStop).
  - calm_put.
  - destruct (RoutePlanner.planTrip ns finalDestStop (routes s)); calm_put.
Qed.

Lemma reach_stop_calm o0 index r n0 npc s :
  heap_quiet o0 (objects s) ->
  o0 !! r = Some n0 -> npc_state n0 <> traveling ->
  transferCount npc = transferCount n0 ->
  calm o0 s (EntityManager.reach_stop index r npc s).
Proof.
  intros Hq H0 Hs0 Hc. unfold EntityManager.reach_stop. simpl.
  destruct (nearestStop npc); [|calm_put].
  destruct (SpatialIndex.findNearestStop _ _ _); [|calm_put].
  destruct (too_far_from_zone _ _); [calm_put|].
  by eapply settle_calm.
Qed.

Ltac calm_puts :=
  split; [done | repeat (eapply heap_quiet_insert; eauto); done].

Ltac calm_reach :=
  match goal with
  | |- calm ?o0 ?s (EntityManager.reach_stop ?index ?r ?npc ?s1) =>
      let H := fresh in
      assert (H : calm o0 s1 (EntityManager.reach_stop index r npc s1));
      [ eapply reach_stop_calm; [calm_puts || (simpl; eapply heap_quiet_insert; eauto) | eauto..]
      | destruct H as [? ?]; split; [simpl in *; congruence | done] ]
  end.

Lemma walking_step_calm Math_sqrt o0 index now r n0 npc s pm :
  heap_quiet o0 (objects s) ->
  o0 !! r = Some n0 -> npc_state n0 <> traveling ->
  transferCount npc = transferCount n0 -> npc_state npc <> traveling ->
  calm o0 s (EntityManager.walking_step Math_sqrt index now r npc s pm).1.
Proof.
  intros Hq H0 Hs0 Hc Hs. unfold EntityManager.walking_step.
  repeat case_match; simplify_eq; simpl.
  all: try calm_puts.
  all: calm_reach.
Qed.

Ltac calm_settle :=
  match goal with
  | |- calm ?o0 ?s (EntityManager.settle ?r ?npc ?ns ?f ?s1) =>
      let H := fresh in
      assert (H : calm o0 s1 (EntityManager.settle r npc ns f s1));
      [ eapply settle_calm; [simpl; repeat (eapply heap_quiet_insert; eauto) | eauto..]
      | destruct H as [? ?]; split; [simpl in *; congruence | done] ]
  end.

Lemma reacquire_calm o0 index deltaTime r n0 npc s :
  heap_quiet o0 (objects s) ->
  o0 !! r = Some n0 -> npc_state n0 <> traveling ->
  transferCount npc = transferCount n0 -> npc_state npc <> traveling ->
  calm o0 s (EntityManager.reacquire index deltaTime r npc s).1.
Proof.
  intros Hq H0 Hs0 Hc Hs. unfold EntityManager.reacquire.
  repeat case_match; simplify_eq; simpl.
  all: try calm_puts.
  all: calm_settle.
Qed.

Lemma wait_limit_calm o0 i r s s1 :
  calm o0 s s1 -> calm o0 s (EntityManager.wait_limit i r s1).
Proof.
  intros [Hr Hh]. unfold EntityManager.wait_limit.
  repeat case_match; by split.
Qed.

Lemma waiting_step_calm o0 index deltaTime i r n0 npc s :
  heap_quiet o0 (objects s) ->
  o0 !! r = Some n0 -> npc_state n0 <> traveling ->
  transferCount npc = transferCount n0 -> npc_state npc <> traveling ->
  calm o0 s (EntityManager.waiting_step index deltaTime i r npc s).1.
Proof.
  intros Hq H0 Hs0 Hc Hs. unfold EntityManager.waiting_step.
  pose proof (reacquire_calm o0 index deltaTime r n0 npc s Hq H0 Hs0 Hc Hs) as Hre.
  destruct (EntityManager.reacquire index deltaTime r npc s) as [s1 returned].
  simpl in Hre. destruct returned; simpl; [done|]. by apply wait_limit_calm.
Qed.

Lemma update_one_calm Math_sqrt o0 index now deltaTime i s pm :
  heap_quiet o0 (objects s) ->
  calm o0 s (EntityManager.update_one Math_sqrt index now deltaTime i s pm).1.1.
Proof.
  intros Hq. unfold EntityManager.update_one.
  destruct (npcs s !! i) as [r|]; [|by split].
  destruct (objects s !! r) as [npc|] eqn:Hr; [|by split].
  pose proof (Hq r) as Hqr. destruct (o0 !! r) as [n0|] eqn:H0; [|by rewrite Hr in Hqr].
  destruct Hqr as (n' & Hn' & Hc & He & Ht). rewrite Hr in Hn'. simplify_eq.
  destruct (npc_state n') eqn:Hst.
  - pose proof (walking_step_calm Math_sqrt o0 index now r n0 n' s pm Hq H0) as Hw.
    destruct (EntityManager.walking_step _ _ _ _ _ _ _) as [s1 pm1]. simpl in *.
    apply Hw; [|done|]; intros Htr; [rewrite (He Htr) in Hst|]; congruence.
  - pose proof (waiting_step_calm o0 index deltaTime i r n0 n' s Hq H0) as Hw.
    destruct (EntityManager.waiting_step _ _ _ _ _ _) as [s1 ret]. simpl in *.
    apply Hw; [|done|]; intros Htr; [rewrite (He Htr) in Hst|]; congruence.
  - by split.
  - by split.
Qed.

Lemma update_loop_calm Math_sqrt o0 index now deltaTime n s pm :
  heap_quiet o0 (objects s) ->
  calm o0 s (EntityManager.update_loop Math_sqrt index now deltaTime n s pm).1.
Proof.
  revert s pm. induction n as [|i IH]; intros s pm Hq; simpl; [by split|].
  pose proof (update_one_calm Math_sqrt o0 index now deltaTime i s pm Hq) as [Hr Hh].
  destruct (EntityManager.update_one _ _ _ _ _ _ _) as [[s1 pm1] returned]. simpl in *.
  destruct returned; [by split|].
  destruct (IH s1 pm1 Hh) as [Hr' Hh']. split; [congruence | done].
Qed.

(** [updateNPCs] leaves the routes alone, and of the NPC objects the
    transfer counters and everything of a traveling NPC. *)
Lemma updateNPCs_calm Math_sqrt index now deltaTime s pm :
  calm (objects s) s (EntityManager.updateNPCs Math_sqrt index now deltaTime s pm).1.
Proof. apply update_loop_calm, heap_quiet_refl. Qed.

(** What a moved stop leaves of an NPC object. *)
Lemma moved_npc_same old new n n' :
  Main.moved_npc old new n n' ->
  npc_state n' = npc_state n /\ transferCount n' = transferCount n.
Proof. intros (Heq & _). rewrite Heq. done. Qed.

(** ** C10: every route keeps a bus *)

Definition has_bus (route : Route) : Prop := 1 <= length (buses route).

Lemma handleBusAtStop_routes index routeIndex0 busIndex s s' :
  RouteManager.handleBusAtStop index routeIndex0 busIndex s = Some s' ->
  exists route bus ps,
    routes s !! routeIndex0 = Some route /\
    buses route !! busIndex = Some bus /\
    routes s' = <[routeIndex0 := RouteManager.set_buses
                    (<[busIndex := RouteManager.set_passengers ps bus]> (buses route)) route]>
                  (routes s).
Proof.
  unfold RouteManager.handleBusAtStop. intros H.
  destruct (routes s !! routeIndex0) as [route|] eqn:Hr; [|done]. simpl in H.
  destruct (buses route !! busIndex) as [bus|] eqn:Hb; [|done]. simpl in H.
  destruct (stops route !! currentStopIndex bus) as [currentStop|]; [|done]. simpl in H.
  destruct (RouteManager.board_loop _ _ _ _ _ _ _) as [w2|]; [|done]. simpl in H.
  inversion H; subst. simpl. by exists route, bus, (RouteManager.w_passengers w2).
Qed.

Lemma step_has_bus s s' :
  step s s' -> Forall has_bus (routes s) -> Forall has_bus (routes s').
Proof.
  intros Hstep Hall. destruct Hstep.
  - done.
  - by rewrite (proj1 (updateNPCs_calm Math_sqrt index now deltaTime s pm)).
  - apply handleBusAtStop_routes in H as (route & bus & ps & Hr & Hb & ->).
    apply Forall_insert; [done|]. unfold has_bus. simpl. rewrite length_insert.
    by eapply (Forall_lookup_1 has_bus).
  - unfold Main.drive. destruct (routes s !! routeIndex0) as [route|] eqn:Hr; [|done].
    destruct (buses route !! busIndex) as [bus|]; [|done]. simpl.
    apply Forall_insert; [done|]. unfold has_bus. simpl. rewrite length_insert.
    by eapply (Forall_lookup_1 has_bus).
  - unfold GameEngine.addRoute. repeat case_match; simpl; try done.
    apply Forall_app. split; [done|]. constructor; [|constructor]. unfold has_bus. simpl. lia.
  - unfold GameEngine.addBusToRoute. repeat case_match; simpl; try done.
    all: apply Forall_insert; [done|]; unfold has_bus; simpl; rewrite length_app; simpl; lia.
  - unfold GameEngine.removeBusFromRoute.
    destruct (routes s !! routeIndex0) as [route|] eqn:Hr; [|done].
    destruct (length (buses route) <=? 1)%nat eqn:Hlen; [done|].
    destruct (last (buses route)); [|done]. simpl.
    apply Forall_insert; [done|]. unfold has_bus. simpl.
    apply Nat.leb_gt in Hlen. destruct (buses route) as [|lastBus front _] using rev_ind; [simpl in *; lia|].
    rewrite removelast_last. rewrite length_app in Hlen. simpl in Hlen. lia.
  - unfold GameEngine.deleteRoute. case_match; [done|]. simpl. by apply Forall_delete.
  - unfold GameEngine.addStopToRoute. repeat case_match; simpl; try done.
    apply Forall_insert; [done|]. unfold has_bus. simpl.
    by eapply (Forall_lookup_1 has_bus).
  - unfold Main.edit_stops. destruct (routes s !! routeIndex0) as [route|] eqn:Hr; [|done].
    simpl. apply Forall_insert; [done|]. unfold has_bus. simpl.
    by eapply (Forall_lookup_1 has_bus).
  - unfold Main.edit_stops. cbn [routes EntityManager.set_objects]. rewrite H.
    simpl. apply Forall_insert; [done|]. unfold has_bus. simpl.
    by eapply (Forall_lookup_1 has_bus).
  - unfold Main.clearAllStops.
    destruct (routes s !! activeRouteIndex s) as [route|] eqn:Hr; [|done].
    simpl. apply Forall_insert; [done|]. unfold has_bus. simpl. rewrite length_fmap.
    by eapply (Forall_lookup_1 has_bus).
  - unfold setActiveRoute. by case_match.
  - done.
Qed.

Lemma reachable_has_bus s : reachable_state s -> Forall has_bus (routes s).
Proof.
  induction 1 as [|s s' Hs IH Hstep]; [constructor|]. by eapply step_has_bus.
Qed.

(** C10.  In every state an execution reaches every route has at least one
    bus: [addRoute] appends a route with exactly one bus, [addBusToRoute]
    appends a bus to the route, and [removeBusFromRoute] returns the state
    unchanged on a route with exactly one bus. *)
Theorem every_route_keeps_a_bus :
  (forall s route, reachable_state s -> route ∈ routes s -> 1 <= length (buses route)) /\
  (forall s, (GameEngine.addRoute s).1 = true ->
     exists route, routes (GameEngine.addRoute s).2 = routes s ++ [route] /\
                   length (buses route) = 1) /\
  (forall s, (GameEngine.addRoute s).1 = false -> (GameEngine.addRoute s).2 = s) /\
  (forall routeIndex0 s, (GameEngine.addBusToRoute routeIndex0 s).1 = true ->
     exists route bus,
       routes s !! routeIndex0 = Some route /\
       routes (GameEngine.addBusToRoute routeIndex0 s).2
         = <[routeIndex0 := RouteManager.set_buses (buses route ++ [bus]) route]> (routes s)) /\
  (forall routeIndex0 s, (GameEngine.addBusToRoute routeIndex0 s).1 = false ->
     (GameEngine.addBusToRoute routeIndex0 s).2 = s) /\
  (forall routeIndex0 s route,
     routes s !! routeIndex0 = Some route -> length (buses route) = 1 ->
     GameEngine.removeBusFromRoute routeIndex0 s = s).
Proof.
  split_and!.
  - intros s route Hs Hr. pose proof (reachable_has_bus s Hs) as Hall.
    rewrite Forall_forall in Hall. by apply Hall.
  - intros s. unfold GameEngine.addRoute. repeat case_match; simpl; try done.
    intros _. by eexists.
  - intros s. unfold GameEngine.addRoute. repeat case_match; simpl; done.
  - intros routeIndex0 s. unfold GameEngine.addBusToRoute.
    destruct (routes s !! routeIndex0) as [route|]; [|done].
    repeat case_match; simpl; try done; intros _; by eexists _, _.
  - intros routeIndex0 s. unfold GameEngine.addBusToRoute. repeat case_match; simpl; done.
  - intros routeIndex0 s route Hr Hlen. unfold GameEngine.removeBusFromRoute.
    rewrite Hr, Hlen. done.
Qed.

Lemma every_route_keeps_a_bus_witness :
  (1 <= length (buses (mkRoute [] [GameEngine.first_bus] 0))) /\
  GameEngine.removeBusFromRoute 0 (GameEngine.addRoute GameEngine.new).2
    = (GameEngine.addRoute GameEngine.new).2.
Proof.
  split.
  - apply (proj1 every_route_keeps_a_bus (GameEngine.addRoute GameEngine.new).2).
    + eapply reachable_state_step; [apply reachable_state_new | apply step_addRoute].
    + apply list_elem_of_here.
  - apply (proj2 (proj2 (proj2 (proj2 (proj2 every_route_keeps_a_bus)))) 0
             (GameEngine.addRoute GameEngine.new).2 (mkRoute [] [GameEngine.first_bus] 0));
      reflexivity.
Defined.

(** ** C2: removing a bus *)

Lemma force_waiting_idem n :
  GameEngine.force_waiting (GameEngine.force_waiting n) = GameEngine.force_waiting n.
Proof. done. Qed.

Lemma return_passengers_lookup ps (o : gmap npc_ref NPC) r :
  GameEngine.return_passengers ps o !! r
  = if decide (r ∈ ps) then GameEngine.force_waiting <$> o !! r else o !! r.
Proof.
  unfold GameEngine.return_passengers. revert o.
  induction ps as [|a ps IH]; intros o; simpl.
  - destruct (decide (r ∈ [])) as [H|_]; [by apply elem_of_nil in H | done].
  - rewrite IH. destruct (decide (r = a)) as [->|Hne].
    + rewrite lookup_alter_eq.
      destruct (decide (a ∈ a :: ps)) as [_|Hn]; [|destruct Hn; apply list_elem_of_here].
      destruct (decide (a ∈ ps)); [|done].
      destruct (o !! a); simpl; [|done]. by rewrite force_waiting_idem.
    + rewrite lookup_alter_ne by done.
      destruct (decide (r ∈ ps)) as [Hin|Hnin].
      * destruct (decide (r ∈ a :: ps)) as [_|Hn]; [done|].
        destruct Hn. by apply list_elem_of_further.
      * destruct (decide (r ∈ a :: ps)) as [Hin'|_]; [|done].
        apply elem_of_cons in Hin' as [?|?]; done.
Qed.

(** C2, as the code has it.  On a route with at least two buses,
    [removeBusFromRoute] removes the last bus of the route and returns each
    of its passengers to waiting with no stop reference (and a wait time of
    0, not at a stop, no destination stops); the other routes and objects
    stay as they are.  A route's sole bus is not removed. *)
Theorem removeBusFromRoute_returns_passengers (routeIndex0 : nat) (s : GameState)
    (route : Route) (front : list Bus) (removedBus : Bus) :
  routes s !! routeIndex0 = Some route ->
  buses route = front ++ [removedBus] ->
  front <> [] ->
  routes (GameEngine.removeBusFromRoute routeIndex0 s)
    = <[routeIndex0 := RouteManager.set_buses front route]> (routes s) /\
  npcs (GameEngine.removeBusFromRoute routeIndex0 s) = npcs s /\
  (forall r npc, r ∈ passengers removedBus -> objects s !! r = Some npc ->
     exists npc',
       objects (GameEngine.removeBusFromRoute routeIndex0 s) !! r = Some npc' /\
       npc' = GameEngine.force_waiting npc /\
       npc_state npc' = waiting /\ nearestStop npc' = None /\ atStop npc' = false /\
       waitTime npc' = 0%Q /\ destinationStop npc' = None /\
       finalDestinationStop npc' = None) /\
  (forall r, r ∉ passengers removedBus ->
     objects (GameEngine.removeBusFromRoute routeIndex0 s) !! r = objects s !! r).
Proof.
  intros Hr Hb Hfront. unfold GameEngine.removeBusFromRoute. rewrite Hr, Hb.
  assert ((length (front ++ [removedBus]) <=? 1)%nat = false) as ->.
  { apply Nat.leb_gt. rewrite length_app. simpl. destruct front; [done | simpl; lia]. }
  rewrite last_snoc, removelast_last. simpl. split_and!; [done | done | |].
  - intros r npc Hin Hobj. exists (GameEngine.force_waiting npc).
    rewrite return_passengers_lookup, Hobj. destruct (decide (r ∈ passengers removedBus)); done.
  - intros r Hnin. rewrite return_passengers_lookup.
    destruct (decide (r ∈ passengers removedBus)); done.
Qed.

(** A rider on its way to stop (5, 9). *)
Definition rider : NPC :=
  mkNPC 150 30 traveling 3 (Some 500%Q) (Some (mkStop 5 1)) false
    (mkZone 0 0 2 2 RESIDENTIAL) (mkZone 4 8 2 2 COMMERCIAL)
    (Some (mkStop 5 9)) (Some (mkStop 5 9)) 1 false None None None.

Definition bus_at (stopIndex : nat) (ps : list npc_ref) : Bus :=
  mkBus 0 0 stopIndex ps [] 0 0 false 0 0.

(** One route with two buses; the second carries the rider. *)
Definition two_bus_state : GameState :=
  mkGameState [mkRoute [mkStop 5 1; mkStop 5 9] [bus_at 0 []; bus_at 1 [7]] 0] 0 [7]
    {[7 := rider]} (mkGameStats 0 0 0 0 0 0) (mkEconomics 5000 0 0 (3 # 2)) 1000.

(** One route whose sole bus carries the rider. *)
Definition sole_bus_state : GameState :=
  mkGameState [mkRoute [mkStop 5 1; mkStop 5 9] [bus_at 1 [7]] 0] 0 [7]
    {[7 := rider]} (mkGameStats 0 0 0 0 0 0) (mkEconomics 5000 0 0 (3 # 2)) 1000.

Lemma removeBusFromRoute_returns_passengers_witness :
  routes (GameEngine.removeBusFromRoute 0 two_bus_state)
    = [mkRoute [mkStop 5 1; mkStop 5 9] [bus_at 0 []] 0] /\
  exists npc',
    objects (GameEngine.removeBusFromRoute 0 two_bus_state) !! 7 = Some npc' /\
    npc_state npc' = waiting /\ nearestStop npc' = None.
Proof.
  destruct (removeBusFromRoute_returns_passengers 0 two_bus_state
              (mkRoute [mkStop 5 1; mkStop 5 9] [bus_at 0 []; bus_at 1 [7]] 0)
              [bus_at 0 []] (bus_at 1 [7]) eq_refl eq_refl)
    as (Hroutes & _ & Hpass & _); [discriminate|].
  split; [exact Hroutes|].
  destruct (Hpass 7 rider) as (npc' & Hobj & _ & Hst & Hns & _).
  - apply list_elem_of_here.
  - reflexivity.
  - exists npc'. by split_and!.
Defined.

(** C2 as stated fails for a route's sole bus: the call changes nothing, the
    bus stays and its passenger keeps traveling. *)
Lemma removeBusFromRoute_sole_bus_counterexample :
  GameEngine.removeBusFromRoute 0 sole_bus_state = sole_bus_state /\
  routes (GameEngine.removeBusFromRoute 0 sole_bus_state)
    = [mkRoute [mkStop 5 1; mkStop 5 9] [bus_at 1 [7]] 0] /\
  exists npc,
    objects (GameEngine.removeBusFromRoute 0 sole_bus_state) !! 7 = Some npc /\
    npc_state npc = traveling /\ nearestStop npc = Some (mkStop 5 1).
Proof.
  split_and!; [reflexivity | reflexivity |].
  exists rider. split_and!; reflexivity.
Qed.

(** ** C1: a waiting NPC whose plan does not match the stop *)

(** Two routes, one bus each, both buses at stop (5, 1); route 1 serves the
    destination stop (5, 9). *)
Definition transfer_routes : list Route :=
  [mkRoute [mkStop 1 1; mkStop 5 1] [bus_at 1 []] 0;
   mkRoute [mkStop 5 1; mkStop 5 9] [bus_at 0 []] 1].

(** The NPC waits at (5, 1) for a ride to the zone around (5, 9); its plan
    still expects it at (1, 1). *)
Definition stale_plan : PlannedRoute :=
  mkPlannedRoute [mkStop 1 1; mkStop 5 1; mkStop 5 9] [0; 1] 0.

Definition stale_npc : NPC :=
  mkNPC 150 30 waiting 3 None (Some (mkStop 5 1)) true
    (mkZone 0 0 2 2 RESIDENTIAL) (mkZone 4 8 2 2 COMMERCIAL)
    None (Some (mkStop 5 9)) 0 false None None (Some stale_plan).

Definition stale_state : GameState :=
  mkGameState transfer_routes 0 [7] {[7 := stale_npc]}
    (mkGameStats 0 0 0 0 0 0) (mkEconomics 5000 0 0 (3 # 2)) 1000.

(** The same state with the plan discarded. *)
Definition planless_state : GameState :=
  mkGameState transfer_routes 0 [7] {[7 := npc_set_plannedRoute None stale_npc]}
    (mkGameStats 0 0 0 0 0 0) (mkEconomics 5000 0 0 (3 # 2)) 1000.

(** C1, the code at the failing input.  The bus of route 1 dwells at (5, 1),
    where the NPC waits with a plan whose current stop is (1, 1): the NPC is
    left as it is, plan included, and does not board.  Without the plan the
    greedy fallback boards it on this bus, directly to (5, 9). *)
Lemma handleBusAtStop_mismatched_plan_not_boarded :
  (exists s',
     RouteManager.handleBusAtStop (SpatialIndex.rebuildIndex transfer_routes) 1 0 stale_state
       = Some s' /\
     objects s' !! 7 = Some stale_npc /\
     routes s' = transfer_routes) /\
  (exists s' npc,
     RouteManager.handleBusAtStop (SpatialIndex.rebuildIndex transfer_routes) 1 0 planless_state
       = Some s' /\
     routes s' = [mkRoute [mkStop 1 1; mkStop 5 1] [bus_at 1 []] 0;
                  mkRoute [mkStop 5 1; mkStop 5 9] [bus_at 0 [7]] 1] /\
     objects s' !! 7 = Some npc /\
     npc_state npc = traveling /\
     destinationStop npc = Some (mkStop 5 9) /\
     finalDestinationStop npc = Some (mkStop 5 9)).
Proof.
  split.
  - eexists. split; [vm_compute; reflexivity|]. split; vm_compute; reflexivity.
  - eexists _, _. split; [vm_compute; reflexivity|].
    split_and!; vm_compute; reflexivity.
Qed.

(** ** C8: arrival and removal *)

(** An NPC left waiting at (5, 1): no stop lies within 8 cells of its
    destination zone around (41, 41). *)
Definition stranded_npc : NPC :=
  mkNPC 150 30 waiting 3 None (Some (mkStop 5 1)) true
    (mkZone 0 0 2 2 RESIDENTIAL) (mkZone 40 40 2 2 COMMERCIAL)
    None None 0 false None None None.

(** The bus of route 1 dwells at (5, 9), the rider's final stop. *)
Definition arrival_state : GameState :=
  mkGameState
    [mkRoute [mkStop 1 1; mkStop 5 1] [bus_at 1 []] 0;
     mkRoute [mkStop 5 1; mkStop 5 9] [bus_at 1 [7]] 1]
    0 [7; 8] {[7 := rider; 8 := stranded_npc]}
    (mkGameStats 0 0 0 0 0 0) (mkEconomics 5000 0 0 (3 # 2)) 1000.

(** The player then drags stop (1, 1) of route 0 to (2, 1). *)
Definition dragged_stops : list Stop := [mkStop 2 1; mkStop 5 1].

(** C8, the code at the failing input.  The rider arrives at the end of the
    dwell and its arrival is recorded once (one trip, its wait time, one
    ticket).  The player drags a stop before the next tick, so the waiting
    NPCs lose their stop.  In the next tick [updateNPCs] reaches the
    stranded NPC first (the loop runs from the last index down), finds its
    destination uncovered and returns: the arrived rider, at a lower
    index, is still listed after that tick, and is removed only by the
    tick after it.  Nothing more is recorded meanwhile. *)
Lemma updateNPCs_early_return_keeps_arrived :
  exists s1,
    RouteManager.handleBusAtStop (SpatialIndex.rebuildIndex (routes arrival_state)) 1 0
      arrival_state = Some s1 /\
    (exists npc, objects s1 !! 7 = Some npc /\ npc_state npc = arrived) /\
    tripsCompleted (stats s1) = 1 /\
    (totalWaitTime (stats s1) == 3)%Q /\
    (money (economics s1) == 5000 + (3 # 2))%Q /\
    (totalIncome (economics s1) == 3 # 2)%Q /\
    let s2 := Main.edit_stops 0 dragged_stops s1 in
    let index := SpatialIndex.rebuildIndex (routes s2) in
    let pm := PathfindingManager.new all_roads in
    let s3 := (EntityManager.updateNPCs (fun q => q) index 0 16 s2 pm).1 in
    let s4 := (EntityManager.updateNPCs (fun q => q) index 0 16 s3 pm).1 in
    npcs s3 = [7; 8] /\
    (exists npc, objects s3 !! 7 = Some npc /\ npc_state npc = arrived) /\
    stats s3 = stats s1 /\ economics s3 = economics s1 /\
    npcs s4 = [8] /\
    stats s4 = stats s1 /\ economics s4 = economics s1.
Proof.
  eexists. split; [vm_compute; reflexivity|].
  split; [eexists; split; vm_compute; reflexivity|].
  split_and!; try (vm_compute; reflexivity).
  cbv zeta. split_and!; try (vm_compute; reflexivity).
  eexists; split; vm_compute; reflexivity.
Qed.

(** ** C7: the transfer counter *)

(** The references held by the buses of a route, and of every route. *)
Definition route_passengers (route : Route) : list npc_ref := buses route ≫= passengers.

Definition all_passengers (rs : list Route) : list npc_ref := rs ≫= route_passengers.

(** Every reference of [ps] points to a traveling NPC below the cap. *)
Definition riders_ok (o : gmap npc_ref NPC) (ps : list npc_ref) : Prop :=
  forall r, r ∈ ps ->
    exists n, o !! r = Some n /\ npc_state n = traveling /\
              (transferCount n < RouteManager.MAX_TRANSFERS)%Z.

Definition counts_ok (o : gmap npc_ref NPC) : Prop :=
  forall r n, o !! r = Some n -> (transferCount n <= RouteManager.MAX_TRANSFERS)%Z.

(** The invariant, for the objects [o] and the references [ps] on buses:
    no NPC rides twice, the riders are traveling and below the cap, and no
    counter exceeds the cap. *)
Definition ok (o : gmap npc_ref NPC) (ps : list npc_ref) : Prop :=
  NoDup ps /\ riders_ok o ps /\ counts_ok o.

Definition transfers_bounded (s : GameState) : Prop :=
  ok (objects s) (all_passengers (routes s)).

Lemma delete_insert_same {A} (l : list A) i y : delete i (<[i := y]> l) = delete i l.
Proof.
  revert i. induction l as [|x l IH]; intros [|i]; simpl; try done. by rewrite IH.
Qed.

Lemma bind_lookup_Permutation {A B} (f : A -> list B) l i x :
  l !! i = Some x -> l ≫= f ≡ₚ f x ++ (delete i l ≫= f).
Proof. intros H. by rewrite (delete_Permutation l i x H) at 1. Qed.

Lemma bind_insert_Permutation {A B} (f : A -> list B) l i x y :
  l !! i = Some x -> <[i := y]> l ≫= f ≡ₚ f y ++ (delete i l ≫= f).
Proof.
  intros H.
  rewrite (bind_lookup_Permutation f (<[i := y]> l) i y).
  - by rewrite delete_insert_same.
  - apply list_lookup_insert_eq. by eapply lookup_lt_Some.
Qed.

Lemma all_passengers_bus rs i route j bus :
  rs !! i = Some route -> buses route !! j = Some bus ->
  all_passengers rs
  ≡ₚ passengers bus ++ (delete j (buses route) ≫= passengers)
                    ++ (delete i rs ≫= route_passengers).
Proof.
  intros Hr Hb. unfold all_passengers.
  rewrite (bind_lookup_Permutation route_passengers rs i route Hr).
  unfold route_passengers at 1.
  rewrite (bind_lookup_Permutation passengers (buses route) j bus Hb).
  by rewrite <- app_assoc.
Qed.

Lemma all_passengers_insert rs i route j bus bus' :
  rs !! i = Some route -> buses route !! j = Some bus ->
  all_passengers (<[i := RouteManager.set_buses (<[j := bus']> (buses route)) route]> rs)
  ≡ₚ passengers bus' ++ (delete j (buses route) ≫= passengers)
                     ++ (delete i rs ≫= route_passengers).
Proof.
  intros Hr Hb. unfold all_passengers.
  rewrite (bind_insert_Permutation route_passengers rs i route _ Hr).
  unfold route_passengers at 1. simpl.
  rewrite (bind_insert_Permutation passengers (buses route) j bus bus' Hb).
  by rewrite <- app_assoc.
Qed.

(** A route replaced by one with the same buses. *)
Lemma all_passengers_same_buses rs i route route' :
  rs !! i = Some route -> buses route' = buses route ->
  all_passengers (<[i := route']> rs) ≡ₚ all_passengers rs.
Proof.
  intros Hr Hb. unfold all_passengers.
  rewrite (bind_insert_Permutation route_passengers rs i route _ Hr).
  rewrite (bind_lookup_Permutation route_passengers rs i route Hr).
  unfold route_passengers at 1 3. by rewrite Hb.
Qed.

Lemma ok_submseteq o ps ps' : ps' ⊆+ ps -> ok o ps -> ok o ps'.
Proof.
  intros Hsub (Hnd & Hr & Hc). split_and!; [ | | done].
  - apply submseteq_Permutation in Hsub as [k Hk]. rewrite Hk in Hnd.
    by apply NoDup_app in Hnd as [? _].
  - intros r Hin. apply Hr. by eapply elem_of_submseteq.
Qed.

Lemma ok_Permutation o ps ps' : ps ≡ₚ ps' -> ok o ps -> ok o ps'.
Proof. intros Hp. apply ok_submseteq. apply Permutation_submseteq. by symmetry. Qed.

(** The frame of the invariant: riders may leave, and the objects of those
    who stay are as before. *)
Lemma ok_frame o o' ps ps' :
  ok o ps -> ps' ⊆+ ps -> counts_ok o' ->
  (forall r, r ∈ ps' -> o' !! r = o !! r) ->
  ok o' ps'.
Proof.
  intros Hok Hsub Hc Hsame. destruct (ok_submseteq o ps ps' Hsub Hok) as (Hnd & Hr & _).
  split_and!; [done | | done].
  intros r Hin. rewrite (Hsame r Hin). by apply Hr.
Qed.

Lemma heap_quiet_counts o o' : heap_quiet o o' -> counts_ok o -> counts_ok o'.
Proof.
  intros Hq Hc r n' Hn'. specialize (Hq r). destruct (o !! r) as [n|] eqn:Hn.
  - destruct Hq as (n'' & Hn'' & Hcount & _). simplify_eq. rewrite Hcount. by eapply Hc.
  - congruence.
Qed.

Lemma heap_quiet_riders o o' ps r :
  heap_quiet o o' -> riders_ok o ps -> r ∈ ps -> o' !! r = o !! r.
Proof.
  intros Hq Hr Hin. destruct (Hr r Hin) as (n & Hn & Ht & _).
  specialize (Hq r). rewrite Hn in Hq. destruct Hq as (n' & Hn' & _ & Hsame & _).
  rewrite Hn', Hn. f_equal. by apply Hsame.
Qed.

Lemma ok_heap_quiet o o' ps ps' :
  ok o ps -> ps' ⊆+ ps -> heap_quiet o o' -> ok o' ps'.
Proof.
  intros Hok Hsub Hq. eapply ok_frame; [done | done | |].
  - eapply heap_quiet_counts; [done | apply Hok].
  - intros r Hin. eapply heap_quiet_riders; [done | apply Hok |].
    by eapply elem_of_submseteq.
Qed.

(** *** handleBusAtStop keeps the invariant

    [others] are the references on the other buses while
    [handleBusAtStop] works on the passengers of one. *)
Definition work_ok (others : list npc_ref) (w : RouteManager.Work) : Prop :=
  ok (RouteManager.w_objects w) (RouteManager.w_passengers w ++ others).

Lemma put_ok others r n w :
  work_ok others w ->
  (transferCount n <= RouteManager.MAX_TRANSFERS)%Z ->
  (r ∈ RouteManager.w_passengers w ++ others ->
     npc_state n = traveling /\ (transferCount n < RouteManager.MAX_TRANSFERS)%Z) ->
  work_ok others (RouteManager.put r n w).
Proof.
  intros (Hnd & Hr & Hc) Hn Hin. split_and!; simpl; [done | |].
  - intros r' Hr'. destruct (decide (r = r')) as [<-|Hne].
    + rewrite lookup_insert_eq. exists n. split; [done|]. by apply Hin.
    + rewrite lookup_insert_ne by done. by apply Hr.
  - intros r' n' Hn'. destruct (decide (r = r')) as [<-|Hne].
    + rewrite lookup_insert_eq in Hn'. by simplify_eq.
    + rewrite lookup_insert_ne in Hn' by done. by eapply Hc.
Qed.

Lemma put_ok_absent others r n w :
  work_ok others w ->
  r ∉ RouteManager.w_passengers w ++ others ->
  (transferCount n <= RouteManager.MAX_TRANSFERS)%Z ->
  work_ok others (RouteManager.put r n w).
Proof. intros Hok Hnin Hn. by apply put_ok. Qed.

Lemma splice_ok others i r w :
  work_ok others w -> RouteManager.w_passengers w !! i = Some r ->
  work_ok others (RouteManager.splice i w) /\
  r ∉ RouteManager.w_passengers (RouteManager.splice i w) ++ others.
Proof.
  intros Hok Hi.
  assert (RouteManager.w_passengers w ++ others
          ≡ₚ r :: (delete i (RouteManager.w_passengers w) ++ others)) as Hp.
  { by rewrite (delete_Permutation _ i r Hi) at 1. }
  apply (ok_Permutation _ _ _ Hp) in Hok as Hok'. destruct Hok' as (Hnd & Hr & Hc).
  apply NoDup_cons in Hnd as [Hnin Hnd]. split; [|done].
  split_and!; simpl; [done | | done].
  intros r' Hr'. apply Hr. by apply list_elem_of_further.
Qed.

Lemma record_arrival_ok others now p w :
  work_ok others w -> work_ok others (RouteManager.record_arrival now p w).
Proof. done. Qed.

Lemma push_ok others r w :
  work_ok others w ->
  r ∉ RouteManager.w_passengers w ++ others ->
  (exists n, RouteManager.w_objects w !! r = Some n /\ npc_state n = traveling /\
             (transferCount n < RouteManager.MAX_TRANSFERS)%Z) ->
  work_ok others (RouteManager.push r w).
Proof.
  intros (Hnd & Hr & Hc) Hnin Hn.
  assert ((RouteManager.w_passengers w ++ [r]) ++ others
          ≡ₚ r :: (RouteManager.w_passengers w ++ others)) as Hp.
  { rewrite <- app_assoc. simpl. by rewrite <- Permutation_middle. }
  split_and!; simpl; [| | done].
  - rewrite Hp. by apply NoDup_cons.
  - intros r' Hr'. rewrite Hp in Hr'. apply elem_of_cons in Hr' as [->|Hr']; [done|].
    by apply Hr.
Qed.

(** A waiting NPC rides no bus. *)
Lemma waiting_not_rider others w r npc :
  work_ok others w -> RouteManager.w_objects w !! r = Some npc ->
  npc_state npc <> traveling ->
  r ∉ RouteManager.w_passengers w ++ others.
Proof.
  intros (_ & Hr & _) Hn Hs Hin. destruct (Hr r Hin) as (n & Hn' & Ht & _).
  by simplify_eq.
Qed.

Lemma board_ok others now r npc dest final w :
  work_ok others w -> RouteManager.w_objects w !! r = Some npc ->
  npc_state npc = waiting ->
  (transferCount npc < RouteManager.MAX_TRANSFERS)%Z ->
  work_ok others (RouteManager.board now r npc dest final w).
Proof.
  intros Hok Hn Hs Hc.
  assert (r ∉ RouteManager.w_passengers w ++ others) as Hnin.
  { eapply waiting_not_rider; [done | done | by rewrite Hs]. }
  unfold RouteManager.board. cbv zeta.
  apply push_ok; [| done |].
  - apply put_ok_absent; [done | done |]. case_match; simpl; lia.
  - simpl. rewrite lookup_insert_eq. eexists. split; [done|]. by case_match.
Qed.

Lemma alight_one_ok others index currentStop now i w :
  work_ok others w -> work_ok others (RouteManager.alight_one index currentStop now i w).
Proof.
  intros Hok. unfold RouteManager.alight_one.
  destruct (RouteManager.w_passengers w !! i) as [r|] eqn:Hi; [|done].
  destruct (RouteManager.w_objects w !! r) as [p|] eqn:Hp; [|done].
  cbv zeta.
  assert (npc_state p = traveling /\ (transferCount p < RouteManager.MAX_TRANSFERS)%Z)
    as [Hs Hc].
  { destruct Hok as (_ & Hr & _). destruct (Hr r) as (n & Hn & ? & ?); [|by simplify_eq].
    apply elem_of_app. left. by eapply list_elem_of_lookup_2. }
  match goal with
  | |- context [let '(_, _) := ?X in _] => destruct X as [p' destStop] eqn:Hpd
  end.
  assert (npc_state p' = traveling /\ transferCount p' = transferCount p) as [Hs' Hc'].
  { destruct (destinationStop p); [by simplify_eq|].
    destruct (SpatialIndex.findNearestStop _ _ _); by simplify_eq. }
  assert (work_ok others (RouteManager.put r p' w)) as Hok1.
  { apply put_ok; [done | lia |]. intros _. split; [done | lia]. }
  destruct destStop as [d|]; [|done].
  destruct (same_stop d currentStop); [|done].
  destruct (splice_ok others i r (RouteManager.put r p' w) Hok1 Hi) as [Hok2 Hnin].
  match goal with
  | |- context [match ?X with Some _ => _ | None => RouteManager.splice _ _ end] =>
      destruct X as [p''|] eqn:Hrec; [|done]
  end.
  assert (transferCount p'' = transferCount p') as Hc''.
  { destruct (finalDestinationStop p'); [by simplify_eq|].
    destruct (SpatialIndex.findNearestStop _ _ _); by simplify_eq. }
  destruct (finalDestinationStop p'') as [finalDestStop|].
  - destruct (same_stop finalDestStop currentStop).
    + destruct (too_far_from_zone _ _).
      * apply put_ok_absent; [done | done |]. simpl. unfold RouteManager.MAX_TRANSFERS in *. lia.
      * apply record_arrival_ok. apply put_ok_absent; [done | done |]. simpl. lia.
    + apply put_ok_absent; [done | done |].
      unfold RouteManager.advance_plan. simpl. destruct (plannedRoute p''); simpl;
        unfold RouteManager.MAX_TRANSFERS in *; lia.
  - apply put_ok_absent; [done | done | lia].
Qed.

Lemma alight_loop_ok others index currentStop now n w :
  work_ok others w -> work_ok others (RouteManager.alight_loop index currentStop now n w).
Proof.
  revert w. induction n as [|i IH]; intros w Hok; simpl; [done|].
  by apply IH, alight_one_ok.
Qed.

Lemma fallback_ok others index route currentStop now r npc w :
  work_ok others w -> RouteManager.w_objects w !! r = Some npc ->
  npc_state npc = waiting ->
  (transferCount npc < RouteManager.MAX_TRANSFERS)%Z ->
  work_ok others (RouteManager.fallback index route currentStop now r npc w).
Proof.
  intros Hok Hn Hs Hc. unfold RouteManager.fallback. cbv zeta.
  repeat case_match; try done; by apply board_ok.
Qed.

Lemma board_one_ok others index routeIndexInState route currentStop now w r w' :
  work_ok others w ->
  RouteManager.board_one index routeIndexInState route currentStop now w r = Some w' ->
  work_ok others w'.
Proof.
  intros Hok Hb. unfold RouteManager.board_one in Hb.
  destruct (RouteManager.w_objects w !! r) as [npc|] eqn:Hn; [|by simplify_eq].
  destruct (bool_decide (npc_state npc = waiting)) eqn:Hs; simpl in Hb; [|by simplify_eq].
  apply bool_decide_eq_true in Hs.
  destruct (atStop npc && _ && _); [|by simplify_eq].
  destruct (RouteManager.MAX_TRANSFERS <=? transferCount npc)%Z eqn:Hcap.
  - destruct (_ && _); simplify_eq; [|done].
    apply put_ok_absent; [done | | ].
    + eapply waiting_not_rider; [done | done | by rewrite Hs].
    + simpl. destruct Hok as (_ & _ & Hc). by eapply Hc.
  - apply Z.leb_gt in Hcap.
    repeat case_match; simplify_eq; try done.
    all: try (by apply board_ok).
    all: by apply fallback_ok.
Qed.

Lemma board_loop_ok others index routeIndexInState route currentStop now refs w w' :
  work_ok others w ->
  RouteManager.board_loop index routeIndexInState route currentStop now refs w = Some w' ->
  work_ok others w'.
Proof.
  revert w. induction refs as [|r refs IH]; intros w Hok Hb; simpl in Hb; [by simplify_eq|].
  destruct (RouteManager.board_one _ _ _ _ _ _ _) as [w1|] eqn:H1; [|done].
  eapply IH; [|done]. by eapply board_one_ok.
Qed.

Lemma handleBusAtStop_ok index routeIndex0 busIndex s s' :
  transfers_bounded s ->
  RouteManager.handleBusAtStop index routeIndex0 busIndex s = Some s' ->
  transfers_bounded s'.
Proof.
  unfold RouteManager.handleBusAtStop, transfers_bounded. intros Hok H.
  destruct (routes s !! routeIndex0) as [route|] eqn:Hr; [|done]. simpl in H.
  destruct (buses route !! busIndex) as [bus|] eqn:Hb; [|done]. simpl in H.
  destruct (stops route !! currentStopIndex bus) as [currentStop|]; [|done]. simpl in H.
  destruct (RouteManager.board_loop _ _ _ _ _ _ _) as [w2|] eqn:Hloop; [|done]. simpl in H.
  inversion H; subst; clear H. simpl.
  apply (ok_Permutation _ _ _ (all_passengers_bus _ _ _ _ _ Hr Hb)) in Hok.
  eapply ok_Permutation; [symmetry; by eapply all_passengers_insert|]. simpl.
  eapply board_loop_ok; [|done].
  by apply alight_loop_ok.
Qed.

(** An NPC at or above the cap does not board, with or without a plan. *)
Lemma board_one_at_cap index routeIndexInState route currentStop now w r npc :
  RouteManager.w_objects w !! r = Some npc ->
  (RouteManager.MAX_TRANSFERS <= transferCount npc)%Z ->
  exists w',
    RouteManager.board_one index routeIndexInState route currentStop now w r = Some w' /\
    RouteManager.w_passengers w' = RouteManager.w_passengers w /\
    (forall r', r' <> r -> RouteManager.w_objects w' !! r' = RouteManager.w_objects w !! r') /\
    (exists npc', RouteManager.w_objects w' !! r = Some npc' /\
                  npc_state npc' = npc_state npc /\
                  transferCount npc' = transferCount npc).
Proof.
  intros Hn Hcap. unfold RouteManager.board_one. rewrite Hn.
  apply Z.leb_le in Hcap. rewrite Hcap.
  repeat case_match; eexists; (split; [done|]); simpl; split_and!; try done.
  all: try (intros r' Hne; by rewrite lookup_insert_ne).
  all: try (rewrite lookup_insert_eq); by eexists.
Qed.

(** *** The other operations keep the invariant *)

Lemma all_passengers_shrink rs i route route' :
  rs !! i = Some route ->
  route_passengers route' ⊆+ route_passengers route ->
  all_passengers (<[i := route']> rs) ⊆+ all_passengers rs.
Proof.
  intros Hr Hsub. unfold all_passengers.
  rewrite (bind_insert_Permutation route_passengers rs i route _ Hr).
  rewrite (bind_lookup_Permutation route_passengers rs i route Hr).
  by apply submseteq_skips_r.
Qed.

Lemma route_passengers_mk stops bs c :
  route_passengers (mkRoute stops bs c) = bs ≫= passengers.
Proof. done. Qed.

Lemma all_passengers_delete rs i : all_passengers (delete i rs) ⊆+ all_passengers rs.
Proof. unfold all_passengers. apply bind_submseteq, sublist_submseteq, sublist_delete. Qed.

(** The passengers [gone] leave their bus and are sent back to waiting. *)
Lemma ok_leave o ps gone ps' :
  ok o ps -> ps ≡ₚ gone ++ ps' -> ok (GameEngine.return_passengers gone o) ps'.
Proof.
  intros Hok Hp. apply (ok_Permutation _ _ _ Hp) in Hok as Hok'.
  destruct Hok' as (Hnd & _ & _). apply NoDup_app in Hnd as (_ & Hdisj & _).
  eapply ok_frame; [done | | |].
  - rewrite Hp. by apply submseteq_inserts_l.
  - intros r n'. rewrite return_passengers_lookup.
    destruct Hok as (_ & _ & Hc). specialize (Hc r).
    destruct (decide (r ∈ gone)); [|by apply Hc].
    destruct (o !! r) as [n|]; [|done]. simpl. intros ?; simplify_eq. simpl. by apply Hc.
  - intros r Hin. rewrite return_passengers_lookup.
    destruct (decide (r ∈ gone)) as [Hg|]; [|done]. by destruct (Hdisj r Hg).
Qed.

Lemma return_passengers_buses (bs : list Bus) (o : gmap npc_ref NPC) :
  foldl (fun o bus => GameEngine.return_passengers (passengers bus) o) o bs
  = GameEngine.return_passengers (bs ≫= passengers) o.
Proof.
  revert o. induction bs as [|b bs IH]; intros o; [done|].
  simpl. rewrite IH. unfold GameEngine.return_passengers. by rewrite foldl_app.
Qed.

Lemma clear_bus_passengers (bs : list Bus) : (Main.clear_bus <$> bs) ≫= passengers = [].
Proof. induction bs as [|b bs IH]; [done|]. simpl. apply IH. Qed.

Lemma reset_waiting_quiet o0 (l : list npc_ref) (o : gmap npc_ref NPC) :
  heap_quiet o0 o ->
  heap_quiet o0 (foldl (fun o r => alter Main.forget_stop r o) o l).
Proof.
  revert o. induction l as [|r l IH]; intros o Hq; [done|]. simpl. apply IH.
  apply heap_quiet_alter; [done | | |]; intros n; unfold Main.forget_stop.
  - by case_match.
  - intros Ht. rewrite Ht. done.
  - by case_match.
Qed.

Lemma ok_reset_waiting s ps :
  ok (objects s) ps -> ok (objects (Main.reset_waiting s)) ps.
Proof.
  intros Hok. eapply ok_heap_quiet; [done | done |].
  simpl. apply reset_waiting_quiet, heap_quiet_refl.
Qed.

Lemma ok_aliases_moved old new o o' ps :
  Main.aliases_moved old new o o' -> ok o ps -> ok o' ps.
Proof.
  intros Hm (Hnd & Hr & Hc). split_and!; [done | |].
  - intros r Hin. destruct (Hr r Hin) as (n & Hn & Hst & Hcount).
    specialize (Hm r). rewrite Hn in Hm.
    destruct (o' !! r) as [n'|] eqn:Hn'; [|by inversion Hm].
    assert (Hnn' : Main.moved_npc old new n n') by (by inversion Hm).
    destruct (moved_npc_same _ _ _ _ Hnn') as [Hst' Hcount'].
    exists n'. split_and!; [done | congruence | lia].
  - intros r n' Hn'. specialize (Hm r). rewrite Hn' in Hm.
    destruct (o !! r) as [n|] eqn:Hn; [|by inversion Hm].
    assert (Hnn' : Main.moved_npc old new n n') by (by inversion Hm).
    destruct (moved_npc_same _ _ _ _ Hnn') as [_ Hcount']. rewrite Hcount'. by eapply Hc.
Qed.

Lemma step_transfers_bounded s s' :
  step s s' -> transfers_bounded s -> transfers_bounded s'.
Proof.
  unfold transfers_bounded. intros Hstep Hok. destruct Hstep.
  - (* createNPC *)
    simpl. eapply ok_frame; [done | done | |].
    + intros r' n'. destruct (decide (r = r')) as [<-|Hne].
      * rewrite lookup_insert_eq. intros ?; simplify_eq. done.
      * rewrite lookup_insert_ne by done. apply Hok.
    + intros r' Hin. destruct Hok as (_ & Hr & _).
      destruct (Hr r' Hin) as (n & Hn & _).
      rewrite lookup_insert_ne; [done | congruence].
  - (* updateNPCs *)
    destruct (updateNPCs_calm Math_sqrt index now deltaTime s pm) as [-> Hq].
    by eapply ok_heap_quiet.
  - by eapply handleBusAtStop_ok.
  - (* drive *)
    unfold Main.drive. destruct (routes s !! routeIndex0) as [route|] eqn:Hr; [|done].
    destruct (buses route !! busIndex) as [bus|] eqn:Hb; [|done]. simpl.
    eapply ok_Permutation; [|done].
    rewrite (all_passengers_insert _ _ _ _ _ _ Hr Hb).
    by rewrite (all_passengers_bus _ _ _ _ _ Hr Hb).
  - (* addRoute *)
    unfold GameEngine.addRoute. repeat case_match; simpl; try done.
    unfold all_passengers. rewrite bind_app. simpl. by rewrite !app_nil_r.
  - (* addBusToRoute *)
    unfold GameEngine.addBusToRoute.
    destruct (routes s !! routeIndex0) as [route|] eqn:Hr; [|done].
    repeat case_match; simpl; try done.
    all: eapply ok_submseteq; [|done].
    all: apply (all_passengers_shrink _ _ route); [done|].
    all: unfold route_passengers; simpl; rewrite bind_app; simpl; by rewrite !app_nil_r.
  - (* removeBusFromRoute *)
    unfold GameEngine.removeBusFromRoute.
    destruct (routes s !! routeIndex0) as [route|] eqn:Hr; [|done].
    case_match; [done|].
    destruct (buses route) as [|removedBus front _] eqn:Hb using rev_ind; [done|].
    rewrite last_snoc, removelast_last. simpl.
    apply (ok_leave _ (all_passengers (routes s))); [done|].
    unfold all_passengers.
    rewrite (bind_insert_Permutation route_passengers _ _ route _ Hr).
    rewrite (bind_lookup_Permutation route_passengers _ _ route Hr).
    unfold RouteManager.set_buses. rewrite route_passengers_mk.
    assert (route_passengers route = (front ≫= passengers) ++ passengers removedBus) as ->.
    { unfold route_passengers. rewrite Hb, bind_app. simpl. by rewrite app_nil_r. }
    rewrite app_assoc. f_equiv. apply Permutation_app_comm.
  - (* deleteRoute *)
    unfold GameEngine.deleteRoute. case_match; [done|]. simpl.
    eapply ok_submseteq; [apply all_passengers_delete | done].
  - (* addStopToRoute *)
    unfold GameEngine.addStopToRoute.
    destruct (routes s !! routeIndex0) as [route|] eqn:Hr; [|done].
    case_match; simpl; [done|].
    eapply ok_Permutation; [|done]. symmetry. by eapply all_passengers_same_buses.
  - (* edit_stops *)
    unfold Main.edit_stops. destruct (routes s !! routeIndex0) as [route|] eqn:Hr; [|done].
    match goal with |- ok (objects (Main.reset_waiting ?s1)) _ =>
      change (routes (Main.reset_waiting s1)) with (routes s1) end.
    apply ok_reset_waiting. simpl.
    eapply ok_Permutation; [|done]. symmetry. by eapply all_passengers_same_buses.
  - (* a stop moved *)
    unfold Main.edit_stops. cbn [routes EntityManager.set_objects]. rewrite H.
    match goal with |- ok (objects (Main.reset_waiting ?s1)) _ =>
      change (routes (Main.reset_waiting s1)) with (routes s1) end.
    apply ok_reset_waiting. simpl. eapply ok_aliases_moved; [done|].
    eapply ok_Permutation; [|done]. symmetry. by eapply all_passengers_same_buses.
  - (* clearAllStops *)
    unfold Main.clearAllStops.
    destruct (routes s !! activeRouteIndex s) as [route|] eqn:Hr; [|done].
    match goal with |- ok (objects (Main.reset_waiting ?s1)) _ =>
      change (routes (Main.reset_waiting s1)) with (routes s1) end.
    apply ok_reset_waiting. simpl. rewrite return_passengers_buses.
    apply (ok_leave _ (all_passengers (routes s))); [done|].
    unfold all_passengers.
    rewrite (bind_insert_Permutation route_passengers _ _ route _ Hr).
    rewrite (bind_lookup_Permutation route_passengers _ _ route Hr).
    by rewrite route_passengers_mk, clear_bus_passengers.
  - (* setActiveRoute *)
    unfold setActiveRoute. by case_match.
  - done.
Qed.

Lemma reachable_transfers_bounded s : reachable_state s -> transfers_bounded s.
Proof.
  induction 1 as [|s s' Hs IH Hstep]; [|by eapply step_transfers_bounded].
  split_and!; [constructor | by intros r Hin; apply elem_of_nil in Hin |].
  intros r n Hn. simpl in Hn. by rewrite lookup_empty in Hn.
Qed.

(** C7.  In every state an execution reaches no NPC's transfer counter
    exceeds [MAX_TRANSFERS] = 5, and every NPC on a bus is below the cap;
    the boarding step leaves an NPC at or above the cap off the bus, with
    or without a plan, whatever the state. *)
Theorem transferCount_never_exceeds_cap :
  RouteManager.MAX_TRANSFERS = 5%Z /\
  (forall s r npc, reachable_state s -> objects s !! r = Some npc ->
     (transferCount npc <= RouteManager.MAX_TRANSFERS)%Z) /\
  (forall s route bus r, reachable_state s ->
     route ∈ routes s -> bus ∈ buses route -> r ∈ passengers bus ->
     exists npc, objects s !! r = Some npc /\ npc_state npc = traveling /\
                 (transferCount npc < RouteManager.MAX_TRANSFERS)%Z) /\
  (forall index routeIndexInState route currentStop now w r npc,
     RouteManager.w_objects w !! r = Some npc ->
     (RouteManager.MAX_TRANSFERS <= transferCount npc)%Z ->
     exists w',
       RouteManager.board_one index routeIndexInState route currentStop now w r = Some w' /\
       RouteManager.w_passengers w' = RouteManager.w_passengers w /\
       exists npc', RouteManager.w_objects w' !! r = Some npc' /\
                    npc_state npc' = npc_state npc /\
                    transferCount npc' = transferCount npc).
Proof.
  split_and!; [done | | |].
  - intros s r npc Hs Hn. destruct (reachable_transfers_bounded s Hs) as (_ & _ & Hc).
    by eapply Hc.
  - intros s route bus r Hs Hroute Hbus Hr.
    destruct (reachable_transfers_bounded s Hs) as (_ & Hriders & _).
    apply Hriders. apply list_elem_of_bind. exists route. split; [|done].
    apply list_elem_of_bind. by exists bus.
  - intros index routeIndexInState route currentStop now w r npc Hn Hcap.
    destruct (board_one_at_cap index routeIndexInState route currentStop now w r npc Hn Hcap)
      as (w' & Hb & Hp & _ & Hnpc).
    by exists w'.
Qed.

(** A short game: one route with stops (1, 1) and (5, 1), one NPC spawned on
    the first stop and bound for a zone around the second; it reaches the
    stop in the first tick and boards the bus of the route at its dwell. *)
Definition ride_state : GameState :=
  let s1 := (GameEngine.addRoute GameEngine.new).2 in
  let s2 := (GameEngine.addStopToRoute 0 1 1 s1).2 in
  let s3 := (GameEngine.addStopToRoute 0 5 1 s2).2 in
  let s4 := EntityManager.createNPC 0 30 30 (mkZone 0 0 2 2 RESIDENTIAL)
              (mkZone 4 0 2 2 COMMERCIAL) s3 in
  let index := SpatialIndex.rebuildIndex (routes s4) in
  let s5 := (EntityManager.updateNPCs (fun q => q) index 0 16 s4
               (PathfindingManager.new all_roads)).1 in
  default s5 (RouteManager.handleBusAtStop index 0 0 s5).

Definition ride_bus : Bus := RouteManager.set_passengers [0] GameEngine.first_bus.

Definition ride_route : Route := mkRoute [mkStop 1 1; mkStop 5 1] [ride_bus] 0.

Lemma ride_state_reachable : reachable_state ride_state.
Proof.
  unfold ride_state. cbv zeta.
  match goal with
  | |- reachable_state (default ?s5 ?call) =>
      assert (reachable_state s5) as H5; [|destruct call as [s6|] eqn:Hcall]
  end.
  - eapply reachable_state_step; [|apply step_updateNPCs].
    eapply reachable_state_step; [|apply step_createNPC; vm_compute; reflexivity].
    eapply reachable_state_step; [|apply step_addStopToRoute].
    eapply reachable_state_step; [|apply step_addStopToRoute].
    eapply reachable_state_step; [|apply step_addRoute].
    apply reachable_state_new.
  - eapply reachable_state_step; [exact H5|]. eapply step_handleBusAtStop, Hcall.
  - exact H5.
Qed.

Lemma transferCount_never_exceeds_cap_witness :
  routes ride_state = [ride_route] /\
  exists npc, objects ride_state !! 0 = Some npc /\ npc_state npc = traveling /\
              (transferCount npc < 5)%Z.
Proof.
  split; [vm_compute; reflexivity|].
  apply (proj1 (proj2 (proj2 transferCount_never_exceeds_cap))
           ride_state ride_route ride_bus 0 ride_state_reachable).
  - apply (list_elem_of_lookup_2 _ 0). vm_compute. reflexivity.
  - apply list_elem_of_here.
  - apply list_elem_of_here.
Defined.

(** * Further properties

    The rest of the development covers the code around the functions
    above: the cache and the spatial index on their own, ViewportCuller,
    the plan accessors of RoutePlanner, the traffic multipliers and the
    books of RouteManager and EntityManager, and of GameEngine the
    purchases, the active route, the ticket price, the loans, bankruptcy
    and the daily accounting; then the route loop of GameStateSerializer
    and the score of StatsCalculator. *)

(** ** PathCache.ts: the cache on its own *)

(** [new PathCache(maxSize)] *)
Definition newPathCache (maxSize : nat) : PathCache.t := PathCache.mkCache [] maxSize.

(** [getStats()]: size and maxSize. *)
Definition getStats (c : PathCache.t) : nat * nat := (PathCache.size c, PathCache.maxSize c).

Lemma map_get_set_eq key entry m :
  PathCache.map_get key (PathCache.map_set key entry m) = Some entry.
Proof.
  induction m as [|[k e] m IH]; simpl.
  - by rewrite decide_True.
  - destruct (decide (k = key)) as [->|Hne]; simpl.
    + by rewrite decide_True.
    + by rewrite decide_False.
Qed.

Lemma map_get_set_ne key key' entry m :
  key' <> key ->
  PathCache.map_get key' (PathCache.map_set key entry m) = PathCache.map_get key' m.
Proof.
  intros Hne. induction m as [|[k e] m IH]; simpl.
  - by rewrite decide_False.
  - destruct (decide (k = key)) as [->|Hk]; simpl.
    + by rewrite !decide_False.
    + destruct (decide (k = key')); [done | apply IH].
Qed.

Lemma map_get_delete_ne key key' m :
  key' <> key ->
  PathCache.map_get key' (PathCache.map_delete key m) = PathCache.map_get key' m.
Proof.
  intros Hne. unfold PathCache.map_delete. induction m as [|[k e] m IH]; [done|].
  rewrite filter_cons. cbn [fst]. destruct (decide (k <> key)) as [Hk|Hk]; simpl.
  - destruct (decide (k = key')); [done | apply IH].
  - apply dec_stable in Hk. subst k. by rewrite decide_False.
Qed.

Lemma map_get_delete_eq key m :
  PathCache.map_get key (PathCache.map_delete key m) = None.
Proof. apply PathCache.map_get_None, PathCache.map_delete_absent. Qed.

(** X1.  What [set] stores, [get] returns: after [set(key, path)] a [get]
    of the key gives [path].  Every other key answers as before, except
    the oldest one when the cache was at capacity: that one is gone. *)
Theorem PathCache_get_after_set (now : Z) (key : PathCache.Key) (p : list Waypoint)
    (c : PathCache.t) :
  (PathCache.get key (PathCache.set now key p c)).1 = Some p /\
  (forall key', key' <> key ->
     (PathCache.size c < PathCache.maxSize c \/ head (PathCache.keys c) <> Some key') ->
     (PathCache.get key' (PathCache.set now key p c)).1 = (PathCache.get key' c).1) /\
  (forall key', key' <> key ->
     PathCache.maxSize c <= PathCache.size c -> head (PathCache.keys c) = Some key' ->
     (PathCache.get key' (PathCache.set now key p c)).1 = None).
Proof.
  assert (Hget : forall k c0, (PathCache.get k c0).1
                              = PathCache.path <$> PathCache.map_get k (PathCache.cache c0)).
  { intros k c0. unfold PathCache.get. by destruct (PathCache.map_get k _). }
  rewrite !Hget. unfold PathCache.set, PathCache.size, PathCache.keys. simpl.
  split_and!.
  - by rewrite map_get_set_eq.
  - intros key' Hne Hroom. rewrite !Hget. simpl. rewrite map_get_set_ne by done.
    destruct (PathCache.maxSize c <=? length (PathCache.cache c)) eqn:Hcap; [|done].
    apply Nat.leb_le in Hcap. destruct Hroom as [Hlt|Hhead]; [lia|].
    destruct (PathCache.cache c) as [|[k e] m]; [done|].
    rewrite map_get_delete_ne; [done|]. intros ->. by destruct Hhead.
  - intros key' Hne Hcap Hhead. rewrite !Hget. simpl. rewrite map_get_set_ne by done.
    apply Nat.leb_le in Hcap. rewrite Hcap.
    destruct (PathCache.cache c) as [|[k e] m]; [done|].
    simpl in Hhead. simplify_eq. by rewrite map_get_delete_eq.
Qed.

(** The calls a user of the cache can make. *)
Inductive CacheOp :=
| op_get (key : PathCache.Key)
| op_set (now : Z) (key : PathCache.Key) (p : list Waypoint)
| op_clear.

Definition apply_op (c : PathCache.t) (op : CacheOp) : PathCache.t :=
  match op with
  | op_get key => (PathCache.get key c).2
  | op_set now key p => PathCache.set now key p c
  | op_clear => PathCache.clear c
  end.

Lemma map_set_keys key entry m :
  (PathCache.map_set key entry m).*1
  = if decide (key ∈ m.*1) then m.*1 else m.*1 ++ [key].
Proof.
  induction m as [|[k e] m IH].
  - reflexivity.
  - cbn [PathCache.map_set fst]. rewrite !fmap_cons. cbn [fst].
    destruct (decide (k = key)) as [->|Hne].
    + rewrite fmap_cons. cbn [fst]. rewrite decide_True; [done | apply list_elem_of_here].
    + rewrite fmap_cons, IH. cbn [fst]. destruct (decide (key ∈ m.*1)).
      * rewrite decide_True; [done | by apply list_elem_of_further].
      * rewrite decide_False; [done|]. rewrite not_elem_of_cons. split; [congruence | done].
Qed.

Lemma map_set_NoDup key entry m :
  NoDup m.*1 -> NoDup (PathCache.map_set key entry m).*1.
Proof.
  intros Hnd. rewrite map_set_keys. destruct (decide (key ∈ m.*1)); [done|].
  apply NoDup_app. split_and!; [done | | apply NoDup_singleton].
  intros x Hx Hx'. apply list_elem_of_singleton in Hx'. by subst.
Qed.

Lemma map_set_length key entry m :
  length (PathCache.map_set key entry m) <= S (length m).
Proof.
  induction m as [|[k e] m IH]; simpl; [lia|].
  destruct (decide (k = key)); simpl; lia.
Qed.

Lemma map_delete_NoDup key m : NoDup m.*1 -> NoDup (PathCache.map_delete key m).*1.
Proof. intros Hnd. rewrite PathCache.map_delete_keys. by apply NoDup_filter. Qed.

Lemma get_keys_NoDup key c :
  NoDup (PathCache.keys c) -> NoDup (PathCache.keys (PathCache.get key c).2).
Proof.
  unfold PathCache.get, PathCache.keys. intros Hnd.
  destruct (PathCache.map_get key (PathCache.cache c)); [|done]. simpl.
  by apply map_set_NoDup, map_delete_NoDup.
Qed.

Lemma map_delete_present_length key m :
  NoDup m.*1 -> key ∈ m.*1 -> S (length (PathCache.map_delete key m)) = length m.
Proof.
  intros Hnd Hin. induction m as [|[k e] m IH]; [by apply elem_of_nil in Hin|].
  rewrite fmap_cons in Hnd, Hin. cbn [fst] in *. apply NoDup_cons in Hnd as [Hk Hnd].
  unfold PathCache.map_delete in *. rewrite filter_cons. cbn [fst].
  destruct (decide (k <> key)) as [Hne|Heq]; simpl.
  - apply elem_of_cons in Hin as [?|Hin]; [by subst|]. by rewrite IH.
  - apply dec_stable in Heq. subst k. f_equal.
    clear IH Hin Hnd. induction m as [|[k' e'] m IH]; [done|].
    rewrite fmap_cons, not_elem_of_cons in Hk. destruct Hk as [Hne Hk]. cbn [fst] in Hne.
    rewrite filter_cons. cbn [fst]. destruct (decide (k' <> key)); [|done].
    simpl. f_equal. by apply IH.
Qed.

Lemma get_size key c :
  NoDup (PathCache.keys c) -> PathCache.size (PathCache.get key c).2 = PathCache.size c.
Proof.
  unfold PathCache.get, PathCache.keys, PathCache.size. intros Hnd.
  destruct (PathCache.map_get key (PathCache.cache c)) as [entry|] eqn:Hget; [|done]. simpl.
  rewrite PathCache.map_set_fresh by apply PathCache.map_delete_absent.
  rewrite length_app. simpl.
  apply PathCache.map_get_Some in Hget.
  rewrite <- (map_delete_present_length key (PathCache.cache c)); [lia | done |].
  apply list_elem_of_fmap. by exists (key, entry).
Qed.

Lemma set_size now key p c :
  NoDup (PathCache.keys c) -> PathCache.size c <= Nat.max (PathCache.maxSize c) 1 ->
  PathCache.size (PathCache.set now key p c) <= Nat.max (PathCache.maxSize c) 1.
Proof.
  unfold PathCache.set, PathCache.keys, PathCache.size. simpl. intros Hnd Hsz.
  destruct (PathCache.maxSize c <=? length (PathCache.cache c)) eqn:Hcap.
  - destruct (PathCache.cache c) as [|[k e] m] eqn:Hc; [simpl; lia|].
    rewrite PathCache.map_delete_head by done.
    pose proof (map_set_length key (PathCache.mkCacheEntry p now) m). simpl in *. lia.
  - apply Nat.leb_gt in Hcap.
    pose proof (map_set_length key (PathCache.mkCacheEntry p now) (PathCache.cache c)). lia.
Qed.

Lemma set_keys_NoDup now key p c :
  NoDup (PathCache.keys c) -> NoDup (PathCache.keys (PathCache.set now key p c)).
Proof.
  unfold PathCache.set, PathCache.keys. simpl. intros Hnd. apply map_set_NoDup.
  destruct (_ <=? _); [|done].
  destruct (PathCache.cache c) as [|[k e] m]; [done|]. by apply map_delete_NoDup.
Qed.

Lemma apply_op_bounded c op :
  NoDup (PathCache.keys c) /\ PathCache.size c <= Nat.max (PathCache.maxSize c) 1 ->
  NoDup (PathCache.keys (apply_op c op)) /\
  PathCache.size (apply_op c op) <= Nat.max (PathCache.maxSize (apply_op c op)) 1 /\
  PathCache.maxSize (apply_op c op) = PathCache.maxSize c.
Proof.
  intros [Hnd Hsz]. destruct op as [key|now key p|]; simpl.
  - split_and!; [by apply get_keys_NoDup | |].
    + rewrite get_size by done. unfold PathCache.get.
      by destruct (PathCache.map_get key _).
    + unfold PathCache.get. by destruct (PathCache.map_get key _).
  - split_and!; [by apply set_keys_NoDup | by apply set_size | done].
  - split_and!; [constructor | unfold PathCache.size; simpl; lia | done].
Qed.

(** X2.  Whatever calls of [get], [set] and [clear] are made on a cache
    built with [maxSize], it never holds more than [maxSize] entries when
    [maxSize] is at least 1, it holds no key twice, and [getStats] reports
    the size and the unchanged [maxSize].  A cache built with [maxSize] 0
    still stores one entry. *)
Theorem PathCache_size_bounded (maxSize : nat) (ops : list CacheOp) :
  let c := foldl apply_op (newPathCache maxSize) ops in
  PathCache.size c <= Nat.max maxSize 1 /\
  (1 <= maxSize -> PathCache.size c <= maxSize) /\
  NoDup (PathCache.keys c) /\
  getStats c = (PathCache.size c, maxSize) /\
  forall now key p, PathCache.size (PathCache.set now key p (newPathCache 0)) = 1.
Proof.
  intros c.
  assert (NoDup (PathCache.keys c) /\ PathCache.size c <= Nat.max (PathCache.maxSize c) 1 /\
          PathCache.maxSize c = maxSize) as (Hnd & Hsz & Hmax).
  { subst c. induction ops as [|op ops IH] using rev_ind.
    - simpl. split_and!; [constructor | unfold PathCache.size; simpl; lia | done].
    - rewrite foldl_snoc. destruct IH as (Hnd & Hsz & Hmax).
      destruct (apply_op_bounded _ op (conj Hnd Hsz)) as (? & ? & Hm).
      split_and!; [done | done | congruence]. }
  rewrite Hmax in Hsz. split_and!; [done | lia | done | | done].
  unfold getStats. by rewrite Hmax.
Qed.

(** X3.  [set] makes room before it looks whether the key is already
    stored: overwriting a key of a full cache evicts the oldest entry all
    the same, and the cache ends one entry short of full. *)
Theorem PathCache_overwrite_evicts (now : Z) (key oldest : PathCache.Key)
    (p : list Waypoint) (c : PathCache.t) :
  NoDup (PathCache.keys c) ->
  PathCache.size c = PathCache.maxSize c ->
  head (PathCache.keys c) = Some oldest ->
  key ∈ PathCache.keys c -> key <> oldest ->
  PathCache.size (PathCache.set now key p c) = PathCache.maxSize c - 1 /\
  (PathCache.get oldest (PathCache.set now key p c)).1 = None /\
  (PathCache.get key (PathCache.set now key p c)).1 = Some p.
Proof.
  unfold PathCache.keys, PathCache.size. intros Hnd Hsz Hhead Hin Hne.
  assert (Hget : forall k c0, (PathCache.get k c0).1
                              = PathCache.path <$> PathCache.map_get k (PathCache.cache c0)).
  { intros k c0. unfold PathCache.get. by destruct (PathCache.map_get k _). }
  rewrite !Hget. unfold PathCache.set. simpl.
  rewrite <- Hsz, Nat.leb_refl.
  destruct (PathCache.cache c) as [|[k e] m] eqn:Hc; [done|].
  simpl in Hhead. simplify_eq. rewrite PathCache.map_delete_head by done.
  rewrite fmap_cons in Hin, Hnd. cbn [fst] in *.
  apply elem_of_cons in Hin as [?|Hin]; [done|].
  apply NoDup_cons in Hnd as [Hk Hnd].
  split_and!.
  - assert (length (PathCache.map_set key (PathCache.mkCacheEntry p now) m) = length m) as ->.
    { rewrite <- (length_fmap fst), map_set_keys, decide_True by done.
      by rewrite length_fmap. }
    simpl. lia.
  - rewrite map_get_set_ne by done.
    assert (PathCache.map_get oldest m = None) as -> by by apply PathCache.map_get_None.
    done.
  - by rewrite map_get_set_eq.
Qed.

Definition key_a : PathCache.Key := (0, 0, 30, 0)%Q.
Definition key_b : PathCache.Key := (0, 0, 60, 0)%Q.

Definition full_cache : PathCache.t :=
  PathCache.mkCache
    [(key_a, PathCache.mkCacheEntry [] 1); (key_b, PathCache.mkCacheEntry [] 2)] 2.

Lemma PathCache_overwrite_evicts_witness :
  PathCache.size (PathCache.set 3 key_b [mkWaypoint 60 0] full_cache) = 1 /\
  (PathCache.get key_a (PathCache.set 3 key_b [mkWaypoint 60 0] full_cache)).1 = None /\
  (PathCache.get key_b (PathCache.set 3 key_b [mkWaypoint 60 0] full_cache)).1
    = Some [mkWaypoint 60 0].
Proof.
  apply (PathCache_overwrite_evicts 3 key_b key_a [mkWaypoint 60 0] full_cache).
  - unfold PathCache.keys. simpl. apply NoDup_cons. split.
    + intros H. apply list_elem_of_singleton in H. discriminate.
    + apply NoDup_singleton.
  - reflexivity.
  - reflexivity.
  - unfold PathCache.keys. simpl. apply list_elem_of_further, list_elem_of_here.
  - discriminate.
Defined.

(** X4.  [get] loses nothing: on a miss the cache is left as it is; on a
    hit it returns the stored path and the cache holds the same entries,
    the one asked for now last (most recently used). *)
Theorem PathCache_get_keeps_entries (key : PathCache.Key) (c : PathCache.t) :
  NoDup (PathCache.keys c) ->
  PathCache.cache (PathCache.get key c).2 ≡ₚ PathCache.cache c /\
  PathCache.size (PathCache.get key c).2 = PathCache.size c /\
  match PathCache.map_get key (PathCache.cache c) with
  | Some entry =>
      (PathCache.get key c).1 = Some (PathCache.path entry) /\
      last (PathCache.cache (PathCache.get key c).2) = Some (key, entry)
  | None => PathCache.get key c = (None, c)
  end.
Proof.
  intros Hnd. split_and!; [| by apply get_size |].
  - unfold PathCache.get. destruct (PathCache.map_get key (PathCache.cache c)) as [entry|] eqn:Hget;
      [|done]. simpl.
    rewrite PathCache.map_set_fresh by apply PathCache.map_delete_absent.
    apply PathCache.map_get_Some in Hget. unfold PathCache.keys in Hnd.
    clear -Hget Hnd. induction (PathCache.cache c) as [|[k e] m IH]; [by apply elem_of_nil in Hget|].
    rewrite fmap_cons in Hnd. cbn [fst] in Hnd. apply NoDup_cons in Hnd as [Hk Hnd].
    apply elem_of_cons in Hget as [Heq|Hin].
    + simplify_eq. rewrite PathCache.map_delete_head.
      * by rewrite <- Permutation_cons_append.
      * rewrite fmap_cons. by apply NoDup_cons.
    + unfold PathCache.map_delete in *. rewrite filter_cons. cbn [fst].
      destruct (decide (k <> key)) as [Hne|Heq].
      * simpl. f_equiv. by apply IH.
      * apply dec_stable in Heq. subst k. destruct Hk.
        apply list_elem_of_fmap. by exists (key, entry).
  - destruct (PathCache.map_get key (PathCache.cache c)) as [entry|] eqn:Hget.
    + rewrite (PathCache.get_hit _ _ _ Hget). simpl. split; [done | apply last_snoc].
    + by apply PathCache.get_miss.
Qed.

Lemma PathCache_get_keeps_entries_witness :
  PathCache.cache (PathCache.get key_a full_cache).2 ≡ₚ PathCache.cache full_cache /\
  PathCache.size (PathCache.get key_a full_cache).2 = 2 /\
  (PathCache.get key_a full_cache).1 = Some [] /\
  last (PathCache.cache (PathCache.get key_a full_cache).2)
    = Some (key_a, PathCache.mkCacheEntry [] 1).
Proof.
  assert (Hnd : NoDup (PathCache.keys full_cache)).
  { unfold PathCache.keys. simpl. apply NoDup_cons. split.
    - intros H. apply list_elem_of_singleton in H. discriminate.
    - apply NoDup_singleton. }
  destruct (PathCache_get_keeps_entries key_a full_cache Hnd) as (Hp & Hs & Hm).
  split_and!; [exact Hp | exact Hs | apply Hm | apply Hm].
Defined.

(** ** SpatialIndex.ts: more on the nearest stop *)

(** [clear()] *)
Definition SpatialIndex_clear (index : gmap (Z * Z) (list Stop)) : gmap (Z * Z) (list Stop) := ∅.

Lemma cell_of_grid (x : Z) : cell_of (inject_Z (x * GRID_SIZE)) = x.
Proof.
  unfold cell_of.
  assert (inject_Z (x * GRID_SIZE) / inject_Z GRID_SIZE + (1 # 2) == inject_Z x + (1 # 2))%Q as ->.
  { unfold GRID_SIZE. rewrite inject_Z_mult. field. }
  apply Z.le_antisymm.
  - apply Z.lt_succ_r. rewrite Zlt_Qlt. eapply Qle_lt_trans; [apply Qfloor_le|].
    rewrite <- Z.add_1_r, inject_Z_plus. change (inject_Z 1) with 1%Q. lra.
  - rewrite <- (Qfloor_Z x) at 1. apply Qfloor_resp_le. lra.
Qed.

Lemma getStopsInRadius_empty index centerX centerY radius :
  (0 <= radius)%Z ->
  (forall key, SpatialIndex.cell_stops index key = []) ->
  SpatialIndex.getStopsInRadius index centerX centerY radius = [].
Proof.
  intros Hr Hempty.
  destruct (SpatialIndex.getStopsInRadius index centerX centerY radius) as [|s l] eqn:Hring;
    [done|].
  assert (Hs : s ∈ SpatialIndex.getStopsInRadius index centerX centerY radius)
    by (rewrite Hring; apply list_elem_of_here).
  apply SpatialIndex.getStopsInRadius_spec in Hs as (cell & _ & _ & Hs); [|done].
  rewrite Hempty in Hs. by apply elem_of_nil in Hs.
Qed.

Lemma search_rings_empty index gridX gridY pixelX pixelY radius count :
  (0 <= radius)%Z ->
  (forall key, SpatialIndex.cell_stops index key = []) ->
  SpatialIndex.search_rings index gridX gridY pixelX pixelY radius count = None.
Proof.
  intros Hr Hempty. revert radius Hr. induction count as [|count IH]; intros radius Hr; [done|].
  simpl. rewrite getStopsInRadius_empty by done. simpl. apply IH. lia.
Qed.

(** The search covers the grid: an in-bounds query that finds nothing means
    that the index holds no stop. *)
Lemma findNearestStop_None_inv routes pixelX pixelY :
  (forall route s, route ∈ routes -> s ∈ stops route ->
     PathfindingManager.in_grid (stop_key s)) ->
  SpatialIndex.out_of_bounds pixelX pixelY = false ->
  SpatialIndex.findNearestStop (SpatialIndex.rebuildIndex routes) pixelX pixelY = None ->
  forall key, SpatialIndex.cell_stops (SpatialIndex.rebuildIndex routes) key = [].
Proof.
  intros Hgrid Hin. unfold SpatialIndex.findNearestStop. rewrite Hin. intros Hnone.
  pose proof (SpatialIndex.search_rings_spec (SpatialIndex.rebuildIndex routes)
    (cell_of pixelX) (cell_of pixelY) pixelX pixelY 0 SpatialIndex.maxRadius) as Hs.
  rewrite Hnone in Hs.
  assert (Hb : ~ (pixelX < 0 \/ pixelY < 0 \/
    inject_Z (COLS * GRID_SIZE) <= pixelX \/ inject_Z (COLS * GRID_SIZE) <= pixelY)%Q).
  { rewrite <- out_of_bounds_true. by rewrite Hin. }
  assert (Hx : (0 <= cell_of pixelX <= COLS)%Z).
  { apply SpatialIndex.cell_of_bounds; apply Qnot_lt_le || apply Qnot_le_lt; tauto. }
  assert (Hy : (0 <= cell_of pixelY <= COLS)%Z).
  { apply SpatialIndex.cell_of_bounds; apply Qnot_lt_le || apply Qnot_le_lt; tauto. }
  intros key. destruct (SpatialIndex.cell_stops _ key) as [|s l] eqn:Hcell; [done|].
  exfalso.
  assert (Hsk : s ∈ SpatialIndex.cell_stops (SpatialIndex.rebuildIndex routes) key)
    by (rewrite Hcell; apply list_elem_of_here).
  apply SpatialIndex.rebuildIndex_spec in Hsk as [Hk (route & Hrt & Hsr)].
  pose proof (Hgrid route s Hrt Hsr) as [Hsx Hsy].
  set (d := SpatialIndex.chebyshev (stop_key s) (cell_of pixelX, cell_of pixelY)).
  assert (Hd : (0 <= d < 85)%Z).
  { subst d. unfold SpatialIndex.chebyshev, COLS, ROWS in *. simpl in *. lia. }
  specialize (Hs (Z.to_nat d)).
  rewrite Z.add_0_l, Z2Nat.id in Hs by lia.
  assert (He : s ∈ SpatialIndex.getStopsInRadius (SpatialIndex.rebuildIndex routes)
            (cell_of pixelX) (cell_of pixelY) d).
  { apply SpatialIndex.getStopsInRadius_spec; [lia|]. exists (stop_key s).
    split_and!; [done | by right |].
    apply SpatialIndex.rebuildIndex_spec. split; [done|]. by exists route. }
  rewrite Hs in He; [by apply elem_of_nil in He|].
  change SpatialIndex.maxRadius with 85. lia.
Qed.

(** X5.  A query that rounds to a cell holding a stop returns that stop;
    so an NPC standing on a stop of the grid (at [stop.x * GRID_SIZE],
    [stop.y * GRID_SIZE]) finds the stop it stands on. *)
Theorem findNearestStop_own_cell (routes : list Route) (route : Route) (s : Stop) :
  route ∈ routes -> s ∈ stops route ->
  (forall pixelX pixelY,
     SpatialIndex.out_of_bounds pixelX pixelY = false ->
     stop_key s = (cell_of pixelX, cell_of pixelY) ->
     SpatialIndex.findNearestStop (SpatialIndex.rebuildIndex routes) pixelX pixelY = Some s) /\
  (PathfindingManager.in_grid (stop_key s) ->
   SpatialIndex.findNearestStop (SpatialIndex.rebuildIndex routes)
     (stop_px s).1 (stop_px s).2 = Some s).
Proof.
  intros Hroute Hs.
  assert (Hcell : forall pixelX pixelY,
     SpatialIndex.out_of_bounds pixelX pixelY = false ->
     stop_key s = (cell_of pixelX, cell_of pixelY) ->
     SpatialIndex.findNearestStop (SpatialIndex.rebuildIndex routes) pixelX pixelY = Some s).
  { intros pixelX pixelY Hin Hkey. unfold SpatialIndex.findNearestStop. rewrite Hin.
    change SpatialIndex.maxRadius with (S 84). cbn [SpatialIndex.search_rings].
    unfold SpatialIndex.getStopsInRadius. rewrite Z.eqb_refl.
    assert (Hmem : s ∈ SpatialIndex.cell_stops (SpatialIndex.rebuildIndex routes)
                     (cell_of pixelX, cell_of pixelY)).
    { apply SpatialIndex.rebuildIndex_spec. split; [done|]. by exists route. }
    destruct (SpatialIndex.cell_stops _ _) as [|s0 l] eqn:Hl; [by apply elem_of_nil in Hmem|].
    cbn [length Nat.ltb Nat.leb].
    destruct (SpatialIndex.findClosest_spec (s0 :: l) pixelX pixelY) as (s' & -> & Hs' & _);
      [done|].
    rewrite <- Hl in Hs'. apply SpatialIndex.rebuildIndex_spec in Hs' as [Hk' _].
    f_equal. apply stop_key_inj. congruence. }
  split; [exact Hcell|].
  intros [Hx Hy]. apply Hcell.
  - destruct (SpatialIndex.out_of_bounds _ _) eqn:Hout; [|done].
    apply out_of_bounds_true in Hout. unfold stop_px in Hout. simpl in Hout, Hx, Hy.
    change 0%Q with (inject_Z 0) in Hout.
    rewrite <- !Zlt_Qlt, <- !Zle_Qle in Hout. unfold COLS, ROWS, GRID_SIZE in *. lia.
  - unfold stop_px. simpl. by rewrite !cell_of_grid.
Qed.

Lemma findNearestStop_own_cell_witness :
  SpatialIndex.findNearestStop (SpatialIndex.rebuildIndex two_routes) 150 30
    = Some (mkStop 5 1).
Proof.
  apply (proj2 (findNearestStop_own_cell two_routes
                  (mkRoute [mkStop 1 1; mkStop 5 1] [] 0) (mkStop 5 1)
                  (list_elem_of_here _ _)
                  (list_elem_of_further _ _ _ (list_elem_of_here _ _)))).
  split; simpl; unfold COLS, ROWS; lia.
Defined.

Lemma getDestinationCenter_bounds zone :
  (5 <= (getDestinationCenter zone).1 <= 1794)%Q /\
  (5 <= (getDestinationCenter zone).2 <= 1794)%Q.
Proof.
  unfold getDestinationCenter. cbv zeta. simpl fst. simpl snd.
  change (inject_Z (GRID_SIZE * 60) - 1 - 5)%Q with (1800 - 1 - 5)%Q.
  unfold Math_max, Math_min.
  repeat destruct (Qlt_le_dec _ _); split; split; lra.
Qed.

(** X6.  The point [getDestinationCenter] gives for a zone is clamped to
    the canvas, so the destination-stop lookup of an NPC is never refused as
    out of bounds: it comes back empty exactly when no route has a stop
    (in particular on a cleared index). *)
Theorem destination_lookup_fails_only_without_stops (routes : list Route) (zone : Zone) :
  (forall route s, route ∈ routes -> s ∈ stops route ->
     PathfindingManager.in_grid (stop_key s)) ->
  let c := getDestinationCenter zone in
  SpatialIndex.out_of_bounds c.1 c.2 = false /\
  (SpatialIndex.findNearestStop (SpatialIndex.rebuildIndex routes) c.1 c.2 = None <->
   forall route, route ∈ routes -> stops route = []) /\
  SpatialIndex.findNearestStop
    (SpatialIndex_clear (SpatialIndex.rebuildIndex routes)) c.1 c.2 = None.
Proof.
  intros Hgrid c.
  assert (Hin : SpatialIndex.out_of_bounds c.1 c.2 = false).
  { destruct (SpatialIndex.out_of_bounds _ _) eqn:Hout; [|done].
    apply out_of_bounds_true in Hout.
    destruct (getDestinationCenter_bounds zone) as [Hx Hy]. fold c in Hx, Hy.
    change (inject_Z (COLS * GRID_SIZE)) with 1800%Q in Hout. lra. }
  split_and!; [done | |].
  - split.
    + intros Hnone route Hroute.
      pose proof (findNearestStop_None_inv routes c.1 c.2 Hgrid Hin Hnone) as Hempty.
      destruct (stops route) as [|s l] eqn:Hst; [done|].
      specialize (Hempty (stop_key s)).
      assert (s ∈ SpatialIndex.cell_stops (SpatialIndex.rebuildIndex routes) (stop_key s)) as H.
      { apply SpatialIndex.rebuildIndex_spec. split; [done|]. exists route.
        split; [done|]. rewrite Hst. apply list_elem_of_here. }
      rewrite Hempty in H. by apply elem_of_nil in H.
    + intros Hnostops. unfold SpatialIndex.findNearestStop. rewrite Hin.
      apply search_rings_empty; [lia|]. intros key.
      destruct (SpatialIndex.cell_stops _ key) as [|s l] eqn:Hcell; [done|].
      assert (s ∈ SpatialIndex.cell_stops (SpatialIndex.rebuildIndex routes) key) as H
        by (rewrite Hcell; apply list_elem_of_here).
      apply SpatialIndex.rebuildIndex_spec in H as [_ (route & Hroute & Hs)].
      rewrite (Hnostops route Hroute) in Hs. by apply elem_of_nil in Hs.
  - unfold SpatialIndex.findNearestStop. rewrite Hin.
    apply search_rings_empty; [lia | done].
Qed.

Lemma destination_lookup_fails_only_without_stops_witness :
  let c := getDestinationCenter (mkZone 58 58 4 4 COMMERCIAL) in
  SpatialIndex.out_of_bounds c.1 c.2 = false /\
  SpatialIndex.findNearestStop (SpatialIndex.rebuildIndex two_routes) c.1 c.2 <> None.
Proof.
  destruct (destination_lookup_fails_only_without_stops two_routes
              (mkZone 58 58 4 4 COMMERCIAL) two_routes_in_grid) as (Hin & Hiff & _).
  split; [exact Hin|].
  intros Hnone. pose proof (proj1 Hiff Hnone) as Hall.
  specialize (Hall (mkRoute [mkStop 1 1; mkStop 5 1] [] 0) (list_elem_of_here _ _)).
  discriminate.
Defined.

(** ** ViewportCuller.ts *)

Record GridBounds := mkGridBounds { minX : Q; minY : Q; maxX : Q; maxY : Q }.

Record ViewportState := mkViewportState {
  offsetX : Q;
  offsetY : Q;
  zoom : Q;
  visibleGridBounds : GridBounds
}.

(** The viewport argument is not read: the full grid is returned. *)
Definition calculateVisibleBounds (_viewport : ViewportState) : GridBounds :=
  mkGridBounds 0 0 (inject_Z COLS) (inject_Z ROWS).

Definition isPointVisible (x y : Q) (viewport : ViewportState) : bool :=
  let gridX := (x / inject_Z GRID_SIZE)%Q in
  let gridY := (y / inject_Z GRID_SIZE)%Q in
  let b := visibleGridBounds viewport in
  Qle_bool (minX b) gridX && Qle_bool gridX (maxX b) &&
  Qle_bool (minY b) gridY && Qle_bool gridY (maxY b).

(** [getVisibleEntities<T extends { x, y }>]: [ex] and [ey] read the
    position of an entity. *)
Definition getVisibleEntities {T : Type} (ex ey : T -> Q) (entities : list T)
    (viewport : ViewportState) : list T :=
  let b := visibleGridBounds viewport in
  filter (fun entity =>
            let gridX := (ex entity / inject_Z GRID_SIZE)%Q in
            let gridY := (ey entity / inject_Z GRID_SIZE)%Q in
            Qle_bool (minX b) gridX && Qle_bool gridX (maxX b) &&
            Qle_bool (minY b) gridY && Qle_bool gridY (maxY b) = true) entities.

Lemma isPointVisible_full x y viewport :
  visibleGridBounds viewport = calculateVisibleBounds viewport ->
  isPointVisible x y viewport = true <-> (0 <= x <= 1800 /\ 0 <= y <= 1800)%Q.
Proof.
  intros Hb. unfold isPointVisible. rewrite Hb. simpl.
  rewrite !andb_true_iff, !Qle_bool_iff.
  change (inject_Z COLS) with 60%Q. change (inject_Z ROWS) with 60%Q.
  change (inject_Z GRID_SIZE) with 30%Q.
  assert (x / 30 == x * (1 # 30))%Q as -> by field.
  assert (y / 30 == y * (1 # 30))%Q as -> by field.
  split; intros; split_and!; lra.
Qed.

(** X7.  With the bounds [calculateVisibleBounds] returns (the whole grid,
    whatever the viewport), a point is visible exactly when both pixel
    coordinates lie in [0, 1800], bounds included; every point
    [findNearestStop] accepts as in bounds is visible, and
    [getVisibleEntities] keeps a list of such entities whole. *)
Theorem full_viewport_shows_the_canvas (viewport : ViewportState) :
  visibleGridBounds viewport = calculateVisibleBounds viewport ->
  (forall x y, isPointVisible x y viewport = true <->
               (0 <= x <= 1800 /\ 0 <= y <= 1800)%Q) /\
  (forall x y, SpatialIndex.out_of_bounds x y = false -> isPointVisible x y viewport = true) /\
  isPointVisible 1800 1800 viewport = true /\
  SpatialIndex.out_of_bounds 1800 1800 = true /\
  (forall (T : Type) (ex ey : T -> Q) (entities : list T),
     (forall e, e ∈ entities -> SpatialIndex.out_of_bounds (ex e) (ey e) = false) ->
     getVisibleEntities ex ey entities viewport = entities).
Proof.
  intros Hb.
  assert (Hin : forall x y, SpatialIndex.out_of_bounds x y = false ->
                            isPointVisible x y viewport = true).
  { intros x y Hout. apply isPointVisible_full; [done|].
    assert (Hnot : ~ (x < 0 \/ y < 0 \/
      inject_Z (COLS * GRID_SIZE) <= x \/ inject_Z (COLS * GRID_SIZE) <= y)%Q).
    { rewrite <- out_of_bounds_true. by rewrite Hout. }
    change (inject_Z (COLS * GRID_SIZE)) with 1800%Q in Hnot.
    split_and!; try (apply Qnot_lt_le; tauto); apply Qlt_le_weak, Qnot_le_lt; tauto. }
  split_and!; [intros x y; by apply isPointVisible_full | done | | done |].
  - apply isPointVisible_full; [done|]. lra.
  - intros T ex ey entities Hall. unfold getVisibleEntities.
    induction entities as [|e l IH]; [done|].
    rewrite filter_cons.
    pose proof (Hin (ex e) (ey e) (Hall e (list_elem_of_here _ _))) as Hvis.
    unfold isPointVisible in Hvis. cbv zeta in Hvis |- *. rewrite decide_True by done.
    f_equal. apply IH. intros e' He'. apply Hall. by apply list_elem_of_further.
Qed.

Lemma full_viewport_shows_the_canvas_witness :
  isPointVisible 1800 1800 (mkViewportState 0 0 1 (mkGridBounds 0 0 60 60)) = true /\
  SpatialIndex.out_of_bounds 1800 1800 = true.
Proof.
  destruct (full_viewport_shows_the_canvas (mkViewportState 0 0 1 (mkGridBounds 0 0 60 60))
              eq_refl) as (_ & _ & Hv & Ho & _).
  by split.
Defined.

(** ** RoutePlanner.ts: reading a plan *)

Definition getNextStop (plan : RoutePlanner.TransferPlan) (currentStopIndex : nat)
    : option Stop :=
  if (currentStopIndex + 1 <? length (RoutePlanner.plan_stops plan))%nat
  then RoutePlanner.plan_stops plan !! (currentStopIndex + 1)
  else None.

Definition getRouteAtStop (plan : RoutePlanner.TransferPlan) (currentStopIndex : nat)
    : option nat :=
  if (currentStopIndex <? length (RoutePlanner.plan_routes plan))%nat
  then RoutePlanner.plan_routes plan !! currentStopIndex
  else None.

Lemma legs_lookup allRoutes a hops b s0 i :
  RoutePlanner.legs allRoutes a hops b -> stop_key s0 = a -> i < length hops ->
  exists s s' r,
    (s0 :: hops.*1) !! i = Some s /\ (s0 :: hops.*1) !! (i + 1) = Some s' /\
    hops.*2 !! i = Some r /\
    RoutePlanner.share_route allRoutes r (stop_key s) (stop_key s').
Proof.
  intros Hl. revert s0 i. induction Hl as [|a s r rest b Hshare Hl IH]; intros s0 i Ha Hi.
  - simpl in Hi. lia.
  - destruct i as [|i].
    + exists s0, s, r. rewrite Ha. by split_and!.
    + simpl in Hi. destruct (IH s i eq_refl) as (s1 & s2 & r' & H1 & H2 & H3 & H4); [lia|].
      exists s1, s2, r'. by split_and!.
Qed.

Lemma legs_last allRoutes a hops b s0 :
  RoutePlanner.legs allRoutes a hops b -> stop_key s0 = a ->
  exists s, last (s0 :: hops.*1) = Some s /\ stop_key s = b.
Proof.
  intros Hl. revert s0. induction Hl as [|a s r rest b Hshare Hl IH]; intros s0 Ha.
  - by exists s0.
  - destruct (IH s eq_refl) as (s' & Hlast & Hk). exists s'. split; [|done].
    rewrite fmap_cons. cbn [fst]. by rewrite last_cons_cons.
Qed.

(** X8.  A plan [planTrip] returns can be walked with [getNextStop] and
    [getRouteAtStop]: it starts at the origin and ends at the destination,
    has one stop more than it has legs, and at every index below the number
    of legs the route [getRouteAtStop] names serves both the stop at the
    index and the stop [getNextStop] gives.  At the last index and past it
    both return null. *)
Theorem planTrip_plan_walk (originStop destinationStop : Stop) (allRoutes : list Route)
    (plan : RoutePlanner.TransferPlan) :
  RoutePlanner.planTrip originStop destinationStop allRoutes = Some plan ->
  length (RoutePlanner.plan_stops plan) = S (length (RoutePlanner.plan_routes plan)) /\
  head (RoutePlanner.plan_stops plan) = Some originStop /\
  last (RoutePlanner.plan_stops plan) = Some destinationStop /\
  (forall i, i < length (RoutePlanner.plan_routes plan) ->
     exists s s' r,
       RoutePlanner.plan_stops plan !! i = Some s /\
       getNextStop plan i = Some s' /\
       getRouteAtStop plan i = Some r /\
       RoutePlanner.share_route allRoutes r (stop_key s) (stop_key s')) /\
  (forall i, length (RoutePlanner.plan_routes plan) <= i ->
     getNextStop plan i = None /\ getRouteAtStop plan i = None).
Proof.
  intros Hplan.
  assert (Hlen : length (RoutePlanner.plan_stops plan)
                 = S (length (RoutePlanner.plan_routes plan)) ->
          forall i, length (RoutePlanner.plan_routes plan) <= i ->
            getNextStop plan i = None /\ getRouteAtStop plan i = None).
  { intros Hlen i Hi. unfold getNextStop, getRouteAtStop. rewrite Hlen.
    assert ((i + 1 <? S (length (RoutePlanner.plan_routes plan)))%nat = false) as ->
      by (apply Nat.ltb_ge; lia).
    assert ((i <? length (RoutePlanner.plan_routes plan))%nat = false) as ->
      by (apply Nat.ltb_ge; lia).
    done. }
  destruct (same_stop originStop destinationStop) eqn:Hsame.
  - unfold RoutePlanner.planTrip in Hplan. rewrite Hsame in Hplan.
    apply same_stop_eq in Hsame. simplify_eq. simpl.
    split_and!; [done | done | done | intros i Hi; lia | by apply Hlen].
  - assert (Hne : originStop <> destinationStop).
    { intros Heq. apply same_stop_eq in Heq. congruence. }
    pose proof (RoutePlanner.planTrip_search originStop destinationStop allRoutes Hne) as Hs.
    rewrite Hplan in Hs. destruct Hs as (hops & Hlegs & Hstops & Hroutes & _ & _).
    assert (Hl : length (RoutePlanner.plan_stops plan)
                 = S (length (RoutePlanner.plan_routes plan))).
    { rewrite Hstops, Hroutes. simpl. by rewrite !length_fmap. }
    split_and!; [done | by rewrite Hstops | | | by apply Hlen].
    + destruct (legs_last _ _ _ _ originStop Hlegs eq_refl) as (s & Hlast & Hk).
      rewrite Hstops, Hlast. f_equal. by apply stop_key_inj.
    + intros i Hi. rewrite Hroutes, length_fmap in Hi.
      destruct (legs_lookup _ _ _ _ originStop i Hlegs eq_refl Hi)
        as (s & s' & r & H1 & H2 & H3 & H4).
      exists s, s', r. unfold getNextStop, getRouteAtStop.
      rewrite Hl, Hstops, Hroutes, length_fmap.
      assert ((i + 1 <? S (length hops))%nat = true) as -> by (apply Nat.ltb_lt; lia).
      assert ((i <? length hops)%nat = true) as -> by (apply Nat.ltb_lt; lia).
      by split_and!.
Qed.

Lemma planTrip_plan_walk_witness :
  exists plan,
    RoutePlanner.planTrip (mkStop 1 1) (mkStop 5 9) two_routes = Some plan /\
    last (RoutePlanner.plan_stops plan) = Some (mkStop 5 9) /\
    getNextStop plan 2 = None /\ getRouteAtStop plan 2 = None /\
    exists s s' r,
      RoutePlanner.plan_stops plan !! 1 = Some s /\
      getNextStop plan 1 = Some s' /\
      getRouteAtStop plan 1 = Some r /\
      RoutePlanner.share_route two_routes r (stop_key s) (stop_key s').
Proof.
  eexists. split; [vm_compute; reflexivity|].
  destruct (planTrip_plan_walk (mkStop 1 1) (mkStop 5 9) two_routes _ eq_refl)
    as (_ & _ & Hlast & Hwalk & Hend).
  split; [exact Hlast|].
  split; [apply (Hend 2); simpl; lia|].
  split; [apply (Hend 2); simpl; lia|].
  apply (Hwalk 1). simpl. lia.
Defined.

(** ** RouteManager.ts: traffic and the speed of a bus *)

Definition BUS_SPEED : Q := 3.
Definition TRAFFIC_BASE_SPEED_MULTIPLIER_LOW : Q := 1.
Definition TRAFFIC_BASE_SPEED_MULTIPLIER_MEDIUM : Q := 85 # 100.
Definition TRAFFIC_BASE_SPEED_MULTIPLIER_HIGH : Q := 65 # 100.
Definition CONGESTION_DETECTION_RADIUS : Q := inject_Z (GRID_SIZE * 4).
Definition CONGESTION_SLOWDOWN_PER_VEHICLE : Q := 2 # 100.
Definition MAX_CONGESTION_SLOWDOWN : Q := 4 # 10.

(** The position of a traffic vehicle: what the bus code reads of it. *)
Record TrafficVehicle := mkTrafficVehicle { tv_x : Q; tv_y : Q }.

Definition getTrafficDensityMultiplier (trafficDensity : Q) : Q :=
  if Qlt_le_dec trafficDensity (3 # 10) then TRAFFIC_BASE_SPEED_MULTIPLIER_LOW
  else if Qlt_le_dec trafficDensity (6 # 10) then TRAFFIC_BASE_SPEED_MULTIPLIER_MEDIUM
  else TRAFFIC_BASE_SPEED_MULTIPLIER_HIGH.

(** [distance < CONGESTION_DETECTION_RADIUS], compared on the squares. *)
Definition nearby (bus : Bus) (vehicle : TrafficVehicle) : bool :=
  if Qlt_le_dec
       (SpatialIndex.distance_sq (bus_x bus) (bus_y bus) (tv_x vehicle) (tv_y vehicle))
       (CONGESTION_DETECTION_RADIUS * CONGESTION_DETECTION_RADIUS)
  then true else false.

Definition getLocalCongestionMultiplier (bus : Bus) (traffic : list TrafficVehicle) : Q :=
  let nearbyTrafficCount :=
    foldl (fun count vehicle => if nearby bus vehicle then S count else count) 0 traffic in
  let congestionSlowdown :=
    Math_min (inject_Z (Z.of_nat nearbyTrafficCount) * CONGESTION_SLOWDOWN_PER_VEHICLE)
      MAX_CONGESTION_SLOWDOWN in
  (1 - congestionSlowdown)%Q.

(** [effectiveBusSpeed] in [updateBuses]. *)
Definition effectiveBusSpeed (trafficDensity : Q) (bus : Bus) (traffic : list TrafficVehicle)
    : Q :=
  (BUS_SPEED * getTrafficDensityMultiplier trafficDensity
   * getLocalCongestionMultiplier bus traffic)%Q.

Lemma nearby_count_app bus (l : list TrafficVehicle) n :
  foldl (fun count vehicle => if nearby bus vehicle then S count else count) n l
  = n + length (filter (fun v => nearby bus v = true) l).
Proof.
  revert n. induction l as [|v l IH]; intros n; simpl; [lia|].
  rewrite IH, filter_cons. destruct (nearby bus v) eqn:Hn.
  - rewrite decide_True by done. simpl. lia.
  - rewrite decide_False by done. done.
Qed.

Lemma getLocalCongestionMultiplier_count bus traffic :
  getLocalCongestionMultiplier bus traffic
  = (1 - Math_min (inject_Z (Z.of_nat (length (filter (fun v => nearby bus v = true) traffic)))
                   * CONGESTION_SLOWDOWN_PER_VEHICLE) MAX_CONGESTION_SLOWDOWN)%Q.
Proof. unfold getLocalCongestionMultiplier. cbv zeta. by rewrite nearby_count_app. Qed.

(** X9.  The traffic multipliers slow a bus down but never to a halt: the
    local congestion multiplier lies between 0.6 and 1, is 1 when no vehicle
    is within the detection radius and 0.6 once twenty are, and never grows
    when a vehicle is added; the density multiplier lies between 0.65 and
    1; so [effectiveBusSpeed], the speed [updateBuses] aims at before
    collision avoidance and the approach to a stop, stays between 1.17 and
    3. *)
Theorem effective_bus_speed_bounded (trafficDensity : Q) (bus : Bus)
    (traffic : list TrafficVehicle) :
  (6 # 10 <= getLocalCongestionMultiplier bus traffic <= 1)%Q /\
  (filter (fun v => nearby bus v = true) traffic = [] ->
   (getLocalCongestionMultiplier bus traffic == 1)%Q) /\
  ((20 <= length (filter (fun v => nearby bus v = true) traffic))%nat ->
   (getLocalCongestionMultiplier bus traffic == 6 # 10)%Q) /\
  (forall vehicle,
     getLocalCongestionMultiplier bus (traffic ++ [vehicle])
     <= getLocalCongestionMultiplier bus traffic)%Q /\
  (65 # 100 <= getTrafficDensityMultiplier trafficDensity <= 1)%Q /\
  (117 # 100 <= effectiveBusSpeed trafficDensity bus traffic <= 3)%Q.
Proof.
  assert (Hcount : forall n : nat, (0 <= inject_Z (Z.of_nat n))%Q).
  { intros n. change 0%Q with (inject_Z 0). rewrite <- Zle_Qle. lia. }
  assert (Hlocal : forall l, (6 # 10 <= getLocalCongestionMultiplier bus l <= 1)%Q).
  { intros l. rewrite getLocalCongestionMultiplier_count.
    pose proof (Hcount (length (filter (fun v => nearby bus v = true) l))) as Hn.
    unfold Math_min, CONGESTION_SLOWDOWN_PER_VEHICLE, MAX_CONGESTION_SLOWDOWN.
    destruct (Qlt_le_dec _ _); lra. }
  assert (Hdens : (65 # 100 <= getTrafficDensityMultiplier trafficDensity <= 1)%Q).
  { unfold getTrafficDensityMultiplier, TRAFFIC_BASE_SPEED_MULTIPLIER_LOW,
      TRAFFIC_BASE_SPEED_MULTIPLIER_MEDIUM, TRAFFIC_BASE_SPEED_MULTIPLIER_HIGH.
    repeat destruct (Qlt_le_dec _ _); lra. }
  split_and!; try apply Hlocal; try apply Hdens.
  - intros Hnone. rewrite getLocalCongestionMultiplier_count, Hnone. simpl.
    change (inject_Z (Z.of_nat 0)) with 0%Q.
    unfold Math_min, CONGESTION_SLOWDOWN_PER_VEHICLE, MAX_CONGESTION_SLOWDOWN.
    destruct (Qlt_le_dec _ _); lra.
  - intros Hmany. rewrite getLocalCongestionMultiplier_count.
    assert (20 <= inject_Z (Z.of_nat (length (filter (fun v => nearby bus v = true) traffic))))%Q.
    { change 20%Q with (inject_Z 20). rewrite <- Zle_Qle. lia. }
    unfold Math_min, CONGESTION_SLOWDOWN_PER_VEHICLE, MAX_CONGESTION_SLOWDOWN.
    destruct (Qlt_le_dec _ _); lra.
  - intros vehicle. rewrite !getLocalCongestionMultiplier_count, filter_app, length_app.
    rewrite Nat2Z.inj_add, inject_Z_plus.
    pose proof (Hcount (length (filter (fun v => nearby bus v = true) [vehicle]))) as Hv.
    unfold Math_min, CONGESTION_SLOWDOWN_PER_VEHICLE, MAX_CONGESTION_SLOWDOWN.
    repeat destruct (Qlt_le_dec _ _); lra.
  - unfold effectiveBusSpeed, BUS_SPEED. destruct (Hlocal traffic) as [Hl1 Hl2].
    destruct Hdens as [Hd1 Hd2]. nra.
  - unfold effectiveBusSpeed, BUS_SPEED. destruct (Hlocal traffic) as [Hl1 Hl2].
    destruct Hdens as [Hd1 Hd2]. nra.
Qed.

(** ** RouteManager.ts: what a stop visit changes *)

(** The books of [handleBusAtStop] between two points of its run: [k]
    arrivals were recorded, each paid for with one ticket. *)
Definition booked (k : nat) (w w' : RouteManager.Work) : Prop :=
  let st := RouteManager.w_stats w in
  let st' := RouteManager.w_stats w' in
  let ec := RouteManager.w_economics w in
  let ec' := RouteManager.w_economics w' in
  tripsCompleted st' = tripsCompleted st + k /\
  (money ec' == money ec + inject_Z (Z.of_nat k) * ticketPrice ec)%Q /\
  (totalIncome ec' == totalIncome ec + inject_Z (Z.of_nat k) * ticketPrice ec)%Q /\
  ticketPrice ec' = ticketPrice ec /\
  totalCapitalInvested ec' = totalCapitalInvested ec /\
  npcsGaveUp st' = npcsGaveUp st /\
  busUtilizationSamples st' = busUtilizationSamples st /\
  totalBusUtilization st' = totalBusUtilization st.

Lemma booked_same w w' :
  RouteManager.w_stats w' = RouteManager.w_stats w ->
  RouteManager.w_economics w' = RouteManager.w_economics w ->
  booked 0 w w'.
Proof.
  intros Hs He. unfold booked. cbv zeta. rewrite Hs, He. simpl.
  split_and!; try done; try lia; ring.
Qed.

Lemma booked_arrival now p w w0 :
  RouteManager.w_stats w0 = RouteManager.w_stats w ->
  RouteManager.w_economics w0 = RouteManager.w_economics w ->
  booked 1 w (RouteManager.record_arrival now p w0).
Proof.
  intros Hs He. unfold booked, RouteManager.record_arrival. cbv zeta. simpl.
  rewrite Hs, He. split_and!; try done; try lia; ring.
Qed.

Lemma booked_trans k1 k2 w1 w2 w3 :
  booked k1 w1 w2 -> booked k2 w2 w3 -> booked (k1 + k2) w1 w3.
Proof.
  unfold booked. cbv zeta.
  intros (Ht & Hm & Hi & Hp & Hc & Hg & Hb & Hu) (Ht' & Hm' & Hi' & Hp' & Hc' & Hg' & Hb' & Hu').
  split_and!; try congruence; try lia.
  - rewrite Hm', Hm, Hp, Nat2Z.inj_add, inject_Z_plus. ring.
  - rewrite Hi', Hi, Hp, Nat2Z.inj_add, inject_Z_plus. ring.
Qed.

(** One step of the drop-off loop: the passenger at [i] stays or is
    spliced out, and is paid for when it arrives. *)
Lemma alight_one_shape index currentStop now i w :
  let w' := RouteManager.alight_one index currentStop now i w in
  (RouteManager.w_passengers w' = RouteManager.w_passengers w /\ booked 0 w w') \/
  (i < length (RouteManager.w_passengers w) /\
   RouteManager.w_passengers w' = delete i (RouteManager.w_passengers w) /\
   (booked 0 w w' \/ booked 1 w w')).
Proof.
  unfold RouteManager.alight_one.
  destruct (RouteManager.w_passengers w !! i) as [r|] eqn:Hi;
    [|left; split; [done | by apply booked_same]].
  apply lookup_lt_Some in Hi.
  repeat case_match; simpl;
    solve [ left; split; [done | by apply booked_same]
          | right; split_and!; [done | done | left; by apply booked_same]
          | right; split_and!; [done | done | right; by apply booked_arrival] ].
Qed.

Lemma alight_loop_shape index currentStop now n w :
  let w' := RouteManager.alight_loop index currentStop now n w in
  exists k, booked k w w' /\
            k + length (RouteManager.w_passengers w') <= length (RouteManager.w_passengers w) /\
            RouteManager.w_passengers w' ⊆+ RouteManager.w_passengers w.
Proof.
  revert w. induction n as [|i IH]; intros w; simpl.
  - exists 0. split_and!; [by apply booked_same | lia | done].
  - destruct (IH (RouteManager.alight_one index currentStop now i w)) as (k & Hb & Hlen & Hsub).
    destruct (alight_one_shape index currentStop now i w) as [[Hp Hb1]|(Hi & Hp & [Hb1|Hb1])].
    + exists (0 + k). rewrite Hp in Hlen, Hsub. split_and!; [by eapply booked_trans | lia | done].
    + exists (0 + k). rewrite Hp in Hlen, Hsub. rewrite length_delete in Hlen by (by apply lookup_lt_is_Some).
      split_and!; [by eapply booked_trans | lia |].
      etrans; [done|]. apply sublist_submseteq, sublist_delete.
    + exists (1 + k). rewrite Hp in Hlen, Hsub. rewrite length_delete in Hlen by (by apply lookup_lt_is_Some).
      split_and!; [by eapply booked_trans | lia |].
      etrans; [done|]. apply sublist_submseteq, sublist_delete.
Qed.

(** One step of the pick-up loop: the NPC is pushed onto a bus with a free
    seat, or nothing happens to the passengers; the books are not touched. *)
Lemma board_one_shape index routeIndexInState route currentStop now w r w' :
  RouteManager.board_one index routeIndexInState route currentStop now w r = Some w' ->
  RouteManager.w_stats w' = RouteManager.w_stats w /\
  RouteManager.w_economics w' = RouteManager.w_economics w /\
  (RouteManager.w_passengers w' = RouteManager.w_passengers w \/
   (length (RouteManager.w_passengers w) < RouteManager.BUS_CAPACITY /\
    RouteManager.w_passengers w' = RouteManager.w_passengers w ++ [r])).
Proof.
  unfold RouteManager.board_one. intros Hb.
  destruct (RouteManager.w_objects w !! r) as [npc|]; [|by simplify_eq; auto].
  destruct (bool_decide (npc_state npc = waiting) && atStop npc && _ &&
            (length (RouteManager.w_passengers w) <? RouteManager.BUS_CAPACITY)%nat) eqn:Hcond;
    [|by simplify_eq; auto].
  apply andb_true_iff in Hcond as [_ Hcap]. apply Nat.ltb_lt in Hcap.
  unfold RouteManager.fallback, RouteManager.board in Hb.
  repeat case_match; simplify_eq; simpl; auto.
Qed.

Lemma board_loop_shape index routeIndexInState route currentStop now refs w w' :
  RouteManager.board_loop index routeIndexInState route currentStop now refs w = Some w' ->
  RouteManager.w_stats w' = RouteManager.w_stats w /\
  RouteManager.w_economics w' = RouteManager.w_economics w /\
  (exists boarded, RouteManager.w_passengers w' = RouteManager.w_passengers w ++ boarded) /\
  length (RouteManager.w_passengers w')
    <= Nat.max (length (RouteManager.w_passengers w)) RouteManager.BUS_CAPACITY.
Proof.
  revert w. induction refs as [|r refs IH]; intros w Hb; simpl in Hb.
  - simplify_eq. split_and!; [done | done | exists []; by rewrite app_nil_r | lia].
  - destruct (RouteManager.board_one _ _ _ _ _ _ _) as [w1|] eqn:H1; [|done].
    apply board_one_shape in H1 as (Hs1 & He1 & Hp1).
    destruct (IH w1 Hb) as (Hs & He & (boarded & Hp) & Hlen).
    split_and!; [congruence | congruence | |].
    + destruct Hp1 as [Hp1|[_ Hp1]]; rewrite Hp1 in Hp.
      * by exists boarded.
      * exists (r :: boarded). by rewrite Hp, <- app_assoc.
    + destruct Hp1 as [Hp1|[Hcap Hp1]]; rewrite Hp1 in Hlen; [done|].
      rewrite length_app in Hlen. simpl in Hlen. lia.
Qed.

Lemma alight_one_objects index currentStop now i w r :
  r ∉ RouteManager.w_passengers w ->
  RouteManager.w_objects (RouteManager.alight_one index currentStop now i w) !! r
  = RouteManager.w_objects w !! r.
Proof.
  intros Hr. unfold RouteManager.alight_one.
  destruct (RouteManager.w_passengers w !! i) as [r0|] eqn:Hi; [|done].
  assert (r0 <> r) as Hne.
  { intros ->. apply Hr. by eapply list_elem_of_lookup_2. }
  repeat case_match; simpl; rewrite ?lookup_insert_ne by done; done.
Qed.

Lemma alight_loop_objects index currentStop now n w r :
  r ∉ RouteManager.w_passengers w ->
  RouteManager.w_objects (RouteManager.alight_loop index currentStop now n w) !! r
  = RouteManager.w_objects w !! r.
Proof.
  revert w. induction n as [|i IH]; intros w Hr; simpl; [done|].
  rewrite IH; [by apply alight_one_objects|].
  destruct (alight_one_shape index currentStop now i w) as [[-> _]|(_ & -> & _)]; [done|].
  intros Hin. apply Hr. eapply elem_of_submseteq; [done|].
  apply sublist_submseteq, sublist_delete.
Qed.

Lemma board_one_objects index routeIndexInState route currentStop now w r0 w' r :
  RouteManager.board_one index routeIndexInState route currentStop now w r0 = Some w' ->
  (forall n, RouteManager.w_objects w !! r = Some n -> npc_state n <> waiting) ->
  RouteManager.w_objects w' !! r = RouteManager.w_objects w !! r.
Proof.
  unfold RouteManager.board_one. intros Hb Hr.
  destruct (RouteManager.w_objects w !! r0) as [npc|] eqn:Hn; [|by simplify_eq].
  destruct (bool_decide (npc_state npc = waiting)) eqn:Hs; simpl in Hb; [|by simplify_eq].
  apply bool_decide_eq_true in Hs.
  assert (r0 <> r) as Hne.
  { intros ->. by apply (Hr npc). }
  unfold RouteManager.fallback, RouteManager.board in Hb.
  repeat case_match; simplify_eq; simpl; rewrite ?lookup_insert_ne by done; done.
Qed.

Lemma board_loop_objects index routeIndexInState route currentStop now refs w w' r :
  RouteManager.board_loop index routeIndexInState route currentStop now refs w = Some w' ->
  (forall n, RouteManager.w_objects w !! r = Some n -> npc_state n <> waiting) ->
  RouteManager.w_objects w' !! r = RouteManager.w_objects w !! r.
Proof.
  revert w. induction refs as [|r0 refs IH]; intros w Hb Hr; simpl in Hb; [by simplify_eq|].
  destruct (RouteManager.board_one _ _ _ _ _ _ _) as [w1|] eqn:H1; [|done].
  pose proof (board_one_objects _ _ _ _ _ _ _ _ r H1 Hr) as Hsame.
  rewrite (IH w1 Hb); [done|]. by rewrite Hsame.
Qed.

Lemma board_one_listed index routeIndexInState route currentStop now w r w' :
  RouteManager.board_one index routeIndexInState route currentStop now w r = Some w' ->
  forall x, x ∈ RouteManager.w_passengers w' -> x ∈ RouteManager.w_passengers w \/ x = r.
Proof.
  intros Hb x Hx. apply board_one_shape in Hb as (_ & _ & [Hp|[_ Hp]]); rewrite Hp in Hx.
  - by left.
  - apply elem_of_app in Hx as [?|Hx]; [by left|]. apply list_elem_of_singleton in Hx. by right.
Qed.

Lemma board_loop_listed index routeIndexInState route currentStop now refs w w' :
  RouteManager.board_loop index routeIndexInState route currentStop now refs w = Some w' ->
  forall x, x ∈ RouteManager.w_passengers w' -> x ∈ RouteManager.w_passengers w \/ x ∈ refs.
Proof.
  revert w. induction refs as [|r refs IH]; intros w Hb x Hx; simpl in Hb.
  - simplify_eq. by left.
  - destruct (RouteManager.board_one _ _ _ _ _ _ _) as [w1|] eqn:H1; [|done].
    destruct (IH w1 Hb x Hx) as [Hin|Hin].
    + destruct (board_one_listed _ _ _ _ _ _ _ _ H1 x Hin) as [?| ->]; [by left|].
      right. apply list_elem_of_here.
    + right. by apply list_elem_of_further.
Qed.

(** What a stop visit writes to the routes. *)
Lemma handleBusAtStop_visit (index : gmap (Z * Z) (list Stop)) (routeIndex0 busIndex : nat)
    (s s' : GameState) :
  RouteManager.handleBusAtStop index routeIndex0 busIndex s = Some s' ->
  exists route bus ps,
    routes s !! routeIndex0 = Some route /\
    buses route !! busIndex = Some bus /\
    routes s' = <[routeIndex0 := RouteManager.set_buses
                    (<[busIndex := RouteManager.set_passengers ps bus]> (buses route)) route]>
                  (routes s) /\
    npcs s' = npcs s /\ time s' = time s /\ activeRouteIndex s' = activeRouteIndex s /\
    length ps <= Nat.max (length (passengers bus)) RouteManager.BUS_CAPACITY.
Proof.
  unfold RouteManager.handleBusAtStop. intros H.
  destruct (routes s !! routeIndex0) as [route|] eqn:Hr; [|done]. simpl in H.
  destruct (buses route !! busIndex) as [bus|] eqn:Hb; [|done]. simpl in H.
  destruct (stops route !! currentStopIndex bus) as [currentStop|]; [|done]. simpl in H.
  destruct (RouteManager.board_loop _ _ _ _ _ _ _) as [w2|] eqn:Hloop; [|done]. simpl in H.
  inversion H; subst; clear H. simpl.
  exists route, bus, (RouteManager.w_passengers w2).
  set (w0 := RouteManager.mkWork (passengers bus) (objects s)
               (RouteManager.sample_utilization (length (passengers bus)) (stats s))
               (economics s)) in *.
  destruct (alight_loop_shape index currentStop (time s) (length (passengers bus)) w0)
    as (k & _ & Hlen & Hsub).
  pose proof (board_loop_shape _ _ _ _ _ _ _ _ Hloop) as (_ & _ & _ & Hcap).
  simpl in Hlen, Hsub.
  split_and!; try done. lia.
Qed.

(** X10.  A stop visit writes to the passenger list of the stopping bus and
    to nothing else of the routes; the listed NPCs, the clock and the
    active route stay.  Afterwards the bus carries passengers it carried
    before or listed NPCs, never more than it did or than [BUS_CAPACITY];
    and the object of an NPC that was neither aboard this bus nor waiting is
    left as it was. *)
Theorem handleBusAtStop_frame (index : gmap (Z * Z) (list Stop)) (routeIndex0 busIndex : nat)
    (s s' : GameState) :
  RouteManager.handleBusAtStop index routeIndex0 busIndex s = Some s' ->
  exists route bus ps,
    routes s !! routeIndex0 = Some route /\
    buses route !! busIndex = Some bus /\
    routes s' = <[routeIndex0 := RouteManager.set_buses
                    (<[busIndex := RouteManager.set_passengers ps bus]> (buses route)) route]>
                  (routes s) /\
    npcs s' = npcs s /\ time s' = time s /\ activeRouteIndex s' = activeRouteIndex s /\
    length ps <= Nat.max (length (passengers bus)) RouteManager.BUS_CAPACITY /\
    (forall r, r ∈ ps -> r ∈ passengers bus \/ r ∈ npcs s) /\
    (forall r, r ∉ passengers bus ->
       (forall n, objects s !! r = Some n -> npc_state n <> waiting) ->
       objects s' !! r = objects s !! r).
Proof.
  unfold RouteManager.handleBusAtStop. intros H.
  destruct (routes s !! routeIndex0) as [route|] eqn:Hr; [|done]. simpl in H.
  destruct (buses route !! busIndex) as [bus|] eqn:Hb; [|done]. simpl in H.
  destruct (stops route !! currentStopIndex bus) as [currentStop|]; [|done]. simpl in H.
  destruct (RouteManager.board_loop _ _ _ _ _ _ _) as [w2|] eqn:Hloop; [|done]. simpl in H.
  inversion H; subst; clear H. simpl.
  exists route, bus, (RouteManager.w_passengers w2).
  set (w0 := RouteManager.mkWork (passengers bus) (objects s)
               (RouteManager.sample_utilization (length (passengers bus)) (stats s))
               (economics s)) in *.
  destruct (alight_loop_shape index currentStop (time s) (length (passengers bus)) w0)
    as (k & _ & Hlen & Hsub).
  pose proof (board_loop_shape _ _ _ _ _ _ _ _ Hloop) as (_ & _ & _ & Hcap).
  simpl in Hlen, Hsub.
  split_and!; try done.
  - lia.
  - intros r Hin. destruct (board_loop_listed _ _ _ _ _ _ _ _ Hloop r Hin) as [Hp|Hn].
    + left. by eapply elem_of_submseteq.
    + by right.
  - intros r Hr' Hnw.
    rewrite (board_loop_objects _ _ _ _ _ _ _ _ r Hloop).
    + by apply (alight_loop_objects index currentStop (time s) _ w0).
    + intros n. rewrite (alight_loop_objects index currentStop (time s) _ w0) by done.
      apply Hnw.
Qed.

(** X11.  The books of a stop visit: the trip counter grows by the number
    of arrivals, at most the number of passengers the bus came with; money
    and total income grow by that number of tickets at the current price;
    the ticket price, the capital invested and the give-up counter stay;
    exactly one utilization sample is taken, of the load the bus came
    with. *)
Theorem handleBusAtStop_books (index : gmap (Z * Z) (list Stop)) (routeIndex0 busIndex : nat)
    (s s' : GameState) :
  RouteManager.handleBusAtStop index routeIndex0 busIndex s = Some s' ->
  exists route bus arrivals,
    routes s !! routeIndex0 = Some route /\
    buses route !! busIndex = Some bus /\
    arrivals <= length (passengers bus) /\
    tripsCompleted (stats s') = tripsCompleted (stats s) + arrivals /\
    (money (economics s')
     == money (economics s) + inject_Z (Z.of_nat arrivals) * ticketPrice (economics s))%Q /\
    (totalIncome (economics s')
     == totalIncome (economics s)
        + inject_Z (Z.of_nat arrivals) * ticketPrice (economics s))%Q /\
    ticketPrice (economics s') = ticketPrice (economics s) /\
    totalCapitalInvested (economics s') = totalCapitalInvested (economics s) /\
    npcsGaveUp (stats s') = npcsGaveUp (stats s) /\
    busUtilizationSamples (stats s') = S (busUtilizationSamples (stats s)) /\
    totalBusUtilization (stats s')
    = (totalBusUtilization (stats s)
       + inject_Z (Z.of_nat (length (passengers bus)))
         / inject_Z (Z.of_nat RouteManager.BUS_CAPACITY))%Q.
Proof.
  unfold RouteManager.handleBusAtStop. intros H.
  destruct (routes s !! routeIndex0) as [route|] eqn:Hr; [|done]. simpl in H.
  destruct (buses route !! busIndex) as [bus|] eqn:Hb; [|done]. simpl in H.
  destruct (stops route !! currentStopIndex bus) as [currentStop|]; [|done]. simpl in H.
  destruct (RouteManager.board_loop _ _ _ _ _ _ _) as [w2|] eqn:Hloop; [|done]. simpl in H.
  inversion H; subst; clear H. simpl.
  set (w0 := RouteManager.mkWork (passengers bus) (objects s)
               (RouteManager.sample_utilization (length (passengers bus)) (stats s))
               (economics s)) in *.
  destruct (alight_loop_shape index currentStop (time s) (length (passengers bus)) w0)
    as (k & Hbooked & Hlen & _).
  pose proof (board_loop_shape _ _ _ _ _ _ _ _ Hloop) as (Hst & Hec & _ & _).
  unfold booked in Hbooked. cbv zeta in Hbooked. rewrite <- Hst, <- Hec in Hbooked.
  simpl in Hbooked, Hlen.
  destruct Hbooked as (Ht & Hm & Hi & Hp & Hc & Hg & Hsamples & Hu).
  exists route, bus, k. split_and!; try done. lia.
Qed.

(** The bus of route 1 dwells at (5, 9) with the rider aboard while another
    NPC is still walking. *)
Definition walker : NPC :=
  EntityManager.new_npc 60 60 (mkZone 0 0 2 2 RESIDENTIAL) (mkZone 4 8 2 2 COMMERCIAL).

Definition visit_state : GameState :=
  mkGameState (routes arrival_state) 0 [7; 9] {[7 := rider; 9 := walker]}
    (mkGameStats 0 0 0 0 0 0) (mkEconomics 5000 0 0 (3 # 2)) 1000.

Lemma handleBusAtStop_frame_witness :
  exists s', RouteManager.handleBusAtStop (SpatialIndex.rebuildIndex (routes visit_state)) 1 0
               visit_state = Some s' /\
             npcs s' = [7; 9] /\
             objects s' !! 9 = Some walker.
Proof.
  destruct (RouteManager.handleBusAtStop (SpatialIndex.rebuildIndex (routes visit_state)) 1 0
              visit_state) as [s'|] eqn:H; [|vm_compute in H; discriminate].
  exists s'. split; [reflexivity|].
  destruct (handleBusAtStop_frame _ _ _ _ _ H)
    as (route & bus & ps & Hr & Hb & _ & Hn & _ & _ & _ & _ & Hobj).
  split; [exact Hn|].
  vm_compute in Hr. injection Hr as <-. vm_compute in Hb. injection Hb as <-.
  transitivity (objects visit_state !! 9); [|reflexivity].
  apply Hobj.
  - simpl. intros Hin. apply list_elem_of_singleton in Hin. discriminate.
  - intros n Hn9. vm_compute in Hn9. injection Hn9 as <-. discriminate.
Defined.

Lemma handleBusAtStop_books_witness :
  exists s' arrivals,
    RouteManager.handleBusAtStop (SpatialIndex.rebuildIndex (routes visit_state)) 1 0
      visit_state = Some s' /\
    arrivals <= 1 /\
    tripsCompleted (stats s') = arrivals /\
    (money (economics s') == 5000 + inject_Z (Z.of_nat arrivals) * (3 # 2))%Q /\
    busUtilizationSamples (stats s') = 1.
Proof.
  destruct (RouteManager.handleBusAtStop (SpatialIndex.rebuildIndex (routes visit_state)) 1 0
              visit_state) as [s'|] eqn:H; [|vm_compute in H; discriminate].
  destruct (handleBusAtStop_books _ _ _ _ _ H)
    as (route & bus & arrivals & Hr & Hb & Hk & Ht & Hm & _ & _ & _ & _ & Hs & _).
  vm_compute in Hr. injection Hr as <-. vm_compute in Hb. injection Hb as <-.
  exists s', arrivals. split_and!; [reflexivity | exact Hk | exact Ht | exact Hm | exact Hs].
Defined.

(** ** Limits the engine keeps *)

Definition within_capacity (route : Route) : Prop :=
  Forall (fun bus => length (passengers bus) <= RouteManager.BUS_CAPACITY) (buses route).

Definition fleet_limits (s : GameState) : Prop :=
  length (routes s) <= MAX_ROUTES /\
  Forall (fun route => length (buses route) <= GameEngine.MAX_BUSES_PER_ROUTE) (routes s) /\
  Forall within_capacity (routes s).

Lemma Forall_removelast {A} (P : A -> Prop) (l : list A) :
  Forall P l -> Forall P (removelast l).
Proof.
  intros H. destruct l as [|x l _] using rev_ind; [done|].
  rewrite removelast_last. by apply Forall_app in H as [? _].
Qed.

Lemma step_fleet_limits s s' : step s s' -> fleet_limits s -> fleet_limits s'.
Proof.
  unfold fleet_limits. intros Hstep (Hroutes & Hbuses & Hcap). destruct Hstep.
  - done.
  - by rewrite (proj1 (updateNPCs_calm Math_sqrt index now deltaTime s pm)).
  - destruct (handleBusAtStop_visit _ _ _ _ _ H)
      as (route & bus & ps & Hr & Hb & -> & _ & _ & _ & Hlen).
    rewrite length_insert. split_and!; [done | |].
    + apply Forall_insert; [done|]. simpl. rewrite length_insert.
      by eapply (Forall_lookup_1 _ _ _ _ Hbuses).
    + apply Forall_insert; [done|]. unfold within_capacity. simpl.
      pose proof (Forall_lookup_1 _ _ _ _ Hcap Hr) as Hroute.
      apply Forall_insert; [done|]. simpl.
      pose proof (Forall_lookup_1 _ _ _ _ Hroute Hb) as Hbus. simpl in Hbus. lia.
  - unfold Main.drive. destruct (routes s !! routeIndex0) as [route|] eqn:Hr; [|done].
    destruct (buses route !! busIndex) as [bus|] eqn:Hb; [|done]. simpl.
    rewrite length_insert. split_and!; [done | |].
    + apply Forall_insert; [done|]. simpl. rewrite length_insert.
      by eapply (Forall_lookup_1 _ _ _ _ Hbuses).
    + apply Forall_insert; [done|]. unfold within_capacity. simpl.
      pose proof (Forall_lookup_1 _ _ _ _ Hcap Hr) as Hroute.
      apply Forall_insert; [done|]. simpl.
      by apply (Forall_lookup_1 _ _ _ _ Hroute Hb).
  - unfold GameEngine.addRoute.
    destruct (MAX_ROUTES <=? length (routes s)) eqn:Hmax; [done|].
    apply Nat.leb_gt in Hmax. destruct (Qlt_le_dec _ _); [done|]. simpl.
    rewrite length_app. simpl. split_and!; [lia | |].
    + apply Forall_app. split; [done|]. constructor; [|constructor].
      unfold GameEngine.MAX_BUSES_PER_ROUTE. simpl. lia.
    + apply Forall_app. split; [done|]. constructor; [|constructor].
      constructor; [|constructor]. unfold RouteManager.BUS_CAPACITY. simpl. lia.
  - unfold GameEngine.addBusToRoute.
    destruct (routes s !! routeIndex0) as [route|] eqn:Hr; [|done].
    destruct (GameEngine.MAX_BUSES_PER_ROUTE <=? length (buses route)) eqn:Hmax; [done|].
    apply Nat.leb_gt in Hmax. destruct (Qlt_le_dec _ _); [done|]. simpl.
    rewrite length_insert. split_and!; [done | |].
    + apply Forall_insert; [done|]. simpl. rewrite length_app. simpl. lia.
    + apply Forall_insert; [done|]. unfold within_capacity. simpl.
      apply Forall_app. split; [by apply (Forall_lookup_1 _ _ _ _ Hcap Hr)|].
      repeat case_match; (constructor; [|constructor]); simpl; lia.
  - unfold GameEngine.removeBusFromRoute.
    destruct (routes s !! routeIndex0) as [route|] eqn:Hr; [|done].
    destruct (length (buses route) <=? 1); [done|].
    destruct (last (buses route)); [|done]. simpl.
    rewrite length_insert. split_and!; [done | |].
    + apply Forall_insert; [done|]. simpl.
      pose proof (Forall_lookup_1 _ _ _ _ Hbuses Hr) as Hlen. simpl in Hlen.
      destruct (buses route) as [|lastBus front _] using rev_ind; [simpl; lia|].
      rewrite removelast_last. rewrite length_app in Hlen. simpl in Hlen. lia.
    + apply Forall_insert; [done|]. unfold within_capacity. simpl.
      apply Forall_removelast. by apply (Forall_lookup_1 _ _ _ _ Hcap Hr).
  - unfold GameEngine.deleteRoute. case_match; [done|]. simpl.
    split_and!; [| by apply Forall_delete | by apply Forall_delete].
    pose proof (sublist_length _ _ (sublist_delete (routes s) (activeRouteIndex s))). lia.
  - unfold GameEngine.addStopToRoute.
    destruct (routes s !! routeIndex0) as [route|] eqn:Hr; [|done].
    destruct (Qlt_le_dec _ _); [done|]. simpl.
    rewrite length_insert. split_and!; [done | |].
    + apply Forall_insert; [done|]. simpl. by apply (Forall_lookup_1 _ _ _ _ Hbuses Hr).
    + apply Forall_insert; [done|]. by apply (Forall_lookup_1 _ _ _ _ Hcap Hr).
  - unfold Main.edit_stops. destruct (routes s !! routeIndex0) as [route|] eqn:Hr; [|done].
    simpl. rewrite length_insert. split_and!; [done | |].
    + apply Forall_insert; [done|]. simpl. by apply (Forall_lookup_1 _ _ _ _ Hbuses Hr).
    + apply Forall_insert; [done|]. by apply (Forall_lookup_1 _ _ _ _ Hcap Hr).
  - unfold Main.edit_stops. cbn [routes EntityManager.set_objects]. rewrite H.
    simpl. rewrite length_insert. split_and!; [done | |].
    + apply Forall_insert; [done|]. simpl. by apply (Forall_lookup_1 _ _ _ _ Hbuses H).
    + apply Forall_insert; [done|]. by apply (Forall_lookup_1 _ _ _ _ Hcap H).
  - unfold Main.clearAllStops.
    destruct (routes s !! activeRouteIndex s) as [route|] eqn:Hr; [|done].
    simpl. rewrite length_insert. split_and!; [done | |].
    + apply Forall_insert; [done|]. simpl. rewrite length_fmap.
      by apply (Forall_lookup_1 _ _ _ _ Hbuses Hr).
    + apply Forall_insert; [done|]. unfold within_capacity. simpl.
      apply Forall_fmap, Forall_forall. intros b _. simpl. lia.
  - unfold setActiveRoute. by case_match.
  - done.
Qed.

Lemma reachable_fleet_limits s : reachable_state s -> fleet_limits s.
Proof.
  induction 1 as [|s s' Hs IH Hstep]; [|by eapply step_fleet_limits].
  split_and!; [simpl; unfold MAX_ROUTES; lia | constructor | constructor].
Qed.

(** X12.  However the game is played, no bus carries more than
    [BUS_CAPACITY] = 10 passengers: boarding stops at the tenth seat. *)
Theorem bus_never_over_capacity (s : GameState) (route : Route) (bus : Bus) :
  reachable_state s -> route ∈ routes s -> bus ∈ buses route ->
  length (passengers bus) <= 10.
Proof.
  intros Hs Hroute Hbus. destruct (reachable_fleet_limits s Hs) as (_ & _ & Hcap).
  rewrite Forall_forall in Hcap. specialize (Hcap route Hroute).
  unfold within_capacity in Hcap. rewrite Forall_forall in Hcap. by apply Hcap.
Qed.

Lemma bus_never_over_capacity_witness : length (passengers ride_bus) <= 10.
Proof.
  apply (bus_never_over_capacity ride_state ride_route ride_bus ride_state_reachable).
  - apply (list_elem_of_lookup_2 _ 0). vm_compute. reflexivity.
  - apply list_elem_of_here.
Defined.

(** X13.  However the game is played, there are never more than
    [MAX_ROUTES] = 8 routes, nor more than 10 buses on a route. *)
Theorem fleet_never_over_limits (s : GameState) (route : Route) :
  reachable_state s -> route ∈ routes s ->
  length (routes s) <= 8 /\ length (buses route) <= 10.
Proof.
  intros Hs Hroute. destruct (reachable_fleet_limits s Hs) as (Hroutes & Hbuses & _).
  split; [done|]. rewrite Forall_forall in Hbuses. by apply Hbuses.
Qed.

Lemma fleet_never_over_limits_witness :
  length (routes ride_state) <= 8 /\ length (buses ride_route) <= 10.
Proof.
  apply (fleet_never_over_limits ride_state ride_route ride_state_reachable).
  apply (list_elem_of_lookup_2 _ 0). vm_compute. reflexivity.
Defined.

(** X14.  However the game is played, no NPC is aboard two buses or twice
    aboard one, and an NPC that is walking, waiting or arrived is aboard
    none. *)
Theorem no_npc_rides_twice (s : GameState) :
  reachable_state s ->
  NoDup (all_passengers (routes s)) /\
  (forall route bus r npc,
     route ∈ routes s -> bus ∈ buses route -> objects s !! r = Some npc ->
     npc_state npc <> traveling -> r ∉ passengers bus) /\
  (forall route bus, route ∈ routes s -> bus ∈ buses route -> NoDup (passengers bus)).
Proof.
  intros Hs. destruct (reachable_transfers_bounded s Hs) as (Hnd & Hriders & _).
  split_and!; [done | |].
  - intros route bus r npc Hroute Hbus Hobj Hstate Hin.
    destruct (Hriders r) as (n & Hn & Ht & _); [|by simplify_eq].
    apply list_elem_of_bind. exists route. split; [|done].
    apply list_elem_of_bind. by exists bus.
  - intros route bus Hroute Hbus.
    apply list_elem_of_lookup in Hroute as [i Hi]. apply list_elem_of_lookup in Hbus as [j Hj].
    rewrite (all_passengers_bus _ _ _ _ _ Hi Hj) in Hnd.
    by apply NoDup_app in Hnd as [? _].
Qed.

Lemma no_npc_rides_twice_witness :
  NoDup (all_passengers (routes ride_state)) /\ NoDup (passengers ride_bus).
Proof.
  destruct (no_npc_rides_twice ride_state ride_state_reachable) as (Hnd & _ & Hbus).
  split; [exact Hnd|]. apply (Hbus ride_route ride_bus).
  - apply (list_elem_of_lookup_2 _ 0). vm_compute. reflexivity.
  - apply list_elem_of_here.
Defined.

(** ** RouteManager.ts: who leaves the bus, and where the fallback sends *)

Lemma elem_of_delete_ne {A} (l : list A) i x y :
  x ∈ l -> l !! i = Some y -> x <> y -> x ∈ delete i l.
Proof.
  intros Hx Hi Hne. apply list_elem_of_lookup in Hx as [j Hj].
  assert (i <> j) by (intros ->; congruence).
  apply list_elem_of_lookup.
  destruct (decide (j < i)) as [Hlt|Hge].
  - exists j. by rewrite list_lookup_delete_lt.
  - exists (j - 1). rewrite list_lookup_delete_ge by lia. rewrite <- Hj. f_equal. lia.
Qed.

(** A passenger bound for another stop keeps its seat and its destination
    through one step of the drop-off loop. *)
Lemma alight_one_keeps index currentStop now i w r d :
  same_stop d currentStop = false ->
  (r ∈ RouteManager.w_passengers w /\
   exists n, RouteManager.w_objects w !! r = Some n /\ destinationStop n = Some d) ->
  let w' := RouteManager.alight_one index currentStop now i w in
  r ∈ RouteManager.w_passengers w' /\
  exists n, RouteManager.w_objects w' !! r = Some n /\ destinationStop n = Some d.
Proof.
  intros Hd [Hin (n & Hn & Hdest)]. unfold RouteManager.alight_one.
  destruct (RouteManager.w_passengers w !! i) as [r0|] eqn:Hi; [|by eauto].
  destruct (decide (r0 = r)) as [->|Hne].
  - rewrite Hn, Hdest. cbv zeta. rewrite Hd. simpl. rewrite lookup_insert_eq. eauto.
  - assert (r ∈ delete i (RouteManager.w_passengers w)) by by eapply elem_of_delete_ne.
    repeat case_match; simpl; rewrite ?lookup_insert_ne by done; eauto.
Qed.

Lemma alight_loop_keeps index currentStop now k w r d :
  same_stop d currentStop = false ->
  (r ∈ RouteManager.w_passengers w /\
   exists n, RouteManager.w_objects w !! r = Some n /\ destinationStop n = Some d) ->
  let w' := RouteManager.alight_loop index currentStop now k w in
  r ∈ RouteManager.w_passengers w' /\
  exists n, RouteManager.w_objects w' !! r = Some n /\ destinationStop n = Some d.
Proof.
  intros Hd. revert w. induction k as [|i IH]; intros w Hw; simpl; [done|].
  apply IH. by apply alight_one_keeps.
Qed.

(** X15.  A bus lets nobody off at the wrong stop: a passenger whose
    destination stop is not the stop of the visit is still aboard after
    it. *)
Theorem handleBusAtStop_keeps_through_passengers (index : gmap (Z * Z) (list Stop))
    (routeIndex0 busIndex : nat) (s s' : GameState) (route : Route) (bus : Bus)
    (currentStop d : Stop) (r : npc_ref) (npc : NPC) :
  RouteManager.handleBusAtStop index routeIndex0 busIndex s = Some s' ->
  routes s !! routeIndex0 = Some route ->
  buses route !! busIndex = Some bus ->
  stops route !! currentStopIndex bus = Some currentStop ->
  r ∈ passengers bus ->
  objects s !! r = Some npc ->
  destinationStop npc = Some d ->
  same_stop d currentStop = false ->
  exists route' bus',
    routes s' !! routeIndex0 = Some route' /\
    buses route' !! busIndex = Some bus' /\
    r ∈ passengers bus'.
Proof.
  unfold RouteManager.handleBusAtStop. intros H Hr Hb Hc Hin Hobj Hdest Hd.
  rewrite Hr in H. simpl in H. rewrite Hb in H. simpl in H. rewrite Hc in H. simpl in H.
  destruct (RouteManager.board_loop _ _ _ _ _ _ _) as [w2|] eqn:Hloop; [|done]. simpl in H.
  inversion H; subst; clear H. simpl.
  eexists _, _. split_and!.
  - apply list_lookup_insert_eq. by eapply lookup_lt_Some.
  - simpl. apply list_lookup_insert_eq. by eapply lookup_lt_Some.
  - simpl. apply board_loop_shape in Hloop as (_ & _ & (boarded & ->) & _).
    apply elem_of_app. left.
    apply (alight_loop_keeps index currentStop (time s) (length (passengers bus))
             (RouteManager.mkWork (passengers bus) (objects s) _ _) r d Hd).
    simpl. split; [done|]. by exists npc.
Qed.

(** The rider on the bus of route 1, which dwells at (5, 1), not at the
    rider's stop (5, 9). *)
Definition through_state : GameState :=
  mkGameState
    [mkRoute [mkStop 1 1; mkStop 5 1] [bus_at 1 []] 0;
     mkRoute [mkStop 5 1; mkStop 5 9] [bus_at 0 [7]] 1]
    0 [7] {[7 := rider]} (mkGameStats 0 0 0 0 0 0) (mkEconomics 5000 0 0 (3 # 2)) 1000.

Lemma handleBusAtStop_keeps_through_passengers_witness :
  exists s' route' bus',
    RouteManager.handleBusAtStop (SpatialIndex.rebuildIndex (routes through_state)) 1 0
      through_state = Some s' /\
    routes s' !! 1 = Some route' /\ buses route' !! 0 = Some bus' /\ 7 ∈ passengers bus'.
Proof.
  destruct (RouteManager.handleBusAtStop (SpatialIndex.rebuildIndex (routes through_state)) 1 0
              through_state) as [s'|] eqn:H; [|vm_compute in H; discriminate].
  destruct (handleBusAtStop_keeps_through_passengers _ _ _ _ _
              (mkRoute [mkStop 5 1; mkStop 5 9] [bus_at 0 [7]] 1) (bus_at 0 [7])
              (mkStop 5 1) (mkStop 5 9) 7 rider H)
    as (route' & bus' & Hr & Hb & Hin); try reflexivity.
  - apply list_elem_of_here.
  - exists s', route', bus'. by split_and!.
Defined.

(** The loop of the greedy fallback keeps a stop of the route other than
    the current one, strictly closer to the final stop than the current
    stop is. *)
Lemma closest_step_fold currentStop finalDestStop currentDist l :
  let acc := foldl (RouteManager.closest_step currentStop finalDestStop) (None, currentDist) l in
  match acc.1 with
  | None => acc.2 = currentDist
  | Some t =>
      t ∈ l /\ same_stop t currentStop = false /\
      acc.2 = SpatialIndex.distance_sq (stop_px t).1 (stop_px t).2
                (stop_px finalDestStop).1 (stop_px finalDestStop).2 /\
      (acc.2 < currentDist)%Q
  end.
Proof.
  induction l as [|stop l IH] using rev_ind; [done|].
  cbv zeta in *. rewrite foldl_snoc.
  destruct (foldl _ _ l) as [best d] eqn:Hfold. simpl in IH.
  unfold RouteManager.closest_step. simpl.
  destruct (same_stop stop currentStop) eqn:Hsame.
  - simpl. destruct best as [t|]; [|done].
    destruct IH as (Hin & ? & ? & ?). split_and!; try done.
    apply elem_of_app. by left.
  - destruct (Qlt_le_dec _ d) as [Hlt|Hle]; simpl.
    + split_and!; [apply elem_of_app; right; apply list_elem_of_here | done | done |].
      destruct best as [t|].
      * destruct IH as (_ & _ & _ & Hd). by eapply Qlt_trans.
      * by rewrite <- IH.
    + destruct best as [t|]; [|done].
      destruct IH as (Hin & ? & ? & ?). split_and!; try done.
      apply elem_of_app. by left.
Qed.

Lemma distinct_stops_apart a b :
  same_stop a b = false ->
  (0 < SpatialIndex.distance_sq (stop_px a).1 (stop_px a).2 (stop_px b).1 (stop_px b).2)%Q.
Proof.
  intros Hne. unfold SpatialIndex.distance_sq, stop_px. cbv zeta. simpl.
  unfold Qminus. rewrite <- !inject_Z_opp, <- !inject_Z_plus, <- !inject_Z_mult, <- inject_Z_plus.
  change 0%Q with (inject_Z 0). rewrite <- Zlt_Qlt.
  unfold same_stop in Hne. apply andb_false_iff in Hne.
  rewrite !Z.eqb_neq in Hne. unfold GRID_SIZE.
  set (u := (stop_x b - stop_x a)%Z). set (v := (stop_y b - stop_y a)%Z).
  match goal with |- (0 < ?e)%Z => replace e with (900 * (u * u) + 900 * (v * v))%Z
    by (subst u v; ring) end.
  assert (0 <= u * u)%Z by apply Z.square_nonneg.
  assert (0 <= v * v)%Z by apply Z.square_nonneg.
  destruct Hne as [Hx|Hy].
  - assert (u <> 0)%Z by (subst u; lia). assert (0 < u * u)%Z by nia. lia.
  - assert (v <> 0)%Z by (subst v; lia). assert (0 < v * v)%Z by nia. lia.
Qed.

(** X16.  The greedy fallback either leaves the NPC at the stop or boards it
    toward a stop of this route other than the current one that is strictly
    closer to its final stop than the current stop is; the final stop is
    the stop nearest to the destination zone and lies within 8 cells of
    it. *)
Theorem fallback_boards_toward_the_destination (index : gmap (Z * Z) (list Stop))
    (route : Route) (currentStop : Stop) (now : Q) (r : npc_ref) (npc : NPC)
    (w : RouteManager.Work) :
  let w' := RouteManager.fallback index route currentStop now r npc w in
  let destCenter := getDestinationCenter (destinationZone npc) in
  w' = w \/
  exists dest final,
    w' = RouteManager.board now r npc dest final w /\
    SpatialIndex.findNearestStop index destCenter.1 destCenter.2 = Some final /\
    too_far_from_zone final destCenter = false /\
    dest ∈ stops route /\
    same_stop dest currentStop = false /\
    (SpatialIndex.distance_sq (stop_px dest).1 (stop_px dest).2
       (stop_px final).1 (stop_px final).2
     < SpatialIndex.distance_sq (stop_px currentStop).1 (stop_px currentStop).2
         (stop_px final).1 (stop_px final).2)%Q.
Proof.
  unfold RouteManager.fallback. cbv zeta.
  destruct (SpatialIndex.findNearestStop _ _ _) as [final|]; [|by left].
  destruct (too_far_from_zone final _) eqn:Hfar; [by left|].
  destruct (existsb _ (stops route) && negb (same_stop final currentStop)) eqn:Hdirect.
  - right. apply andb_true_iff in Hdirect as [Hhas Hnot].
    apply existsb_exists in Hhas as (stop & Hstop & Hsame).
    apply same_stop_eq in Hsame. subst stop. apply negb_true_iff in Hnot.
    exists final, final. split_and!; try done.
    + by apply list_elem_of_In.
    + assert (SpatialIndex.distance_sq (stop_px final).1 (stop_px final).2
                (stop_px final).1 (stop_px final).2 == 0)%Q as ->.
      { unfold SpatialIndex.distance_sq. cbv zeta. ring. }
      apply distinct_stops_apart.
      destruct (same_stop currentStop final) eqn:Hs; [|done].
      apply same_stop_eq in Hs. subst.
      assert (same_stop final final = true) by by apply same_stop_eq. congruence.
  - pose proof (closest_step_fold currentStop final
      (SpatialIndex.distance_sq (stop_px currentStop).1 (stop_px currentStop).2
         (stop_px final).1 (stop_px final).2) (stops route)) as Hfold.
    cbv zeta in Hfold.
    destruct (foldl _ _ (stops route)) as [[t|] d]; simpl in *; [|by left].
    right. destruct Hfold as (Hin & Hne & Hd & Hlt).
    exists t, final. split_and!; try done. by rewrite <- Hd.
Qed.

(** ** EntityManager.ts: what a tick of the NPCs changes *)

(** The books of [updateNPCs] between two points of its run: [k] arrivals
    and [g] give-ups were recorded. *)
Definition tick_books (k g : nat) (s s' : GameState) : Prop :=
  time s' = time s /\ activeRouteIndex s' = activeRouteIndex s /\
  tripsCompleted (stats s') = tripsCompleted (stats s) + k /\
  npcsGaveUp (stats s') = npcsGaveUp (stats s) + g /\
  (money (economics s')
   == money (economics s) + inject_Z (Z.of_nat k) * ticketPrice (economics s))%Q /\
  (totalIncome (economics s')
   == totalIncome (economics s) + inject_Z (Z.of_nat k) * ticketPrice (economics s))%Q /\
  ticketPrice (economics s') = ticketPrice (economics s) /\
  totalCapitalInvested (economics s') = totalCapitalInvested (economics s) /\
  busUtilizationSamples (stats s') = busUtilizationSamples (stats s) /\
  totalBusUtilization (stats s') = totalBusUtilization (stats s) /\
  totalTransportTime (stats s') = totalTransportTime (stats s).

Lemma tick_books_same s s' :
  time s' = time s -> activeRouteIndex s' = activeRouteIndex s ->
  stats s' = stats s -> economics s' = economics s ->
  tick_books 0 0 s s'.
Proof.
  intros Ht Ha Hs He. unfold tick_books. rewrite Ht, Ha, Hs, He. simpl.
  split_and!; try done; try lia; ring.
Qed.

Lemma tick_books_trans k1 g1 k2 g2 s1 s2 s3 :
  tick_books k1 g1 s1 s2 -> tick_books k2 g2 s2 s3 -> tick_books (k1 + k2) (g1 + g2) s1 s3.
Proof.
  unfold tick_books.
  intros (? & ? & ? & ? & Hm & Hi & Hp & ? & ? & ? & ?)
         (? & ? & ? & ? & Hm' & Hi' & Hp' & ? & ? & ? & ?).
  split_and!; try congruence; try lia.
  - rewrite Hm', Hm, Hp, Nat2Z.inj_add, inject_Z_plus. ring.
  - rewrite Hi', Hi, Hp, Nat2Z.inj_add, inject_Z_plus. ring.
Qed.

(** The steps that handle one NPC without removing any: the list of NPCs
    stays, and at most one arrival is recorded. *)
Definition handled (s s' : GameState) : Prop :=
  npcs s' = npcs s /\ exists k, k <= 1 /\ tick_books k 0 s s'.

Lemma handled_put r n s : handled s (EntityManager.put r n s).
Proof. split; [done|]. exists 0. split; [lia|]. by apply tick_books_same. Qed.

Lemma handled_refl s : handled s s.
Proof. split; [done|]. exists 0. split; [lia|]. by apply tick_books_same. Qed.

Lemma handled_arrival s0 s npc :
  npcs s0 = npcs s -> time s0 = time s -> activeRouteIndex s0 = activeRouteIndex s ->
  stats s0 = stats s -> economics s0 = economics s ->
  handled s (EntityManager.record_arrival npc s0).
Proof.
  intros Hn Ht Ha Hs He. split; [done|]. exists 1. split; [lia|].
  unfold tick_books, EntityManager.record_arrival. simpl. rewrite Ht, Ha, Hs, He.
  split_and!; try done; try lia; ring.
Qed.

Lemma settle_handled s0 s r npc ns finalDestStop :
  npcs s0 = npcs s -> time s0 = time s -> activeRouteIndex s0 = activeRouteIndex s ->
  stats s0 = stats s -> economics s0 = economics s ->
  handled s (EntityManager.settle r npc ns finalDestStop s0).
Proof.
  intros Hn Ht Ha Hs He. unfold EntityManager.settle. cbv zeta.
  destruct (same_stop ns finalDestStop).
  - by apply handled_arrival.
  - destruct (RoutePlanner.planTrip _ _ _); (split; [done|]; exists 0; split; [lia|];
      by apply tick_books_same).
Qed.

Lemma reach_stop_handled index s0 s r npc :
  npcs s0 = npcs s -> time s0 = time s -> activeRouteIndex s0 = activeRouteIndex s ->
  stats s0 = stats s -> economics s0 = economics s ->
  handled s (EntityManager.reach_stop index r npc s0).
Proof.
  intros Hn Ht Ha Hs He. unfold EntityManager.reach_stop. cbv zeta.
  repeat case_match; try (by apply settle_handled);
    (split; [done|]; exists 0; split; [lia|]; by apply tick_books_same).
Qed.

Lemma walking_step_handled Math_sqrt index now r npc s pm :
  handled s (EntityManager.walking_step Math_sqrt index now r npc s pm).1.
Proof.
  unfold EntityManager.walking_step.
  repeat case_match; simplify_eq; simpl;
    try (by apply reach_stop_handled);
    (split; [done|]; exists 0; split; [lia|]; by apply tick_books_same).
Qed.

Lemma reacquire_handled index deltaTime r npc s :
  handled s (EntityManager.reacquire index deltaTime r npc s).1.
Proof.
  unfold EntityManager.reacquire. cbv zeta.
  repeat case_match; simplify_eq; simpl;
    try (by apply settle_handled);
    (split; [done|]; exists 0; split; [lia|]; by apply tick_books_same).
Qed.

(** One step of the loop of [updateNPCs]: the NPC at [i] is kept or
    removed, and is counted as given up only when it is removed. *)
Lemma update_one_step Math_sqrt index now deltaTime i s pm :
  let s' := (EntityManager.update_one Math_sqrt index now deltaTime i s pm).1.1 in
  exists k g,
    tick_books k g s s' /\
    ((npcs s' = npcs s /\ g = 0) \/
     (i < length (npcs s) /\ npcs s' = delete i (npcs s) /\ g <= 1 /\
      exists r n, npcs s !! i = Some r /\ objects s !! r = Some n /\
                  npc_state n <> traveling)).
Proof.
  unfold EntityManager.update_one. cbv zeta.
  destruct (npcs s !! i) as [r|] eqn:Hi.
  2:{ exists 0, 0. split; [by apply tick_books_same | by left]. }
  destruct (objects s !! r) as [npc|] eqn:Hr.
  2:{ exists 0, 0. split; [by apply tick_books_same | by left]. }
  pose proof (lookup_lt_Some _ _ _ Hi) as Hlt.
  destruct (npc_state npc) eqn:Hst.
  - pose proof (walking_step_handled Math_sqrt index now r npc s pm) as [Hn (k & _ & Hb)].
    destruct (EntityManager.walking_step _ _ _ _ _ _ _) as [s1 pm1]. simpl in *.
    exists k, 0. split; [done | by left].
  - unfold EntityManager.waiting_step.
    pose proof (reacquire_handled index deltaTime r npc s) as [Hn (k & _ & Hb)].
    destruct (EntityManager.reacquire index deltaTime r npc s) as [s1 returned]. simpl in *.
    destruct returned; simpl.
    + exists k, 0. split; [done | by left].
    + unfold EntityManager.wait_limit.
      destruct (objects s1 !! r) as [npc1|]; [|exists k, 0; split; [done | by left]].
      destruct (Qlt_le_dec _ _); [|exists k, 0; split; [done | by left]].
      exists k, 1. simpl. split.
      * replace k with (k + 0) by lia. replace 1 with (0 + 1) at 1 by lia.
        eapply tick_books_trans; [done|].
        unfold tick_books. simpl. split_and!; try done; try lia; ring.
      * right. rewrite Hn. split_and!; [done | done | lia |].
        exists r, npc. split_and!; [done | done | congruence].
  - exists 0, 0. split; [by apply tick_books_same | by left].
  - exists 0, 0. simpl. split; [by apply tick_books_same|].
    right. split_and!; [done | done | lia |].
    exists r, npc. split_and!; [done | done | congruence].
Qed.

Lemma update_loop_tick Math_sqrt index now deltaTime n s pm :
  let s' := (EntityManager.update_loop Math_sqrt index now deltaTime n s pm).1 in
  exists k g,
    tick_books k g s s' /\
    npcs s' `sublist_of` npcs s /\
    g + length (npcs s') <= length (npcs s) /\
    (forall r npc, r ∈ npcs s -> objects s !! r = Some npc -> npc_state npc = traveling ->
       r ∈ npcs s').
Proof.
  revert s pm. induction n as [|i IH]; intros s pm; simpl.
  { exists 0, 0. split_and!; [by apply tick_books_same | done | lia | done]. }
  pose proof (update_one_step Math_sqrt index now deltaTime i s pm) as (k1 & g1 & Hb1 & Hn1).
  pose proof (update_one_calm Math_sqrt (objects s) index now deltaTime i s pm
                (heap_quiet_refl _)) as [_ Hq].
  destruct (EntityManager.update_one _ _ _ _ _ _ _) as [[s1 pm1] returned]. simpl in *.
  assert (Hone : npcs s1 `sublist_of` npcs s /\ g1 + length (npcs s1) <= length (npcs s) /\
                 forall r npc, r ∈ npcs s -> objects s !! r = Some npc ->
                   npc_state npc = traveling -> r ∈ npcs s1).
  { destruct Hn1 as [[-> ->]|(Hi & -> & Hg & r0 & n0 & Hr0 & Hn0 & Hs0)].
    - split_and!; [done | lia | done].
    - split_and!; [apply sublist_delete | rewrite length_delete by (by eexists); lia |].
      intros r npc Hin Hobj Hst. eapply elem_of_delete_ne; [done | done |].
      intros ->. congruence. }
  destruct Hone as (Hsub1 & Hlen1 & Hkeep1).
  destruct returned.
  { exists k1, g1. simpl. by split_and!. }
  destruct (IH s1 pm1) as (k2 & g2 & Hb2 & Hsub2 & Hlen2 & Hkeep2).
  exists (k1 + k2), (g1 + g2). split_and!.
  - by eapply tick_books_trans.
  - by etrans.
  - lia.
  - intros r npc Hin Hobj Hst. apply (Hkeep2 r npc); [by eapply Hkeep1 | | done].
    specialize (Hq r). rewrite Hobj in Hq. destruct Hq as (n' & Hn' & _ & Hsame & _).
    rewrite Hn'. f_equal. by apply Hsame.
Qed.

(** X17.  A tick of the NPCs leaves the routes, the clock and the active
    route alone, lists no NPC that was not listed, creates and deletes no
    NPC object, changes no transfer counter, and does not touch an NPC that
    is traveling: its object stays as it is and it stays listed. *)
Theorem updateNPCs_frame (Math_sqrt : Q -> Q) (index : gmap (Z * Z) (list Stop)) (now : Z)
    (deltaTime : Q) (s : GameState) (pm : PathfindingManager.t) :
  let s' := (EntityManager.updateNPCs Math_sqrt index now deltaTime s pm).1 in
  routes s' = routes s /\ time s' = time s /\ activeRouteIndex s' = activeRouteIndex s /\
  npcs s' `sublist_of` npcs s /\
  (forall r npc, objects s !! r = Some npc -> npc_state npc = traveling ->
     objects s' !! r = Some npc /\ (r ∈ npcs s -> r ∈ npcs s')) /\
  (forall r npc', objects s' !! r = Some npc' ->
     exists npc, objects s !! r = Some npc /\ transferCount npc' = transferCount npc) /\
  (forall r, objects s !! r = None -> objects s' !! r = None).
Proof.
  intros s'. subst s'.
  pose proof (updateNPCs_calm Math_sqrt index now deltaTime s pm) as [Hroutes Hq].
  pose proof (update_loop_tick Math_sqrt index now deltaTime (length (npcs s)) s pm)
    as (k & g & Hb & Hsub & _ & Hkeep).
  fold (EntityManager.updateNPCs Math_sqrt index now deltaTime s pm) in Hb, Hsub, Hkeep.
  destruct Hb as (Ht & Ha & _).
  split_and!; try done.
  - intros r npc Hobj Hst. split.
    + specialize (Hq r). rewrite Hobj in Hq. destruct Hq as (n' & Hn' & _ & Hsame & _).
      rewrite Hn'. f_equal. by apply Hsame.
    + intros Hin. by eapply Hkeep.
  - intros r npc' Hobj'. specialize (Hq r). destruct (objects s !! r) as [npc|].
    + destruct Hq as (n' & Hn' & Hc & _). exists npc. split; [done|]. congruence.
    + congruence.
  - intros r Hnone. specialize (Hq r). by rewrite Hnone in Hq.
Qed.

(** X18.  The books of a tick of the NPCs: every arrival recorded adds one
    trip and one ticket at the current price to money and to total income;
    every give-up recorded removes an NPC from the list; nothing else of
    the statistics and the accounts moves. *)
Theorem updateNPCs_books (Math_sqrt : Q -> Q) (index : gmap (Z * Z) (list Stop)) (now : Z)
    (deltaTime : Q) (s : GameState) (pm : PathfindingManager.t) :
  let s' := (EntityManager.updateNPCs Math_sqrt index now deltaTime s pm).1 in
  exists arrivals gaveUp,
    tripsCompleted (stats s') = tripsCompleted (stats s) + arrivals /\
    npcsGaveUp (stats s') = npcsGaveUp (stats s) + gaveUp /\
    gaveUp + length (npcs s') <= length (npcs s) /\
    (money (economics s')
     == money (economics s) + inject_Z (Z.of_nat arrivals) * ticketPrice (economics s))%Q /\
    (totalIncome (economics s')
     == totalIncome (economics s)
        + inject_Z (Z.of_nat arrivals) * ticketPrice (economics s))%Q /\
    ticketPrice (economics s') = ticketPrice (economics s) /\
    totalCapitalInvested (economics s') = totalCapitalInvested (economics s) /\
    busUtilizationSamples (stats s') = busUtilizationSamples (stats s) /\
    totalBusUtilization (stats s') = totalBusUtilization (stats s) /\
    totalTransportTime (stats s') = totalTransportTime (stats s).
Proof.
  intros s'. subst s'.
  pose proof (update_loop_tick Math_sqrt index now deltaTime (length (npcs s)) s pm)
    as (k & g & Hb & _ & Hlen & _).
  fold (EntityManager.updateNPCs Math_sqrt index now deltaTime s pm) in Hb, Hlen.
  destruct Hb as (_ & _ & Ht & Hg & Hm & Hi & Hp & Hc & Hs & Hu & Htr).
  exists k, g. by split_and!.
Qed.

(** ** After [deleteRoute] *)

(** [stranded r npc s]: the NPC is listed, its object is [npc], and it is
    aboard no bus. *)
Definition stranded (r : npc_ref) (npc : NPC) (s : GameState) : Prop :=
  r ∈ npcs s /\ objects s !! r = Some npc /\ r ∉ all_passengers (routes s).

(** [restopped n n']: the two objects differ at most in the stops they
    hold: [nearestStop], [destinationStop], [finalDestinationStop] and the
    plan, which a moved stop rewrites. *)
Definition restopped (n n' : NPC) : Prop :=
  n' = mkNPC (npc_x n) (npc_y n) (npc_state n) (waitTime n) (transportStartTime n)
         (nearestStop n') (atStop n) (originZone n) (destinationZone n) (destinationStop n')
         (finalDestinationStop n') (transferCount n) (maxTransfersWarned n)
         (walkingPath n) (walkingPathIndex n) (plannedRoute n').

Lemma restopped_refl n : restopped n n.
Proof. by destruct n. Qed.

Lemma restopped_trans n1 n2 n3 : restopped n1 n2 -> restopped n2 n3 -> restopped n1 n3.
Proof.
  unfold restopped. destruct n1, n2, n3. simpl. intros H1 H2.
  inversion H1; inversion H2; subst. reflexivity.
Qed.

Lemma board_one_boards_waiting index routeIndexInState route currentStop now w r w' x :
  RouteManager.board_one index routeIndexInState route currentStop now w r = Some w' ->
  x ∈ RouteManager.w_passengers w' ->
  x ∈ RouteManager.w_passengers w \/
  (x = r /\ exists npc, RouteManager.w_objects w !! r = Some npc /\ npc_state npc = waiting).
Proof.
  intros Hb Hx. destruct (board_one_listed _ _ _ _ _ _ _ _ Hb x Hx) as [?| ->]; [by left|].
  unfold RouteManager.board_one in Hb.
  destruct (RouteManager.w_objects w !! r) as [npc|] eqn:Hn; [|simplify_eq; by left].
  destruct (bool_decide (npc_state npc = waiting)) eqn:Hs; simpl in Hb;
    [|simplify_eq; by left].
  apply bool_decide_eq_true in Hs. right. split; [done|]. by exists npc.
Qed.

Lemma board_loop_boards_waiting index routeIndexInState route currentStop now refs w w' x :
  RouteManager.board_loop index routeIndexInState route currentStop now refs w = Some w' ->
  (forall n, RouteManager.w_objects w !! x = Some n -> npc_state n <> waiting) ->
  x ∈ RouteManager.w_passengers w' -> x ∈ RouteManager.w_passengers w.
Proof.
  revert w. induction refs as [|r refs IH]; intros w Hb Hx Hin; simpl in Hb;
    [by simplify_eq|].
  destruct (RouteManager.board_one _ _ _ _ _ _ _) as [w1|] eqn:H1; [|done].
  pose proof (board_one_objects _ _ _ _ _ _ _ _ x H1 Hx) as Hsame.
  assert (x ∈ RouteManager.w_passengers w1) as Hin1.
  { apply (IH w1 Hb); [|done]. by rewrite Hsame. }
  destruct (board_one_boards_waiting _ _ _ _ _ _ _ _ x H1 Hin1)
    as [?|[-> (npc & Hn & Hs)]]; [done|].
  by destruct (Hx npc).
Qed.

Lemma forget_stop_lookup (l : list npc_ref) (o : gmap npc_ref NPC) r npc :
  o !! r = Some npc -> npc_state npc = traveling ->
  foldl (fun o r => alter Main.forget_stop r o) o l !! r = Some npc.
Proof.
  revert o. induction l as [|r0 l IH]; intros o Hobj Hst; [done|]. simpl. apply IH; [|done].
  destruct (decide (r0 = r)) as [->|Hne].
  - rewrite lookup_alter_eq, Hobj. simpl. unfold Main.forget_stop. by rewrite Hst.
  - by rewrite lookup_alter_ne.
Qed.

Lemma handleBusAtStop_stranded index routeIndex0 busIndex s s' r npc :
  RouteManager.handleBusAtStop index routeIndex0 busIndex s = Some s' ->
  npc_state npc = traveling -> stranded r npc s -> stranded r npc s'.
Proof.
  unfold RouteManager.handleBusAtStop. intros H Hst (Hlisted & Hobj & Hoff).
  destruct (routes s !! routeIndex0) as [route|] eqn:Hr; [|done]. simpl in H.
  destruct (buses route !! busIndex) as [bus|] eqn:Hb; [|done]. simpl in H.
  destruct (stops route !! currentStopIndex bus) as [currentStop|]; [|done]. simpl in H.
  destruct (RouteManager.board_loop _ _ _ _ _ _ _) as [w2|] eqn:Hloop; [|done]. simpl in H.
  inversion H; subst; clear H. unfold stranded. simpl.
  rewrite (all_passengers_bus _ _ _ _ _ Hr Hb) in Hoff.
  rewrite !not_elem_of_app in Hoff. destruct Hoff as (Hbus & Hbuses & Hroutes).
  set (w0 := RouteManager.mkWork (passengers bus) (objects s)
               (RouteManager.sample_utilization (length (passengers bus)) (stats s))
               (economics s)) in *.
  pose proof (alight_loop_objects index currentStop (time s) (length (passengers bus)) w0 r Hbus)
    as Hobj1. simpl in Hobj1.
  destruct (alight_loop_shape index currentStop (time s) (length (passengers bus)) w0)
    as (_ & _ & _ & Hsub). simpl in Hsub.
  assert (Hnw : forall n, RouteManager.w_objects
                  (RouteManager.alight_loop index currentStop (time s)
                     (length (passengers bus)) w0) !! r = Some n -> npc_state n <> waiting).
  { intros n. rewrite Hobj1, Hobj. intros [= <-]. congruence. }
  split_and!; [done | |].
  - rewrite (board_loop_objects _ _ _ _ _ _ _ _ r Hloop Hnw). by rewrite Hobj1.
  - rewrite (all_passengers_insert _ _ _ _ _ _ Hr Hb). simpl.
    rewrite !not_elem_of_app. split_and!; [|done..].
    intros Hin. apply (board_loop_boards_waiting _ _ _ _ _ _ _ _ r Hloop Hnw) in Hin.
    apply Hbus. by eapply elem_of_submseteq.
Qed.

Lemma step_stranded r npc s s' :
  npc_state npc = traveling -> step s s' -> stranded r npc s ->
  exists npc', restopped npc npc' /\ stranded r npc' s'.
Proof.
  intros Hst Hstep Hs.
  destruct Hstep;
    lazymatch goal with
    | Hm : Main.aliases_moved _ _ _ _ |- _ => idtac
    | _ => exists npc; split; [apply restopped_refl|]
    end.
  - destruct Hs as (Hlisted & Hobj & Hoff). unfold stranded. simpl. split_and!; [| |done].
    + apply elem_of_app. by left.
    + rewrite lookup_insert_ne; [done | congruence].
  - destruct Hs as (Hlisted & Hobj & Hoff).
    pose proof (updateNPCs_calm Math_sqrt index now deltaTime s pm) as [Hroutes Hq].
    pose proof (update_loop_tick Math_sqrt index now deltaTime (length (npcs s)) s pm)
      as (_ & _ & _ & _ & _ & Hkeep).
    split_and!.
    + by eapply Hkeep.
    + specialize (Hq r). rewrite Hobj in Hq. destruct Hq as (n' & Hn' & _ & Hsame & _).
      rewrite Hn'. f_equal. by apply Hsame.
    + by rewrite Hroutes.
  - by eapply handleBusAtStop_stranded.
  - destruct Hs as (Hlisted & Hobj & Hoff). unfold Main.drive.
    destruct (routes s !! routeIndex0) as [route|] eqn:Hr; [|done].
    destruct (buses route !! busIndex) as [bus|] eqn:Hb; [|done].
    split_and!; [done | done |]. simpl.
    rewrite (all_passengers_insert _ _ _ _ _ _ Hr Hb). simpl.
    by rewrite <- (all_passengers_bus _ _ _ _ _ Hr Hb).
  - destruct Hs as (Hlisted & Hobj & Hoff). unfold GameEngine.addRoute.
    repeat case_match; simpl; try done. split_and!; [done | done |]. simpl.
    unfold all_passengers. rewrite bind_app. simpl. by rewrite !app_nil_r.
  - destruct Hs as (Hlisted & Hobj & Hoff). unfold GameEngine.addBusToRoute.
    destruct (routes s !! routeIndex0) as [route|] eqn:Hr; [|done].
    repeat case_match; simpl; try done.
    all: split_and!; [done | done |]; simpl.
    all: intros Hin; apply Hoff; eapply elem_of_submseteq; [done|].
    all: apply (all_passengers_shrink _ _ route); [done|].
    all: unfold route_passengers; simpl; rewrite bind_app; simpl; by rewrite !app_nil_r.
  - destruct Hs as (Hlisted & Hobj & Hoff). unfold GameEngine.removeBusFromRoute.
    destruct (routes s !! routeIndex0) as [route|] eqn:Hr; [|done].
    case_match; [done|].
    destruct (buses route) as [|removedBus front _] eqn:Hb using rev_ind; [done|].
    rewrite last_snoc, removelast_last.
    assert (Hperm : all_passengers (routes s)
              ≡ₚ passengers removedBus
                 ++ all_passengers (<[routeIndex0 := RouteManager.set_buses front route]>
                                      (routes s))).
    { unfold all_passengers.
      rewrite (bind_insert_Permutation route_passengers _ _ route _ Hr).
      rewrite (bind_lookup_Permutation route_passengers _ _ route Hr).
      unfold RouteManager.set_buses. rewrite route_passengers_mk.
      assert (route_passengers route = (front ≫= passengers) ++ passengers removedBus) as ->.
      { unfold route_passengers. rewrite Hb, bind_app. simpl. by rewrite app_nil_r. }
      rewrite app_assoc. f_equiv. apply Permutation_app_comm. }
    rewrite Hperm, not_elem_of_app in Hoff. destruct Hoff as [Hgone Hrest].
    split_and!; [done | | done]. simpl.
    rewrite return_passengers_lookup. by rewrite decide_False.
  - destruct Hs as (Hlisted & Hobj & Hoff). unfold GameEngine.deleteRoute.
    case_match; [done|]. split_and!; [done | done |]. simpl.
    intros Hin. apply Hoff. eapply elem_of_submseteq; [done | apply all_passengers_delete].
  - destruct Hs as (Hlisted & Hobj & Hoff). unfold GameEngine.addStopToRoute.
    destruct (routes s !! routeIndex0) as [route|] eqn:Hr; [|done].
    case_match; simpl; [done|]. split_and!; [done | done |]. simpl.
    by rewrite (all_passengers_same_buses _ _ route).
  - destruct Hs as (Hlisted & Hobj & Hoff). unfold Main.edit_stops.
    destruct (routes s !! routeIndex0) as [route|] eqn:Hr; [|done].
    split_and!; [done | |].
    + simpl. by apply forget_stop_lookup.
    + simpl. by rewrite (all_passengers_same_buses _ _ route).
  - destruct Hs as (Hlisted & Hobj & Hoff).
    match goal with Hm : Main.aliases_moved _ _ _ _ |- _ =>
      specialize (Hm r); rewrite Hobj in Hm; rename Hm into Hmr end.
    destruct (o' !! r) as [npc'|] eqn:Hobj'; [|by inversion Hmr].
    assert (Hmoved : Main.moved_npc old (mkStop x y) npc npc') by (by inversion Hmr).
    destruct (moved_npc_same _ _ _ _ Hmoved) as [Hst' _].
    exists npc'. split; [apply Hmoved|].
    unfold Main.edit_stops. cbn [routes EntityManager.set_objects]. rewrite H.
    split_and!; [done | |].
    + simpl. apply forget_stop_lookup; [done | congruence].
    + simpl. by rewrite (all_passengers_same_buses _ _ route).
  - destruct Hs as (Hlisted & Hobj & Hoff). unfold Main.clearAllStops.
    destruct (routes s !! activeRouteIndex s) as [route|] eqn:Hr; [|done].
    assert (Hperm : all_passengers (routes s)
              ≡ₚ route_passengers route
                 ++ all_passengers (<[activeRouteIndex s :=
                                        mkRoute [] (Main.clear_bus <$> buses route) (color route)]>
                                      (routes s))).
    { unfold all_passengers.
      rewrite (bind_insert_Permutation route_passengers _ _ route _ Hr).
      rewrite (bind_lookup_Permutation route_passengers _ _ route Hr).
      by rewrite route_passengers_mk, clear_bus_passengers. }
    rewrite Hperm, not_elem_of_app in Hoff. destruct Hoff as [Hgone Hrest].
    split_and!; [done | | done]. simpl.
    apply forget_stop_lookup; [|done].
    rewrite return_passengers_buses, return_passengers_lookup. by rewrite decide_False.
  - unfold setActiveRoute. by case_match.
  - done.
Qed.

(** X19.  [deleteRoute] removes the active route with its buses and does
    nothing for the passengers aboard them: such a passenger stays
    traveling and aboard no bus, and nothing the game does afterwards puts
    it on a bus, takes it off the list of NPCs or changes its object, but
    for the coordinates of the stops the object holds when one of them is
    moved. *)
Theorem deleteRoute_strands_passengers (s : GameState) (route : Route) (bus : Bus)
    (r : npc_ref) :
  reachable_state s ->
  routes s !! activeRouteIndex s = Some route ->
  bus ∈ buses route -> r ∈ passengers bus -> r ∈ npcs s ->
  exists npc,
    objects s !! r = Some npc /\ npc_state npc = traveling /\
    forall s', rtc step (GameEngine.deleteRoute s) s' ->
      r ∈ npcs s' /\
      (exists npc', objects s' !! r = Some npc' /\ restopped npc npc' /\
                    npc_state npc' = traveling) /\
      forall route' bus', route' ∈ routes s' -> bus' ∈ buses route' -> r ∉ passengers bus'.
Proof.
  intros Hs Hroute Hbus Hr Hlisted.
  destruct (reachable_transfers_bounded s Hs) as (Hnd & Hriders & _).
  assert (Hperm : all_passengers (routes s)
            ≡ₚ route_passengers route
               ++ all_passengers (delete (activeRouteIndex s) (routes s))).
  { unfold all_passengers. by rewrite (bind_lookup_Permutation route_passengers _ _ route Hroute). }
  assert (Hon : r ∈ route_passengers route).
  { apply list_elem_of_bind. by exists bus. }
  destruct (Hriders r) as (npc & Hobj & Hst & _).
  { rewrite Hperm. apply elem_of_app. by left. }
  exists npc. split_and!; [done | done |].
  assert (Hstart : stranded r npc (GameEngine.deleteRoute s)).
  { unfold GameEngine.deleteRoute.
    destruct (length (routes s) =? 0) eqn:Hlen.
    - apply Nat.eqb_eq in Hlen. apply lookup_lt_Some in Hroute. lia.
    - split_and!; [done | done |]. simpl.
      rewrite Hperm in Hnd. apply NoDup_app in Hnd as (_ & Hdisj & _). by apply Hdisj. }
  intros s' Hsteps.
  assert (exists npc', restopped npc npc' /\ stranded r npc' s')
    as (npc' & Hsame & Hl' & Hobj' & Hoff').
  { assert (Hgen : forall s0 n0, rtc step s0 s' -> restopped npc n0 -> stranded r n0 s0 ->
              exists npc', restopped npc npc' /\ stranded r npc' s').
    { clear -Hst. intros s0 n0 Hsteps. revert n0.
      induction Hsteps as [|x y z Hxy Hyz IH]; intros n0 Hn0 Hstr; [by exists n0|].
      assert (Hst0 : npc_state n0 = traveling) by (rewrite Hn0; exact Hst).
      destruct (step_stranded r n0 x y Hst0 Hxy Hstr) as (n1 & Hn1 & Hstr1).
      apply (IH n1); [by eapply restopped_trans | done]. }
    apply (Hgen (GameEngine.deleteRoute s) npc Hsteps (restopped_refl npc) Hstart). }
  split_and!; [done | |].
  - exists npc'. split_and!; [done | done |]. rewrite Hsame. exact Hst.
  - intros route' bus' Hroute' Hbus' Hin. apply Hoff'.
    apply list_elem_of_bind. exists route'. split; [|done].
    apply list_elem_of_bind. by exists bus'.
Qed.

Lemma deleteRoute_strands_passengers_witness :
  exists npc,
    objects ride_state !! 0 = Some npc /\ npc_state npc = traveling /\
    routes (GameEngine.deleteRoute ride_state) = [] /\
    0 ∈ npcs (GameEngine.deleteRoute ride_state) /\
    exists npc', objects (GameEngine.deleteRoute ride_state) !! 0 = Some npc' /\
                 restopped npc npc'.
Proof.
  destruct (deleteRoute_strands_passengers ride_state ride_route ride_bus 0
              ride_state_reachable) as (npc & Hobj & Hst & Hlater).
  - vm_compute. reflexivity.
  - apply list_elem_of_here.
  - apply list_elem_of_here.
  - apply (list_elem_of_lookup_2 _ 0). vm_compute. reflexivity.
  - exists npc. destruct (Hlater (GameEngine.deleteRoute ride_state) (rtc_refl _ _))
      as (Hl & (npc' & Ho & Hsame & _) & _).
    split_and!; [exact Hobj | exact Hst | vm_compute; reflexivity | exact Hl |].
    exists npc'. split; [exact Ho | exact Hsame].
Defined.

(** ** GameEngine.ts: purchases *)

(** [paid cost s s']: [cost] moved from money to the capital invested,
    money did not go below 0, and nothing else of the game changed but the
    routes. *)
Definition paid (cost : Q) (s s' : GameState) : Prop :=
  money (economics s') = (money (economics s) - cost)%Q /\
  totalCapitalInvested (economics s') = (totalCapitalInvested (economics s) + cost)%Q /\
  (0 <= money (economics s'))%Q /\
  totalIncome (economics s') = totalIncome (economics s) /\
  ticketPrice (economics s') = ticketPrice (economics s) /\
  npcs s' = npcs s /\ objects s' = objects s /\ stats s' = stats s /\ time s' = time s /\
  activeRouteIndex s' = activeRouteIndex s.

(** X20.  The three purchases are made exactly when they are allowed and
    can be paid in full: a route (with its first bus, 800) below
    [MAX_ROUTES] routes, a bus (300) on an existing route with fewer than
    10 buses, a stop (100) on an existing route.  A purchase moves its
    price from money to the capital invested and never takes money below
    0; a refused purchase changes nothing. *)
Theorem purchases_never_overdraw (s : GameState) :
  ((GameEngine.addRoute s).1 = true <->
     length (routes s) < MAX_ROUTES /\ (ROUTE_COST + BUS_COST <= money (economics s))%Q) /\
  ((GameEngine.addRoute s).1 = true ->
     paid (ROUTE_COST + BUS_COST) s (GameEngine.addRoute s).2) /\
  ((GameEngine.addRoute s).1 = false -> (GameEngine.addRoute s).2 = s) /\
  (forall routeIndex0,
     ((GameEngine.addBusToRoute routeIndex0 s).1 = true <->
        exists route, routes s !! routeIndex0 = Some route /\
                      length (buses route) < GameEngine.MAX_BUSES_PER_ROUTE /\
                      (BUS_COST <= money (economics s))%Q) /\
     ((GameEngine.addBusToRoute routeIndex0 s).1 = true ->
        paid BUS_COST s (GameEngine.addBusToRoute routeIndex0 s).2) /\
     ((GameEngine.addBusToRoute routeIndex0 s).1 = false ->
        (GameEngine.addBusToRoute routeIndex0 s).2 = s)) /\
  (forall routeIndex0 x y,
     ((GameEngine.addStopToRoute routeIndex0 x y s).1 = true <->
        exists route, routes s !! routeIndex0 = Some route /\
                      (GameEngine.STOP_COST <= money (economics s))%Q) /\
     ((GameEngine.addStopToRoute routeIndex0 x y s).1 = true ->
        paid GameEngine.STOP_COST s (GameEngine.addStopToRoute routeIndex0 x y s).2 /\
        exists route, routes s !! routeIndex0 = Some route /\
          routes (GameEngine.addStopToRoute routeIndex0 x y s).2
          = <[routeIndex0 := GameEngine.set_stops (stops route ++ [mkStop x y]) route]>
              (routes s)) /\
     ((GameEngine.addStopToRoute routeIndex0 x y s).1 = false ->
        (GameEngine.addStopToRoute routeIndex0 x y s).2 = s)).
Proof.
  assert (Hpaid : forall cost rs, (cost <= money (economics s))%Q ->
            paid cost s (GameEngine.set_routes rs (GameEngine.pay cost s))).
  { intros cost rs Hle. unfold paid. simpl. split_and!; try done. lra. }
  split_and!.
  - unfold GameEngine.addRoute.
    destruct (MAX_ROUTES <=? length (routes s)) eqn:Hmax.
    + apply Nat.leb_le in Hmax. simpl. split; [done | lia].
    + apply Nat.leb_gt in Hmax. destruct (Qlt_le_dec _ _) as [Hlt|Hle]; simpl.
      * split; [done|]. intros [_ Hle]. lra.
      * split; [|done]. intros _. split; [lia | done].
  - unfold GameEngine.addRoute.
    destruct (MAX_ROUTES <=? length (routes s)); [done|].
    destruct (Qlt_le_dec _ _) as [Hlt|Hle]; [done|]. intros _. by apply Hpaid.
  - unfold GameEngine.addRoute. repeat case_match; done.
  - intros routeIndex0. unfold GameEngine.addBusToRoute.
    destruct (routes s !! routeIndex0) as [route|] eqn:Hr.
    2:{ split_and!; [|done..]. split; [done|]. by intros (? & ? & _). }
    destruct (GameEngine.MAX_BUSES_PER_ROUTE <=? length (buses route)) eqn:Hmax.
    { apply Nat.leb_le in Hmax. split_and!; [|done..].
      split; [done|]. intros (? & [= <-] & ? & _). lia. }
    apply Nat.leb_gt in Hmax. destruct (Qlt_le_dec _ _) as [Hlt|Hle].
    { split_and!; [|done..]. split; [done|]. intros (? & _ & _ & ?). lra. }
    split_and!; [| intros _; by apply Hpaid | done].
    split; [|done]. intros _. by exists route.
  - intros routeIndex0 x y. unfold GameEngine.addStopToRoute.
    destruct (routes s !! routeIndex0) as [route|] eqn:Hr.
    2:{ split_and!; [|done..]. split; [done|]. by intros (? & ? & _). }
    destruct (Qlt_le_dec _ _) as [Hlt|Hle].
    { split_and!; [|done..]. split; [done|]. intros (? & _ & ?). lra. }
    split_and!; [| | done].
    + split; [|done]. intros _. by exists route.
    + intros _. split; [by apply Hpaid|]. by exists route.
Qed.

(** ** GameEngine.ts: the active route *)

(** The active index points at a route whenever there is one. *)
Definition active_in_range (s : GameState) : Prop :=
  activeRouteIndex s = 0 \/ activeRouteIndex s < length (routes s).

Lemma step_active_in_range s s' : step s s' -> active_in_range s -> active_in_range s'.
Proof.
  unfold active_in_range. intros Hstep Hs. destruct Hstep.
  - done.
  - pose proof (update_loop_tick Math_sqrt index now deltaTime (length (npcs s)) s pm)
      as (k & g & (_ & Ha & _) & _).
    pose proof (updateNPCs_calm Math_sqrt index now deltaTime s pm) as [Hroutes _].
    unfold EntityManager.updateNPCs. rewrite Ha.
    fold (EntityManager.updateNPCs Math_sqrt index now deltaTime s pm). by rewrite Hroutes.
  - destruct (handleBusAtStop_visit _ _ _ _ _ H)
      as (route & bus & ps & _ & _ & -> & _ & _ & -> & _). by rewrite length_insert.
  - unfold Main.drive. repeat case_match; simpl; rewrite ?length_insert; done.
  - unfold GameEngine.addRoute. repeat case_match; simpl; try done.
    rewrite length_app. simpl. lia.
  - unfold GameEngine.addBusToRoute. repeat case_match; simpl; rewrite ?length_insert; done.
  - unfold GameEngine.removeBusFromRoute.
    repeat case_match; simpl; rewrite ?length_insert; done.
  - unfold GameEngine.deleteRoute.
    destruct (length (routes s) =? 0) eqn:Hlen; [done|]. apply Nat.eqb_neq in Hlen. simpl.
    assert (activeRouteIndex s < length (routes s)) as Hlt by lia.
    rewrite length_delete by (by apply lookup_lt_is_Some).
    destruct (length (routes s) - 1 <=? activeRouteIndex s) eqn:Hlast; simpl.
    + destruct (0 <? length (routes s) - 1) eqn:Hpos; simpl.
      * apply Nat.ltb_lt in Hpos. lia.
      * apply Nat.ltb_ge in Hpos. apply Nat.leb_le in Hlast. lia.
    + apply Nat.leb_gt in Hlast. lia.
  - unfold GameEngine.addStopToRoute. repeat case_match; simpl; rewrite ?length_insert; done.
  - unfold Main.edit_stops. repeat case_match; simpl; rewrite ?length_insert; done.
  - unfold Main.edit_stops. repeat case_match; simpl; rewrite ?length_insert; done.
  - unfold Main.clearAllStops. repeat case_match; simpl; rewrite ?length_insert; done.
  - unfold setActiveRoute.
    destruct ((0 <=? index)%Z && (index <? Z.of_nat (length (routes s)))%Z) eqn:Hin; [|done].
    apply andb_true_iff in Hin as [Hlo Hhi]. simpl. right. lia.
  - done.
Qed.

(** X21.  The active route index points at a route whenever there is one:
    this holds in a new game and is kept by every operation, [deleteRoute]
    and [setActiveRoute] included ([setActiveRoute] ignores an index that
    names no route).  So [deleteRoute] on a game with routes always removes
    exactly one, the active one. *)
Theorem active_route_stays_in_range :
  active_in_range GameEngine.new /\
  (forall s s', step s s' -> active_in_range s -> active_in_range s') /\
  (forall index s, active_in_range s -> active_in_range (setActiveRoute index s)) /\
  (forall index s,
     ~ (0 <= index < Z.of_nat (length (routes s)))%Z -> setActiveRoute index s = s) /\
  (forall s, active_in_range s -> routes s <> [] ->
     exists route, routes s !! activeRouteIndex s = Some route /\
       routes (GameEngine.deleteRoute s) = delete (activeRouteIndex s) (routes s) /\
       S (length (routes (GameEngine.deleteRoute s))) = length (routes s)).
Proof.
  split_and!.
  - by left.
  - apply step_active_in_range.
  - intros index s Hs. unfold setActiveRoute, active_in_range.
    destruct ((0 <=? index)%Z && (index <? Z.of_nat (length (routes s)))%Z) eqn:Hin; [|done].
    apply andb_true_iff in Hin as [H0 Hlt]. apply Z.leb_le in H0. apply Z.ltb_lt in Hlt.
    simpl. right. lia.
  - intros index s Hout. unfold setActiveRoute.
    destruct ((0 <=? index)%Z && (index <? Z.of_nat (length (routes s)))%Z) eqn:Hin; [|done].
    apply andb_true_iff in Hin as [H0 Hlt]. apply Z.leb_le in H0. apply Z.ltb_lt in Hlt. lia.
  - intros s Hs Hne.
    assert (0 < length (routes s)) as Hpos by (destruct (routes s); [done | simpl; lia]).
    assert (activeRouteIndex s < length (routes s)) as Hlt by (destruct Hs; lia).
    destruct (lookup_lt_is_Some_2 _ _ Hlt) as [route Hroute].
    exists route. unfold GameEngine.deleteRoute.
    assert ((length (routes s) =? 0) = false) as -> by (apply Nat.eqb_neq; lia).
    simpl. split_and!; [done | done |].
    rewrite length_delete by done. lia.
Qed.

(** ** GameEngine.ts: the ticket price and the spawning of NPCs *)

Definition MAX_TICKET_PRICE : Q := 4.

(** [setTicketPrice(price)] *)
Definition setTicketPrice (price : Q) (s : GameState) : GameState :=
  let ec := economics s in
  mkGameState (routes s) (activeRouteIndex s) (npcs s) (objects s) (stats s)
    (mkEconomics (money ec) (totalIncome ec) (totalCapitalInvested ec)
       (Math_max 0 (Math_min MAX_TICKET_PRICE price)))
    (time s).

(** The spawn computations of [update], for the score [currentScore]. *)
Definition baseMaxNPCs (currentScore : Q) : Z := Qfloor (10 + currentScore / 100 * 30).

Definition baseSpawnInterval (currentScore : Q) : Q := 5000 - currentScore / 100 * 3000.

Definition priceSpawnMultiplier (ticketPrice0 : Q) : Q :=
  if Qlt_le_dec GameEngine.DEFAULT_TICKET_PRICE ticketPrice0 then
    let priceRange := (MAX_TICKET_PRICE - GameEngine.DEFAULT_TICKET_PRICE)%Q in
    Math_max (2 # 10)
      (1 - (ticketPrice0 - GameEngine.DEFAULT_TICKET_PRICE) / priceRange * (8 # 10))
  else (3 - ticketPrice0 / GameEngine.DEFAULT_TICKET_PRICE * 2)%Q.

Definition dynamicMaxNPCs (currentScore ticketPrice0 : Q) : Z :=
  Qfloor (inject_Z (baseMaxNPCs currentScore) * priceSpawnMultiplier ticketPrice0).

(** [None] is [Infinity]. *)
Definition dynamicSpawnInterval (currentScore ticketPrice0 : Q) : option Q :=
  if Qlt_le_dec 0 (priceSpawnMultiplier ticketPrice0)
  then Some (baseSpawnInterval currentScore / priceSpawnMultiplier ticketPrice0)%Q
  else None.

(** The condition under which [update] calls [createNPC]. *)
Definition spawn_due (currentScore lastSpawnTime : Q) (s : GameState) : bool :=
  let m := priceSpawnMultiplier (ticketPrice (economics s)) in
  (if Qlt_le_dec 0 m then true else false) &&
  match dynamicSpawnInterval currentScore (ticketPrice (economics s)) with
  | Some interval => if Qlt_le_dec interval (time s - lastSpawnTime) then true else false
  | None => false
  end &&
  (Z.of_nat (length (npcs s)) <? dynamicMaxNPCs currentScore (ticketPrice (economics s)))%Z.

Lemma priceSpawnMultiplier_range p :
  (0 <= p <= 4)%Q -> (2 # 10 <= priceSpawnMultiplier p <= 3)%Q.
Proof.
  intros [H0 H4]. unfold priceSpawnMultiplier, GameEngine.DEFAULT_TICKET_PRICE,
    MAX_TICKET_PRICE, Math_max. cbv zeta.
  assert (forall x, x / (4 - (3 # 2)) == x * (2 # 5))%Q as Hdiv by (intros; field).
  assert (forall x, x / (3 # 2) == x * (2 # 3))%Q as Hdiv' by (intros; field).
  destruct (Qlt_le_dec (3 # 2) p).
  - destruct (Qlt_le_dec _ _) as [Hlt|Hle]; rewrite ?Hdiv in *; lra.
  - rewrite Hdiv'. lra.
Qed.

Lemma priceSpawnMultiplier_mono p q :
  (p <= q)%Q -> (priceSpawnMultiplier q <= priceSpawnMultiplier p)%Q.
Proof.
  intros Hpq. unfold priceSpawnMultiplier, GameEngine.DEFAULT_TICKET_PRICE,
    MAX_TICKET_PRICE, Math_max. cbv zeta.
  assert (forall x, x / (4 - (3 # 2)) == x * (2 # 5))%Q as Hdiv by (intros; field).
  assert (forall x, x / (3 # 2) == x * (2 # 3))%Q as Hdiv' by (intros; field).
  repeat destruct (Qlt_le_dec _ _); rewrite ?Hdiv, ?Hdiv' in *; lra.
Qed.

(** X22.  [setTicketPrice] clamps the price into [0, 4] and keeps a price
    that is in range.  For every price it can set, the spawn multiplier of
    [update] lies between 0.2 and 3 (1 at the default price, never more for
    a higher price), so pricing never switches the spawning of NPCs off:
    the spawn interval is finite, and for a score between 0 and 100 the
    limit on listed NPCs lies between 2 and 120. *)
Theorem ticket_price_never_stops_spawning (price : Q) (s : GameState) :
  let p := ticketPrice (economics (setTicketPrice price s)) in
  (0 <= p <= 4)%Q /\
  ((0 <= price <= 4)%Q -> (p == price)%Q) /\
  (2 # 10 <= priceSpawnMultiplier p <= 3)%Q /\
  (priceSpawnMultiplier GameEngine.DEFAULT_TICKET_PRICE == 1)%Q /\
  (forall q, (p <= q)%Q -> (priceSpawnMultiplier q <= priceSpawnMultiplier p)%Q) /\
  (forall currentScore, (0 <= currentScore <= 100)%Q ->
     (2 <= dynamicMaxNPCs currentScore p <= 120)%Z /\
     (exists interval, dynamicSpawnInterval currentScore p = Some interval /\
                       (2000 # 3 <= interval <= 25000)%Q) /\
     forall lastSpawnTime,
       spawn_due currentScore lastSpawnTime (setTicketPrice price s) = true ->
       length (npcs s) < 120).
Proof.
  intros p.
  assert (Hp : (0 <= p <= 4)%Q).
  { subst p. simpl. unfold Math_max, Math_min, MAX_TICKET_PRICE.
    repeat destruct (Qlt_le_dec _ _); lra. }
  pose proof (priceSpawnMultiplier_range p Hp) as Hm.
  split_and!; try apply Hp; try apply Hm.
  - intros Hprice. subst p. simpl. unfold Math_max, Math_min, MAX_TICKET_PRICE.
    repeat destruct (Qlt_le_dec _ _); lra.
  - unfold priceSpawnMultiplier, GameEngine.DEFAULT_TICKET_PRICE.
    destruct (Qlt_le_dec _ _); [lra | field].
  - intros q. apply priceSpawnMultiplier_mono.
  - intros currentScore Hscore.
    assert (Hbase : (10 <= baseMaxNPCs currentScore <= 40)%Z).
    { unfold baseMaxNPCs.
      assert (10 + currentScore / 100 * 30 == 10 + currentScore * (3 # 10))%Q as -> by field.
      split.
      - apply (Qfloor_resp_le 10). lra.
      - apply (Qfloor_resp_le _ 40). lra. }
    assert (Hb : (10 <= inject_Z (baseMaxNPCs currentScore) <= 40)%Q).
    { change 10%Q with (inject_Z 10). change 40%Q with (inject_Z 40).
      rewrite <- !Zle_Qle. lia. }
    assert (Hmax : (2 <= dynamicMaxNPCs currentScore p <= 120)%Z).
    { unfold dynamicMaxNPCs. split.
      * apply (Qfloor_resp_le 2). nra.
      * apply (Qfloor_resp_le _ 120). nra. }
    split_and!; [apply Hmax | apply Hmax | |].
    2:{ intros lastSpawnTime Hdue. unfold spawn_due in Hdue. cbv zeta in Hdue.
        apply andb_true_iff in Hdue as [_ Hlt]. apply Z.ltb_lt in Hlt.
        change (npcs (setTicketPrice price s)) with (npcs s) in Hlt.
        fold p in Hlt. lia. }
    1:{ unfold dynamicSpawnInterval. destruct (Qlt_le_dec _ _) as [Hpos|Hneg]; [|lra].
      eexists. split; [done|].
      assert (Hbs : (2000 <= baseSpawnInterval currentScore <= 5000)%Q).
      { unfold baseSpawnInterval.
        assert (currentScore / 100 * 3000 == currentScore * 30)%Q as -> by field. lra. }
      set (m := priceSpawnMultiplier p) in *. set (b := baseSpawnInterval currentScore) in *.
      split.
      * apply Qle_shift_div_l; [done|]. nra.
      * apply Qle_shift_div_r; [done|]. nra. }
Qed.

(** ** GameEngine.ts: loans and bankruptcy *)

Module Finance.

Definition LOAN_TO_EQUITY_RATIO : Q := 2.
Definition LOAN_INTEREST_RATE : Q := 10 # 100.
Definition LOAN_INTEREST_PER_DAY : Q := LOAN_INTEREST_RATE / 365.
Definition BUS_DEPRECIATION_PER_DAY : Q := BUS_COST / (5 * 365).
Definition ROUTE_DEPRECIATION_PER_DAY : Q := ROUTE_COST / (10 * 365).
Definition STOP_DEPRECIATION_PER_DAY : Q := GameEngine.STOP_COST / (10 * 365).

(** [state.economics] with the fields of the balance sheet and of the
    income statement (the record [Economics] above has the four fields the
    NPC and route code reads). *)
Record Economics := mkEconomics {
  money : Q;
  totalIncome : Q;
  totalExpenses : Q;
  loan : Q;
  busRunningCosts : Q;
  loanInterestExpense : Q;
  depreciation : Q;
  totalCapitalInvested : Q;
  ticketPrice : Q
}.

(** What the loan code reads and writes of the game state. *)
Record State := mkState {
  economics : Economics;
  routes : list Route;
  gameOver : bool;
  paused : bool
}.

Definition set_money_loan (m l : Q) (st : State) : State :=
  let ec := economics st in
  mkState
    (mkEconomics m (totalIncome ec) (totalExpenses ec) l (busRunningCosts ec)
       (loanInterestExpense ec) (depreciation ec) (totalCapitalInvested ec) (ticketPrice ec))
    (routes st) (gameOver st) (paused st).

Definition getEquity (st : State) : Q :=
  let ec := economics st in
  let bookValue := (totalCapitalInvested ec - depreciation ec)%Q in
  let totalAssets := (money ec + bookValue)%Q in
  let equity := (totalAssets - loan ec)%Q in
  Math_max 0 equity.

Definition getMaxLoan (st : State) : Q := (getEquity st * LOAN_TO_EQUITY_RATIO)%Q.

Definition getAvailableLoan (st : State) : Q :=
  Math_max 0 (getMaxLoan st - loan (economics st)).

(** What [checkBankruptcy] passes to the bankruptcy callback. *)
Inductive Event :=
| forced_loan (amount : Q)
| game_over (deficit : Q).

Definition checkBankruptcy (st : State) : State * option Event :=
  if gameOver st then (st, None)
  else if Qlt_le_dec (money (economics st)) 0 then
    let deficit := Qabs (money (economics st)) in
    let available := getAvailableLoan st in
    if Qlt_le_dec available deficit then
      (mkState (economics st) (routes st) true true, Some (game_over deficit))
    else
      let loanAmount := (inject_Z (Qceiling (deficit / 100)) * 100)%Q in
      let actualLoan := Math_min loanAmount available in
      (set_money_loan (money (economics st) + actualLoan) (loan (economics st) + actualLoan) st,
       Some (forced_loan actualLoan))
  else (st, None).

(** The event is the last one reported: the interest step is the only
    one that reports. *)
Definition applyDailyAccounting (st : State) : State * option Event :=
  let '(st, ev) :=
    if Qlt_le_dec 0 (loan (economics st)) then
      let ec := economics st in
      let interest := (loan ec * LOAN_INTEREST_PER_DAY)%Q in
      checkBankruptcy
        (mkState
           (mkEconomics (money ec - interest) (totalIncome ec) (totalExpenses ec + interest)
              (loan ec + interest) (busRunningCosts ec) (loanInterestExpense ec + interest)
              (depreciation ec) (totalCapitalInvested ec) (ticketPrice ec))
           (routes st) (gameOver st) (paused st))
    else (st, None) in
  let totalBuses := foldl (fun sum route => sum + length (buses route)) 0 (routes st) in
  let totalRoutes := length (routes st) in
  let totalStops := foldl (fun sum route => sum + length (stops route)) 0 (routes st) in
  let dailyBusDepreciation := (inject_Z (Z.of_nat totalBuses) * BUS_DEPRECIATION_PER_DAY)%Q in
  let dailyRouteDepreciation := (inject_Z (Z.of_nat totalRoutes) * ROUTE_DEPRECIATION_PER_DAY)%Q in
  let dailyStopDepreciation := (inject_Z (Z.of_nat totalStops) * STOP_DEPRECIATION_PER_DAY)%Q in
  let totalDepreciation :=
    (dailyBusDepreciation + dailyRouteDepreciation + dailyStopDepreciation)%Q in
  if Qlt_le_dec 0 totalDepreciation then
    let ec := economics st in
    (mkState
       (mkEconomics (money ec) (totalIncome ec) (totalExpenses ec + totalDepreciation)
          (loan ec) (busRunningCosts ec) (loanInterestExpense ec)
          (depreciation ec + totalDepreciation) (totalCapitalInvested ec) (ticketPrice ec))
       (routes st) (gameOver st) (paused st), ev)
  else (st, ev).

End Finance.

(** ** GameEngine.ts: taking and repaying a loan

    [takeLoan] and [repayLoan] add and subtract doubles, and so do
    [getEquity], [getMaxLoan] and [getAvailableLoan] on the way: each sum,
    difference and product is the exact result rounded to a double.  Here
    [round] is that rounding.  What is proved assumes of it only what
    rounding to nearest does: it keeps the order, and it leaves 0 as it
    is. *)

Module Loans.

Section Rounding.

Variable round : Q -> Q.

Definition getEquity (st : Finance.State) : Q :=
  let ec := Finance.economics st in
  let bookValue := round (Finance.totalCapitalInvested ec - Finance.depreciation ec) in
  let totalAssets := round (Finance.money ec + bookValue) in
  let equity := round (totalAssets - Finance.loan ec) in
  Math_max 0 equity.

Definition getMaxLoan (st : Finance.State) : Q :=
  round (getEquity st * Finance.LOAN_TO_EQUITY_RATIO).

Definition getAvailableLoan (st : Finance.State) : Q :=
  Math_max 0 (round (getMaxLoan st - Finance.loan (Finance.economics st))).

Definition takeLoan (amount : Q) (st : Finance.State) : bool * Finance.State :=
  let available := getAvailableLoan st in
  if Qlt_le_dec 0 amount then
    if Qlt_le_dec available amount then (false, st)
    else
      let ec := Finance.economics st in
      (true, Finance.set_money_loan (round (Finance.money ec + amount))
               (round (Finance.loan ec + amount)) st)
  else (false, st).

Definition repayLoan (amount : Q) (st : Finance.State) : bool * Finance.State :=
  let ec := Finance.economics st in
  if Qlt_le_dec 0 amount then
    if Qlt_le_dec (Finance.money ec) amount then (false, st)
    else if Qlt_le_dec (Finance.loan ec) amount then (false, st)
    else
      (true, Finance.set_money_loan (round (Finance.money ec - amount))
               (round (Finance.loan ec - amount)) st)
  else (false, st).

End Rounding.

End Loans.

(** A rounding for the examples: to the nearest hundredth. *)
Definition to_hundredths (x : Q) : Q := (inject_Z (Qfloor (x * 100 + (1 # 2))) / 100)%Q.

Lemma to_hundredths_mono x y : (x <= y)%Q -> (to_hundredths x <= to_hundredths y)%Q.
Proof.
  intros Hxy. unfold to_hundredths.
  assert (Hfloor : (Qfloor (x * 100 + (1 # 2)) <= Qfloor (y * 100 + (1 # 2)))%Z).
  { apply Qfloor_resp_le. lra. }
  rewrite Zle_Qle in Hfloor.
  assert (Hdiv : forall z : Q, (z / 100 == z * (1 # 100))%Q) by (intros z; field).
  rewrite !Hdiv. lra.
Qed.

Lemma to_hundredths_0 : (to_hundredths 0 == 0)%Q.
Proof. by vm_compute. Qed.

Lemma round_Qeq (round : Q -> Q) x y :
  (forall a b, (a <= b)%Q -> (round a <= round b)%Q) ->
  (x == y)%Q -> (round x == round y)%Q.
Proof.
  intros Hmono Hxy. apply Qle_antisym; apply Hmono; rewrite Hxy; apply Qle_refl.
Qed.

Lemma Math_max_0_nonneg x : (0 <= Math_max 0 x)%Q.
Proof. unfold Math_max. destruct (Qlt_le_dec _ _); lra. Qed.

Lemma Math_max_0_nonpos x : (x <= 0)%Q -> (Math_max 0 x == 0)%Q.
Proof. intros Hx. unfold Math_max. destruct (Qlt_le_dec _ _); lra. Qed.

(** X23.  In double precision, with any rounding that keeps the order and
    leaves 0 as it is: [takeLoan(amount)] succeeds exactly when the amount
    is positive and at most [getAvailableLoan()]; it then sets loan and
    money to the rounded sums and changes nothing else, lowering neither;
    a refused loan changes nothing.  Nothing is lent once the loan has
    reached [getMaxLoan()], twice the equity, and in particular nothing to
    a company without equity.  Equity and available loan are never
    negative. *)
Theorem takeLoan_within_the_available_loan (round : Q -> Q) (amount : Q) (st : Finance.State) :
  (forall x y, (x <= y)%Q -> (round x <= round y)%Q) ->
  (round 0 == 0)%Q ->
  let ec := Finance.economics st in
  let taken := Loans.takeLoan round amount st in
  (taken.1 = true <->
     (0 < amount)%Q /\ (amount <= Loans.getAvailableLoan round st)%Q) /\
  (taken.1 = true ->
     taken.2 = Finance.set_money_loan (round (Finance.money ec + amount)%Q)
                 (round (Finance.loan ec + amount)%Q) st /\
     ((round (Finance.money ec) == Finance.money ec)%Q ->
      (Finance.money ec <= Finance.money (Finance.economics taken.2))%Q) /\
     ((round (Finance.loan ec) == Finance.loan ec)%Q ->
      (Finance.loan ec <= Finance.loan (Finance.economics taken.2))%Q)) /\
  (taken.1 = false -> taken.2 = st) /\
  ((Loans.getMaxLoan round st <= Finance.loan ec)%Q -> taken.1 = false) /\
  ((Loans.getEquity round st == 0)%Q -> (0 <= Finance.loan ec)%Q -> taken.1 = false) /\
  (0 <= Loans.getEquity round st)%Q /\ (0 <= Loans.getAvailableLoan round st)%Q.
Proof.
  intros Hmono Hzero ec taken.
  assert (Hcap : (Loans.getMaxLoan round st <= Finance.loan ec)%Q ->
                 (Loans.getAvailableLoan round st == 0)%Q).
  { intros Hfull. unfold Loans.getAvailableLoan. apply Math_max_0_nonpos.
    rewrite <- Hzero. apply Hmono. fold ec. lra. }
  assert (Hrefused : (Loans.getAvailableLoan round st == 0)%Q -> taken.1 = false).
  { intros Hnone. subst taken. unfold Loans.takeLoan. cbv zeta.
    destruct (Qlt_le_dec 0 amount) as [Hpos|]; [|done].
    destruct (Qlt_le_dec (Loans.getAvailableLoan round st) amount) as [|Hle]; [done|]. lra. }
  split_and!.
  - subst taken. unfold Loans.takeLoan. cbv zeta.
    destruct (Qlt_le_dec 0 amount) as [Hpos|Hneg].
    + destruct (Qlt_le_dec (Loans.getAvailableLoan round st) amount) as [Hover|Hok]; simpl.
      * split; [done|]. intros [_ ?]. lra.
      * by split.
    + simpl. split; [done|]. intros [? _]. lra.
  - subst taken. unfold Loans.takeLoan. cbv zeta.
    destruct (Qlt_le_dec 0 amount) as [Hpos|]; [|done].
    destruct (Qlt_le_dec (Loans.getAvailableLoan round st) amount); [done|].
    intros _. fold ec. simpl. split_and!; [done | |].
    + intros Hrep. rewrite <- Hrep at 1. apply Hmono. lra.
    + intros Hrep. rewrite <- Hrep at 1. apply Hmono. lra.
  - subst taken. unfold Loans.takeLoan. cbv zeta. by repeat destruct (Qlt_le_dec _ _).
  - intros Hfull. by apply Hrefused, Hcap.
  - intros Hnone Hloan. apply Hrefused, Hcap. unfold Loans.getMaxLoan.
    assert (Hmax : (round (Loans.getEquity round st * Finance.LOAN_TO_EQUITY_RATIO) == 0)%Q).
    { rewrite <- Hzero. apply round_Qeq; [done|]. rewrite Hnone. ring. }
    rewrite Hmax. done.
  - apply Math_max_0_nonneg.
  - apply Math_max_0_nonneg.
Qed.

(** A company with 1000.004 in cash and 800 invested borrows 500. *)
Definition borrower : Finance.State :=
  Finance.mkState (Finance.mkEconomics (1000004 # 1000) 0 0 0 0 0 0 800 (3 # 2)) [] false false.

Lemma takeLoan_within_the_available_loan_witness :
  let ec := Finance.economics borrower in
  let taken := Loans.takeLoan to_hundredths 500 borrower in
  (taken.1 = true <->
     (0 < 500)%Q /\ (500 <= Loans.getAvailableLoan to_hundredths borrower)%Q) /\
  (taken.1 = true ->
     taken.2 = Finance.set_money_loan (to_hundredths (Finance.money ec + 500)%Q)
                 (to_hundredths (Finance.loan ec + 500)%Q) borrower /\
     ((to_hundredths (Finance.money ec) == Finance.money ec)%Q ->
      (Finance.money ec <= Finance.money (Finance.economics taken.2))%Q) /\
     ((to_hundredths (Finance.loan ec) == Finance.loan ec)%Q ->
      (Finance.loan ec <= Finance.loan (Finance.economics taken.2))%Q)) /\
  (taken.1 = false -> taken.2 = borrower) /\
  ((Loans.getMaxLoan to_hundredths borrower <= Finance.loan ec)%Q -> taken.1 = false) /\
  ((Loans.getEquity to_hundredths borrower == 0)%Q -> (0 <= Finance.loan ec)%Q ->
   taken.1 = false) /\
  (0 <= Loans.getEquity to_hundredths borrower)%Q /\
  (0 <= Loans.getAvailableLoan to_hundredths borrower)%Q.
Proof.
  exact (takeLoan_within_the_available_loan to_hundredths 500 borrower
           to_hundredths_mono to_hundredths_0).
Defined.

(** X24.  In double precision, with any rounding that keeps the order and
    leaves 0 as it is: [repayLoan(amount)] succeeds exactly when the amount
    is positive and at most both money and the loan; it then sets money and
    loan to the rounded differences and changes nothing else, so neither
    goes below 0 and neither grows; a refused repayment changes nothing.
    With money and loan not negative, repaying an amount just borrowed is
    accepted. *)
Theorem repayLoan_never_overdraws (round : Q -> Q) (amount : Q) (st : Finance.State) :
  (forall x y, (x <= y)%Q -> (round x <= round y)%Q) ->
  (round 0 == 0)%Q ->
  let ec := Finance.economics st in
  let repaid := Loans.repayLoan round amount st in
  (repaid.1 = true <->
     (0 < amount)%Q /\ (amount <= Finance.money ec)%Q /\ (amount <= Finance.loan ec)%Q) /\
  (repaid.1 = true ->
     repaid.2 = Finance.set_money_loan (round (Finance.money ec - amount)%Q)
                  (round (Finance.loan ec - amount)%Q) st /\
     (0 <= Finance.money (Finance.economics repaid.2))%Q /\
     (0 <= Finance.loan (Finance.economics repaid.2))%Q /\
     ((round (Finance.money ec) == Finance.money ec)%Q ->
      (Finance.money (Finance.economics repaid.2) <= Finance.money ec)%Q) /\
     ((round (Finance.loan ec) == Finance.loan ec)%Q ->
      (Finance.loan (Finance.economics repaid.2) <= Finance.loan ec)%Q)) /\
  (repaid.1 = false -> repaid.2 = st) /\
  ((Loans.takeLoan round amount st).1 = true ->
   (0 <= Finance.money ec)%Q -> (0 <= Finance.loan ec)%Q -> (round amount == amount)%Q ->
   (Loans.repayLoan round amount (Loans.takeLoan round amount st).2).1 = true).
Proof.
  intros Hmono Hzero ec repaid.
  split_and!.
  - subst repaid. unfold Loans.repayLoan. cbv zeta. fold ec.
    repeat destruct (Qlt_le_dec _ _); simpl;
      (split; [try done; intros _; split_and!; lra | try done; intros (? & ? & ?); lra]).
  - subst repaid. unfold Loans.repayLoan. cbv zeta. fold ec.
    repeat destruct (Qlt_le_dec _ _); simpl; try done.
    intros _. split_and!; [done | | | |].
    + rewrite <- Hzero. apply Hmono. lra.
    + rewrite <- Hzero. apply Hmono. lra.
    + intros Hrep. rewrite <- Hrep at 2. apply Hmono. lra.
    + intros Hrep. rewrite <- Hrep at 2. apply Hmono. lra.
  - subst repaid. unfold Loans.repayLoan. cbv zeta. by repeat destruct (Qlt_le_dec _ _).
  - unfold Loans.takeLoan. cbv zeta. fold ec.
    destruct (Qlt_le_dec 0 amount) as [Hpos|]; [|done].
    destruct (Qlt_le_dec (Loans.getAvailableLoan round st) amount); [done|].
    intros _ Hmoney Hloan Hrep. unfold Loans.repayLoan. cbv zeta. simpl.
    destruct (Qlt_le_dec 0 amount); [|lra].
    assert (Hm : (amount <= round (Finance.money ec + amount)%Q)%Q).
    { rewrite <- Hrep at 1. apply Hmono. lra. }
    assert (Hl : (amount <= round (Finance.loan ec + amount)%Q)%Q).
    { rewrite <- Hrep at 1. apply Hmono. lra. }
    destruct (Qlt_le_dec (round (Finance.money ec + amount)%Q) amount); [lra|].
    destruct (Qlt_le_dec (round (Finance.loan ec + amount)%Q) amount); [lra|]. done.
Qed.

(** A company with 1000.004 in cash and a loan of 600 repays 250.006. *)
Definition debtor : Finance.State :=
  Finance.mkState (Finance.mkEconomics (1000004 # 1000) 0 0 600 0 0 0 800 (3 # 2)) [] false false.

Lemma repayLoan_never_overdraws_witness :
  let ec := Finance.economics debtor in
  let amount := (250006 # 1000)%Q in
  let repaid := Loans.repayLoan to_hundredths amount debtor in
  (repaid.1 = true <->
     (0 < amount)%Q /\ (amount <= Finance.money ec)%Q /\ (amount <= Finance.loan ec)%Q) /\
  (repaid.1 = true ->
     repaid.2 = Finance.set_money_loan (to_hundredths (Finance.money ec - amount)%Q)
                  (to_hundredths (Finance.loan ec - amount)%Q) debtor /\
     (0 <= Finance.money (Finance.economics repaid.2))%Q /\
     (0 <= Finance.loan (Finance.economics repaid.2))%Q /\
     ((to_hundredths (Finance.money ec) == Finance.money ec)%Q ->
      (Finance.money (Finance.economics repaid.2) <= Finance.money ec)%Q) /\
     ((to_hundredths (Finance.loan ec) == Finance.loan ec)%Q ->
      (Finance.loan (Finance.economics repaid.2) <= Finance.loan ec)%Q)) /\
  (repaid.1 = false -> repaid.2 = debtor) /\
  ((Loans.takeLoan to_hundredths amount debtor).1 = true ->
   (0 <= Finance.money ec)%Q -> (0 <= Finance.loan ec)%Q ->
   (to_hundredths amount == amount)%Q ->
   (Loans.repayLoan to_hundredths amount (Loans.takeLoan to_hundredths amount debtor).2).1
   = true).
Proof.
  exact (repayLoan_never_overdraws to_hundredths (250006 # 1000) debtor
           to_hundredths_mono to_hundredths_0).
Defined.

(** X25.  After [checkBankruptcy] the game is over or money is not
    negative.  It acts only on a running game with negative money: when
    the available loan covers the deficit it borrows the deficit rounded up
    to the next 100, capped by the available loan, and reports a forced
    loan; otherwise it ends and pauses the game and reports the deficit.
    Checking twice is the same as checking once. *)
Theorem checkBankruptcy_settles_the_deficit (st : Finance.State) :
  let st' := (Finance.checkBankruptcy st).1 in
  (Finance.gameOver st' = true \/ (0 <= Finance.money (Finance.economics st'))%Q) /\
  (Finance.gameOver st = true \/ (0 <= Finance.money (Finance.economics st))%Q ->
   Finance.checkBankruptcy st = (st, None)) /\
  (Finance.gameOver st = false -> (Finance.money (Finance.economics st) < 0)%Q ->
   let deficit := (- Finance.money (Finance.economics st))%Q in
   ((deficit <= Finance.getAvailableLoan st)%Q ->
    exists amount,
      Finance.checkBankruptcy st
      = (Finance.set_money_loan (Finance.money (Finance.economics st) + amount)
           (Finance.loan (Finance.economics st) + amount) st,
         Some (Finance.forced_loan amount)) /\
      (deficit <= amount)%Q /\ (amount < deficit + 100)%Q /\
      (amount <= Finance.getAvailableLoan st)%Q) /\
   ((Finance.getAvailableLoan st < deficit)%Q ->
    exists reported,
      Finance.checkBankruptcy st
      = (Finance.mkState (Finance.economics st) (Finance.routes st) true true,
         Some (Finance.game_over reported)) /\
      (reported == deficit)%Q)) /\
  Finance.checkBankruptcy st' = (st', None).
Proof.
  intros st'.
  assert (Hidle : Finance.gameOver st = true \/ (0 <= Finance.money (Finance.economics st))%Q ->
                  Finance.checkBankruptcy st = (st, None)).
  { intros H. unfold Finance.checkBankruptcy. destruct (Finance.gameOver st); [done|].
    destruct H as [?|H]; [done|]. destruct (Qlt_le_dec _ _); [lra | done]. }
  assert (Habs : (Finance.money (Finance.economics st) < 0)%Q ->
                 (Qabs (Finance.money (Finance.economics st))
                  == - Finance.money (Finance.economics st))%Q).
  { intros H. apply Qabs_neg. lra. }
  assert (Hforced : Finance.gameOver st = false ->
     (Finance.money (Finance.economics st) < 0)%Q ->
     let deficit := (- Finance.money (Finance.economics st))%Q in
     (deficit <= Finance.getAvailableLoan st)%Q ->
     exists amount,
       Finance.checkBankruptcy st
       = (Finance.set_money_loan (Finance.money (Finance.economics st) + amount)
            (Finance.loan (Finance.economics st) + amount) st,
          Some (Finance.forced_loan amount)) /\
       (deficit <= amount)%Q /\ (amount < deficit + 100)%Q /\
       (amount <= Finance.getAvailableLoan st)%Q).
  { intros Hrun Hneg deficit Hcover. subst deficit. unfold Finance.checkBankruptcy.
    rewrite Hrun. destruct (Qlt_le_dec _ 0) as [_|?]; [|lra]. cbv zeta.
    destruct (Qlt_le_dec (Finance.getAvailableLoan st) _) as [Hlt|_]; [rewrite Habs in Hlt; lra|].
    eexists. split; [done|]. rewrite <- (Habs Hneg).
    set (d := Qabs (Finance.money (Finance.economics st))) in *.
    pose proof (Qle_ceiling (d / 100)) as Hceil.
    assert (Hup : (inject_Z (Qceiling (d / 100)) < d / 100 + 1)%Q).
    { pose proof (Qlt_floor (- (d / 100))) as Hf. unfold Qceiling.
      rewrite inject_Z_opp. rewrite inject_Z_plus in Hf. change (inject_Z 1) with 1%Q in Hf.
      lra. }
    assert (d == d / 100 * 100)%Q as Hdiv by field.
    pose proof (Habs Hneg) as Hd.
    set (q := (d / 100)%Q) in *.
    unfold Math_min. destruct (Qlt_le_dec _ _); split_and!; lra. }
  assert (Hover : Finance.gameOver st = false ->
     (Finance.money (Finance.economics st) < 0)%Q ->
     (Finance.getAvailableLoan st < - Finance.money (Finance.economics st))%Q ->
     exists reported,
       Finance.checkBankruptcy st
       = (Finance.mkState (Finance.economics st) (Finance.routes st) true true,
          Some (Finance.game_over reported)) /\
       (reported == - Finance.money (Finance.economics st))%Q).
  { intros Hrun Hneg Hshort. unfold Finance.checkBankruptcy.
    rewrite Hrun. destruct (Qlt_le_dec _ 0) as [_|?]; [|lra]. cbv zeta.
    destruct (Qlt_le_dec (Finance.getAvailableLoan st) _) as [_|Hge];
      [|rewrite Habs in Hge; lra].
    eexists. split; [done|]. by apply Habs. }
  assert (Hpost : Finance.gameOver st' = true \/ (0 <= Finance.money (Finance.economics st'))%Q).
  { subst st'. destruct (Finance.gameOver st) eqn:Hrun.
    { rewrite Hidle by (by left). by left. }
    destruct (Qlt_le_dec (Finance.money (Finance.economics st)) 0) as [Hneg|Hok].
    2:{ rewrite Hidle by (by right). by right. }
    destruct (Qlt_le_dec (Finance.getAvailableLoan st)
                (- Finance.money (Finance.economics st))) as [Hshort|Hcover].
    - destruct (Hover eq_refl Hneg Hshort) as (reported & -> & _). by left.
    - destruct (Hforced eq_refl Hneg Hcover) as (amount & -> & Hge & _). right. simpl. lra. }
  split_and!; [done | done | | ].
  - intros Hrun Hneg deficit. split; [by apply Hforced | by apply Hover].
  - unfold Finance.checkBankruptcy at 1. destruct (Finance.gameOver st'); [done|].
    destruct Hpost as [?|Hpos]; [done|]. destruct (Qlt_le_dec _ _); [lra | done].
Qed.

Lemma checkBankruptcy_cases (st : Finance.State) :
  ((Finance.checkBankruptcy st).1 = st /\
   (Finance.gameOver st = true \/ (0 <= Finance.money (Finance.economics st))%Q)) \/
  ((Finance.checkBankruptcy st).1
   = Finance.mkState (Finance.economics st) (Finance.routes st) true true) \/
  (exists amount,
     (Finance.checkBankruptcy st).1
     = Finance.set_money_loan (Finance.money (Finance.economics st) + amount)
         (Finance.loan (Finance.economics st) + amount) st /\
     (- Finance.money (Finance.economics st) <= amount)%Q /\ (0 < amount)%Q).
Proof.
  unfold Finance.checkBankruptcy. destruct (Finance.gameOver st); [left; split; [done | by left]|].
  destruct (Qlt_le_dec _ 0) as [Hneg|Hok]; [|left; split; [done | by right]].
  cbv zeta. pose proof (Qabs_neg (Finance.money (Finance.economics st))) as Habs.
  destruct (Qlt_le_dec (Finance.getAvailableLoan st) _) as [Hshort|Hcover].
  { right. by left. }
  right. right. eexists. split; [done|].
  set (d := Qabs (Finance.money (Finance.economics st))) in *.
  assert (Hd : (d == - Finance.money (Finance.economics st))%Q) by (apply Habs; lra).
  pose proof (Qle_ceiling (d / 100)) as Hceil.
  assert (Hdiv : (d == d / 100 * 100)%Q) by field.
  set (q := (d / 100)%Q) in *.
  unfold Math_min. destruct (Qlt_le_dec _ _); split; lra.
Qed.

Lemma foldl_add_lengths {A B} (f : A -> list B) (l : list A) (n : nat) :
  foldl (fun sum a => sum + length (f a)) n l = n + sum_list (map (fun a => length (f a)) l).
Proof.
  revert n. induction l as [|a l IH]; intros n; simpl; [lia|]. rewrite IH. lia.
Qed.

(** X26.  A day of accounting on the loan and the assets.  A game that
    starts the day with money at or above 0, or with a loan, ends it over or
    with money at or above 0.  Depreciation grows by 300/1825 for each bus,
    500/3650 for each route and 100/3650 for each stop, the loan does not
    shrink, the routes and the invested capital stay, and without a loan
    money stays the same. *)
Theorem daily_accounting_settles_the_interest (st : Finance.State) :
  let st' := (Finance.applyDailyAccounting st).1 in
  let totalBuses := sum_list (map (fun r => length (buses r)) (Finance.routes st)) in
  let totalStops := sum_list (map (fun r => length (stops r)) (Finance.routes st)) in
  let totalRoutes := length (Finance.routes st) in
  ((0 <= Finance.money (Finance.economics st))%Q \/ (0 < Finance.loan (Finance.economics st))%Q ->
   Finance.gameOver st' = true \/ (0 <= Finance.money (Finance.economics st'))%Q) /\
  (Finance.depreciation (Finance.economics st')
   == Finance.depreciation (Finance.economics st)
      + (300 # 1825) * inject_Z (Z.of_nat totalBuses)
      + (500 # 3650) * inject_Z (Z.of_nat totalRoutes)
      + (100 # 3650) * inject_Z (Z.of_nat totalStops))%Q /\
  (Finance.loan (Finance.economics st) <= Finance.loan (Finance.economics st'))%Q /\
  Finance.routes st' = Finance.routes st /\
  Finance.totalCapitalInvested (Finance.economics st')
  = Finance.totalCapitalInvested (Finance.economics st) /\
  ((Finance.loan (Finance.economics st) <= 0)%Q ->
   Finance.money (Finance.economics st') = Finance.money (Finance.economics st) /\
   Finance.loan (Finance.economics st') = Finance.loan (Finance.economics st) /\
   Finance.gameOver st' = Finance.gameOver st).
Proof.
  intros st' totalBuses totalStops totalRoutes. subst st'.
  unfold Finance.applyDailyAccounting.
  set (charged := if Qlt_le_dec 0 (Finance.loan (Finance.economics st)) then _ else _).
  assert (Hcharged :
    ((0 <= Finance.money (Finance.economics st))%Q \/ (0 < Finance.loan (Finance.economics st))%Q ->
     Finance.gameOver charged.1 = true \/ (0 <= Finance.money (Finance.economics charged.1))%Q) /\
    Finance.depreciation (Finance.economics charged.1)
    = Finance.depreciation (Finance.economics st) /\
    (Finance.loan (Finance.economics st) <= Finance.loan (Finance.economics charged.1))%Q /\
    Finance.routes charged.1 = Finance.routes st /\
    Finance.totalCapitalInvested (Finance.economics charged.1)
    = Finance.totalCapitalInvested (Finance.economics st) /\
    ((Finance.loan (Finance.economics st) <= 0)%Q -> charged.1 = st)).
  { subst charged. destruct (Qlt_le_dec 0 (Finance.loan (Finance.economics st))) as [Hloan|Hnone].
    2:{ simpl. split_and!; try done; try lra. }
    assert (Hinterest : (0 < Finance.loan (Finance.economics st) * Finance.LOAN_INTEREST_PER_DAY)%Q).
    { apply Qmult_lt_0_compat; [done|]. by vm_compute. }
    set (interest := (Finance.loan (Finance.economics st) * Finance.LOAN_INTEREST_PER_DAY)%Q) in *.
    match goal with |- context [Finance.checkBankruptcy ?x] =>
      destruct (checkBankruptcy_cases x) as [[-> Hc]|[->|(amount & -> & Hc & Hpos)]] end;
      simpl in *; split_and!; try done; try lra. }
  destruct charged as [st1 ev]. simpl in Hcharged.
  destruct Hcharged as (Hsolvent & Hdep & Hloan & Hroutes & Hcap & Hsame).
  rewrite !foldl_add_lengths, Hroutes. simpl "+".
  fold totalBuses totalStops totalRoutes.
  assert (Htotal :
    (inject_Z (Z.of_nat totalBuses) * Finance.BUS_DEPRECIATION_PER_DAY
     + inject_Z (Z.of_nat totalRoutes) * Finance.ROUTE_DEPRECIATION_PER_DAY
     + inject_Z (Z.of_nat totalStops) * Finance.STOP_DEPRECIATION_PER_DAY
     == (300 # 1825) * inject_Z (Z.of_nat totalBuses)
        + (500 # 3650) * inject_Z (Z.of_nat totalRoutes)
        + (100 # 3650) * inject_Z (Z.of_nat totalStops))%Q).
  { assert (Finance.BUS_DEPRECIATION_PER_DAY == 300 # 1825)%Q as -> by (by vm_compute).
    assert (Finance.ROUTE_DEPRECIATION_PER_DAY == 500 # 3650)%Q as -> by (by vm_compute).
    assert (Finance.STOP_DEPRECIATION_PER_DAY == 100 # 3650)%Q as -> by (by vm_compute).
    ring. }
  destruct (Qlt_le_dec 0 _) as [Hsome|Hzero]; simpl.
  - split_and!; try done.
    + rewrite Hdep, Htotal. ring.
    + intros Hnone. by rewrite (Hsame Hnone).
  - assert (Hnat : forall n, (0 <= inject_Z (Z.of_nat n))%Q).
    { intros n. change 0%Q with (inject_Z 0). rewrite <- Zle_Qle. lia. }
    pose proof (Hnat totalBuses). pose proof (Hnat totalRoutes). pose proof (Hnat totalStops).
    split_and!; try done.
    + rewrite Hdep. rewrite Htotal in Hzero. lra.
    + intros Hnone. by rewrite (Hsame Hnone).
Qed.

(** ** GameStateSerializer.ts: saving and rebuilding the routes *)

Module GameStateSerializer.

(** An entry of [SerializableGameState.routes]. *)
Record SavedRoute := mkSavedRoute {
  saved_stops : list Stop;
  busCount : nat;
  saved_color : nat
}.

(** The [routes] field of [serializeGameState]. *)
Definition serializeRoutes (rs : list Route) : list SavedRoute :=
  map (fun route =>
         mkSavedRoute (map (fun stop => mkStop (stop_x stop) (stop_y stop)) (stops route))
           (length (buses route)) (color route)) rs.

(** The callback of [route.buses.forEach] in [restoreGameState]. *)
Definition reset_bus (route_stops : list Stop) (index : nat) (bus : Bus) : Bus :=
  if (0 <? length route_stops)%nat then
    let stopIndex := (index mod length route_stops)%nat in
    match route_stops !! stopIndex with
    | Some stop =>
        mkBus (inject_Z (stop_x stop * 30 + 15)) (inject_Z (stop_y stop * 30 + 15)) stopIndex
          [] [] 0 (angle bus) (stoppedAtStop bus) (stopTimer bus) (currentSpeed bus)
    | None => bus
    end
  else bus.

(** The callback of [savedState.routes.forEach]; [None] when
    [state.routes[state.routes.length - 1]] is undefined and setting its
    colour throws. *)
Definition restore_route (savedRoute : SavedRoute) (s : GameState) : option GameState :=
  let s := (GameEngine.addRoute s).2 in
  let last_index := (length (routes s) - 1)%nat in
  match routes s !! last_index with
  | None => None
  | Some route =>
      let route :=
        mkRoute
          (stops route
           ++ map (fun stop => mkStop (stop_x stop) (stop_y stop)) (saved_stops savedRoute))
          (buses route) (saved_color savedRoute) in
      let s := GameEngine.set_routes (<[last_index := route]> (routes s)) s in
      let currentBusCount := length (buses route) in
      let targetBusCount := busCount savedRoute in
      let s :=
        Nat.iter (targetBusCount - currentBusCount)
          (fun s => (GameEngine.addBusToRoute last_index s).2) s in
      let s :=
        Nat.iter (currentBusCount - targetBusCount)
          (GameEngine.removeBusFromRoute last_index) s in
      Some (GameEngine.set_routes
              (alter (fun route =>
                        RouteManager.set_buses (imap (reset_bus (stops route)) (buses route)) route)
                 last_index (routes s)) s)
  end.

Fixpoint restore_routes (saved : list SavedRoute) (s : GameState) : option GameState :=
  match saved with
  | [] => Some s
  | savedRoute :: rest =>
      match restore_route savedRoute s with
      | None => None
      | Some s => restore_routes rest s
      end
  end.

(** [state.routes = []] and the loop over [savedState.routes]. *)
Definition restoreRoutes (saved : list SavedRoute) (s : GameState) : option GameState :=
  restore_routes saved (GameEngine.set_routes [] s).

End GameStateSerializer.

(** What rebuilding the saved routes costs: a route with its first bus,
    and each further bus. *)
Definition rebuild_cost (saved : list GameStateSerializer.SavedRoute) : Q :=
  foldr (fun r acc =>
           (ROUTE_COST + BUS_COST * inject_Z (Z.of_nat (GameStateSerializer.busCount r)) + acc)%Q)
    0%Q saved.

(** [charged cost s s']: [cost] moved from money to the capital invested
    and nothing else of the game changed but the routes. *)
Definition charged (cost : Q) (s s' : GameState) : Prop :=
  (money (economics s') == money (economics s) - cost)%Q /\
  (totalCapitalInvested (economics s') == totalCapitalInvested (economics s) + cost)%Q /\
  totalIncome (economics s') = totalIncome (economics s) /\
  ticketPrice (economics s') = ticketPrice (economics s) /\
  npcs s' = npcs s /\ objects s' = objects s /\ stats s' = stats s /\ time s' = time s /\
  activeRouteIndex s' = activeRouteIndex s.

Lemma charged_trans c1 c2 s1 s2 s3 :
  charged c1 s1 s2 -> charged c2 s2 s3 -> charged (c1 + c2) s1 s3.
Proof.
  unfold charged. intros (H1 & H2 & ?) (H3 & H4 & ?). split_and!; try (intuition congruence).
  - rewrite H3, H1. ring.
  - rewrite H4, H2. ring.
Qed.

Lemma charged_Qeq c c' s s' : (c == c')%Q -> charged c s s' -> charged c' s s'.
Proof. unfold charged. intros Hc (H1 & H2 & ?). split_and!; try tauto; lra. Qed.

Lemma charged_set_routes rs s : charged 0 s (GameEngine.set_routes rs s).
Proof. unfold charged. simpl. split_and!; try done; ring. Qed.

Lemma nat_iter_addBusToRoute (k : nat) :
  forall (idx : nat) (s : GameState) (route : Route),
    routes s !! idx = Some route ->
    length (buses route) + k <= GameEngine.MAX_BUSES_PER_ROUTE ->
    (BUS_COST * inject_Z (Z.of_nat k) <= money (economics s))%Q ->
    Forall (fun bus => passengers bus = []) (buses route) ->
    exists bs,
      routes (Nat.iter k (fun s => (GameEngine.addBusToRoute idx s).2) s)
      = <[idx := mkRoute (stops route) bs (color route)]> (routes s) /\
      length bs = length (buses route) + k /\
      Forall (fun bus => passengers bus = []) bs /\
      charged (BUS_COST * inject_Z (Z.of_nat k)) s
        (Nat.iter k (fun s => (GameEngine.addBusToRoute idx s).2) s).
Proof.
  induction k as [|k IH]; intros idx s route Hr Hmax Hmoney Hempty.
  { exists (buses route). simpl. split_and!; [| lia | done |].
    - destruct route. by rewrite list_insert_id.
    - unfold charged. split_and!; try done; simpl; ring. }
  assert (Hk : (inject_Z (Z.of_nat (S k)) == inject_Z (Z.of_nat k) + 1)%Q).
  { rewrite Nat2Z.inj_succ, <- Z.add_1_r, inject_Z_plus. reflexivity. }
  rewrite Hk in Hmoney. unfold BUS_COST in Hmoney.
  assert (Hnat : (0 <= inject_Z (Z.of_nat k))%Q).
  { change 0%Q with (inject_Z 0). rewrite <- Zle_Qle. lia. }
  destruct (IH idx s route Hr) as (bs & Hroutes & Hlen & Hbs & Hch);
    [lia | unfold BUS_COST; lra | done |].
  simpl Nat.iter. set (s1 := Nat.iter k _ s) in *.
  assert (Hr1 : routes s1 !! idx = Some (mkRoute (stops route) bs (color route))).
  { rewrite Hroutes. apply list_lookup_insert_eq. by eapply lookup_lt_Some. }
  unfold GameEngine.addBusToRoute. rewrite Hr1. cbn [buses stops color].
  destruct (GameEngine.MAX_BUSES_PER_ROUTE <=? length bs) eqn:Hfull.
  { apply Nat.leb_le in Hfull. lia. }
  destruct Hch as (Hm & Hch).
  destruct (Qlt_le_dec (money (economics s1)) BUS_COST) as [Hpoor|Hrich].
  { rewrite Hm in Hpoor. unfold BUS_COST in Hpoor. lra. }
  cbn [snd]. unfold GameEngine.set_routes at 1. cbn [routes GameEngine.pay].
  eexists. split_and!.
  - rewrite Hroutes, list_insert_insert_eq. unfold RouteManager.set_buses.
    cbn [buses stops color]. reflexivity.
  - rewrite length_app, Hlen. simpl. lia.
  - apply Forall_app. split; [done|]. constructor; [|done]. by case_match.
  - unfold charged in *. simpl. destruct Hch as (Ht & ?). split_and!; try tauto.
    + rewrite Hm, Hk. ring.
    + rewrite Ht, Hk. ring.
Qed.

(** [parked route]: every bus of the route is empty, and when the route has
    stops bus [i] stands at stop [i mod stops.length] with no path. *)
Definition parked (route : Route) : Prop :=
  forall i bus, buses route !! i = Some bus ->
    passengers bus = [] /\
    forall stop, stops route !! (i mod length (stops route)) = Some stop ->
      currentStopIndex bus = i mod length (stops route) /\
      bus_x bus = inject_Z (stop_x stop * 30 + 15) /\
      bus_y bus = inject_Z (stop_y stop * 30 + 15) /\
      bus_path bus = [] /\ pathIndex bus = 0.

Lemma map_mkStop_id (l : list Stop) :
  map (fun stop => mkStop (stop_x stop) (stop_y stop)) l = l.
Proof. induction l as [|[x y] l IH]; simpl; [done | by rewrite IH]. Qed.

Lemma rebuild_cost_nonneg saved : (0 <= rebuild_cost saved)%Q.
Proof.
  induction saved as [|r saved IH]; simpl; [lra|].
  assert (0 <= inject_Z (Z.of_nat (GameStateSerializer.busCount r)))%Q.
  { change 0%Q with (inject_Z 0). rewrite <- Zle_Qle. lia. }
  unfold ROUTE_COST, BUS_COST. nra.
Qed.

Lemma imap_reset_bus_parked (l : list Stop) (bs : list Bus) (c : nat) :
  Forall (fun bus => passengers bus = []) bs ->
  parked (mkRoute l (imap (GameStateSerializer.reset_bus l) bs) c).
Proof.
  intros Hbs i bus. cbn [buses stops]. rewrite list_lookup_imap.
  destruct (bs !! i) as [b|] eqn:Hb; [|done]. intros [= <-].
  pose proof (proj1 (Forall_lookup _ _) Hbs i b Hb) as Hempty.
  unfold GameStateSerializer.reset_bus.
  destruct (0 <? length l) eqn:Hlen.
  - apply Nat.ltb_lt in Hlen.
    destruct (l !! (i mod length l)) as [stop|] eqn:Hstop.
    + simpl. split; [done|]. by intros ? [= <-].
    + apply lookup_ge_None in Hstop.
      pose proof (Nat.mod_upper_bound i (length l)). lia.
  - split; [done|]. apply Nat.ltb_ge in Hlen.
    intros stop Hstop. apply lookup_lt_Some in Hstop. lia.
Qed.

Lemma restore_route_affordable (r : GameStateSerializer.SavedRoute) (s : GameState) :
  length (routes s) < MAX_ROUTES ->
  1 <= GameStateSerializer.busCount r <= GameEngine.MAX_BUSES_PER_ROUTE ->
  (ROUTE_COST + BUS_COST * inject_Z (Z.of_nat (GameStateSerializer.busCount r))
   <= money (economics s))%Q ->
  exists s' route,
    GameStateSerializer.restore_route r s = Some s' /\
    routes s' = routes s ++ [route] /\
    GameStateSerializer.serializeRoutes [route] = [r] /\
    parked route /\
    charged (ROUTE_COST + BUS_COST * inject_Z (Z.of_nat (GameStateSerializer.busCount r))) s s'.
Proof.
  intros Hroom [Hone Hten] Hmoney.
  assert (Hcount : (inject_Z (Z.of_nat (GameStateSerializer.busCount r))
                    == inject_Z (Z.of_nat (GameStateSerializer.busCount r - 1)) + 1)%Q).
  { change 1%Q with (inject_Z 1). rewrite <- inject_Z_plus.
    replace (Z.of_nat (GameStateSerializer.busCount r - 1) + 1)%Z
      with (Z.of_nat (GameStateSerializer.busCount r)) by lia. reflexivity. }
  assert (Hnat : (0 <= inject_Z (Z.of_nat (GameStateSerializer.busCount r - 1)))%Q).
  { change 0%Q with (inject_Z 0). rewrite <- Zle_Qle. lia. }
  assert (Hadd : (GameEngine.addRoute s).2
                 = GameEngine.set_routes
                     (routes s ++ [mkRoute [] [GameEngine.first_bus] (length (routes s) mod 8)])
                     (GameEngine.pay (ROUTE_COST + BUS_COST) s)).
  { unfold GameEngine.addRoute.
    destruct (MAX_ROUTES <=? length (routes s)) eqn:Hfull; [apply Nat.leb_le in Hfull; lia|].
    destruct (Qlt_le_dec (money (economics s)) (ROUTE_COST + BUS_COST)) as [Hpoor|Hrich]; [|done].
    unfold ROUTE_COST, BUS_COST in *. lra. }
  unfold GameStateSerializer.restore_route. rewrite Hadd. clear Hadd. cbn zeta.
  assert (Hlast : length (routes (GameEngine.set_routes
                     (routes s ++ [mkRoute [] [GameEngine.first_bus] (length (routes s) mod 8)])
                     (GameEngine.pay (ROUTE_COST + BUS_COST) s))) - 1 = length (routes s)).
  { cbn [routes GameEngine.set_routes]. rewrite length_app. simpl. lia. }
  rewrite !Hlast. clear Hlast.
  unfold GameEngine.set_routes at 1 2 3 4. cbn [routes GameEngine.pay].
  rewrite lookup_app_r, Nat.sub_diag by lia. cbn [lookup list_lookup].
  cbn [buses stops color length app].
  replace (1 - GameStateSerializer.busCount r) with 0 by lia.
  change (Nat.iter 0 (GameEngine.removeBusFromRoute (length (routes s))))
    with (fun x : GameState => x). cbn beta.
  set (route0 := mkRoute _ [GameEngine.first_bus] (GameStateSerializer.saved_color r)).
  match goal with |- context [Nat.iter _ _ ?x] => set (s0 := x) end.
  assert (Hr0 : routes s0 !! length (routes s) = Some route0).
  { subst s0. cbn [routes]. rewrite list_lookup_insert_eq; [done|]. rewrite length_app. simpl. lia. }
  destruct (nat_iter_addBusToRoute (GameStateSerializer.busCount r - 1)
              (length (routes s)) s0 route0 Hr0) as (bs & Hroutes & Hlen & Hbs & Hch).
  { subst route0. simpl. lia. }
  { subst s0. simpl. unfold ROUTE_COST, BUS_COST in *. lra. }
  { subst route0. simpl. by repeat constructor. }
  set (s1 := Nat.iter _ _ s0) in *.
  assert (Hfinal : routes s1 = routes s ++ [mkRoute (stops route0) bs (color route0)]).
  { rewrite Hroutes. subst s0. cbn [routes]. rewrite list_insert_insert_eq.
    rewrite insert_app_r_alt, Nat.sub_diag by lia. done. }
  eexists _, _. split_and!; [done | | | |].
  - cbn [routes GameEngine.set_routes]. rewrite Hfinal.
    rewrite alter_app_r_alt, Nat.sub_diag by lia. cbn [alter list_alter]. reflexivity.
  - unfold GameStateSerializer.serializeRoutes, RouteManager.set_buses. cbn [map buses stops color].
    rewrite length_imap, Hlen. subst route0. cbn [buses stops color length].
    rewrite !map_mkStop_id. destruct r as [ss n c]. cbn in *. f_equal. f_equal. lia.
  - unfold RouteManager.set_buses. cbn [buses stops color]. by apply imap_reset_bus_parked.
  - eapply charged_Qeq; [|eapply charged_trans; [|eapply charged_trans; [apply Hch|]]].
    2:{ instantiate (1 := (ROUTE_COST + BUS_COST)%Q). subst s0. unfold charged. simpl.
        split_and!; try done; ring. }
    2:{ apply charged_set_routes. }
    rewrite Hcount. ring.
Qed.

Lemma restore_routes_affordable (saved : list GameStateSerializer.SavedRoute) :
  forall s : GameState,
    length (routes s) + length saved <= MAX_ROUTES ->
    Forall (fun r => 1 <= GameStateSerializer.busCount r <= GameEngine.MAX_BUSES_PER_ROUTE)
      saved ->
    (rebuild_cost saved <= money (economics s))%Q ->
    exists s' rs,
      GameStateSerializer.restore_routes saved s = Some s' /\
      routes s' = routes s ++ rs /\
      GameStateSerializer.serializeRoutes rs = saved /\
      Forall parked rs /\
      charged (rebuild_cost saved) s s'.
Proof.
  induction saved as [|r saved IH]; intros s Hroom Hcounts Hmoney.
  { exists s, []. simpl. rewrite app_nil_r. split_and!; try done.
    unfold charged. split_and!; try done; ring. }
  simpl in Hroom, Hmoney. inversion Hcounts as [|? ? Hr Hrest]; subst.
  pose proof (rebuild_cost_nonneg saved) as Hpos.
  destruct (restore_route_affordable r s) as (s1 & route & Hrestore & Hroutes & Hser & Hpark & Hch);
    [lia | done | lra |].
  destruct (IH s1) as (s' & rs & Hrest' & Hroutes' & Hser' & Hpark' & Hch').
  { rewrite Hroutes, length_app. simpl. lia. }
  { done. }
  { destruct Hch as (Hm & _). rewrite Hm. lra. }
  exists s', (route :: rs). cbn [GameStateSerializer.restore_routes]. rewrite Hrestore.
  split_and!; [done | | | by constructor |].
  - rewrite Hroutes', Hroutes, <- app_assoc. done.
  - change (route :: rs) with ([route] ++ rs).
    unfold GameStateSerializer.serializeRoutes in *. rewrite map_app, Hser, Hser'. done.
  - eapply charged_Qeq; [|eapply charged_trans; [apply Hch | apply Hch']]. simpl. ring.
Qed.

(** X27.  Restoring rebuilds the saved routes when the engine can pay for
    them: with at most [MAX_ROUTES] saved routes, each of 1 to 10 buses, and
    money for 500 a route and 300 a bus, the loop ends with routes whose
    saved form is the saved list again.  Every bus is empty, and on a route
    with stops bus [i] is parked at stop [i mod stops.length].  The price
    moved from money to the capital invested. *)
Theorem restore_rebuilds_the_saved_routes
    (saved : list GameStateSerializer.SavedRoute) (s : GameState) :
  length saved <= MAX_ROUTES ->
  Forall (fun r => 1 <= GameStateSerializer.busCount r <= GameEngine.MAX_BUSES_PER_ROUTE)
    saved ->
  (rebuild_cost saved <= money (economics s))%Q ->
  exists s',
    GameStateSerializer.restoreRoutes saved s = Some s' /\
    GameStateSerializer.serializeRoutes (routes s') = saved /\
    Forall parked (routes s') /\
    charged (rebuild_cost saved) s s'.
Proof.
  intros Hroom Hcounts Hmoney.
  destruct (restore_routes_affordable saved (GameEngine.set_routes [] s))
    as (s' & rs & Hrestore & Hroutes & Hser & Hpark & Hch); [simpl; lia | done | done |].
  exists s'. simpl in Hroutes. rewrite Hroutes. by split_and!.
Qed.

Definition two_saved_routes : list GameStateSerializer.SavedRoute :=
  [GameStateSerializer.mkSavedRoute [mkStop 1 2; mkStop 3 4; mkStop 5 6] 2 5;
   GameStateSerializer.mkSavedRoute [] 1 0].

Lemma restore_rebuilds_the_saved_routes_witness :
  exists s',
    GameStateSerializer.restoreRoutes two_saved_routes GameEngine.new = Some s' /\
    GameStateSerializer.serializeRoutes (routes s') = two_saved_routes /\
    Forall parked (routes s') /\
    charged (rebuild_cost two_saved_routes) GameEngine.new s'.
Proof.
  apply (restore_rebuilds_the_saved_routes two_saved_routes GameEngine.new).
  - vm_compute. lia.
  - repeat constructor; vm_compute; lia.
  - vm_compute. discriminate.
Defined.

(** [kept_length s s']: the same number of routes, and money went down
    without going below 0. *)
Definition kept_length (s s' : GameState) : Prop :=
  length (routes s') = length (routes s) /\
  (money (economics s') <= money (economics s))%Q /\
  ((0 <= money (economics s))%Q -> (0 <= money (economics s'))%Q).

Lemma kept_length_refl s : kept_length s s.
Proof. unfold kept_length. split_and!; [done | lra | done]. Qed.

Lemma kept_length_trans s1 s2 s3 : kept_length s1 s2 -> kept_length s2 s3 -> kept_length s1 s3.
Proof.
  unfold kept_length. intros (H1 & H2 & H3) (H4 & H5 & H6).
  split_and!; [congruence | lra | tauto].
Qed.

Lemma kept_length_iter (f : GameState -> GameState) (k : nat) (s : GameState) :
  (forall x, kept_length x (f x)) -> kept_length s (Nat.iter k f s).
Proof.
  intros Hf. induction k as [|k IH]; [apply kept_length_refl|].
  simpl. eapply kept_length_trans; [apply IH | apply Hf].
Qed.

Lemma kept_length_addBusToRoute idx s : kept_length s (GameEngine.addBusToRoute idx s).2.
Proof.
  unfold GameEngine.addBusToRoute.
  destruct (routes s !! idx) as [route|]; [|apply kept_length_refl].
  destruct (_ <=? _); [apply kept_length_refl|].
  destruct (Qlt_le_dec _ _) as [|Hrich]; [apply kept_length_refl|].
  unfold kept_length. cbn [snd GameEngine.set_routes routes economics GameEngine.pay money].
  rewrite length_insert. unfold BUS_COST in *. split_and!; [done | lra | lra].
Qed.

Lemma kept_length_removeBusFromRoute idx s : kept_length s (GameEngine.removeBusFromRoute idx s).
Proof.
  unfold GameEngine.removeBusFromRoute.
  destruct (routes s !! idx) as [route|]; [|apply kept_length_refl].
  destruct (_ <=? _); [apply kept_length_refl|].
  destruct (last _); [|apply kept_length_refl].
  unfold kept_length. cbn [routes economics]. rewrite length_insert.
  split_and!; [done | lra | done].
Qed.

Lemma restore_route_budget (r : GameStateSerializer.SavedRoute) (s : GameState) :
  match GameStateSerializer.restore_route r s with
  | None => routes s = [] /\ (money (economics s) < ROUTE_COST + BUS_COST)%Q
  | Some s' =>
      (routes s = [] -> (ROUTE_COST + BUS_COST <= money (economics s))%Q) /\
      1 <= length (routes s') /\
      length (routes s) <= length (routes s') <= length (routes s) + 1 /\
      ((0 <= money (economics s))%Q ->
       (0 <= money (economics s'))%Q /\
       (money (economics s') + 800 * inject_Z (Z.of_nat (length (routes s')))
        <= money (economics s) + 800 * inject_Z (Z.of_nat (length (routes s))))%Q)
  end.
Proof.
  unfold GameStateSerializer.restore_route. cbn zeta.
  set (sa := (GameEngine.addRoute s).2).
  assert (Hadd :
    (sa = s /\ (routes s = [] -> (money (economics s) < ROUTE_COST + BUS_COST)%Q)) \/
    (length (routes sa) = length (routes s) + 1 /\
     (ROUTE_COST + BUS_COST <= money (economics s))%Q /\
     (money (economics sa) == money (economics s) - 800)%Q)).
  { subst sa. unfold GameEngine.addRoute.
    destruct (MAX_ROUTES <=? length (routes s)) eqn:Hfull.
    { left. split; [done|]. intros Hnil. rewrite Hnil in Hfull. done. }
    destruct (Qlt_le_dec _ _) as [Hpoor|Hrich]; [left; by split|].
    right. cbn [snd GameEngine.set_routes routes economics GameEngine.pay money].
    rewrite length_app. unfold ROUTE_COST, BUS_COST in *. split_and!; [done | lra | ring]. }
  destruct (routes sa !! (length (routes sa) - 1)) as [route|] eqn:Hlast.
  2:{ apply lookup_ge_None in Hlast. destruct Hadd as [[-> Hpoor]|(Hlen & _)]; [|lia].
      assert (routes s = []) as Hnil by (destruct (routes s); [done | simpl in Hlast; lia]).
      split; [done | by apply Hpoor]. }
  apply lookup_lt_Some in Hlast.
  match goal with |- context [Nat.iter _ (GameEngine.removeBusFromRoute _) ?x] =>
    set (s2 := x) end.
  match goal with |- context [Nat.iter ?k (GameEngine.removeBusFromRoute ?i) s2] =>
    pose proof (kept_length_iter (GameEngine.removeBusFromRoute i) k s2
                  (kept_length_removeBusFromRoute i)) as Hremove;
    set (s3 := Nat.iter k (GameEngine.removeBusFromRoute i) s2) in * end.
  subst s2.
  match type of Hremove with kept_length (Nat.iter ?k ?f ?x) _ =>
    pose proof (kept_length_iter f k x (fun y => kept_length_addBusToRoute _ y)) as Hbuy;
    set (s2 := Nat.iter k f x) in * end.
  destruct Hremove as (Hlen3 & Hle3 & Hpos3), Hbuy as (Hlen2 & Hle2 & Hpos2).
  cbn [routes economics GameEngine.set_routes] in *.
  rewrite length_alter, Hlen3, Hlen2, length_insert.
  assert (Hcount : forall n, (inject_Z (Z.of_nat (n + 1)) == inject_Z (Z.of_nat n) + 1)%Q).
  { intros n. rewrite Nat2Z.inj_add, inject_Z_plus. reflexivity. }
  destruct Hadd as [[Hsame Hpoor]|(Hlen & Hrich & Hmoney)].
  - rewrite Hsame in *. split_and!; [|lia..|].
    + intros Hnil. rewrite Hnil in Hlast. simpl in Hlast. lia.
    + intros Hpos. split; [tauto | lra].
  - rewrite Hlen, Hcount. split_and!; [done | lia.. |].
    intros Hpos. unfold ROUTE_COST, BUS_COST in *. split; [apply Hpos3, Hpos2; lra | lra].
Qed.

Lemma restore_routes_budget (saved : list GameStateSerializer.SavedRoute) :
  forall s : GameState,
    match GameStateSerializer.restore_routes saved s with
    | None => saved <> [] /\ routes s = [] /\ (money (economics s) < ROUTE_COST + BUS_COST)%Q
    | Some s' =>
        (saved <> [] -> routes s = [] -> (ROUTE_COST + BUS_COST <= money (economics s))%Q) /\
        length (routes s') <= length (routes s) + length saved /\
        ((0 <= money (economics s))%Q ->
         (money (economics s') + 800 * inject_Z (Z.of_nat (length (routes s')))
          <= money (economics s) + 800 * inject_Z (Z.of_nat (length (routes s))))%Q /\
         (0 <= money (economics s'))%Q)
    end.
Proof.
  induction saved as [|r saved IH]; intros s.
  { simpl. split_and!; [done | lia |]. intros ?. split; [lra | done]. }
  cbn [GameStateSerializer.restore_routes].
  pose proof (restore_route_budget r s) as Hstep.
  destruct (GameStateSerializer.restore_route r s) as [s1|]; [|by destruct Hstep].
  destruct Hstep as (Hfirst & Hone & Hlen & Hbudget).
  specialize (IH s1). destruct (GameStateSerializer.restore_routes saved s1) as [s'|].
  - destruct IH as (_ & Hlen' & Hbudget'). split_and!; [done | simpl; lia |].
    intros Hpos. destruct (Hbudget Hpos) as [Hpos1 Hle1].
    destruct (Hbudget' Hpos1) as [Hle' Hpos']. split; [lra | done].
  - destruct IH as (_ & Hnil & _). rewrite Hnil in Hone. simpl in Hone. lia.
Qed.

(** X28.  Rebuilding the saved routes is paid from the engine's money.
    The loop throws exactly when there is a saved route and the engine has
    less than 800.  Otherwise it builds at most one route per saved route
    and per 800 of money, so on a new engine, which has 5000, at most 6
    routes: a save with 7 or 8 routes is not rebuilt. *)
Theorem restore_is_paid_from_the_engine_money :
  (forall saved s,
     GameStateSerializer.restoreRoutes saved s = None <->
     saved <> [] /\ (money (economics s) < ROUTE_COST + BUS_COST)%Q) /\
  (forall saved s s',
     GameStateSerializer.restoreRoutes saved s = Some s' ->
     (0 <= money (economics s))%Q ->
     length (routes s') <= length saved /\
     (800 * inject_Z (Z.of_nat (length (routes s'))) <= money (economics s))%Q /\
     (0 <= money (economics s'))%Q) /\
  (forall saved s',
     GameStateSerializer.restoreRoutes saved GameEngine.new = Some s' ->
     length (routes s') <= 6 /\
     (6 < length saved -> GameStateSerializer.serializeRoutes (routes s') <> saved)).
Proof.
  assert (Hsome : forall saved s s',
     GameStateSerializer.restoreRoutes saved s = Some s' ->
     (0 <= money (economics s))%Q ->
     length (routes s') <= length saved /\
     (800 * inject_Z (Z.of_nat (length (routes s'))) <= money (economics s))%Q /\
     (0 <= money (economics s'))%Q).
  { intros saved s s' Hrestore Hpos. unfold GameStateSerializer.restoreRoutes in Hrestore.
    pose proof (restore_routes_budget saved (GameEngine.set_routes [] s)) as Hb.
    rewrite Hrestore in Hb. cbn [routes economics GameEngine.set_routes length] in Hb.
    destruct Hb as (_ & Hlen & Hbudget). destruct (Hbudget Hpos) as [Hle Hpos'].
    change (inject_Z (Z.of_nat 0)) with 0%Q in Hle. split_and!; [lia | lra | done]. }
  split_and!; [| exact Hsome |].
  - intros saved s. unfold GameStateSerializer.restoreRoutes.
    pose proof (restore_routes_budget saved (GameEngine.set_routes [] s)) as Hb.
    destruct (GameStateSerializer.restore_routes saved _) as [s'|].
    + split; [done|]. intros [Hne Hpoor]. destruct Hb as (Hrich & _).
      specialize (Hrich Hne eq_refl). simpl in Hrich. lra.
    + split; [|done]. intros _. destruct Hb as (Hne & _ & Hpoor). by split.
  - intros saved s' Hrestore.
    destruct (Hsome saved GameEngine.new s' Hrestore) as (Hlen & Hbudget & _); [by vm_compute|].
    assert (Hsix : length (routes s') <= 6).
    { destruct (le_lt_dec (length (routes s')) 6) as [|Hmore]; [done|]. exfalso.
      assert (7 <= inject_Z (Z.of_nat (length (routes s'))))%Q.
      { change 7%Q with (inject_Z 7). rewrite <- Zle_Qle. lia. }
      change (money (economics GameEngine.new)) with 5000%Q in Hbudget. lra. }
    split; [done|]. intros Hseven Heq.
    apply (f_equal length) in Heq. unfold GameStateSerializer.serializeRoutes in Heq.
    rewrite length_map in Heq. lia.
Qed.

(** ** StatsCalculator.ts: coverage and score *)

Module StatsCalculator.

Definition Math_round (v : Q) : Z := Qfloor (v + (1 # 2)).

(** [Math.sqrt(dx * dx + dy * dy) <= coverageRadius] is decided on the
    squares. *)
Definition calculateCoverage (zones : list Zone) (rs : list Route) : Q :=
  if (length zones =? 0)%nat then 0
  else
    let coverageRadius := 4%Q in
    let coveredZones :=
      foldl (fun coveredZones zone =>
               let zoneCenterX := (inject_Z (zone_x zone) + inject_Z (zone_w zone) / 2)%Q in
               let zoneCenterY := (inject_Z (zone_y zone) + inject_Z (zone_h zone) / 2)%Q in
               let covered :=
                 existsb (fun route =>
                   existsb (fun stop =>
                     let dx := (inject_Z (stop_x stop) - zoneCenterX)%Q in
                     let dy := (inject_Z (stop_y stop) - zoneCenterY)%Q in
                     Qle_bool (dx * dx + dy * dy) (coverageRadius * coverageRadius))
                     (stops route)) rs in
               if covered then coveredZones + 1 else coveredZones)
        0 zones in
    (inject_Z (Z.of_nat coveredZones) / inject_Z (Z.of_nat (length zones)))%Q.

Definition calculateScore (st : GameStats) (zones : list Zone) (rs : list Route) : Z :=
  let totalNPCs := tripsCompleted st + npcsGaveUp st in
  if (totalNPCs =? 0)%nat then 0%Z
  else
    let successRate := (inject_Z (Z.of_nat (tripsCompleted st)) / inject_Z (Z.of_nat totalNPCs))%Q in
    let successScore := (successRate * 30)%Q in
    let avgWaitTime :=
      if (0 <? tripsCompleted st)%nat
      then (totalWaitTime st / inject_Z (Z.of_nat (tripsCompleted st)))%Q
      else 60%Q in
    let waitScore := Math_max 0 ((1 - avgWaitTime / 60) * 30) in
    let avgTransportTime :=
      if (0 <? tripsCompleted st)%nat
      then (totalTransportTime st / inject_Z (Z.of_nat (tripsCompleted st)))%Q
      else 120%Q in
    let transportScore := Math_max 0 ((1 - avgTransportTime / 120) * 20) in
    let coverage := calculateCoverage zones rs in
    let coverageScore := (coverage * 20)%Q in
    let rawScore := (successScore + waitScore + transportScore + coverageScore)%Q in
    let minTripsForFullScore := 20%Q in
    let smoothingFactor := Math_min 1 (inject_Z (Z.of_nat totalNPCs) / minTripsForFullScore) in
    Math_round (rawScore * smoothingFactor).

End StatsCalculator.

Lemma foldl_count_le {A} (p : A -> bool) (l : list A) (n : nat) :
  n <= foldl (fun c a => if p a then c + 1 else c) n l <= n + length l.
Proof.
  revert n. induction l as [|a l IH]; intros n; simpl; [lia|].
  destruct (p a); [specialize (IH (n + 1)) | specialize (IH n)]; lia.
Qed.

Lemma Qdiv_unit_range (a b : Q) : (0 <= a)%Q -> (a <= b)%Q -> (0 < b)%Q -> (0 <= a / b <= 1)%Q.
Proof.
  intros Ha Hab Hb. split.
  - apply Qle_shift_div_l; [done | lra].
  - apply Qle_shift_div_r; [done | lra].
Qed.

Lemma calculateCoverage_range (zones : list Zone) (rs : list Route) :
  (0 <= StatsCalculator.calculateCoverage zones rs <= 1)%Q.
Proof.
  unfold StatsCalculator.calculateCoverage.
  destruct (length zones =? 0) eqn:Hlen; [lra|]. apply Nat.eqb_neq in Hlen. cbv zeta.
  match goal with |- context [foldl ?f 0 zones] =>
    pose proof (foldl_count_le
      (fun zone => existsb (fun route => existsb (fun stop =>
         Qle_bool
           ((inject_Z (stop_x stop) - (inject_Z (zone_x zone) + inject_Z (zone_w zone) / 2))
            * (inject_Z (stop_x stop) - (inject_Z (zone_x zone) + inject_Z (zone_w zone) / 2))
            + (inject_Z (stop_y stop) - (inject_Z (zone_y zone) + inject_Z (zone_h zone) / 2))
              * (inject_Z (stop_y stop) - (inject_Z (zone_y zone) + inject_Z (zone_h zone) / 2)))
           (4 * 4)) (stops route)) rs) zones 0) as Hcount;
    change (foldl _ 0 zones) with (foldl f 0 zones) in Hcount;
    set (coveredZones := foldl f 0 zones) in * end.
  apply Qdiv_unit_range.
  - change 0%Q with (inject_Z 0). rewrite <- Zle_Qle. lia.
  - rewrite <- Zle_Qle. lia.
  - change 0%Q with (inject_Z 0). rewrite <- Zlt_Qlt. lia.
Qed.

Lemma Math_round_range (v : Q) (lo hi : Z) :
  (inject_Z lo <= v)%Q -> (v <= inject_Z hi)%Q ->
  (lo <= StatsCalculator.Math_round v <= hi)%Z.
Proof.
  intros Hlo Hhi. unfold StatsCalculator.Math_round. split.
  - rewrite <- (Qfloor_Z lo). apply Qfloor_resp_le. lra.
  - assert (Hlt : (v + (1 # 2) < inject_Z (hi + 1))%Q).
    { rewrite inject_Z_plus. change (inject_Z 1) with 1%Q. lra. }
    pose proof (Qfloor_le (v + (1 # 2))) as Hfl.
    assert (inject_Z (Qfloor (v + (1 # 2))) < inject_Z (hi + 1))%Q by lra.
    rewrite <- Zlt_Qlt in H. lia.
Qed.

(** X29.  With wait and transport totals that are not negative, the score
    is a whole number from 0 to 100, and with fewer than 20 finished NPCs it
    is at most 5 for each of them.  It is 0 while no NPC has finished a trip
    or given up.  The coverage is a share between 0 and 1. *)
Theorem calculateScore_between_0_and_100
    (st : GameStats) (zones : list Zone) (rs : list Route) :
  (0 <= totalWaitTime st)%Q -> (0 <= totalTransportTime st)%Q ->
  (0 <= StatsCalculator.calculateScore st zones rs <= 100)%Z /\
  (StatsCalculator.calculateScore st zones rs
   <= 5 * Z.of_nat (tripsCompleted st + npcsGaveUp st))%Z /\
  (tripsCompleted st + npcsGaveUp st = 0 -> StatsCalculator.calculateScore st zones rs = 0%Z) /\
  (0 <= StatsCalculator.calculateCoverage zones rs <= 1)%Q.
Proof.
  intros Hwait Htransport.
  pose proof (calculateCoverage_range zones rs) as Hcov.
  unfold StatsCalculator.calculateScore. cbv zeta.
  destruct (tripsCompleted st + npcsGaveUp st =? 0) eqn:Hnone.
  { split_and!; try done; try lia; apply Hcov. }
  apply Nat.eqb_neq in Hnone.
  set (coverage := StatsCalculator.calculateCoverage zones rs) in *.
  set (total := inject_Z (Z.of_nat (tripsCompleted st + npcsGaveUp st))).
  set (trips := inject_Z (Z.of_nat (tripsCompleted st))).
  assert (Htotal : (1 <= total)%Q).
  { subst total. change 1%Q with (inject_Z 1). rewrite <- Zle_Qle. lia. }
  assert (Hrate : (0 <= trips / total <= 1)%Q).
  { apply Qdiv_unit_range; subst trips total.
    - change 0%Q with (inject_Z 0). rewrite <- Zle_Qle. lia.
    - rewrite <- Zle_Qle. lia.
    - lra. }
  set (rate := (trips / total)%Q) in *.
  assert (Havg : forall (sum full : Q), (0 <= sum)%Q -> (0 < full)%Q ->
            (0 <= (if 0 <? tripsCompleted st then sum / trips else full))%Q).
  { intros sum full Hsum Hfull. destruct (0 <? tripsCompleted st) eqn:Hsome; [|lra].
    apply Nat.ltb_lt in Hsome. apply Qle_shift_div_l; [|lra].
    unfold trips. change 0%Q with (inject_Z 0). rewrite <- Zlt_Qlt. lia. }
  pose proof (Havg (totalWaitTime st) 60%Q Hwait eq_refl) as Hw.
  pose proof (Havg (totalTransportTime st) 120%Q Htransport eq_refl) as Ht.
  set (avgWaitTime := if 0 <? tripsCompleted st then _ else 60%Q) in *.
  set (avgTransportTime := if 0 <? tripsCompleted st then _ else 120%Q) in *.
  assert (Hws : (0 <= Math_max 0 ((1 - avgWaitTime / 60) * 30) <= 30)%Q).
  { assert (avgWaitTime / 60 == avgWaitTime * (1 # 60))%Q as Hd by field.
    unfold Math_max. destruct (Qlt_le_dec _ _) as [Hlt|Hle]; [|lra].
    rewrite Hd in *. lra. }
  assert (Hts : (0 <= Math_max 0 ((1 - avgTransportTime / 120) * 20) <= 20)%Q).
  { assert (avgTransportTime / 120 == avgTransportTime * (1 # 120))%Q as Hd by field.
    unfold Math_max. destruct (Qlt_le_dec _ _) as [Hlt|Hle];
[|lra].
    rewrite Hd in *. lra. }
  set (waitScore := Math_max 0 ((1 - avgWaitTime / 60) * 30)) in *.
  set (transportScore := Math_max 0 ((1 - avgTransportTime / 120) * 20)) in *.
  set (rawScore := (rate * 30 + waitScore + transportScore + coverage * 20)%Q).
  assert (Hraw : (0 <= rawScore <= 100)%Q) by (subst rawScore; lra).
  assert (Hsmooth : (0 <= Math_min 1 (total / 20) <= 1)%Q /\
                    (Math_min 1 (total / 20) <= total * (1 # 20))%Q).
  { assert (total / 20 == total * (1 # 20))%Q as Hd by field.
    unfold Math_min. destruct (Qlt_le_dec _ _) as [Hlt|Hle]; rewrite Hd in *; lra. }
  set (smoothingFactor := Math_min 1 _) in *.
  destruct Hsmooth as [Hsmooth Hsmall].
  assert (Hprod : (0 <= rawScore * smoothingFactor)%Q /\ (rawScore * smoothingFactor <= 100)%Q /\
                  (rawScore * smoothingFactor <= 5 * total)%Q).
  { clearbody rawScore smoothingFactor total.
    assert (H1 : (0 <= rawScore * smoothingFactor)%Q) by (apply Qmult_le_0_compat; lra).
    assert (H2 : (0 <= rawScore * (1 - smoothingFactor))%Q) by (apply Qmult_le_0_compat; lra).
    assert (H3 : (0 <= rawScore * (total * (1 # 20) - smoothingFactor))%Q)
      by (apply Qmult_le_0_compat; lra).
    assert (H4 : (0 <= (100 - rawScore) * total)%Q) by (apply Qmult_le_0_compat; lra).
    assert (E2 : (rawScore * (1 - smoothingFactor)
                  == rawScore - rawScore * smoothingFactor)%Q) by ring.
    assert (E3 : (rawScore * (total * (1 # 20) - smoothingFactor)
                  == (1 # 20) * (rawScore * total) - rawScore * smoothingFactor)%Q) by ring.
    assert (E4 : ((100 - rawScore) * total == 100 * total - rawScore * total)%Q) by ring.
    rewrite E2 in H2. rewrite E3 in H3. rewrite E4 in H4. clear E2 E3 E4.
    set (p := (rawScore * smoothingFactor)%Q) in *. set (q := (rawScore * total)%Q) in *.
    clearbody p q. split_and!; lra. }
  destruct Hprod as (Hp0 & Hp100 & Hp5).
  refine (conj _ (conj _ (conj _ Hcov))); [| | intros ?; lia].
  - apply Math_round_range; [exact Hp0 | exact Hp100].
  - apply (Math_round_range _ 0); [exact Hp0|].
    rewrite inject_Z_mult. exact Hp5.
Qed.

Definition busy_stats : GameStats := mkGameStats 12 240 600 3 0 0.

Lemma calculateScore_between_0_and_100_witness :
  (0 <= StatsCalculator.calculateScore busy_stats
          [mkZone 2 2 4 4 RESIDENTIAL; mkZone 30 30 2 2 COMMERCIAL]
          [mkRoute [mkStop 4 5; mkStop 12 5] [GameEngine.first_bus] 0] <= 100)%Z /\
  (StatsCalculator.calculateScore busy_stats
     [mkZone 2 2 4 4 RESIDENTIAL; mkZone 30 30 2 2 COMMERCIAL]
     [mkRoute [mkStop 4 5; mkStop 12 5] [GameEngine.first_bus] 0]
   <= 5 * Z.of_nat (tripsCompleted busy_stats + npcsGaveUp busy_stats))%Z /\
  (tripsCompleted busy_stats + npcsGaveUp busy_stats = 0 ->
   StatsCalculator.calculateScore busy_stats
     [mkZone 2 2 4 4 RESIDENTIAL; mkZone 30 30 2 2 COMMERCIAL]
     [mkRoute [mkStop 4 5; mkStop 12 5] [GameEngine.first_bus] 0] = 0%Z) /\
  (0 <= StatsCalculator.calculateCoverage
          [mkZone 2 2 4 4 RESIDENTIAL; mkZone 30 30 2 2 COMMERCIAL]
          [mkRoute [mkStop 4 5; mkStop 12 5] [GameEngine.first_bus] 0] <= 1)%Q.
Proof.
  apply (calculateScore_between_0_and_100 busy_stats); vm_compute; discriminate.
Defined.
